(** * sigfig.js: significant-figure arithmetic and formatting

    A shallow embedding of [src/sigfig.ts], [src/formatting.ts] and
    [src/arithmetic.ts], together with the parts of the JavaScript
    runtime and of the big.js decimal library that those files call.

    Modelling conventions.
    - JavaScript strings are lists of characters ([str]); only the
      ASCII/Latin-1 range is represented.
    - A thrown exception is the [Throw] case of the [res] monad and
      carries the constructor name and the message of the source.
    - big.js values are records [{s; e; c}] exactly as in the library:
      sign, exponent of the first digit, and the digit array.
    - A finite JavaScript number is idealised as the exact decimal that
      it prints as; [NaN] and the infinities are separate constructors.
      Binary rounding of doubles is therefore not represented.
    - The exponent of a big.js value is an integer here.  The library
      keeps it in a JavaScript number, and reads and prints it as one:
      the results on values are stated for exponents within
      [MAX_EXPONENT], where the two agree (see [exponent_ok]). *)

From Stdlib Require Import List Ascii ZArith Lia Bool Arith.
Import ListNotations.

Set Implicit Arguments.

(** ** Strings *)

Abbreviation str := (list ascii).

Declare Scope str_scope.
Delimit Scope str_scope with str.

Definition str_of_bytes (l : list Byte.byte) : str := map ascii_of_byte l.
Definition bytes_of_str (l : str) : list Byte.byte := map byte_of_ascii l.

String Notation str str_of_bytes bytes_of_str : str_scope.

Open Scope str_scope.
Open Scope Z_scope.

Definition str_eqb (a b : str) : bool :=
  if list_eq_dec ascii_dec a b then true else false.

Definition chr_eqb (a b : ascii) : bool := Ascii.eqb a b.

(** [\d] *)
Definition is_digit (a : ascii) : bool :=
  ((48 <=? nat_of_ascii a) && (nat_of_ascii a <=? 57))%nat.

(** [+x] for a one-character digit string. *)
Definition digit_val (a : ascii) : nat := (nat_of_ascii a - 48)%nat.

(** [String(d)] for a digit [0 <= d <= 9]. *)
Definition digit_char (d : nat) : ascii := ascii_of_nat (48 + d).

(** [[eE]] *)
Definition is_e (a : ascii) : bool := chr_eqb a "e" || chr_eqb a "E".

(** [[+-]] *)
Definition is_sign (a : ascii) : bool := chr_eqb a "+" || chr_eqb a "-".

(** White space removed by [String.prototype.trim] and skipped by
    [parseFloat] (the Latin-1 part of it). *)
Definition is_space (a : ascii) : bool :=
  let n := nat_of_ascii a in
  ((n =? 9) || (n =? 10) || (n =? 11) || (n =? 12) || (n =? 13) || (n =? 32)
   || (n =? 160))%nat.

Fixpoint drop_while (p : ascii -> bool) (s : str) : str :=
  match s with
  | [] => []
  | a :: r => if p a then drop_while p r else s
  end.

Fixpoint take_while (p : ascii -> bool) (s : str) : str :=
  match s with
  | [] => []
  | a :: r => if p a then a :: take_while p r else []
  end.

Definition drop_while_end (p : ascii -> bool) (s : str) : str :=
  rev (drop_while p (rev s)).

(** [s.trim()] *)
Definition trim (s : str) : str := drop_while_end is_space (drop_while is_space s).

(** [s.indexOf(ch)], [-1] when absent. *)
Fixpoint indexOf (ch : ascii) (s : str) : Z :=
  match s with
  | [] => -1
  | a :: r => if chr_eqb a ch then 0
              else let i := indexOf ch r in if i <? 0 then -1 else i + 1
  end.

(** [s.search(/e/i)] *)
Fixpoint search_e (s : str) : Z :=
  match s with
  | [] => -1
  | a :: r => if is_e a then 0
              else let i := search_e r in if i <? 0 then -1 else i + 1
  end.

(** [s.includes(ch)] *)
Definition includes (ch : ascii) (s : str) : bool := existsb (fun a => chr_eqb a ch) s.

(** [s.replace(ch, "")]: removes the first occurrence only. *)
Fixpoint remove_first (ch : ascii) (s : str) : str :=
  match s with
  | [] => []
  | a :: r => if chr_eqb a ch then r else a :: remove_first ch r
  end.

(** [s.split(ch)] *)
Fixpoint split (ch : ascii) (s : str) : list str :=
  match s with
  | [] => [[]]
  | a :: r =>
      if chr_eqb a ch then [] :: split ch r
      else match split ch r with
           | [] => [[a]]
           | p :: ps => (a :: p) :: ps
           end
  end.

(** [s.slice(i)] and [s.substring(0, i)] for [0 <= i]. *)
Definition slice_from (i : Z) (s : str) : str := skipn (Z.to_nat i) s.
Definition substring_to (i : Z) (s : str) : str := firstn (Z.to_nat i) s.

(** [s.replace(/^[+-]/, "")] *)
Definition strip_sign (s : str) : str :=
  match s with
  | a :: r => if is_sign a then r else s
  | [] => []
  end.

Definition is_zero_char (a : ascii) : bool := chr_eqb a "0".

(** [s.replace(/^0+/, "")] and [s.replace(/0+$/, "")] *)
Definition strip_leading_zeros (s : str) : str := drop_while is_zero_char s.
Definition strip_trailing_zeros (s : str) : str := drop_while_end is_zero_char s.

Definition all_digits (s : str) : bool := forallb is_digit s.

(** [\d+] *)
Definition digits1 (s : str) : bool :=
  match s with [] => false | _ => all_digits s end.

(** [[+-]?\d+] *)
Definition signed_digits1 (s : str) : bool := digits1 (strip_sign s).

(** Cuts a string at its first [e] or [E]. *)
Fixpoint cut_e (s : str) : str * option str :=
  match s with
  | [] => ([], None)
  | a :: r => if is_e a then ([], Some r)
              else let '(m, x) := cut_e r in (a :: m, x)
  end.

(** ** Decimal digits and integers *)

(** Horner evaluation of a most-significant-first digit list. *)
Definition Z_of_digits (l : list nat) : Z :=
  fold_left (fun acc d => 10 * acc + Z.of_nat d) l 0.

Fixpoint digits_rev (fuel : nat) (n : Z) : list nat :=
  match fuel with
  | O => []
  | S f => if n <? 10 then [Z.to_nat n]
           else Z.to_nat (n mod 10) :: digits_rev f (n / 10)
  end.

(** The decimal digits of [n >= 0], most significant first; [[0]] for zero. *)
Definition digits_of_Z (n : Z) : list nat :=
  rev (digits_rev (S (Z.to_nat (Z.log2 n))) n).

(** [String(n)] for an integer [n]. *)
Definition str_of_Z (n : Z) : str :=
  if n <? 0 then "-"%char :: map digit_char (digits_of_Z (- n))
  else map digit_char (digits_of_Z n).

(** [+s] and [parseInt(s, 10)] for [s] matching [[+-]?\d+]. *)
Definition Z_of_str (s : str) : Z :=
  match s with
  | a :: r =>
      if chr_eqb a "-" then - Z_of_digits (map digit_val r)
      else if chr_eqb a "+" then Z_of_digits (map digit_val r)
      else Z_of_digits (map digit_val s)
  | [] => 0
  end.

(** ** Exceptions *)

Inductive exn : Type :=
| Error (msg : str)
| RangeError (msg : str).

Inductive res (A : Type) : Type :=
| Ok (a : A)
| Throw (err : exn).
Arguments Ok {A} a.
Arguments Throw {A} err.

Definition bind {A B} (m : res A) (k : A -> res B) : res B :=
  match m with
  | Ok a => k a
  | Throw err => Throw err
  end.

Notation "'let*' x ':=' m 'in' k" := (bind m (fun x => k))
  (at level 10, x pattern, m at level 100, k at level 200).

(** [try { m } catch { k }] *)
Definition try_catch {A} (m : res A) (k : exn -> res A) : res A :=
  match m with
  | Ok a => Ok a
  | Throw err => k err
  end.

(** [error.message] *)
Definition message (err : exn) : str :=
  match err with Error m => m | RangeError m => m end.

(** ** big.js: the decimal library

    The library is an external dependency of the repository; the
    definitions below follow its source (version 6/7) with the default
    configuration [DP = 20], [RM = 1] (round half up), [NE = -7],
    [PE = 21], non-strict mode. *)

Module Big.

Definition DP : Z := 20.
Definition MAX_DP : Z := 1000000.
Definition MAX_POWER : Z := 1000000.
Definition NE : Z := -7.
Definition PE : Z := 21.

Definition INVALID_NUMBER : exn := Error "[big.js] Invalid number".
Definition INVALID_DP : exn := Error "[big.js] Invalid decimal places".
Definition INVALID_PRECISION : exn := Error "[big.js] Invalid precision".
Definition INVALID_EXPONENT : exn := Error "[big.js] Invalid exponent".
Definition DIV_BY_ZERO : exn := Error "[big.js] Division by zero".

(** [x.s] is [1] or [-1], [x.e] the decimal exponent of the first digit
    and [x.c] the digits: the value is [s * c[0].c[1]c[2]... * 10^e]. *)
Record t : Type := mk { s : Z; e : Z; c : list nat }.

Definition is_nil {A} (l : list A) : bool :=
  match l with [] => true | _ => false end.

(** The pattern [NUMERIC]: an optional [-]; then either digits, optionally
    followed by a point and further digits, or a point and digits; then
    an optional exponent [e] or [E] with optional sign and digits. *)
Definition NUMERIC (n : str) : bool :=
  let n := match n with a :: r => if chr_eqb a "-" then r else n | [] => n end in
  let '(m, x) := cut_e n in
  let ip := take_while is_digit m in
  (match drop_while is_digit m with
   | [] => negb (is_nil ip)
   | a :: fp => chr_eqb a "." && all_digits fp && (negb (is_nil ip) || negb (is_nil fp))
   end)
  && (match x with None => true | Some ex => signed_digits1 ex end).

Definition is_zero_digit (d : nat) : bool := (d =? 0)%nat.

Fixpoint strip_zeros_front (l : list nat) : list nat :=
  match l with
  | [] => []
  | d :: r => if is_zero_digit d then strip_zeros_front r else l
  end.

Definition strip_zeros_back (l : list nat) : list nat :=
  rev (strip_zeros_front (rev l)).

(** [parse(x, n)] *)
Definition parse (n : str) : res t :=
  if negb (NUMERIC n) then Throw INVALID_NUMBER else
  let '(sg, n) :=
    match n with
    | a :: r => if chr_eqb a "-" then (-1, r) else (1, n)
    | [] => (1, n)
    end in
  let e := indexOf "." n in
  let n := if e >? -1 then remove_first "." n else n in
  let i := search_e n in
  let '(e, n) :=
    if i >? 0 then
      let e := if e <? 0 then i else e in
      (e + Z_of_str (slice_from (i + 1) n), substring_to i n)
    else if e <? 0 then (Z.of_nat (length n), n)
    else (e, n) in
  let nl := Z.of_nat (length n) in
  let i := Z.of_nat (length (take_while is_zero_char n)) in
  if i =? nl then Ok (mk sg 0 [0%nat])
  else Ok (mk sg (e - i - 1)
              (map digit_val (strip_trailing_zeros (strip_leading_zeros n)))).

(** The carry loop of [round]: adds one to the last digit; the flag
    tells that the carry left the first digit. *)
Fixpoint incr (xc : list nat) : bool * list nat :=
  match xc with
  | [] => (true, [])
  | d :: r =>
      let '(carry, r') := incr r in
      if carry then
        if (9 <? d + 1)%nat then (true, 0%nat :: r') else (false, (d + 1)%nat :: r')
      else (false, d :: r')
  end.

(** [xc[i] >= 5], false when [xc[i]] is undefined. *)
Definition ge5 (xc : list nat) (i : Z) : bool :=
  match nth_error xc (Z.to_nat i) with
  | Some d => (5 <=? d)%nat
  | None => false
  end.

(** [round(x, sd, rm)] at [rm = 1]. *)
Definition round (x : t) (sd : Z) : t :=
  let xc := c x in
  if sd <? 1 then
    let more := (sd =? 0) && ge5 xc 0 in
    if more then mk (s x) (e x - sd + 1) [1%nat]
    else mk (s x) 0 [0%nat]
  else if sd <? Z.of_nat (length xc) then
    let more := ge5 xc sd in
    let xc := firstn (Z.to_nat sd) xc in
    let '(e', xc) :=
      if more then
        let '(carry, xc') := incr xc in
        if carry then (e x + 1, 1%nat :: xc') else (e x, xc')
      else (e x, xc) in
    mk (s x) e' (strip_zeros_back xc)
  else x.

(** [for (; x.c.length < n;) x.c.push(0)] *)
Definition pad (x : t) (n : Z) : t :=
  mk (s x) (e x) (c x ++ repeat 0%nat (Z.to_nat n - length (c x))).

(** [!!x.c[0]] *)
Definition nonzero (x : t) : bool :=
  match c x with
  | d :: _ => negb (is_zero_digit d)
  | [] => false
  end.

(** [stringify(x, doExponential, isNonzero)] *)
Definition stringify (x : t) (doExponential isNonzero : bool) : str :=
  let e := e x in
  let s0 := map digit_char (c x) in
  let n := Z.of_nat (length s0) in
  let s1 :=
    if doExponential then
      firstn 1 s0 ++ (if 1 <? n then "." ++ skipn 1 s0 else "")
        ++ (if e <? 0 then "e" else "e+") ++ str_of_Z e
    else if e <? 0 then
      "0." ++ repeat "0"%char (Z.to_nat (- e - 1)) ++ s0
    else if e >? 0 then
      let e := e + 1 in
      if e >? n then s0 ++ repeat "0"%char (Z.to_nat (e - n))
      else if e <? n then firstn (Z.to_nat e) s0 ++ "." ++ skipn (Z.to_nat e) s0
      else s0
    else if 1 <? n then firstn 1 s0 ++ "." ++ skipn 1 s0
    else s0 in
  if (s x <? 0) && isNonzero then "-" ++ s1 else s1.

(** [x.toString()] *)
Definition toString (x : t) : str :=
  stringify x ((e x <=? NE) || (e x >=? PE)) (nonzero x).

(** [x.toPrecision(sd)] for an integer [sd]. *)
Definition toPrecision (x : t) (sd : Z) : res str :=
  if (sd <? 1) || (sd >? MAX_DP) then Throw INVALID_PRECISION else
  let n := nonzero x in
  let x := pad (round x sd) sd in
  Ok (stringify x ((sd <=? e x) || (e x <=? NE) || (e x >=? PE)) n).

(** [x.toFixed(dp)] for an integer [dp]. *)
Definition toFixed (x : t) (dp : Z) : res str :=
  if (dp <? 0) || (dp >? MAX_DP) then Throw INVALID_DP else
  let n := nonzero x in
  let x := round x (dp + e x + 1) in
  let x := pad x (dp + e x + 1) in
  Ok (stringify x false n).

(** [x.toExponential(dp)] for an integer [dp]. *)
Definition toExponential (x : t) (dp : Z) : res str :=
  if (dp <? 0) || (dp >? MAX_DP) then Throw INVALID_DP else
  let n := nonzero x in
  let x := pad (round x (dp + 1)) (dp + 1) in
  Ok (stringify x true n).

(** *** Arithmetic

    Sums, differences and products are exact; they are computed here on
    the integer mantissa [s * c] and the exponent of the last digit.  The
    sign that big.js gives to a zero result is not observable through
    [stringify] and is taken to be [1]. *)

Definition mant (x : t) : Z := s x * Z_of_digits (c x).
Definition qexp (x : t) : Z := e x - (Z.of_nat (length (c x)) - 1).

(** The value [m * 10^q] in normal form. *)
Definition of_Zq (m q : Z) : t :=
  if m =? 0 then mk 1 0 [0%nat]
  else
    let ds := digits_of_Z (Z.abs m) in
    mk (if m <? 0 then -1 else 1) (q + Z.of_nat (length ds) - 1) (strip_zeros_back ds).

(** [x.cmp(y)] *)
Fixpoint cmp_digits (isneg : bool) (xc yc : list nat) : Z :=
  match xc, yc with
  | a :: xr, b :: yr =>
      if (a =? b)%nat then cmp_digits isneg xr yr
      else if xorb (b <? a)%nat isneg then 1 else -1
  | [], [] => 0
  | _ :: _, [] => if xorb true isneg then 1 else -1
  | [], _ :: _ => if xorb false isneg then 1 else -1
  end.

Definition cmp (x y : t) : Z :=
  if negb (nonzero x) || negb (nonzero y) then
    if negb (nonzero x) then (if negb (nonzero y) then 0 else - s y) else s x
  else if negb (s x =? s y) then s x
  else
    let isneg := s x <? 0 in
    if negb (e x =? e y) then (if xorb (e x >? e y) isneg then 1 else -1)
    else cmp_digits isneg (c x) (c y).

Definition eq (x y : t) : bool := cmp x y =? 0.
Definition gt (x y : t) : bool := cmp x y >? 0.
Definition lt (x y : t) : bool := cmp x y <? 0.

Definition zero : t := mk 1 0 [0%nat].
Definition one : t := mk 1 0 [1%nat].

(** [x.abs()] *)
Definition abs (x : t) : t := mk 1 (e x) (c x).

(** [x.plus(y)], [x.minus(y)], [x.times(y)] *)
Definition plus (x y : t) : t :=
  let q := Z.min (qexp x) (qexp y) in
  of_Zq (mant x * 10 ^ (qexp x - q) + mant y * 10 ^ (qexp y - q)) q.

Definition minus (x y : t) : t :=
  let q := Z.min (qexp x) (qexp y) in
  of_Zq (mant x * 10 ^ (qexp x - q) - mant y * 10 ^ (qexp y - q)) q.

Definition times (x y : t) : t := of_Zq (mant x * mant y) (qexp x + qexp y).

(** [x.div(y)]: the quotient rounded half up to [DP] decimal places. *)
Definition div (x y : t) : res t :=
  if negb (nonzero y) then Throw DIV_BY_ZERO
  else if negb (nonzero x) then Ok zero
  else
    let k := DP + qexp x - qexp y in
    let n := Z.abs (mant x) * 10 ^ (Z.max k 0) in
    let d := Z.abs (mant y) * 10 ^ (Z.max (- k) 0) in
    let q := (2 * n + d) / (2 * d) in
    Ok (of_Zq (s x * s y * q) (- DP)).

(** [x.mod(y)]: the remainder has the sign of the dividend. *)
Definition mod_ (x y : t) : res t :=
  if negb (nonzero y) then Throw DIV_BY_ZERO
  else
    let q := Z.min (qexp x) (qexp y) in
    Ok (of_Zq (Z.rem (mant x * 10 ^ (qexp x - q)) (mant y * 10 ^ (qexp y - q))) q).

(** [x.pow(n)] for an integer [n]. *)
Definition pow (x : t) (n : Z) : res t :=
  if (n <? - MAX_POWER) || (n >? MAX_POWER) then Throw INVALID_EXPONENT
  else
    let y := of_Zq (mant x ^ Z.abs n) (qexp x * Z.abs n) in
    if n <? 0 then div one y else Ok y.

End Big.

(** ** JavaScript numbers and values *)

(** A finite number [Fin m q] stands for [m * 10^q]. *)
Inductive number : Type :=
| NaN
| Inf (neg : bool)
| Fin (m q : Z).

Module Num.

Definition of_Z (z : Z) : number := Fin z 0.

(** The digits [s], their count [k] and the position [n] of the decimal
    point used by [Number::toString], as a big.js style record with
    [e = n - 1]. *)
Definition decimal (m q : Z) : Big.t := Big.of_Zq m q.

(** [Number::toString(x)] in radix 10. *)
Definition to_string (x : number) : str :=
  match x with
  | NaN => "NaN"
  | Inf neg => if neg then "-Infinity" else "Infinity"
  | Fin m q =>
      if m =? 0 then "0" else
      let d := decimal m q in
      let ds := map digit_char (Big.c d) in
      let k := Z.of_nat (length ds) in
      let n := Big.e d + 1 in
      let body :=
        if (k <=? n) && (n <=? 21) then ds ++ repeat "0"%char (Z.to_nat (n - k))
        else if (0 <? n) && (n <=? 21) then
          firstn (Z.to_nat n) ds ++ "." ++ skipn (Z.to_nat n) ds
        else if (-6 <? n) && (n <=? 0) then
          "0." ++ repeat "0"%char (Z.to_nat (- n)) ++ ds
        else
          firstn 1 ds ++ (if k =? 1 then "" else "." ++ skipn 1 ds)
            ++ "e" ++ (if n - 1 <? 0 then "-" else "+") ++ str_of_Z (Z.abs (n - 1)) in
      if m <? 0 then "-" ++ body else body
  end.

Definition starts_with (p s : str) : bool := str_eqb (firstn (length p) s) p.

(** [parseFloat(s)]: the longest prefix of the trimmed string that is a
    decimal literal. *)
Definition parseFloat (s : str) : number :=
  let s := drop_while is_space s in
  let '(neg, s) :=
    match s with
    | a :: r => if chr_eqb a "-" then (true, r)
                else if chr_eqb a "+" then (false, r) else (false, s)
    | [] => (false, s)
    end in
  if starts_with "Infinity" s then Inf neg else
  let ip := take_while is_digit s in
  let r1 := drop_while is_digit s in
  let '(fp, r2) :=
    match r1 with
    | a :: r => if chr_eqb a "." then (take_while is_digit r, drop_while is_digit r)
                else ([], r1)
    | [] => ([], r1)
    end in
  if Big.is_nil ip && Big.is_nil fp then NaN else
  let ex :=
    match r2 with
    | a :: r =>
        if is_e a then
          let ed := take_while is_digit (strip_sign r) in
          if Big.is_nil ed then 0
          else Z_of_str (firstn (length r - length (strip_sign r)) r ++ ed)
        else 0
    | [] => 0
    end in
  let m := Z_of_digits (map digit_val (ip ++ fp)) in
  Fin (if neg then - m else m) (ex - Z.of_nat (length fp)).

Definition isNaN (x : number) : bool :=
  match x with NaN => true | _ => false end.

(** [x === 0] *)
Definition is_zero (x : number) : bool :=
  match x with Fin m _ => m =? 0 | _ => false end.

(** [x < 0] *)
Definition is_neg (x : number) : bool :=
  match x with Fin m _ => m <? 0 | Inf neg => neg | NaN => false end.

(** Truthiness of a number: false for [0] and [NaN]. *)
Definition truthy (x : number) : bool :=
  match x with NaN => false | Inf _ => true | Fin m _ => negb (m =? 0) end.

(** The integer denoted by [x] when [Number.isInteger(x)]. *)
Definition to_int (x : number) : option Z :=
  match x with
  | Fin m q =>
      if 0 <=? q then Some (m * 10 ^ q)
      else if m mod 10 ^ (- q) =? 0 then Some (m / 10 ^ (- q))
      else None
  | _ => None
  end.

Definition isInteger (x : number) : bool :=
  match to_int x with Some _ => true | None => false end.

(** [Math.abs(x)] *)
Definition abs (x : number) : number :=
  match x with
  | NaN => NaN
  | Inf _ => Inf false
  | Fin m q => Fin (Z.abs m) q
  end.

(** [Math.floor(x)] *)
Definition floor (x : number) : number :=
  match x with
  | Fin m q => if 0 <=? q then Fin m q else Fin (m / 10 ^ (- q)) 0
  | _ => x
  end.

(** [x - 1] *)
Definition pred (x : number) : number :=
  match x with
  | Fin m q => if 0 <=? q then Fin (m * 10 ^ q - 1) 0 else Fin (m - 10 ^ (- q)) q
  | _ => x
  end.

(** [Math.floor(Math.log10(x))] for [x > 0]: the decimal exponent of the
    leading digit.  (The logarithm itself is not a decimal.) *)
Definition floor_log10 (x : number) : number :=
  match x with
  | NaN => NaN
  | Inf neg => if neg then NaN else Inf false
  | Fin m q =>
      if m <? 0 then NaN
      else if m =? 0 then Inf true
      else Fin (Big.e (decimal m q)) 0
  end.

(** [Math.floor(y / 3) * 3] for an integer-valued [y]. *)
Definition floor_div3_times3 (y : number) : number :=
  match y with
  | Fin m q => match to_int y with
               | Some z => Fin ((z / 3) * 3) 0
               | None => NaN
               end
  | _ => y
  end.

(** [x / Math.pow(10, k)] *)
Definition div_pow10 (x k : number) : number :=
  match x, k with
  | NaN, _ | _, NaN => NaN
  | Fin m q, Fin _ _ =>
      match to_int k with
      | Some z => Fin m (q - z)
      | None => NaN
      end
  | Fin m q, Inf neg => if m =? 0 then (if neg then NaN else Fin 0 0)
                        else if neg then Inf (m <? 0) else Fin 0 0
  | Inf n1, Inf neg => if neg then Inf n1 else NaN
  | Inf n1, Fin _ _ => Inf n1
  end.

(** [x >= 0] *)
Definition ge0 (x : number) : bool :=
  match x with Fin m _ => 0 <=? m | Inf neg => negb neg | NaN => false end.

(** [x.toPrecision(p)] for an integer [p]: [x] rounded half up to [p]
    significant digits. *)
Definition toPrecision (x : number) (p : Z) : res str :=
  match x with
  | NaN | Inf _ => Ok (to_string x)
  | Fin m q =>
      if (p <? 1) || (p >? 100) then
        Throw (RangeError "toPrecision() argument must be between 1 and 100")
      else
        let sg := if m <? 0 then "-" else "" in
        let d := Big.pad (Big.round (decimal (Z.abs m) q) p) p in
        let ms := map digit_char (Big.c d) in
        let e := Big.e d in
        if (e <? -6) || (e >=? p) then
          Ok (sg ++ firstn 1 ms ++ (if p =? 1 then "" else "." ++ skipn 1 ms)
                ++ "e" ++ (if e <? 0 then "-" else "+") ++ str_of_Z (Z.abs e))
        else if e =? p - 1 then Ok (sg ++ ms)
        else if 0 <=? e then
          Ok (sg ++ firstn (Z.to_nat (e + 1)) ms ++ "." ++ skipn (Z.to_nat (e + 1)) ms)
        else Ok (sg ++ "0." ++ repeat "0"%char (Z.to_nat (- (e + 1))) ++ ms)
  end.

(** [s.repeat(count)] *)
Definition repeat_str (s : str) (count : number) : res str :=
  match count with
  | NaN => Ok ""
  | Inf _ => Throw (RangeError "Invalid count value: Infinity")
  | Fin m q =>
      let n := if 0 <=? q then m * 10 ^ q else Z.quot m (10 ^ (- q)) in
      if n <? 0 then Throw (RangeError ("Invalid count value: " ++ to_string count))
      else Ok (concat (repeat s (Z.to_nat n)))
  end.

End Num.

(** A value of the union type [number | string]. *)
Inductive value : Type :=
| VStr (s : str)
| VNum (x : number).

(** [String(v)] *)
Definition String_ (v : value) : str :=
  match v with
  | VStr s => s
  | VNum x => Num.to_string x
  end.

(** [new Big(v)]: a value that is not a string is converted with
    [String] first. *)
Definition new_Big (v : value) : res Big.t := Big.parse (String_ v).

(** [x.toNumber()] *)
Definition toNumber (x : Big.t) : number :=
  if Big.nonzero x then Fin (Big.mant x) (Big.qexp x) else Fin 0 0.

(** A numeric literal of the examples, read as JavaScript reads it. *)
Definition lit (s : str) : value := VNum (Num.parseFloat s).

(** ** src/sigfig.ts *)

Definition ERR_SIGFIGS : exn :=
  Error "Number of significant figures must be a positive integer".

(** [validateSigfigs(sigfigs)]; on success the validated count is handed
    back as an integer, which is how the callers go on to use it. *)
Definition validateSigfigs (sigfigs : number) : res Z :=
  match Num.to_int sigfigs with
  | None => Throw ERR_SIGFIGS
  | Some n => if n <=? 0 then Throw ERR_SIGFIGS else Ok n
  end.

(** [str.match(...)] in [sigfigOf]: an optional sign, a coefficient made
    of digits with an optional point and ending in a digit, [e] or [E],
    and a signed exponent.  The result is the coefficient (group 2). *)
Definition scientificMatch (s : str) : option str :=
  match cut_e s with
  | (m, Some x) =>
      let coefficient := strip_sign m in
      let ip := take_while is_digit coefficient in
      let ok :=
        match drop_while is_digit coefficient with
        | [] => negb (Big.is_nil ip)
        | a :: fp => chr_eqb a "." && digits1 fp
        end in
      if ok && signed_digits1 x then Some coefficient else None
  | (_, None) => None
  end.

(** [a || b] on strings *)
Definition or_str (a b : str) : str := if Big.is_nil a then b else a.

(** [parts[i] || ""] *)
Definition part (parts : list str) (i : nat) : str := nth i parts "".

(** The body of [sigfigOf] on the string [str]; [fuel] bounds the depth
    of the recursive call on the coefficient. *)
Fixpoint sigfigOf_str (fuel : nat) (str : str) : Z :=
  if Big.is_nil str || str_eqb str "0" then 1 else
  match scientificMatch str, fuel with
  | Some coefficient, S fuel' => sigfigOf_str fuel' coefficient
  | Some _, O => 1
  | None, _ =>
      let str := strip_sign str in
      if includes "." str then
        let parts := split "." str in
        let integerPart := part parts 0 in
        let decimalPart := part parts 1 in
        let cleanIntegerPart := or_str (strip_leading_zeros integerPart) "0" in
        if str_eqb cleanIntegerPart "0" then
          let cleanDecimalPart := strip_leading_zeros decimalPart in
          if Big.is_nil cleanDecimalPart then 1
          else Z.of_nat (length cleanDecimalPart)
        else Z.of_nat (length cleanIntegerPart) + Z.of_nat (length decimalPart)
      else
        let str := strip_leading_zeros str in
        if Big.is_nil str then 1
        else Z.of_nat (length (strip_trailing_zeros str))
  end.

(** [sigfigOf(value)] *)
Definition sigfigOf (v : value) : Z :=
  let str := match v with VStr s => trim s | VNum _ => String_ v end in
  sigfigOf_str (length str) str.

(** [toSigfig(value, sigfigs)] *)
Definition toSigfig (v : value) (sigfigs : number) : res str :=
  let* n := validateSigfigs sigfigs in
  let* bigNum := new_Big v in
  if Big.eq bigNum Big.zero then Ok "0"
  else Big.toPrecision bigNum n.

Definition ERR_VALUE : exn := Error "Invalid input: value must be a valid number".

(** [str.match(...)] in [digitsAfterDecimal]: an optional sign, a
    coefficient of digits with an optional point and optional further
    digits, [e] or [E], and a signed exponent.  The result is the
    coefficient (group 2) and the exponent (group 3). *)
Definition decimalsMatch (s : str) : option (str * str) :=
  match cut_e s with
  | (m, Some x) =>
      let coefficient := strip_sign m in
      let ip := take_while is_digit coefficient in
      let ok :=
        negb (Big.is_nil ip) &&
        match drop_while is_digit coefficient with
        | [] => true
        | a :: fp => chr_eqb a "." && all_digits fp
        end in
      if ok && signed_digits1 x then Some (coefficient, x) else None
  | (_, None) => None
  end.

(** [digitsAfterDecimal(value)] (src/formatting.ts) *)
Definition digitsAfterDecimal (v : value) : res Z :=
  let str := String_ v in
  let num := Num.parseFloat str in
  if Num.isNaN num then Throw ERR_VALUE else
  if includes "e" str || includes "E" str then
    match decimalsMatch str with
    | Some (coefficient, x) =>
        let exponent := Z_of_str x in
        let coeffDecimalIndex := indexOf "." coefficient in
        let coeffDecimalPlaces :=
          if coeffDecimalIndex =? -1 then 0
          else Z.of_nat (length coefficient) - coeffDecimalIndex - 1 in
        let totalDecimalPlaces := coeffDecimalPlaces - exponent in
        Ok (Z.max 0 totalDecimalPlaces)
    | None => Ok 0
    end
  else
    let decimalIndex := indexOf "." str in
    if decimalIndex =? -1 then Ok 0
    else Ok (Z.of_nat (length str) - decimalIndex - 1).

(** The loop of [getDecimalPlacesForAddOrSub]; [None] is the initial
    [Infinity]. *)
Fixpoint decimalPlaces_loop (minDecimalPlaces : option Z) (values : list value)
  : res Z :=
  match values with
  | [] => Ok (match minDecimalPlaces with None => 0 | Some d => d end)
  | v :: rest =>
      let* decimalPlaces := digitsAfterDecimal v in
      if decimalPlaces =? 0 then Ok 0
      else decimalPlaces_loop
             (Some (match minDecimalPlaces with
                    | None => decimalPlaces
                    | Some d => Z.min d decimalPlaces
                    end)) rest
  end.

(** [getDecimalPlacesForAddOrSub(values)] *)
Definition getDecimalPlacesForAddOrSub (values : list value) : res Z :=
  decimalPlaces_loop None values.

(** [Math.min(...l)]; [Infinity] for no argument. *)
Definition Math_min (l : list Z) : number :=
  match l with
  | [] => Inf false
  | a :: r => Num.of_Z (fold_left Z.min r a)
  end.

(** [getSigfigForMulOrDiv(values)] *)
Definition getSigfigForMulOrDiv (values : list value) : number :=
  Math_min (map sigfigOf values).

(** ** src/formatting.ts *)

(** [typeof value === "string" ? parseFloat(value) : value] *)
Definition num_of (v : value) : number :=
  match v with
  | VStr s => Num.parseFloat s
  | VNum x => x
  end.

(** The integer held by a number that is known to be one. *)
Definition int_value (x : number) : Z :=
  match Num.to_int x with Some z => z | None => 0 end.

(** The result for a zero input, shared by [toScientific] and
    [toEngineering]. *)
Definition zero_form (sigfigs : option number) : res str :=
  match sigfigs with
  | Some sf =>
      if Num.truthy sf then
        let* zeros := Num.repeat_str "0" (Num.pred sf) in
        Ok ("0." ++ zeros ++ "e+0")
      else Ok "0e+0"
  | None => Ok "0e+0"
  end.

(** [sigfigs || sigfigOf(value)] *)
Definition actual_sigfigs (sigfigs : option number) (v : value) : number :=
  match sigfigs with
  | Some sf => if Num.truthy sf then sf else Num.of_Z (sigfigOf v)
  | None => Num.of_Z (sigfigOf v)
  end.

(** [if (sigfigs !== undefined) validateSigfigs(sigfigs)] *)
Definition validate_opt (sigfigs : option number) : res unit :=
  match sigfigs with
  | Some sf => let* _ := validateSigfigs sf in Ok tt
  | None => Ok tt
  end.

(** [toScientific(value, sigfigs?)] *)
Definition toScientific (v : value) (sigfigs : option number) : res str :=
  let num := num_of v in
  if Num.isNaN num then Throw ERR_VALUE else
  if Num.is_zero num then zero_form sigfigs else
  let actualSigfigs := actual_sigfigs sigfigs v in
  let* _ := validate_opt sigfigs in
  let* rounded := toSigfig (VNum num) actualSigfigs in
  let* bigNum := new_Big (VStr rounded) in
  Big.toExponential bigNum (int_value actualSigfigs - 1).

(** [toEngineering(value, sigfigs?)] *)
Definition toEngineering (v : value) (sigfigs : option number) : res str :=
  let num := num_of v in
  if Num.isNaN num then Throw ERR_VALUE else
  if Num.is_zero num then zero_form sigfigs else
  let actualSigfigs := actual_sigfigs sigfigs v in
  let* _ := validate_opt sigfigs in
  let sign := if Num.is_neg num then "-" else "" in
  let absNum := Num.abs num in
  let log10 := Num.floor_log10 absNum in
  let engineeringExponent := Num.floor_div3_times3 log10 in
  let coefficient := Num.div_pow10 absNum engineeringExponent in
  let* digits := Num.toPrecision coefficient (int_value actualSigfigs) in
  let formattedCoeff := Num.parseFloat digits in
  Ok (sign ++ Num.to_string formattedCoeff ++ "e"
        ++ (if Num.ge0 engineeringExponent then "+" else "")
        ++ Num.to_string engineeringExponent).

Definition ERR_THRESHOLD : exn :=
  Error "Rounding threshold must be an integer between 0 and 9".

(** [strWithExtraPrecision.match(...)] in [round]: one digit, an optional
    point, further digits, [e] and a signed exponent; the result is the
    concatenation of groups 1 and 2. *)
Definition exponentialDigits (s : str) : option str :=
  match cut_e s with
  | (d :: r, Some x) =>
      let r' := match r with
                | a :: r0 => if chr_eqb a "." then r0 else r
                | [] => r
                end in
      if is_digit d && all_digits r' && signed_digits1 x then Some (d :: r') else None
  | _ => None
  end.

(** [parseInt(digits[i] || "0", 10)] *)
Definition digit_at (digits : str) (i : Z) : Z :=
  match nth_error digits (Z.to_nat i) with
  | Some a => Z.of_nat (digit_val a)
  | None => 0
  end.

(** [round(value, sigfigs, roundingThreshold = 5)] *)
Definition round (v : value) (sigfigs : number) (roundingThreshold : option number)
  : res str :=
  let roundingThreshold :=
    match roundingThreshold with Some t => t | None => Num.of_Z 5 end in
  let* sigfigs := validateSigfigs sigfigs in
  let* bigNum := new_Big v in
  let* threshold :=
    match Num.to_int roundingThreshold with
    | Some t => if (t <? 0) || (t >? 9) then Throw ERR_THRESHOLD else Ok t
    | None => Throw ERR_THRESHOLD
    end in
  if Big.eq bigNum Big.zero then Ok "0" else
  if threshold =? 5 then Big.toPrecision bigNum sigfigs else
  let absNum := Big.abs bigNum in
  let isNegative := Big.s bigNum =? -1 in
  let* strWithExtraPrecision := Big.toPrecision absNum (sigfigs + 10) in
  let digits :=
    match exponentialDigits strWithExtraPrecision with
    | Some ds => ds
    | None => remove_first "." strWithExtraPrecision
    end in
  let checkDigit := digit_at digits sigfigs in
  let magnitude :=
    if Big.eq absNum Big.zero then 0
    else int_value (Num.floor_log10 (toNumber absNum)) in
  let roundPosition := magnitude - sigfigs + 1 in
  let* ten := new_Big (VNum (Num.of_Z 10)) in
  let* scaleFactor := Big.pow ten (- roundPosition) in
  let scaled := Big.times absNum scaleFactor in
  let* truncated := new_Big (VNum (Num.floor (toNumber scaled))) in
  let* result :=
    if checkDigit >=? threshold then Big.div (Big.plus truncated Big.one) scaleFactor
    else Big.div truncated scaleFactor in
  let result := if isNegative then Big.times result (Big.mk (-1) 0 [1%nat]) else result in
  Big.toPrecision result sigfigs.

(** [truncate(value, sigfigs)] *)
Definition truncate (v : value) (sigfigs : number) : res str :=
  let* sigfigs := validateSigfigs sigfigs in
  let* bigNum := new_Big v in
  if Big.eq bigNum Big.zero then Ok "0" else
  let absNum := Big.abs bigNum in
  let isNegative := Big.s bigNum =? -1 in
  let magnitude := int_value (Num.floor_log10 (toNumber absNum)) in
  let truncatePosition := magnitude - sigfigs + 1 in
  let* ten := new_Big (VNum (Num.of_Z 10)) in
  let* scaleFactor := Big.pow ten (- truncatePosition) in
  let scaled := Big.times absNum scaleFactor in
  let* truncated := new_Big (VNum (Num.floor (toNumber scaled))) in
  let* result := Big.div truncated scaleFactor in
  let result := if isNegative then Big.times result (Big.mk (-1) 0 [1%nat]) else result in
  Big.toPrecision result sigfigs.

Definition ERR_PERCENT_ZERO : exn :=
  Error "Division by zero: whole value cannot be zero".
Definition ERR_VALUES : exn :=
  Error "Invalid input: both values must be valid numbers".

(** The third argument of [percentage]: absent, a number, or an object
    with the optional fields [sigfigs] and [appendPercent]. *)
Inductive percentage_options : Type :=
| NoOptions
| SigfigsOption (sigfigs : number)
| ObjectOption (sigfigs : option number) (appendPercent : option bool).

(** [percentage(part, whole, options?)] *)
Definition percentage (part whole : value) (options : percentage_options)
  : res str :=
  try_catch
    (let* bigPart := new_Big part in
     let* bigWhole := new_Big whole in
     if Big.eq bigWhole Big.zero then Throw ERR_PERCENT_ZERO else
     let '(sigfigs, appendPercent) :=
       match options with
       | NoOptions => (None, true)
       | SigfigsOption n => (Some n, true)
       | ObjectOption sf ap =>
           (sf, match ap with Some false => false | _ => true end)
       end in
     let* quotient := Big.div bigPart bigWhole in
     let* hundred := new_Big (VNum (Num.of_Z 100)) in
     let result := Big.times quotient hundred in
     let* formattedResult :=
       match sigfigs with
       | Some sf => toSigfig (VStr (Big.toString result)) sf
       | None =>
           toSigfig (VStr (Big.toString result))
             (Math_min [sigfigOf part; sigfigOf whole])
       end in
     Ok (if appendPercent then formattedResult ++ "%" else formattedResult))
    (fun err =>
       if str_eqb (message err) (message ERR_PERCENT_ZERO) then Throw err
       else Throw ERR_VALUES).

Definition ERR_DIGITS : exn := Error "Digits must be a non-negative integer".

(** [toDigitsAfterDecimal(value, digits)] *)
Definition toDigitsAfterDecimal (v : value) (digits : number) : res str :=
  let num := num_of v in
  if Num.isNaN num then Throw ERR_VALUE else
  match Num.to_int digits with
  | Some d =>
      if d <? 0 then Throw ERR_DIGITS else
      let* bigNum := new_Big (VNum num) in
      Big.toFixed bigNum d
  | None => Throw ERR_DIGITS
  end.

(** ** src/arithmetic.ts *)

Definition ERR_OPERANDS : exn :=
  Error "Invalid input: both operands must be valid numbers".
Definition ERR_DIV_ZERO : exn := Error "Division by zero is not allowed".
Definition ERR_MOD_ZERO : exn :=
  Error "Division by zero: modulo by zero is undefined".
Definition ERR_NOT_ARRAY : exn := Error "Input must be an array".
Definition ERR_NO_VALID : exn := Error "No valid numbers found in array".

(** [catch { throw new Error("Invalid input: ...") }] *)
Definition catch_all {A} (m : res A) : res A :=
  try_catch m (fun _ => Throw ERR_OPERANDS).

(** [catch (error) { if (error.message === msg) throw error; throw new
    Error("Invalid input: ...") }] *)
Definition catch_keep {A} (keep : exn) (m : res A) : res A :=
  try_catch m (fun err =>
    if str_eqb (message err) (message keep) then Throw err else Throw ERR_OPERANDS).

(** [add(a, b, toSigfigParam?)] *)
Definition add (a b : value) (toSigfigParam : option number) : res str :=
  let* _ := validate_opt toSigfigParam in
  catch_all
    (let* bigA := new_Big a in
     let* bigB := new_Big b in
     let result := Big.plus bigA bigB in
     match toSigfigParam with
     | Some sf => toSigfig (VStr (Big.toString result)) sf
     | None =>
         let* decimalPlaces := getDecimalPlacesForAddOrSub [a; b] in
         Big.toFixed result decimalPlaces
     end).

(** [sub(a, b, toSigfigParam?)] *)
Definition sub (a b : value) (toSigfigParam : option number) : res str :=
  let* _ := validate_opt toSigfigParam in
  catch_all
    (let* bigA := new_Big a in
     let* bigB := new_Big b in
     let result := Big.minus bigA bigB in
     match toSigfigParam with
     | Some sf => toSigfig (VStr (Big.toString result)) sf
     | None =>
         let* decimalPlaces := getDecimalPlacesForAddOrSub [a; b] in
         Big.toFixed result decimalPlaces
     end).

(** [mul(a, b, toSigfigParam?)] *)
Definition mul (a b : value) (toSigfigParam : option number) : res str :=
  let* _ := validate_opt toSigfigParam in
  catch_all
    (let* bigA := new_Big a in
     let* bigB := new_Big b in
     let result := Big.times bigA bigB in
     match toSigfigParam with
     | Some sf => toSigfig (VStr (Big.toString result)) sf
     | None => toSigfig (VStr (Big.toString result)) (getSigfigForMulOrDiv [a; b])
     end).

(** [div(a, b, toSigfigParam?)] *)
Definition div (a b : value) (toSigfigParam : option number) : res str :=
  let* _ := validate_opt toSigfigParam in
  catch_keep ERR_DIV_ZERO
    (let* bigA := new_Big a in
     let* bigB := new_Big b in
     if Big.eq bigB Big.zero then Throw ERR_DIV_ZERO else
     let* result := Big.div bigA bigB in
     match toSigfigParam with
     | Some sf => toSigfig (VStr (Big.toString result)) sf
     | None => toSigfig (VStr (Big.toString result)) (getSigfigForMulOrDiv [a; b])
     end).

(** [mod(a, b, toSigfigParam?)] *)
Definition mod_ (a b : value) (toSigfigParam : option number) : res str :=
  let* _ := validate_opt toSigfigParam in
  catch_keep ERR_MOD_ZERO
    (let* bigA := new_Big a in
     let* bigB := new_Big b in
     if Big.eq bigB Big.zero then Throw ERR_MOD_ZERO else
     let* result := Big.mod_ bigA bigB in
     match toSigfigParam with
     | Some sf => toSigfig (VStr (Big.toString result)) sf
     | None => toSigfig (VStr (Big.toString result)) (getSigfigForMulOrDiv [a; b])
     end).

(** [idiv(a, b, toSigfigParam?)] *)
Definition idiv (a b : value) (toSigfigParam : option number) : res str :=
  let* _ := validate_opt toSigfigParam in
  catch_keep ERR_DIV_ZERO
    (let* bigA := new_Big a in
     let* bigB := new_Big b in
     if Big.eq bigB Big.zero then Throw ERR_DIV_ZERO else
     let* divResult := Big.div bigA bigB in
     let result := Num.floor (Num.parseFloat (Big.toString divResult)) in
     match toSigfigParam with
     | Some sf => toSigfig (VNum result) sf
     | None => toSigfig (VNum result) (getSigfigForMulOrDiv [a; b])
     end).

(** An array element as an untyped caller can pass it. *)
Inductive element : Type :=
| Val (v : value)
| Null
| Undefined.

(** The first argument of [max] and [min] as received at run time. *)
Inductive arg : Type :=
| Arr (values : list element)
| NotArr.

(** [{ original, big }] *)
Record pair : Type := mkPair { original : value; big : Big.t }.

(** The filtering loop shared by [max] and [min]. *)
Fixpoint validPairs (values : list element) : list pair :=
  match values with
  | [] => []
  | Null :: rest | Undefined :: rest => validPairs rest
  | Val v :: rest =>
      match new_Big v with
      | Ok bigNum => mkPair v bigNum :: validPairs rest
      | Throw _ => validPairs rest
      end
  end.

(** [sigfigs !== undefined ? sigfigs : Math.min(...validPairs.map(...))] *)
Definition compareSigfigs (sigfigs : option number) (pairs : list pair) : number :=
  match sigfigs with
  | Some sf => sf
  | None => Math_min (map (fun p => sigfigOf (original p)) pairs)
  end.

(** The selection loops of [max] and [min]. *)
Definition select_max (first : Big.t) (rest : list pair) : Big.t :=
  fold_left (fun maxBig p => if Big.gt (big p) maxBig then big p else maxBig) rest first.

Definition select_min (first : Big.t) (rest : list pair) : Big.t :=
  fold_left (fun minBig p => if Big.lt (big p) minBig then big p else minBig) rest first.

(** [max(values, sigfigs?)] *)
Definition max (values : arg) (sigfigs : option number) : res str :=
  let* _ := validate_opt sigfigs in
  match values with
  | NotArr => Throw ERR_NOT_ARRAY
  | Arr values =>
      match validPairs values with
      | [] => Throw ERR_NO_VALID
      | p :: rest =>
          let compareSigfigs := compareSigfigs sigfigs (p :: rest) in
          let maxBig := select_max (big p) rest in
          toSigfig (VStr (Big.toString maxBig)) compareSigfigs
      end
  end.

(** [min(values, sigfigs?)] *)
Definition min (values : arg) (sigfigs : option number) : res str :=
  let* _ := validate_opt sigfigs in
  match values with
  | NotArr => Throw ERR_NOT_ARRAY
  | Arr values =>
      match validPairs values with
      | [] => Throw ERR_NO_VALID
      | p :: rest =>
          let compareSigfigs := compareSigfigs sigfigs (p :: rest) in
          let minBig := select_min (big p) rest in
          toSigfig (VStr (Big.toString minBig)) compareSigfigs
      end
  end.

(** [abs(value, toSigfigParam?)] *)
Definition abs (v : value) (toSigfigParam : option number) : res str :=
  let* _ := validate_opt toSigfigParam in
  try_catch
    (let* bigValue := new_Big v in
     let result := Big.abs bigValue in
     match toSigfigParam with
     | Some sf => toSigfig (VStr (Big.toString result)) sf
     | None => toSigfig (VStr (Big.toString result)) (Num.of_Z (sigfigOf v))
     end)
    (fun _ => Throw ERR_VALUE).

Definition ERR_POW : exn :=
  Error "Power operation resulted in infinite or invalid result".
Definition ERR_POW_OPERANDS : exn :=
  Error "Invalid input: both base and exponent must be valid numbers".
Definition ERR_SQRT_NEGATIVE : exn :=
  Error "Cannot take square root of negative number".

(** [isFinite(x)] *)
Definition isFinite (x : number) : bool :=
  match x with Fin _ _ => true | _ => false end.

(** [pow] and [sqrt] call [Math.pow] on doubles and the square root of
    big.js, an iteration started from a double; neither is represented
    here, and both functions are modelled for an arbitrary result of
    these two calls. *)
Section Runtime.

Variable Math_pow : number -> number -> number.
Variable Big_sqrt : Big.t -> res Big.t.

(** [pow(base, exponent, toSigfigParam?)] *)
Definition pow (base exponent : value) (toSigfigParam : option number) : res str :=
  let* _ := validate_opt toSigfigParam in
  try_catch
    (let* bigBase := new_Big base in
     let* bigExponent := new_Big exponent in
     if Big.eq bigBase Big.zero && Big.lt bigExponent Big.zero then Throw ERR_POW else
     let expNum := Num.parseFloat (Big.toString bigExponent) in
     let* result :=
       match Num.to_int expNum with
       | Some n => Big.pow bigBase n
       | None =>
           let baseNum := Num.parseFloat (Big.toString bigBase) in
           let resultNum := Math_pow baseNum expNum in
           if negb (isFinite resultNum) then Throw ERR_POW
           else new_Big (VNum resultNum)
       end in
     match toSigfigParam with
     | Some sf => toSigfig (VStr (Big.toString result)) sf
     | None =>
         toSigfig (VStr (Big.toString result)) (getSigfigForMulOrDiv [base; exponent])
     end)
    (fun err =>
       if str_eqb (message err) (message ERR_POW) then Throw err
       else Throw ERR_POW_OPERANDS).

(** [sqrt(value, toSigfigParam?)] *)
Definition sqrt (v : value) (toSigfigParam : option number) : res str :=
  let* _ := validate_opt toSigfigParam in
  try_catch
    (let* bigValue := new_Big v in
     if Big.lt bigValue Big.zero then Throw ERR_SQRT_NEGATIVE else
     let* result := Big_sqrt bigValue in
     match toSigfigParam with
     | Some sf => toSigfig (VStr (Big.toString result)) sf
     | None => toSigfig (VStr (Big.toString result)) (Num.of_Z (sigfigOf v))
     end)
    (fun err =>
       if str_eqb (message err) (message ERR_SQRT_NEGATIVE) then Throw err
       else Throw ERR_VALUE).

End Runtime.

(** * Properties *)

(** ** Characters and digit strings *)

Lemma str_eqb_eq a b : str_eqb a b = true <-> a = b.
Proof. unfold str_eqb. destruct (list_eq_dec ascii_dec a b); split; congruence. Qed.

Lemma str_eqb_refl a : str_eqb a a = true.
Proof. apply str_eqb_eq. reflexivity. Qed.

Lemma str_eqb_neq a b : a <> b -> str_eqb a b = false.
Proof. unfold str_eqb. destruct (list_eq_dec ascii_dec a b); congruence. Qed.

(** Case analysis on a digit [d < 10]. *)
Ltac digit_cases d H :=
  do 10 (destruct d as [|d]; [try reflexivity; try discriminate; try lia|]);
  try (exfalso; simpl in H; lia).

Lemma digit_val_char d : (d < 10)%nat -> digit_val (digit_char d) = d.
Proof. intros H. digit_cases d H. Qed.

Lemma is_digit_char d : (d < 10)%nat -> is_digit (digit_char d) = true.
Proof. intros H. digit_cases d H. Qed.

Lemma digit_char_not_dot d : (d < 10)%nat -> chr_eqb (digit_char d) "." = false.
Proof. intros H. digit_cases d H. Qed.

Lemma digit_char_not_e d : (d < 10)%nat -> is_e (digit_char d) = false.
Proof. intros H. digit_cases d H. Qed.

Lemma digit_char_not_sign d : (d < 10)%nat -> is_sign (digit_char d) = false.
Proof. intros H. digit_cases d H. Qed.

Lemma digit_char_not_minus d : (d < 10)%nat -> chr_eqb (digit_char d) "-" = false.
Proof. intros H. digit_cases d H. Qed.

Lemma digit_char_not_plus d : (d < 10)%nat -> chr_eqb (digit_char d) "+" = false.
Proof. intros H. digit_cases d H. Qed.

Lemma digit_char_not_space d : (d < 10)%nat -> is_space (digit_char d) = false.
Proof. intros H. digit_cases d H. Qed.

Lemma digit_char_zero d :
  (d < 10)%nat -> is_zero_char (digit_char d) = Big.is_zero_digit d.
Proof. intros H. digit_cases d H. Qed.

Lemma drop_while_head p s a r : drop_while p s = a :: r -> p a = false.
Proof.
  induction s as [|b s IH]; simpl; [discriminate|].
  destruct (p b) eqn:E; [exact IH|]. intros H. injection H as <- _. exact E.
Qed.

Lemma drop_while_app_stop p s a r :
  p a = false -> drop_while p (s ++ a :: r) = drop_while p s ++ a :: r.
Proof.
  intros Ha. induction s as [|b s IH]; simpl; [now rewrite Ha|].
  destruct (p b); [exact IH|reflexivity].
Qed.

Lemma drop_while_end_cons_keep p a r :
  p a = false -> exists r', drop_while_end p (a :: r) = a :: r'.
Proof.
  intros Ha. unfold drop_while_end. simpl.
  rewrite drop_while_app_stop by exact Ha.
  rewrite rev_app_distr. simpl. eauto.
Qed.

Lemma is_nil_false_length {A} (l : list A) :
  Big.is_nil l = false -> (1 <= length l)%nat.
Proof. destruct l; simpl; [discriminate|lia]. Qed.

(** ** The significant-figure counter never fails *)

Lemma sigfigOf_str_pos fuel s : 1 <= sigfigOf_str fuel s.
Proof.
  revert s. induction fuel as [|fuel IH]; intros s; simpl;
    (destruct (Big.is_nil s || str_eqb s "0"); [lia|]);
    (destruct (scientificMatch s) as [coef|]; [try apply IH; try lia|]).
  all: destruct (includes "." (strip_sign s)).
  all: try (destruct (str_eqb _ "0");
            [destruct (Big.is_nil (strip_leading_zeros _)) eqn:E;
               [lia|apply is_nil_false_length in E; lia]|]).
  all: try (assert (H : (1 <= length (or_str (strip_leading_zeros
               (part (split "." (strip_sign s)) 0)) "0"))%nat)
             by (unfold or_str;
                 destruct (Big.is_nil (strip_leading_zeros _)) eqn:E;
                 [simpl; lia|now apply is_nil_false_length]); lia).
  all: destruct (strip_leading_zeros (strip_sign s)) as [|a r] eqn:E; simpl; try lia.
  all: apply drop_while_head in E;
       destruct (drop_while_end_cons_keep is_zero_char a r E) as [r' Hr'];
       unfold strip_trailing_zeros; rewrite Hr'; simpl length; lia.
Qed.

(** C8 (as the code has it).  [sigfigOf] validates nothing and cannot
    fail: for every input, parseable or not, it returns a count of at
    least one. *)
Theorem sigfigOf_total_positive (v : value) : 1 <= sigfigOf v.
Proof. unfold sigfigOf. apply sigfigOf_str_pos. Qed.

(** C8 (refuted as stated).  The string ["abc"] is rejected by the decimal
    parser, and [sigfigOf] still returns a count for it. *)
Lemma sigfigOf_unparsable_returns :
  new_Big (VStr "abc") = Throw Big.INVALID_NUMBER /\ sigfigOf (VStr "abc") = 3.
Proof. split; reflexivity. Qed.

(** ** Zero inputs of the notation formatters *)

Lemma concat_repeat_single {A} (a : A) n : concat (repeat [a] n) = repeat a n.
Proof. induction n as [|n IH]; simpl; [reflexivity|now rewrite IH]. Qed.

Lemma is_zero_not_NaN x : Num.is_zero x = true -> Num.isNaN x = false.
Proof. destruct x; simpl; congruence. Qed.

Lemma zero_form_positive n :
  1 <= n ->
  zero_form (Some (Num.of_Z n))
  = Ok ("0." ++ repeat "0"%char (Z.to_nat (n - 1)) ++ "e+0").
Proof.
  intros Hn. unfold zero_form, Num.of_Z, Num.truthy.
  replace (n =? 0) with false by (symmetry; apply Z.eqb_neq; lia).
  cbn [negb Num.pred Z.leb Z.compare Num.repeat_str bind].
  replace (10 ^ 0) with 1 by reflexivity. rewrite !Z.mul_1_r.
  replace (n - 1 <? 0) with false by (symmetry; apply Z.ltb_ge; lia).
  now rewrite concat_repeat_single.
Qed.

Lemma zero_form_not_validation sigfigs : zero_form sigfigs <> Throw ERR_SIGFIGS.
Proof.
  unfold zero_form. destruct sigfigs as [sf|]; [|discriminate].
  destruct (Num.truthy sf); [|discriminate].
  unfold Num.repeat_str. destruct (Num.pred sf) as [| |m q]; try discriminate.
  destruct (_ <? 0); discriminate.
Qed.

(** C10.  When the numeric value of the input is zero, [toScientific] and
    [toEngineering] return the zero form before [sigfigs] is validated:
    ["0e+0"] when [sigfigs] is absent or is [0], and ["0."] followed by
    [sigfigs - 1] zeros and ["e+0"] when [sigfigs] is a positive integer;
    [sigfigs = 0] is rejected by the validation, and whatever [sigfigs]
    is, the validation error is not what a zero input produces. *)
Theorem zero_input_precedes_validation (v : value) (n : Z) :
  Num.is_zero (num_of v) = true ->
  1 <= n ->
  toScientific v None = Ok "0e+0" /\
  toEngineering v None = Ok "0e+0" /\
  toScientific v (Some (Num.of_Z 0)) = Ok "0e+0" /\
  toEngineering v (Some (Num.of_Z 0)) = Ok "0e+0" /\
  toScientific v (Some (Num.of_Z n))
  = Ok ("0." ++ repeat "0"%char (Z.to_nat (n - 1)) ++ "e+0") /\
  toEngineering v (Some (Num.of_Z n))
  = Ok ("0." ++ repeat "0"%char (Z.to_nat (n - 1)) ++ "e+0") /\
  validateSigfigs (Num.of_Z 0) = Throw ERR_SIGFIGS /\
  forall sigfigs,
    toScientific v sigfigs <> Throw ERR_SIGFIGS /\
    toEngineering v sigfigs <> Throw ERR_SIGFIGS.
Proof.
  intros Hz Hn. unfold toScientific, toEngineering.
  rewrite (is_zero_not_NaN _ Hz), Hz, (zero_form_positive Hn).
  repeat split; try reflexivity; apply zero_form_not_validation.
Qed.

Lemma zero_input_precedes_validation_witness :
  toScientific (lit "0") (Some (Num.of_Z 0)) = Ok "0e+0" /\
  toEngineering (lit "0") (Some (Num.of_Z 3)) = Ok "0.00e+0".
Proof.
  destruct (@zero_input_precedes_validation (lit "0") 3 eq_refl ltac:(lia))
    as (_ & _ & H1 & _ & _ & H2 & _).
  split; [exact H1|exact H2].
Defined.

(** ** Digits of an integer *)

Definition digits_ok (l : list nat) : Prop := Forall (fun d => (d < 10)%nat) l.

Lemma Z_of_digits_acc l a :
  fold_left (fun acc d => 10 * acc + Z.of_nat d) l a
  = a * 10 ^ Z.of_nat (length l) + Z_of_digits l.
Proof.
  unfold Z_of_digits. revert a. induction l as [|d l IH]; intros a.
  - simpl. lia.
  - cbn [fold_left length]. rewrite IH, (IH (10 * 0 + Z.of_nat d)).
    rewrite Nat2Z.inj_succ, Z.pow_succ_r by lia. unfold Z_of_digits. cbn [fold_left].
    ring.
Qed.

Lemma Z_of_digits_app l1 l2 :
  Z_of_digits (l1 ++ l2)
  = Z_of_digits l1 * 10 ^ Z.of_nat (length l2) + Z_of_digits l2.
Proof.
  unfold Z_of_digits at 1. rewrite fold_left_app.
  fold (Z_of_digits l1). apply Z_of_digits_acc.
Qed.

Lemma Z_of_digits_cons d l :
  Z_of_digits (d :: l) = Z.of_nat d * 10 ^ Z.of_nat (length l) + Z_of_digits l.
Proof.
  change (d :: l) with ([d] ++ l). rewrite Z_of_digits_app.
  unfold Z_of_digits at 1. cbn [fold_left]. lia.
Qed.

Lemma Z_of_digits_snoc l d :
  Z_of_digits (l ++ [d]) = 10 * Z_of_digits l + Z.of_nat d.
Proof.
  rewrite Z_of_digits_app. cbn [length]. change (10 ^ Z.of_nat 1) with 10.
  unfold Z_of_digits at 2. cbn [fold_left]. lia.
Qed.

Lemma Z_of_digits_bounds l :
  digits_ok l -> 0 <= Z_of_digits l < 10 ^ Z.of_nat (length l).
Proof.
  induction l as [|d l IH] using rev_ind; intros H.
  - cbn. lia.
  - apply Forall_app in H as [Hl Hd]. inversion Hd as [|? ? Hd' _]; subst.
    specialize (IH Hl). rewrite Z_of_digits_snoc, length_app. cbn [length].
    rewrite Nat2Z.inj_add, Z.pow_add_r by lia. change (10 ^ Z.of_nat 1) with 10. lia.
Qed.

Lemma Z_of_digits_lower d l :
  digits_ok (d :: l) -> (d <> 0)%nat ->
  10 ^ Z.of_nat (length l) <= Z_of_digits (d :: l).
Proof.
  intros H Hd. inversion H as [|? ? _ Hl]; subst.
  pose proof (Z_of_digits_bounds Hl). rewrite Z_of_digits_cons.
  assert (0 < 10 ^ Z.of_nat (length l)) by (apply Z.pow_pos_nonneg; lia). nia.
Qed.

Lemma digits_rev_spec f n :
  0 <= n < 2 ^ Z.of_nat (S f) ->
  let l := digits_rev (S f) n in
  Z_of_digits (rev l) = n /\ digits_ok (rev l) /\ l <> [] /\
  (0 < n -> last l 0%nat <> 0%nat).
Proof.
  revert n. induction f as [|f IH]; intros n Hn.
  - assert (Hn' : n < 10) by (change (2 ^ Z.of_nat 1) with 2 in Hn; lia).
    cbn [digits_rev]. apply Z.ltb_lt in Hn' as ->. cbn [rev app last].
    unfold Z_of_digits, digits_ok. cbn [fold_left].
    repeat split; [lia| |discriminate|lia].
    constructor; [lia|constructor].
  - cbn zeta. remember (S f) as f1 eqn:Ef.
    cbn [digits_rev]. destruct (n <? 10) eqn:E.
    + apply Z.ltb_lt in E. cbn [rev app last]. unfold Z_of_digits, digits_ok.
      cbn [fold_left]. repeat split; [lia| |discriminate|lia].
      constructor; [lia|constructor].
    + apply Z.ltb_ge in E.
      assert (Hq : 0 <= n / 10 < 2 ^ Z.of_nat f1).
      { rewrite Nat2Z.inj_succ, Z.pow_succ_r in Hn by lia.
        split; [apply Z.div_pos; lia|].
        apply Z.div_lt_upper_bound; lia. }
      subst f1. destruct (IH _ Hq) as (Hv & Hok & Hne & Hlast).
      cbn [rev]. rewrite Z_of_digits_snoc, Hv.
      repeat split.
      * rewrite Z2Nat.id by (apply Z.mod_pos_bound; lia).
        pose proof (Z.div_mod n 10). lia.
      * apply Forall_app. split; [exact Hok|].
        constructor; [|constructor].
        pose proof (Z.mod_pos_bound n 10). lia.
      * discriminate.
      * intros _. destruct (digits_rev (S f) (n / 10)) as [|a r] eqn:El; [congruence|].
        cbn [last]. apply Hlast.
        apply Z.div_str_pos. lia.
Qed.

Lemma log2_fuel n : 0 <= n -> n < 2 ^ Z.of_nat (S (Z.to_nat (Z.log2 n))).
Proof.
  intros Hn. rewrite Nat2Z.inj_succ, Z2Nat.id by apply Z.log2_nonneg.
  destruct (Z.eq_dec n 0) as [->|Hz]; [reflexivity|].
  apply Z.log2_spec. lia.
Qed.

Lemma hd_rev_last {A} (l : list A) d : hd d (rev l) = last l d.
Proof.
  induction l as [|a l IH] using rev_ind; [reflexivity|].
  rewrite rev_app_distr, last_last. reflexivity.
Qed.

Lemma digits_of_Z_value n : 0 <= n -> Z_of_digits (digits_of_Z n) = n.
Proof. intros Hn. apply (digits_rev_spec _ (conj Hn (log2_fuel Hn))). Qed.

Lemma digits_of_Z_ok n : 0 <= n -> digits_ok (digits_of_Z n).
Proof. intros Hn. apply (digits_rev_spec _ (conj Hn (log2_fuel Hn))). Qed.

Lemma digits_of_Z_nonempty n : 0 <= n -> digits_of_Z n <> [].
Proof.
  intros Hn. unfold digits_of_Z.
  destruct (digits_rev_spec _ (conj Hn (log2_fuel Hn))) as (_ & _ & Hne & _).
  intros H. apply Hne. apply (f_equal (@rev nat)) in H.
  now rewrite rev_involutive in H.
Qed.

Lemma digits_of_Z_head n : 0 < n -> hd 0%nat (digits_of_Z n) <> 0%nat.
Proof.
  intros Hn. unfold digits_of_Z. rewrite hd_rev_last.
  assert (H0 : 0 <= n) by lia.
  now apply (digits_rev_spec _ (conj H0 (log2_fuel H0))).
Qed.

(** ** Generic facts on the string helpers *)

Lemma take_while_app_all p l r :
  forallb p l = true -> take_while p (l ++ r) = l ++ take_while p r.
Proof.
  induction l as [|a l IH]; simpl; [reflexivity|].
  intros H. apply andb_prop in H as [-> H]. now rewrite IH.
Qed.

Lemma drop_while_app_all p l r :
  forallb p l = true -> drop_while p (l ++ r) = drop_while p r.
Proof.
  induction l as [|a l IH]; simpl; [reflexivity|].
  intros H. apply andb_prop in H as [-> H]. now apply IH.
Qed.

Lemma take_while_all p l : forallb p l = true -> take_while p l = l.
Proof.
  intros H. rewrite <- (app_nil_r l) at 1.
  rewrite take_while_app_all by exact H. simpl. apply app_nil_r.
Qed.

Lemma drop_while_all p l : forallb p l = true -> drop_while p l = [].
Proof.
  intros H. rewrite <- (app_nil_r l).
  rewrite drop_while_app_all by exact H. reflexivity.
Qed.

Definition lacks (p : ascii -> bool) (l : str) : Prop :=
  forallb (fun a => negb (p a)) l = true.

Lemma lacks_cons p a l : lacks p (a :: l) <-> p a = false /\ lacks p l.
Proof.
  unfold lacks. simpl. rewrite andb_true_iff, negb_true_iff. tauto.
Qed.

Lemma lacks_app p l r : lacks p (l ++ r) <-> lacks p l /\ lacks p r.
Proof. unfold lacks. rewrite forallb_app, andb_true_iff. tauto. Qed.

Lemma indexOf_range ch s : indexOf ch s = -1 \/ 0 <= indexOf ch s < Z.of_nat (length s).
Proof.
  induction s as [|a s IH]; simpl; [now left|].
  destruct (chr_eqb a ch); [right; lia|].
  destruct IH as [->|IH]; [now left|].
  destruct (indexOf ch s <? 0) eqn:E; [apply Z.ltb_lt in E; lia|right; lia].
Qed.

Lemma indexOf_lacks ch s : lacks (fun a => chr_eqb a ch) s -> indexOf ch s = -1.
Proof.
  induction s as [|a s IH]; [reflexivity|].
  intros H. apply lacks_cons in H as [Ha Hs]. simpl. rewrite Ha, (IH Hs). reflexivity.
Qed.

Lemma indexOf_app_lacks ch l r :
  lacks (fun a => chr_eqb a ch) l ->
  indexOf ch (l ++ r)
  = if indexOf ch r <? 0 then -1 else Z.of_nat (length l) + indexOf ch r.
Proof.
  induction l as [|a l IH]; intros H.
  - simpl. destruct (indexOf_range ch r) as [->|Hr]; [reflexivity|].
    destruct (indexOf ch r <? 0) eqn:E; [apply Z.ltb_lt in E; lia|lia].
  - apply lacks_cons in H as [Ha Hl]. cbn [app indexOf length]. rewrite Ha, (IH Hl).
    destruct (indexOf_range ch r) as [->|Hr]; [reflexivity|].
    replace (indexOf ch r <? 0) with false by (symmetry; apply Z.ltb_ge; lia).
    replace (Z.of_nat (length l) + indexOf ch r <? 0) with false
      by (symmetry; apply Z.ltb_ge; lia).
    lia.
Qed.

Lemma indexOf_here ch r : indexOf ch (ch :: r) = 0.
Proof. simpl. unfold chr_eqb. now rewrite Ascii.eqb_refl. Qed.

Lemma remove_first_lacks ch s : lacks (fun a => chr_eqb a ch) s -> remove_first ch s = s.
Proof.
  induction s as [|a s IH]; [reflexivity|].
  intros H. apply lacks_cons in H as [Ha Hs]. simpl. now rewrite Ha, (IH Hs).
Qed.

Lemma remove_first_app_lacks ch l r :
  lacks (fun a => chr_eqb a ch) l -> remove_first ch (l ++ r) = l ++ remove_first ch r.
Proof.
  induction l as [|a l IH]; intros H; [reflexivity|].
  apply lacks_cons in H as [Ha Hl]. cbn [app remove_first]. now rewrite Ha, (IH Hl).
Qed.

Lemma remove_first_here ch r : remove_first ch (ch :: r) = r.
Proof. simpl. unfold chr_eqb. now rewrite Ascii.eqb_refl. Qed.

Lemma search_e_lacks s : lacks is_e s -> search_e s = -1.
Proof.
  induction s as [|a s IH]; [reflexivity|].
  intros H. apply lacks_cons in H as [Ha Hs]. simpl. rewrite Ha, (IH Hs). reflexivity.
Qed.

Lemma search_e_app_lacks l a r :
  lacks is_e l -> is_e a = true -> search_e (l ++ a :: r) = Z.of_nat (length l).
Proof.
  intros Hl Ha. induction l as [|b l IH].
  - simpl. now rewrite Ha.
  - apply lacks_cons in Hl as [Hb Hl]. cbn [app search_e length]. rewrite Hb, (IH Hl).
    replace (Z.of_nat (length l) <? 0) with false by (symmetry; apply Z.ltb_ge; lia).
    lia.
Qed.

Lemma cut_e_lacks s : lacks is_e s -> cut_e s = (s, None).
Proof.
  induction s as [|a s IH]; [reflexivity|].
  intros H. apply lacks_cons in H as [Ha Hs]. simpl. now rewrite Ha, (IH Hs).
Qed.

Lemma cut_e_app_lacks l a r :
  lacks is_e l -> is_e a = true -> cut_e (l ++ a :: r) = (l, Some r).
Proof.
  intros Hl Ha. induction l as [|b l IH].
  - simpl. now rewrite Ha.
  - apply lacks_cons in Hl as [Hb Hl]. cbn [app cut_e]. now rewrite Hb, (IH Hl).
Qed.

Lemma includes_lacks ch s : lacks (fun a => chr_eqb a ch) s -> includes ch s = false.
Proof.
  unfold includes. induction s as [|a s IH]; [reflexivity|].
  intros H. apply lacks_cons in H as [Ha Hs]. simpl. now rewrite Ha, (IH Hs).
Qed.

Lemma includes_app ch l r : includes ch (l ++ r) = includes ch l || includes ch r.
Proof. unfold includes. apply existsb_app. Qed.

(** *** Digit strings *)

(** The characters of a digit list. *)
Definition dstr (ds : list nat) : str := map digit_char ds.

Lemma dstr_forallb (p : ascii -> bool) ds :
  (forall d, (d < 10)%nat -> p (digit_char d) = true) ->
  digits_ok ds -> forallb p (dstr ds) = true.
Proof.
  intros Hp H. induction H as [|d ds Hd _ IH]; [reflexivity|].
  simpl. now rewrite (Hp d Hd), IH.
Qed.

Lemma dstr_all_digits ds : digits_ok ds -> all_digits (dstr ds) = true.
Proof. apply dstr_forallb. exact is_digit_char. Qed.

Lemma dstr_lacks (p : ascii -> bool) ds :
  (forall d, (d < 10)%nat -> p (digit_char d) = false) ->
  digits_ok ds -> lacks p (dstr ds).
Proof.
  intros Hp. apply dstr_forallb. intros d Hd. now rewrite (Hp d Hd).
Qed.

Lemma dstr_lacks_dot ds : digits_ok ds -> lacks (fun a => chr_eqb a ".") (dstr ds).
Proof. apply dstr_lacks. exact digit_char_not_dot. Qed.

Lemma dstr_lacks_e ds : digits_ok ds -> lacks is_e (dstr ds).
Proof. apply dstr_lacks. exact digit_char_not_e. Qed.

Lemma dstr_vals ds : digits_ok ds -> map digit_val (dstr ds) = ds.
Proof.
  intros H. induction H as [|d ds Hd _ IH]; [reflexivity|].
  simpl. now rewrite (digit_val_char Hd), IH.
Qed.

Lemma dstr_app a b : dstr (a ++ b) = dstr a ++ dstr b.
Proof. apply map_app. Qed.

Lemma dstr_length ds : length (dstr ds) = length ds.
Proof. apply length_map. Qed.

Lemma dstr_repeat_zero n : dstr (repeat 0%nat n) = repeat "0"%char n.
Proof. unfold dstr. now rewrite map_repeat. Qed.

Lemma digits_ok_app a b : digits_ok (a ++ b) <-> digits_ok a /\ digits_ok b.
Proof. apply Forall_app. Qed.

Lemma digits_ok_repeat_zero n : digits_ok (repeat 0%nat n).
Proof. apply Forall_forall. intros d Hd. apply repeat_spec in Hd. subst. lia. Qed.

Lemma digits_ok_firstn n ds : digits_ok ds -> digits_ok (firstn n ds).
Proof.
  intros H. rewrite <- (firstn_skipn n ds) in H. now apply digits_ok_app in H.
Qed.

Lemma digits_ok_skipn n ds : digits_ok ds -> digits_ok (skipn n ds).
Proof.
  intros H. rewrite <- (firstn_skipn n ds) in H. now apply digits_ok_app in H.
Qed.

(** ** Reading back what [stringify] prints *)

Lemma strip_front_dstr ds :
  digits_ok ds -> strip_leading_zeros (dstr ds) = dstr (Big.strip_zeros_front ds).
Proof.
  intros H. induction H as [|d ds Hd _ IH]; [reflexivity|].
  unfold strip_leading_zeros in *. cbn [dstr map drop_while Big.strip_zeros_front].
  rewrite (digit_char_zero Hd). destruct (Big.is_zero_digit d); [exact IH|reflexivity].
Qed.

Lemma strip_back_dstr ds :
  digits_ok ds -> strip_trailing_zeros (dstr ds) = dstr (Big.strip_zeros_back ds).
Proof.
  intros H. unfold strip_trailing_zeros, drop_while_end, Big.strip_zeros_back, dstr.
  rewrite <- map_rev. fold (dstr (rev ds)).
  assert (Hr : digits_ok (rev ds)) by (apply Forall_rev; exact H).
  pose proof (strip_front_dstr Hr) as E. unfold strip_leading_zeros in E.
  rewrite E. unfold dstr. now rewrite map_rev.
Qed.

Lemma leading_zeros_dstr ds :
  digits_ok ds ->
  length (take_while is_zero_char (dstr ds))
  = (length ds - length (Big.strip_zeros_front ds))%nat.
Proof.
  intros H. induction H as [|d ds Hd _ IH]; [reflexivity|].
  cbn [dstr map take_while Big.strip_zeros_front]. rewrite (digit_char_zero Hd).
  destruct (Big.is_zero_digit d); cbn [length].
  - fold (dstr ds). rewrite IH.
    assert (length (Big.strip_zeros_front ds) <= length ds)%nat; [|lia].
    clear. induction ds as [|a ds IH]; simpl; [lia|].
    destruct (Big.is_zero_digit a); simpl; lia.
  - lia.
Qed.

Lemma strip_front_length ds : (length (Big.strip_zeros_front ds) <= length ds)%nat.
Proof.
  induction ds as [|a ds IH]; simpl; [lia|].
  destruct (Big.is_zero_digit a); simpl; lia.
Qed.

Lemma strip_front_ok ds : digits_ok ds -> digits_ok (Big.strip_zeros_front ds).
Proof.
  intros H. induction H as [|d ds Hd Hds IH]; simpl; [constructor|].
  destruct (Big.is_zero_digit d); [exact IH|now constructor].
Qed.

Lemma strip_back_ok ds : digits_ok ds -> digits_ok (Big.strip_zeros_back ds).
Proof.
  intros H. unfold Big.strip_zeros_back. apply Forall_rev, strip_front_ok, Forall_rev, H.
Qed.

(** The value that [parse] builds from the sign [sg], the digits [ds] and
    the position [pos] of the decimal point within them. *)
Definition normalize (sg : Z) (ds : list nat) (pos : Z) : Big.t :=
  match Big.strip_zeros_front ds with
  | [] => Big.mk sg 0 [0%nat]
  | ds' => Big.mk sg (pos - (Z.of_nat (length ds) - Z.of_nat (length ds')) - 1)
             (Big.strip_zeros_back ds')
  end.

(** The part of [parse] that follows the test of the pattern and the
    removal of the sign. *)
Definition parse_tail (sg : Z) (n : str) : Big.t :=
  let e := indexOf "." n in
  let n := if e >? -1 then remove_first "." n else n in
  let i := search_e n in
  let '(e, n) :=
    if i >? 0 then
      let e := if e <? 0 then i else e in
      (e + Z_of_str (slice_from (i + 1) n), substring_to i n)
    else if e <? 0 then (Z.of_nat (length n), n)
    else (e, n) in
  let nl := Z.of_nat (length n) in
  let i := Z.of_nat (length (take_while is_zero_char n)) in
  if i =? nl then Big.mk sg 0 [0%nat]
  else Big.mk sg (e - i - 1)
         (map digit_val (strip_trailing_zeros (strip_leading_zeros n))).

Lemma parse_unfold n :
  Big.parse n =
  if negb (Big.NUMERIC n) then Throw Big.INVALID_NUMBER
  else match n with
       | a :: r => if chr_eqb a "-" then Ok (parse_tail (-1) r) else Ok (parse_tail 1 n)
       | [] => Ok (parse_tail 1 n)
       end.
Proof.
  unfold Big.parse, parse_tail. destruct (negb (Big.NUMERIC n)); [reflexivity|].
  destruct n as [|a r]; [reflexivity|].
  destruct (chr_eqb a "-");
    repeat match goal with
           | |- context [if ?b then _ else _] => destruct b
           end; reflexivity.
Qed.

Lemma parse_digits_dstr sg pos ds :
  digits_ok ds ->
  (let n := dstr ds in
   let nl := Z.of_nat (length n) in
   let i := Z.of_nat (length (take_while is_zero_char n)) in
   if i =? nl then Big.mk sg 0 [0%nat]
   else Big.mk sg (pos - i - 1)
          (map digit_val (strip_trailing_zeros (strip_leading_zeros n))))
  = normalize sg ds pos.
Proof.
  intros H. cbv zeta. unfold normalize.
  rewrite (leading_zeros_dstr H), dstr_length, (strip_front_dstr H).
  pose proof (strip_front_length ds) as Hl.
  pose proof (strip_front_ok H) as Hok.
  rewrite (strip_back_dstr Hok), (dstr_vals (strip_back_ok Hok)).
  destruct (Big.strip_zeros_front ds) as [|a r] eqn:E.
  - cbn [length]. rewrite Nat.sub_0_r, Z.eqb_refl. reflexivity.
  - cbn [length] in *.
    replace (Z.of_nat (length ds - S (length r)) =? Z.of_nat (length ds)) with false
      by (symmetry; apply Z.eqb_neq; lia).
    f_equal. lia.
Qed.

(** The exponent suffix printed by [stringify]. *)
Definition exp_str (E : Z) : str := (if E <? 0 then "e" else "e+") ++ str_of_Z E.

Definition sign_char (E : Z) : ascii := if E <? 0 then "-"%char else "+"%char.

Lemma exp_str_eq E :
  exp_str E = "e"%char :: sign_char E :: dstr (digits_of_Z (Z.abs E)).
Proof.
  unfold exp_str, str_of_Z, sign_char. destruct (E <? 0) eqn:H.
  - apply Z.ltb_lt in H. rewrite Z.abs_neq by lia. reflexivity.
  - apply Z.ltb_ge in H. rewrite Z.abs_eq by lia. reflexivity.
Qed.

Lemma Z_of_str_signed E : Z_of_str (sign_char E :: dstr (digits_of_Z (Z.abs E))) = E.
Proof.
  unfold Z_of_str, sign_char.
  assert (Ha : 0 <= Z.abs E) by lia.
  destruct (E <? 0) eqn:H; cbn [chr_eqb Ascii.eqb Bool.eqb];
    rewrite (dstr_vals (digits_of_Z_ok Ha)), (digits_of_Z_value Ha).
  - apply Z.ltb_lt in H. lia.
  - apply Z.ltb_ge in H. lia.
Qed.

Lemma digits1_dstr ds : digits_ok ds -> ds <> [] -> digits1 (dstr ds) = true.
Proof.
  intros H Hne. destruct ds as [|d ds]; [congruence|].
  unfold digits1. cbn [dstr map]. now apply (dstr_all_digits (ds := d :: ds)).
Qed.

Lemma signed_digits1_exp E :
  signed_digits1 (sign_char E :: dstr (digits_of_Z (Z.abs E))) = true.
Proof.
  assert (Ha : 0 <= Z.abs E) by lia.
  unfold signed_digits1, strip_sign, sign_char.
  destruct (E <? 0); cbn [is_sign chr_eqb Ascii.eqb Bool.eqb orb];
    apply digits1_dstr; auto using digits_of_Z_ok, digits_of_Z_nonempty.
Qed.

Lemma exp_tail_lacks_dot E :
  lacks (fun a => chr_eqb a ".") (sign_char E :: dstr (digits_of_Z (Z.abs E))).
Proof.
  apply lacks_cons. split.
  - unfold sign_char. now destruct (E <? 0).
  - apply dstr_lacks_dot, digits_of_Z_ok. lia.
Qed.

(** The fraction and exponent suffixes of a rendered number. *)
Definition frac_str (fr : option (list nat)) : str :=
  match fr with None => [] | Some fp => "."%char :: dstr fp end.

Definition expo_str (ex : option Z) : str :=
  match ex with None => [] | Some E => exp_str E end.

Definition frac_digits (fr : option (list nat)) : list nat :=
  match fr with None => [] | Some fp => fp end.

Definition expo_val (ex : option Z) : Z :=
  match ex with None => 0 | Some E => E end.

Definition frac_ok (fr : option (list nat)) : Prop := digits_ok (frac_digits fr).

(** A general exponent suffix: the letter and what follows it. *)
Definition expo_gen (x : option (ascii * str)) : str :=
  match x with None => [] | Some (a, t) => a :: t end.

Definition expo_gen_val (x : option (ascii * str)) : Z :=
  match x with None => 0 | Some (_, t) => Z_of_str t end.

Definition expo_gen_ok (x : option (ascii * str)) : Prop :=
  match x with
  | None => True
  | Some (a, t) => is_e a = true /\ lacks (fun c => chr_eqb c ".") t
  end.

Lemma is_e_not_dot a : is_e a = true -> chr_eqb a "." = false.
Proof.
  unfold is_e, chr_eqb. intros H. apply orb_prop in H as [H|H];
    apply Ascii.eqb_eq in H; subst; reflexivity.
Qed.

Lemma expo_gen_lacks_dot x :
  expo_gen_ok x -> lacks (fun a => chr_eqb a ".") (expo_gen x).
Proof.
  destruct x as [[a t]|]; [|reflexivity]. intros [Ha Ht].
  apply lacks_cons. split; [now apply is_e_not_dot|exact Ht].
Qed.

Lemma parse_tail_gen sg ip fr x :
  digits_ok ip -> frac_ok fr -> ip ++ frac_digits fr <> [] -> expo_gen_ok x ->
  parse_tail sg (dstr ip ++ frac_str fr ++ expo_gen x)
  = normalize sg (ip ++ frac_digits fr) (Z.of_nat (length ip) + expo_gen_val x).
Proof.
  intros Hip Hfr Hne Hx. unfold parse_tail.
  assert (Hlen : (0 < length (ip ++ frac_digits fr))%nat)
    by (destruct (ip ++ frac_digits fr); [congruence|simpl; lia]).
  pose proof (expo_gen_lacks_dot x Hx) as Hxd.
  (* position of the decimal point, and its removal *)
  assert (Hrm :
    (if indexOf "." (dstr ip ++ frac_str fr ++ expo_gen x) >? -1
     then remove_first "." (dstr ip ++ frac_str fr ++ expo_gen x)
     else dstr ip ++ frac_str fr ++ expo_gen x)
    = dstr (ip ++ frac_digits fr) ++ expo_gen x).
  { rewrite (indexOf_app_lacks _ _ (dstr_lacks_dot Hip)).
    rewrite (remove_first_app_lacks _ _ (dstr_lacks_dot Hip)).
    destruct fr as [fp|]; cbn [frac_str frac_digits app].
    - rewrite indexOf_here, remove_first_here. cbn [Z.ltb Z.compare].
      replace (Z.of_nat (length (dstr ip)) + 0 >? -1) with true
        by (symmetry; apply Z.gtb_lt; lia).
      now rewrite dstr_app, <- app_assoc.
    - rewrite (indexOf_lacks _ Hxd). cbn [Z.ltb Z.compare Z.gtb].
      now rewrite app_nil_r. }
  rewrite Hrm. clear Hrm.
  assert (Hidx :
    indexOf "." (dstr ip ++ frac_str fr ++ expo_gen x)
    = match fr with None => -1 | Some _ => Z.of_nat (length ip) end).
  { rewrite (indexOf_app_lacks _ _ (dstr_lacks_dot Hip)).
    destruct fr as [fp|]; cbn [frac_str app].
    - rewrite indexOf_here, dstr_length. cbn [Z.ltb Z.compare]. lia.
    - now rewrite (indexOf_lacks _ Hxd). }
  rewrite Hidx. clear Hidx.
  assert (Hall : digits_ok (ip ++ frac_digits fr)) by (apply digits_ok_app; auto).
  destruct x as [[a t]|]; cbn [expo_gen expo_gen_val].
  - destruct Hx as [Ha Ht].
    rewrite (@search_e_app_lacks (dstr (ip ++ frac_digits fr)) a _
               (dstr_lacks_e Hall) Ha).
    rewrite dstr_length.
    replace (Z.of_nat (length (ip ++ frac_digits fr)) >? 0) with true
      by (symmetry; apply Z.gtb_lt; lia).
    unfold slice_from, substring_to.
    replace (Z.to_nat (Z.of_nat (length (ip ++ frac_digits fr)) + 1))
      with (length (dstr (ip ++ frac_digits fr)) + 1)%nat
      by (rewrite dstr_length; lia).
    rewrite skipn_app, skipn_all2 by lia.
    replace (length (dstr (ip ++ frac_digits fr)) + 1
             - length (dstr (ip ++ frac_digits fr)))%nat with 1%nat by lia.
    cbn [app skipn].
    replace (Z.to_nat (Z.of_nat (length (ip ++ frac_digits fr))))
      with (length (dstr (ip ++ frac_digits fr)))
      by (rewrite dstr_length; lia).
    rewrite firstn_app, firstn_all, Nat.sub_diag. cbn [firstn]. rewrite app_nil_r.
    rewrite <- (parse_digits_dstr sg _ Hall). cbv zeta.
    destruct fr as [fp|]; cbn [frac_digits Z.ltb Z.compare].
    + replace (Z.of_nat (length ip) <? 0) with false by (symmetry; apply Z.ltb_ge; lia).
      reflexivity.
    + rewrite app_nil_r. reflexivity.
  - rewrite app_nil_r. rewrite (search_e_lacks (dstr_lacks_e Hall)).
    cbn [Z.gtb Z.compare]. rewrite Z.add_0_r.
    rewrite <- (parse_digits_dstr sg _ Hall). cbv zeta.
    destruct fr as [fp|]; cbn [frac_digits Z.ltb Z.compare].
    + replace (Z.of_nat (length ip) <? 0) with false by (symmetry; apply Z.ltb_ge; lia).
      reflexivity.
    + rewrite app_nil_r, dstr_length. reflexivity.
Qed.

(** The exponent suffix of [stringify] as a general suffix. *)
Definition expo_of (ex : option Z) : option (ascii * str) :=
  match ex with
  | None => None
  | Some E => Some ("e"%char, sign_char E :: dstr (digits_of_Z (Z.abs E)))
  end.

Lemma expo_of_str ex : expo_gen (expo_of ex) = expo_str ex.
Proof. destruct ex as [E|]; [|reflexivity]. cbn. now rewrite exp_str_eq. Qed.

Lemma expo_of_val ex : expo_gen_val (expo_of ex) = expo_val ex.
Proof. destruct ex as [E|]; [|reflexivity]. cbn. apply Z_of_str_signed. Qed.

Lemma expo_of_ok ex : expo_gen_ok (expo_of ex).
Proof.
  destruct ex as [E|]; [|exact I]. split; [reflexivity|apply exp_tail_lacks_dot].
Qed.

Lemma parse_tail_render sg ip fr ex :
  digits_ok ip -> frac_ok fr -> ip <> [] ->
  parse_tail sg (dstr ip ++ frac_str fr ++ expo_str ex)
  = normalize sg (ip ++ frac_digits fr) (Z.of_nat (length ip) + expo_val ex).
Proof.
  intros Hip Hfr Hne. rewrite <- expo_of_str, <- expo_of_val.
  apply parse_tail_gen; auto using expo_of_ok.
  destruct ip; [congruence|discriminate].
Qed.

Definition sign_str (neg : bool) : str := if neg then "-" else "".

Lemma NUMERIC_unsigned ip fr ex :
  digits_ok ip -> frac_ok fr -> ip <> [] ->
  (let n := dstr ip ++ frac_str fr ++ expo_str ex in
   let '(m, x) := cut_e n in
   let ip' := take_while is_digit m in
   (match drop_while is_digit m with
    | [] => negb (Big.is_nil ip')
    | a :: fp => chr_eqb a "." && all_digits fp
                 && (negb (Big.is_nil ip') || negb (Big.is_nil fp))
    end)
   && (match x with None => true | Some ex => signed_digits1 ex end)) = true.
Proof.
  intros Hip Hfr Hne. cbv zeta.
  assert (Hm : lacks is_e (dstr ip ++ frac_str fr)).
  { apply lacks_app. split; [now apply dstr_lacks_e|].
    destruct fr as [fp|]; [|reflexivity].
    apply lacks_cons. split; [reflexivity|now apply dstr_lacks_e]. }
  assert (Hcut : cut_e (dstr ip ++ frac_str fr ++ expo_str ex)
                 = (dstr ip ++ frac_str fr,
                    match ex with
                    | None => None
                    | Some E => Some (sign_char E :: dstr (digits_of_Z (Z.abs E)))
                    end)).
  { rewrite app_assoc. destruct ex as [E|]; cbn [expo_str].
    - rewrite exp_str_eq. now apply cut_e_app_lacks.
    - rewrite app_nil_r. now apply cut_e_lacks. }
  rewrite Hcut.
  rewrite (take_while_app_all _ _ _ (dstr_all_digits Hip)).
  rewrite (drop_while_app_all _ _ _ (dstr_all_digits Hip)).
  assert (Hnil : forall r, Big.is_nil (dstr ip ++ r) = false)
    by (intros r; destruct ip; [congruence|reflexivity]).
  apply andb_true_iff. split.
  - destruct fr as [fp|]; cbn [frac_str drop_while take_while].
    + change (is_digit ".") with false. cbv iota. rewrite Hnil.
      change (chr_eqb "." ".") with true. cbn [negb orb andb].
      rewrite andb_true_r. now apply dstr_all_digits.
    + now rewrite Hnil.
  - destruct ex as [E|]; [apply signed_digits1_exp|reflexivity].
Qed.

Lemma NUMERIC_render neg ip fr ex :
  digits_ok ip -> frac_ok fr -> ip <> [] ->
  Big.NUMERIC (sign_str neg ++ dstr ip ++ frac_str fr ++ expo_str ex) = true.
Proof.
  intros Hip Hfr Hne. pose proof (NUMERIC_unsigned ex Hip Hfr Hne) as H.
  cbv zeta in H. unfold Big.NUMERIC.
  destruct neg; cbn [sign_str app].
  - cbn [chr_eqb Ascii.eqb Bool.eqb]. exact H.
  - destruct ip as [|d ip]; [congruence|]. inversion Hip; subst.
    cbn [dstr map app] in *. rewrite digit_char_not_minus by assumption. exact H.
Qed.

(** Reading a rendered number: sign, integer digits, optional fraction
    and optional exponent. *)
Lemma parse_render neg ip fr ex :
  digits_ok ip -> frac_ok fr -> ip <> [] ->
  Big.parse (sign_str neg ++ dstr ip ++ frac_str fr ++ expo_str ex)
  = Ok (normalize (if neg then -1 else 1) (ip ++ frac_digits fr)
          (Z.of_nat (length ip) + expo_val ex)).
Proof.
  intros Hip Hfr Hne. rewrite parse_unfold, (NUMERIC_render neg ex Hip Hfr Hne).
  cbn [negb]. destruct neg; cbn [sign_str app].
  - cbn [chr_eqb Ascii.eqb Bool.eqb]. now rewrite parse_tail_render.
  - rewrite <- (parse_tail_render 1 ex Hip Hfr Hne).
    destruct ip as [|d ip]; [congruence|]. inversion Hip; subst.
    cbn [dstr map app]. now rewrite digit_char_not_minus by assumption.
Qed.

(** The integer digits, fraction digits and exponent that [stringify]
    prints for digits [ds] with exponent [e]. *)
Definition shape (e : Z) (ds : list nat) (doExponential : bool)
  : list nat * option (list nat) * option Z :=
  let n := Z.of_nat (length ds) in
  if doExponential then
    (firstn 1 ds, if 1 <? n then Some (skipn 1 ds) else None, Some e)
  else if e <? 0 then
    ([0%nat], Some (repeat 0%nat (Z.to_nat (- e - 1)) ++ ds), None)
  else if e >? 0 then
    if e + 1 >? n then (ds ++ repeat 0%nat (Z.to_nat (e + 1 - n)), None, None)
    else if e + 1 <? n then
      (firstn (Z.to_nat (e + 1)) ds, Some (skipn (Z.to_nat (e + 1)) ds), None)
    else (ds, None, None)
  else if 1 <? n then (firstn 1 ds, Some (skipn 1 ds), None)
  else (ds, None, None).

Lemma stringify_shape x doExponential isNonzero :
  Big.stringify x doExponential isNonzero
  = let '(ip, fr, ex) := shape (Big.e x) (Big.c x) doExponential in
    sign_str ((Big.s x <? 0) && isNonzero) ++ dstr ip ++ frac_str fr ++ expo_str ex.
Proof.
  unfold Big.stringify, shape. rewrite length_map.
  fold (dstr (Big.c x)).
  assert (Hs : forall (b : bool) (t : str),
             (if b then "-" ++ t else t) = sign_str b ++ t)
    by (intros [] t; reflexivity).
  rewrite Hs. f_equal. unfold dstr.
  destruct doExponential.
  - rewrite firstn_map, skipn_map. fold (exp_str (Big.e x)).
    destruct (1 <? Z.of_nat (length (Big.c x))); cbn [frac_str expo_str app];
      reflexivity.
  - destruct (Big.e x <? 0).
    { cbn [frac_str expo_str dstr map app]. rewrite app_nil_r.
      unfold dstr. now rewrite map_app, map_repeat. }
    destruct (Big.e x >? 0).
    { destruct (Big.e x + 1 >? Z.of_nat (length (Big.c x))).
      { cbn [frac_str expo_str app]. rewrite app_nil_r.
        now rewrite map_app, map_repeat. }
      destruct (Big.e x + 1 <? Z.of_nat (length (Big.c x)));
        cbn [frac_str expo_str app]; rewrite ?app_nil_r;
        rewrite ?firstn_map, ?skipn_map; reflexivity. }
    destruct (1 <? Z.of_nat (length (Big.c x)));
      cbn [frac_str expo_str app]; rewrite ?app_nil_r;
      rewrite ?firstn_map, ?skipn_map; reflexivity.
Qed.

Lemma strip_front_repeat_zero k l :
  Big.strip_zeros_front (repeat 0%nat k ++ l) = Big.strip_zeros_front l.
Proof. induction k as [|k IH]; [reflexivity|exact IH]. Qed.

Lemma strip_front_nonzero d l :
  d <> 0%nat -> Big.strip_zeros_front (d :: l) = d :: l.
Proof.
  intros H. simpl. unfold Big.is_zero_digit.
  now apply Nat.eqb_neq in H as ->.
Qed.

Lemma repeat_snoc {A} (a : A) k : repeat a k ++ [a] = a :: repeat a k.
Proof. induction k as [|k IH]; [reflexivity|]. simpl. now rewrite IH. Qed.

Lemma rev_repeat {A} (a : A) k : rev (repeat a k) = repeat a k.
Proof.
  induction k as [|k IH]; [reflexivity|]. simpl. rewrite IH. apply repeat_snoc.
Qed.

Lemma strip_back_repeat_zero l k :
  Big.strip_zeros_back (l ++ repeat 0%nat k) = Big.strip_zeros_back l.
Proof.
  unfold Big.strip_zeros_back. rewrite rev_app_distr, rev_repeat.
  now rewrite strip_front_repeat_zero.
Qed.

Lemma normalize_padded sg k j d r pos :
  d <> 0%nat ->
  normalize sg (repeat 0%nat k ++ (d :: r) ++ repeat 0%nat j) pos
  = Big.mk sg (pos - Z.of_nat k - 1) (Big.strip_zeros_back (d :: r)).
Proof.
  intros Hd. unfold normalize.
  rewrite strip_front_repeat_zero. cbn [app]. rewrite (strip_front_nonzero _ Hd).
  change (d :: r ++ repeat 0%nat j) with ((d :: r) ++ repeat 0%nat j).
  rewrite strip_back_repeat_zero. f_equal.
  repeat (rewrite ?length_app, ?repeat_length; cbn [length]).
  lia.
Qed.

Lemma shape_facts e d r doExponential :
  digits_ok (d :: r) ->
  let '(ip, fr, ex) := shape e (d :: r) doExponential in
  digits_ok ip /\ frac_ok fr /\ ip <> [] /\
  exists k j,
    ip ++ frac_digits fr = repeat 0%nat k ++ (d :: r) ++ repeat 0%nat j /\
    Z.of_nat (length ip) + expo_val ex - Z.of_nat k - 1 = e.
Proof.
  intros Hok. unfold shape. set (ds := d :: r) in *.
  assert (Hlen : Z.of_nat (length ds) = Z.of_nat (length r) + 1)
    by (subst ds; cbn [length]; lia).
  assert (H1 : firstn 1 ds = [d]) by reflexivity.
  assert (Hd : digits_ok [d])
    by (inversion Hok; subst; constructor; [assumption|constructor]).
  assert (Hr : digits_ok r) by (inversion Hok; assumption).
  destruct doExponential.
  { rewrite H1. destruct (1 <? Z.of_nat (length ds)) eqn:E0.
    - repeat split; [assumption|assumption|discriminate|].
      exists 0%nat, 0%nat. cbn [frac_digits expo_val repeat app length].
      rewrite app_nil_r. split; [reflexivity|lia].
    - apply Z.ltb_ge in E0.
      repeat split; [assumption|constructor|discriminate|].
      exists 0%nat, 0%nat. cbn [frac_digits expo_val repeat app length].
      rewrite app_nil_r. split; [|lia].
      subst ds. destruct r; [reflexivity|]. cbn [length] in *. lia. }
  destruct (e <? 0) eqn:E1.
  { apply Z.ltb_lt in E1. repeat split.
    - constructor; [lia|constructor].
    - unfold frac_ok. cbn [frac_digits]. apply digits_ok_app.
      split; [apply digits_ok_repeat_zero|assumption].
    - discriminate.
    - exists (S (Z.to_nat (- e - 1))), 0%nat. cbn [frac_digits expo_val repeat app length].
      rewrite app_nil_r. split; [reflexivity|lia]. }
  apply Z.ltb_ge in E1.
  destruct (e >? 0) eqn:E2.
  { apply Z.gtb_lt in E2.
    destruct (e + 1 >? Z.of_nat (length ds)) eqn:E3.
    { apply Z.gtb_lt in E3. repeat split.
      - apply digits_ok_app. split; [assumption|apply digits_ok_repeat_zero].
      - constructor.
      - subst ds. discriminate.
      - exists 0%nat, (Z.to_nat (e + 1 - Z.of_nat (length ds))).
        cbn [frac_digits expo_val repeat app]. rewrite app_nil_r.
        split; [reflexivity|]. rewrite length_app, repeat_length. lia. }
    rewrite Z.gtb_ltb in E3. apply Z.ltb_ge in E3.
    destruct (e + 1 <? Z.of_nat (length ds)) eqn:E4.
    { apply Z.ltb_lt in E4. repeat split.
      - now apply digits_ok_firstn.
      - unfold frac_ok. cbn [frac_digits]. now apply digits_ok_skipn.
      - subst ds. replace (Z.to_nat (e + 1)) with (S (Z.to_nat e)) by lia.
        discriminate.
      - exists 0%nat, 0%nat. cbn [frac_digits expo_val repeat app].
        rewrite app_nil_r, firstn_skipn. split; [reflexivity|].
        rewrite length_firstn. lia. }
    apply Z.ltb_ge in E4. repeat split; try assumption.
    - constructor.
    - subst ds. discriminate.
    - exists 0%nat, 0%nat. cbn [frac_digits expo_val repeat app].
      rewrite !app_nil_r. split; [reflexivity|lia]. }
  rewrite Z.gtb_ltb in E2. apply Z.ltb_ge in E2.
  destruct (1 <? Z.of_nat (length ds)) eqn:E5.
  { rewrite H1. repeat split; try assumption.
    - discriminate.
    - exists 0%nat, 0%nat. cbn [frac_digits expo_val repeat app length].
      rewrite app_nil_r. split; [reflexivity|lia]. }
  apply Z.ltb_ge in E5. repeat split; try assumption.
  - constructor.
  - subst ds. discriminate.
  - exists 0%nat, 0%nat. cbn [frac_digits expo_val repeat app].
    rewrite !app_nil_r. split; [reflexivity|lia].
Qed.

(** What [stringify] prints for a value with a nonzero first digit reads
    back as that value, in either notation; digits that were padded with
    zeros come back without them. *)
Lemma parse_stringify x d r doExponential :
  Big.c x = d :: r -> digits_ok (d :: r) -> d <> 0%nat ->
  Big.parse (Big.stringify x doExponential true)
  = Ok (Big.mk (if Big.s x <? 0 then -1 else 1) (Big.e x)
          (Big.strip_zeros_back (d :: r))).
Proof.
  intros Hc Hok Hd. rewrite stringify_shape, Hc, andb_true_r.
  pose proof (shape_facts (Big.e x) doExponential Hok) as H.
  destruct (shape (Big.e x) (d :: r) doExponential) as [[ip fr] ex].
  destruct H as (Hip & Hfr & Hne & k & j & Hcat & He).
  rewrite (parse_render _ ex Hip Hfr Hne), Hcat.
  rewrite normalize_padded by exact Hd.
  do 2 f_equal. lia.
Qed.

(** ** Every parsed value is in normal form *)

Lemma cut_e_spec s m x :
  cut_e s = (m, x) ->
  lacks is_e m /\
  match x with
  | None => s = m
  | Some t => exists a, is_e a = true /\ s = m ++ a :: t
  end.
Proof.
  revert m x. induction s as [|a s IH]; intros m x; simpl.
  - intros H. injection H as <- <-. split; reflexivity.
  - destruct (is_e a) eqn:Ea.
    + intros H. injection H as <- <-. split; [reflexivity|]. now exists a.
    + destruct (cut_e s) as [m' x'] eqn:Ec. intros H. injection H as <- <-.
      destruct (IH m' x' eq_refl) as [Hm Hx]. split.
      * apply lacks_cons. now split.
      * destruct x' as [t|].
        -- destruct Hx as (b & Hb & ->). now exists b.
        -- now subst.
Qed.

Lemma take_drop_while p s : s = take_while p s ++ drop_while p s.
Proof.
  induction s as [|a s IH]; [reflexivity|]. simpl.
  destruct (p a); [simpl; now rewrite <- IH|reflexivity].
Qed.

Lemma take_while_forallb p s : forallb p (take_while p s) = true.
Proof.
  induction s as [|a s IH]; [reflexivity|]. simpl.
  destruct (p a) eqn:E; [simpl; now rewrite E|reflexivity].
Qed.

Lemma is_digit_inv a :
  is_digit a = true -> digit_char (digit_val a) = a /\ (digit_val a < 10)%nat.
Proof.
  destruct a as [[] [] [] [] [] [] [] []]; intros H; try discriminate H;
    split; try reflexivity; vm_compute; lia.
Qed.

Lemma all_digits_dstr s :
  all_digits s = true -> dstr (map digit_val s) = s /\ digits_ok (map digit_val s).
Proof.
  induction s as [|a s IH]; intros H; [split; [reflexivity|constructor]|].
  simpl in H. apply andb_prop in H as [Ha Hs].
  destruct (IH Hs) as [E Hok]. destruct (is_digit_inv a Ha) as [Ea Hlt].
  split; [cbn [map dstr]; fold (dstr (map digit_val s)); now rewrite Ea, E|].
  now constructor.
Qed.

Lemma signed_digits1_lacks_dot t :
  signed_digits1 t = true -> lacks (fun a => chr_eqb a ".") t.
Proof.
  unfold signed_digits1, strip_sign, digits1. destruct t as [|a t]; [discriminate|].
  destruct (is_sign a) eqn:Ea.
  - destruct t as [|b t]; [discriminate|]. intros H.
    destruct (all_digits_dstr _ H) as [E Hok]. apply lacks_cons. split.
    + unfold is_sign, chr_eqb in Ea. apply orb_prop in Ea as [Ea|Ea];
        apply Ascii.eqb_eq in Ea; subst; reflexivity.
    + rewrite <- E. now apply dstr_lacks_dot.
  - intros H. destruct (all_digits_dstr _ H) as [E Hok].
    rewrite <- E. now apply dstr_lacks_dot.
Qed.

Lemma NUMERIC_inv n :
  Big.NUMERIC n = true ->
  exists neg ip fr x,
    n = sign_str neg ++ dstr ip ++ frac_str fr ++ expo_gen x /\
    digits_ok ip /\ frac_ok fr /\ ip ++ frac_digits fr <> [] /\ expo_gen_ok x.
Proof.
  unfold Big.NUMERIC. intros H.
  set (n' := match n with
             | a :: r => if chr_eqb a "-" then r else n
             | [] => n
             end) in H.
  assert (Hn : exists neg, n = sign_str neg ++ n').
  { subst n'. destruct n as [|a r]; [now exists false|].
    destruct (chr_eqb a "-") eqn:Ea; [|now exists false].
    apply Ascii.eqb_eq in Ea. subst a. now exists true. }
  destruct Hn as [neg Hn]. exists neg.
  destruct (cut_e n') as [m x] eqn:Ec.
  destruct (cut_e_spec _ Ec) as [Hm Hx].
  apply andb_prop in H as [H1 H2].
  pose proof (take_drop_while is_digit m) as Esplit.
  pose proof (take_while_forallb is_digit m) as Hip.
  destruct (all_digits_dstr _ Hip) as [Eip Hipok].
  set (ip := map digit_val (take_while is_digit m)) in *.
  assert (Hfr : exists fr,
    drop_while is_digit m = frac_str fr /\ frac_ok fr /\ ip ++ frac_digits fr <> []).
  { destruct (drop_while is_digit m) as [|a fp] eqn:Ed.
    - exists None. repeat split; [constructor|]. cbn [frac_digits]. rewrite app_nil_r.
      intros E0. rewrite <- Eip, E0 in H1. discriminate.
    - apply andb_prop in H1 as [H1 H3]. apply andb_prop in H1 as [Hdot Hfp].
      apply Ascii.eqb_eq in Hdot. subst a.
      destruct (all_digits_dstr _ Hfp) as [Efp Hfpok].
      exists (Some (map digit_val fp)). cbn [frac_str frac_digits].
      rewrite Efp. repeat split; [exact Hfpok|].
      intros E0. apply app_eq_nil in E0 as [E1 E2].
      rewrite <- Eip, E1 in H3. rewrite <- Efp, E2 in H3. discriminate. }
  destruct Hfr as (fr & Efr & Hfrok & Hne).
  exists ip, fr.
  exists (match x with
          | None => None
          | Some t => Some (match drop_while (fun a => negb (is_e a)) n' with
                            | a :: _ => a
                            | [] => "e"%char
                            end, t)
          end).
  destruct x as [t|].
  - destruct Hx as (a & Ha & En).
    assert (Hd : drop_while (fun a => negb (is_e a)) n' = a :: t).
    { rewrite En. rewrite drop_while_app_all by exact Hm.
      simpl. now rewrite Ha. }
    rewrite Hd. cbn [expo_gen expo_gen_ok].
    repeat split; try assumption.
    + rewrite Hn, En, Esplit at 1. rewrite Efr, Eip.
      now rewrite <- !app_assoc.
    + now apply signed_digits1_lacks_dot.
  - cbn [expo_gen expo_gen_ok]. repeat split; try assumption.
    rewrite Hn, Hx, Esplit at 1. now rewrite Efr, Eip, app_nil_r.
Qed.

(** Normal form of a big.js value: a sign, decimal digits, and either the
    zero [{e = 0; c = [0]}] or digits with no zero at either end. *)
Definition sign_ok (sg : Z) : Prop := sg = 1 \/ sg = -1.

Definition nonzero_digits (ds : list nat) : Prop :=
  exists d r, ds = d :: r /\ d <> 0%nat /\ Big.strip_zeros_back ds = ds.

Definition canon (x : Big.t) : Prop :=
  sign_ok (Big.s x) /\ digits_ok (Big.c x) /\
  ((Big.c x = [0%nat] /\ Big.e x = 0) \/ nonzero_digits (Big.c x)).

(** big.js keeps the exponent of a value in a JavaScript number.  Whole
    numbers are held exactly up to [2^53] and printed in plain digits
    below [10^21]; from there on an exponent read from a string is
    rounded, and an exponent that is printed comes out in exponent
    notation itself, which the library does not read back.  The results
    on values are therefore stated for exponents of at most [10^15] in
    magnitude: this leaves room for the sums, differences and offsets of
    exponents that the operations form. *)
Definition MAX_EXPONENT : Z := 10 ^ 15.

Definition exponent_ok (x : Big.t) : Prop := Z.abs (Big.e x) <= MAX_EXPONENT.

Lemma strip_front_head ds d r : Big.strip_zeros_front ds = d :: r -> d <> 0%nat.
Proof.
  induction ds as [|a ds IH]; simpl; [discriminate|].
  destruct (Big.is_zero_digit a) eqn:E; [exact IH|].
  intros H. injection H as <- _. unfold Big.is_zero_digit in E.
  now apply Nat.eqb_neq in E.
Qed.

Lemma strip_front_app_stop l a r :
  a <> 0%nat ->
  Big.strip_zeros_front (l ++ a :: r) = Big.strip_zeros_front l ++ a :: r.
Proof.
  intros Ha. induction l as [|b l IH]; simpl.
  - unfold Big.is_zero_digit. now apply Nat.eqb_neq in Ha as ->.
  - destruct (Big.is_zero_digit b); [exact IH|reflexivity].
Qed.

Lemma strip_back_cons_nonzero d r :
  d <> 0%nat -> exists r', Big.strip_zeros_back (d :: r) = d :: r'.
Proof.
  intros Hd. unfold Big.strip_zeros_back. simpl.
  rewrite strip_front_app_stop by exact Hd.
  rewrite rev_app_distr. simpl. eauto.
Qed.

Lemma strip_front_idem ds :
  Big.strip_zeros_front (Big.strip_zeros_front ds) = Big.strip_zeros_front ds.
Proof.
  induction ds as [|a ds IH]; [reflexivity|]. simpl.
  destruct (Big.is_zero_digit a) eqn:E; [exact IH|]. simpl. now rewrite E.
Qed.

Lemma strip_back_idem ds :
  Big.strip_zeros_back (Big.strip_zeros_back ds) = Big.strip_zeros_back ds.
Proof.
  unfold Big.strip_zeros_back. now rewrite rev_involutive, strip_front_idem.
Qed.

Lemma nonzero_digits_strip d r :
  d <> 0%nat -> nonzero_digits (Big.strip_zeros_back (d :: r)).
Proof.
  intros Hd. destruct (strip_back_cons_nonzero r Hd) as [r' E].
  exists d, r'. repeat split; [exact E|exact Hd|apply strip_back_idem].
Qed.

Lemma normalize_canon sg ds pos :
  sign_ok sg -> digits_ok ds -> canon (normalize sg ds pos).
Proof.
  intros Hs Hok. unfold normalize, canon.
  pose proof (strip_front_ok Hok) as Hf.
  destruct (Big.strip_zeros_front ds) as [|d r] eqn:E; cbn [Big.s Big.c Big.e].
  - repeat split; [exact Hs| |now left]. constructor; [lia|constructor].
  - repeat split; [exact Hs|now apply strip_back_ok|right].
    apply nonzero_digits_strip. now apply strip_front_head in E.
Qed.

(** [parse] in closed form. *)
Lemma parse_normalize n x :
  Big.parse n = Ok x ->
  exists sg ds pos, sign_ok sg /\ digits_ok ds /\ x = normalize sg ds pos.
Proof.
  rewrite parse_unfold. destruct (Big.NUMERIC n) eqn:HN; [|discriminate].
  cbn [negb]. destruct (NUMERIC_inv _ HN) as (neg & ip & fr & xp & En & Hip & Hfr & Hne & Hx).
  assert (Hall : digits_ok (ip ++ frac_digits fr)) by (apply digits_ok_app; auto).
  destruct neg; cbn [sign_str app] in En.
  - subst n. change (chr_eqb "-" "-") with true. cbv iota.
    intros H. injection H as <-. rewrite parse_tail_gen by assumption.
    exists (-1), (ip ++ frac_digits fr), (Z.of_nat (length ip) + expo_gen_val xp).
    repeat split; [now right|exact Hall].
  - assert (Hhead : match n with
                    | a :: r => if chr_eqb a "-" then Ok (parse_tail (-1) r)
                                else Ok (parse_tail 1 n)
                    | [] => Ok (parse_tail 1 n)
                    end = Ok (parse_tail 1 n)).
    { destruct n as [|a r]; [reflexivity|].
      replace (chr_eqb a "-") with false; [reflexivity|].
      destruct ip as [|d ip].
      - destruct fr as [fp|]; [|cbn [frac_digits app] in Hne; congruence].
        cbn [dstr map app frac_str] in En. injection En as -> _. reflexivity.
      - inversion Hip; subst. cbn [dstr map app] in En. injection En as -> _.
        symmetry. now apply digit_char_not_minus. }
    rewrite Hhead. intros H. injection H as <-. rewrite En.
    rewrite parse_tail_gen by assumption.
    exists 1, (ip ++ frac_digits fr), (Z.of_nat (length ip) + expo_gen_val xp).
    repeat split; [now left|exact Hall].
Qed.

Lemma parse_canon n x : Big.parse n = Ok x -> canon x.
Proof.
  intros H. destruct (parse_normalize _ H) as (sg & ds & pos & Hs & Hok & ->).
  now apply normalize_canon.
Qed.

Lemma new_Big_canon v x : new_Big v = Ok x -> canon x.
Proof. apply parse_canon. Qed.

(** ** Rounding keeps the normal form *)

Lemma incr_length l : length (snd (Big.incr l)) = length l.
Proof.
  induction l as [|d l IH]; [reflexivity|]. simpl.
  destruct (Big.incr l) as [cy l']. simpl in IH.
  destruct cy; [destruct (9 <? d + 1)%nat|]; simpl; now rewrite IH.
Qed.

Lemma incr_ok l : digits_ok l -> digits_ok (snd (Big.incr l)).
Proof.
  intros H. induction H as [|d l Hd _ IH]; [constructor|]. simpl.
  destruct (Big.incr l) as [cy l']. simpl in IH.
  destruct cy; [destruct (9 <? d + 1)%nat eqn:E|]; simpl; constructor; auto; try lia.
  apply Nat.ltb_ge in E. lia.
Qed.

Lemma incr_carry l :
  fst (Big.incr l) = true -> snd (Big.incr l) = repeat 0%nat (length l).
Proof.
  induction l as [|d l IH]; [reflexivity|]. simpl.
  destruct (Big.incr l) as [cy l']. simpl in IH.
  destruct cy; [destruct (9 <? d + 1)%nat|]; simpl; try discriminate.
  intros _. now rewrite IH.
Qed.

Lemma incr_head d r :
  fst (Big.incr (d :: r)) = false ->
  exists d' r', snd (Big.incr (d :: r)) = d' :: r' /\ (d' = d \/ d' = S d).
Proof.
  simpl. destruct (Big.incr r) as [cy l'].
  destruct cy; [destruct (9 <? d + 1)%nat|]; simpl; try discriminate; intros _.
  - exists (d + 1)%nat, l'. split; [reflexivity|right; lia].
  - exists d, l'. split; [reflexivity|now left].
Qed.

Lemma strip_back_length l : (length (Big.strip_zeros_back l) <= length l)%nat.
Proof.
  unfold Big.strip_zeros_back. rewrite length_rev, <- (length_rev l).
  apply strip_front_length.
Qed.

Lemma strip_back_one_zeros k :
  Big.strip_zeros_back (1%nat :: repeat 0%nat k) = [1%nat].
Proof.
  change (1%nat :: repeat 0%nat k) with ([1%nat] ++ repeat 0%nat k).
  now rewrite strip_back_repeat_zero.
Qed.

(** Rounding a nonzero value in normal form to [sd >= 1] digits gives a
    nonzero value in normal form with at most [sd] digits. *)
Lemma round_digits x sd :
  nonzero_digits (Big.c x) -> digits_ok (Big.c x) -> 1 <= sd ->
  let y := Big.round x sd in
  Big.s y = Big.s x /\ digits_ok (Big.c y) /\ nonzero_digits (Big.c y) /\
  Z.of_nat (length (Big.c y)) <= sd /\
  (Big.e y = Big.e x \/ Big.e y = Big.e x + 1).
Proof.
  intros (d & r & Hc & Hd & Hstrip) Hok Hsd. cbv zeta. unfold Big.round.
  rewrite Hc in *.
  replace (sd <? 1) with false by (symmetry; apply Z.ltb_ge; lia).
  destruct (sd <? Z.of_nat (length (d :: r))) eqn:E.
  - apply Z.ltb_lt in E.
    assert (Hf : exists r0, firstn (Z.to_nat sd) (d :: r) = d :: r0).
    { replace (Z.to_nat sd) with (S (Z.to_nat (sd - 1))) by lia. simpl. eauto. }
    destruct Hf as [r0 Hf]. rewrite Hf.
    assert (Hok0 : digits_ok (d :: r0)) by (rewrite <- Hf; now apply digits_ok_firstn).
    assert (Hl0 : Z.of_nat (length (d :: r0)) <= sd).
    { rewrite <- Hf, length_firstn. lia. }
    destruct (Big.ge5 (d :: r) sd).
    + pose proof (incr_length (d :: r0)) as Hl.
      pose proof (incr_ok Hok0) as Hi.
      pose proof (@incr_carry (d :: r0)) as Hcy.
      pose proof (@incr_head d r0) as Hh.
      destruct (Big.incr (d :: r0)) as [cy l']. cbn [fst snd] in *.
      destruct cy; cbn [Big.s Big.c Big.e].
      * rewrite (Hcy eq_refl), strip_back_one_zeros.
        repeat split; try lia.
        -- constructor; [lia|constructor].
        -- exists 1%nat, []. repeat split; lia.
        -- cbn [length]. lia.
      * destruct (Hh eq_refl) as (d' & r' & -> & Hd').
        assert (Hd0 : d' <> 0%nat) by lia.
        pose proof (strip_back_length (d' :: r')) as Hsl.
        repeat split; try lia.
        -- now apply strip_back_ok.
        -- now apply nonzero_digits_strip.
    + cbn [Big.s Big.c Big.e].
      pose proof (strip_back_length (d :: r0)) as Hsl.
      repeat split; try lia.
      * now apply strip_back_ok.
      * now apply nonzero_digits_strip.
  - apply Z.ltb_ge in E. rewrite Hc.
    repeat split; try lia; try assumption.
    exists d, r. repeat split; assumption.
Qed.

Lemma round_short x sd :
  1 <= sd -> Z.of_nat (length (Big.c x)) <= sd -> Big.round x sd = x.
Proof.
  intros H1 H2. unfold Big.round.
  replace (sd <? 1) with false by (symmetry; apply Z.ltb_ge; lia).
  replace (sd <? Z.of_nat (length (Big.c x))) with false
    by (symmetry; apply Z.ltb_ge; lia).
  reflexivity.
Qed.

Lemma nonzero_of_digits x : nonzero_digits (Big.c x) -> Big.nonzero x = true.
Proof.
  intros (d & r & Hc & Hd & _). unfold Big.nonzero, Big.is_zero_digit. rewrite Hc.
  now apply Nat.eqb_neq in Hd as ->.
Qed.

Lemma canon_cases x :
  canon x ->
  (Big.nonzero x = false /\ Big.c x = [0%nat] /\ Big.e x = 0) \/
  (Big.nonzero x = true /\ nonzero_digits (Big.c x)).
Proof.
  intros (_ & _ & [[Hc He]|Hnz]).
  - left. unfold Big.nonzero. rewrite Hc. auto.
  - right. split; [now apply nonzero_of_digits|exact Hnz].
Qed.

Lemma eq_zero_canon x : canon x -> Big.eq x Big.zero = negb (Big.nonzero x).
Proof.
  intros Hx. destruct Hx as ([Hs|Hs] & _ & _);
    unfold Big.eq, Big.cmp; change (Big.nonzero Big.zero) with false;
    destruct (Big.nonzero x); cbn [negb orb]; rewrite ?Hs; reflexivity.
Qed.

Lemma sign_ok_norm sg : sign_ok sg -> (if sg <? 0 then -1 else 1) = sg.
Proof. intros [->| ->]; reflexivity. Qed.

Lemma pad_strip y n :
  nonzero_digits (Big.c y) ->
  Big.strip_zeros_back (Big.c (Big.pad y n)) = Big.c y.
Proof.
  intros (d & r & Hc & Hd & Hs). unfold Big.pad. cbn [Big.c].
  rewrite strip_back_repeat_zero. now rewrite Hc in *.
Qed.

(** What [toPrecision] and its variants print reads back as the rounded
    value itself. *)
Lemma parse_stringify_pad y n doExponential :
  sign_ok (Big.s y) -> digits_ok (Big.c y) -> nonzero_digits (Big.c y) ->
  Big.parse (Big.stringify (Big.pad y n) doExponential true) = Ok y.
Proof.
  intros Hs Hok Hnz. pose proof Hnz as (d & r & Hc & Hd & Hstrip).
  assert (Hpc : Big.c (Big.pad y n)
                = d :: (r ++ repeat 0%nat (Z.to_nat n - length (Big.c y))))
    by (unfold Big.pad; cbn [Big.c]; now rewrite Hc).
  rewrite (@parse_stringify _ d _ doExponential Hpc).
  - rewrite <- Hpc, (@pad_strip y n Hnz). unfold Big.pad. cbn [Big.s Big.e].
    rewrite (sign_ok_norm Hs). now destruct y.
  - rewrite <- Hpc. unfold Big.pad. cbn [Big.c]. apply digits_ok_app.
    split; [exact Hok|apply digits_ok_repeat_zero].
  - exact Hd.
Qed.

(** ** Rounding at the default threshold *)

Lemma round_default v sigfigs :
  round v sigfigs None
  = let* n := validateSigfigs sigfigs in
    let* bigNum := new_Big v in
    if Big.eq bigNum Big.zero then Ok "0" else Big.toPrecision bigNum n.
Proof.
  unfold round. destruct (validateSigfigs sigfigs) as [n|]; [|reflexivity].
  cbn [bind]. destruct (new_Big v) as [b|]; reflexivity.
Qed.

Lemma toPrecision_reads_back x n r :
  canon x -> Big.nonzero x = true -> Big.toPrecision x n = Ok r ->
  exists y, Big.parse r = Ok y /\ canon y /\ Big.nonzero y = true /\
            Big.toPrecision y n = Ok r.
Proof.
  intros Hx Hnzx. unfold Big.toPrecision.
  destruct ((n <? 1) || (n >? Big.MAX_DP)) eqn:Hn; [discriminate|].
  apply orb_false_iff in Hn as [Hn1 Hn2]. apply Z.ltb_ge in Hn1.
  intros H. injection H as <-.
  destruct (canon_cases Hx) as [[Hz _]|[_ Hnz]]; [congruence|].
  destruct Hx as (Hs & Hok & _).
  destruct (round_digits x Hnz Hok Hn1) as (Hsy & Hoky & Hnzy & Hly & _).
  set (y := Big.round x n) in *.
  exists y. rewrite Hnzx.
  assert (Hcy : canon y) by (repeat split; [now rewrite Hsy|assumption|now right]).
  split; [|split; [|split]].
  - apply parse_stringify_pad; [now rewrite Hsy|assumption|assumption].
  - exact Hcy.
  - now apply nonzero_of_digits.
  - rewrite (round_short y Hn1 Hly), (nonzero_of_digits _ Hnzy). reflexivity.
Qed.

(** Rounding the result of [round] once more at the same number of
    significant figures and at the default threshold, in the exception
    monad: when the first call throws, so does the composition. *)
Lemma round_twice (v : value) (sigfigs : number) :
  (let* r := round v sigfigs None in round (VStr r) sigfigs None)
  = round v sigfigs None.
Proof.
  rewrite round_default.
  destruct (validateSigfigs sigfigs) as [n|err] eqn:Hv; [|reflexivity].
  cbn [bind]. destruct (new_Big v) as [x|err] eqn:Hx; [|reflexivity].
  cbn [bind]. pose proof (new_Big_canon _ Hx) as Hc.
  rewrite (eq_zero_canon Hc).
  destruct (Big.nonzero x) eqn:Hnz; cbn [negb].
  - destruct (Big.toPrecision x n) as [r|err] eqn:Hr; [|reflexivity].
    cbn [bind]. rewrite round_default, Hv. cbn [bind]. unfold new_Big, String_.
    destruct (toPrecision_reads_back n Hc Hnz Hr) as (y & Hy & Hcy & Hnzy & Hry).
    rewrite Hy. cbn [bind]. now rewrite (eq_zero_canon Hcy), Hnzy.
  - cbn [bind]. rewrite round_default, Hv. reflexivity.
Qed.

(** For a parseable value and a count between 1 and the largest precision
    of the decimal library, [round] at the default threshold returns. *)
Lemma round_default_returns v sigfigs x n :
  new_Big v = Ok x -> validateSigfigs sigfigs = Ok n -> n <= Big.MAX_DP ->
  exists r, round v sigfigs None = Ok r.
Proof.
  intros Hx Hv Hn. rewrite round_default, Hv, Hx. cbn [bind].
  destruct (Big.eq x Big.zero); [now eexists|].
  unfold Big.toPrecision.
  assert (1 <= n).
  { unfold validateSigfigs in Hv. destruct (Num.to_int sigfigs); [|discriminate].
    destruct (z <=? 0) eqn:E; [discriminate|]. injection Hv as <-.
    apply Z.leb_gt in E. lia. }
  replace (n <? 1) with false by (symmetry; apply Z.ltb_ge; lia).
  replace (n >? Big.MAX_DP) with false
    by (symmetry; rewrite Z.gtb_ltb; apply Z.ltb_ge; lia).
  now eexists.
Qed.

(** C7 (as the code has it).  For a parseable value whose exponent is
    within [MAX_EXPONENT] and a count between 1 and the largest precision
    of the decimal library, [round] at the default threshold returns, and
    rounding its result once more at the same count returns that result
    unchanged. *)
Theorem round_idempotent (v : value) (sigfigs : number) (x : Big.t) (n : Z) :
  new_Big v = Ok x -> exponent_ok x ->
  validateSigfigs sigfigs = Ok n -> n <= Big.MAX_DP ->
  exists r, round v sigfigs None = Ok r /\ round (VStr r) sigfigs None = Ok r.
Proof.
  intros Hx _ Hv Hn.
  destruct (@round_default_returns v sigfigs x n Hx Hv Hn) as [r Hr].
  exists r. split; [exact Hr|].
  pose proof (round_twice v sigfigs) as H. rewrite Hr in H. exact H.
Qed.

Lemma round_idempotent_witness :
  exists r,
    round (lit "123.456") (Num.of_Z 4) None = Ok r /\
    round (VStr r) (Num.of_Z 4) None = Ok r.
Proof.
  apply (@round_idempotent (lit "123.456") (Num.of_Z 4)
           (Big.mk 1 2 [1; 2; 3; 4; 5; 6]%nat) 4);
    [reflexivity|vm_compute; discriminate|reflexivity|vm_compute; discriminate].
Defined.

(** C7 (refuted as stated).  Two parseable values and positive counts at
    which there is no result to round again.  A count above the largest
    precision of the decimal library makes [round] raise the library's
    error.  And the exponent of ["1e1000000000000000000000"] is [10^21]:
    the library prints an exponent as a JavaScript number, which from
    [10^21] on is written with an exponent of its own (["1e+21"]), so
    that the code returns ["1e+1e+21"], a string that [round] does not
    accept.  (The rendering of this development writes every exponent in
    plain digits; it follows the library within [MAX_EXPONENT].) *)
Lemma round_beyond_limits :
  round (lit "1") (Num.of_Z 1000001) None = Throw Big.INVALID_PRECISION /\
  new_Big (VStr "1e1000000000000000000000") = Ok (Big.mk 1 (10 ^ 21) [1%nat]) /\
  Num.to_string (Num.of_Z (10 ^ 21)) = "1e+21" /\
  round (VStr "1e+1e+21") (Num.of_Z 1) None = Throw Big.INVALID_NUMBER.
Proof. repeat split; vm_compute; reflexivity. Qed.

(** ** The counting rules of [sigfigOf] on decimal text *)

(** Decimal text: optional sign, integer digits, optional decimal point
    with fraction digits, optional exponent suffix. *)
Record DecimalText : Type := mkText {
  dt_sign : option bool;            (* [Some true] is [-], [Some false] is [+] *)
  dt_int : list nat;
  dt_frac : option (list nat);      (* [Some []] is a point with no digit after it *)
  dt_exp : option (ascii * str)     (* the letter and the signed exponent digits *)
}.

Definition sign_chars (sg : option bool) : str :=
  match sg with
  | None => []
  | Some true => "-"
  | Some false => "+"
  end.

(** The string that a decimal text stands for. *)
Definition render (d : DecimalText) : str :=
  sign_chars (dt_sign d) ++ dstr (dt_int d) ++ frac_str (dt_frac d)
    ++ expo_gen (dt_exp d).

Definition text_ok (d : DecimalText) : Prop :=
  digits_ok (dt_int d) /\ frac_ok (dt_frac d) /\
  dt_int d ++ frac_digits (dt_frac d) <> [] /\
  match dt_exp d with
  | None => True
  | Some (a, t) => is_e a = true /\ signed_digits1 t = true
  end.

(** Rules (3) and (4) of the specification, on the digits of a text
    without exponent. *)
Definition plain_count (ip : list nat) (fr : option (list nat)) : Z :=
  match fr with
  | Some fp =>
      match Big.strip_zeros_front ip with
      | [] => Z.max 1 (Z.of_nat (length (Big.strip_zeros_front fp)))
      | ip' => Z.of_nat (length ip') + Z.of_nat (length fp)
      end
  | None =>
      Z.max 1 (Z.of_nat (length (Big.strip_zeros_back (Big.strip_zeros_front ip))))
  end.

(** The significant-figure count as the specification words it: one for
    zero; for scientific form the count of the coefficient alone;
    otherwise rules (3) and (4). *)
Definition SigfigCount (d : DecimalText) : Z :=
  match Big.strip_zeros_front (dt_int d ++ frac_digits (dt_frac d)) with
  | [] => 1
  | _ => plain_count (dt_int d) (dt_frac d)
  end.

Lemma drop_while_lacks p s : lacks p s -> drop_while p s = s.
Proof.
  destruct s as [|a s]; [reflexivity|]. intros H.
  apply lacks_cons in H as [Ha _]. simpl. now rewrite Ha.
Qed.

Lemma lacks_rev p s : lacks p s -> lacks p (rev s).
Proof.
  unfold lacks. intros H. rewrite forallb_forall in *.
  intros a Ha. apply H. now apply in_rev.
Qed.

Lemma trim_lacks s : lacks is_space s -> trim s = s.
Proof.
  intros H. unfold trim, drop_while_end.
  rewrite (drop_while_lacks H), (drop_while_lacks (lacks_rev H)).
  apply rev_involutive.
Qed.

Lemma split_lacks ch s : lacks (fun a => chr_eqb a ch) s -> split ch s = [s].
Proof.
  induction s as [|a s IH]; [reflexivity|]. intros H.
  apply lacks_cons in H as [Ha Hs]. simpl. now rewrite Ha, (IH Hs).
Qed.

Lemma split_nonempty ch s : split ch s <> [].
Proof.
  destruct s as [|a s]; simpl; [discriminate|].
  destruct (chr_eqb a ch); [discriminate|].
  destruct (split ch s); discriminate.
Qed.

Lemma split_app_lacks ch l r :
  lacks (fun a => chr_eqb a ch) l ->
  split ch (l ++ ch :: r) = l :: split ch r.
Proof.
  intros H. induction l as [|a l IH].
  - simpl. unfold chr_eqb. now rewrite Ascii.eqb_refl.
  - apply lacks_cons in H as [Ha Hl]. cbn [app split]. now rewrite Ha, (IH Hl).
Qed.

Lemma split_one ch l r :
  lacks (fun a => chr_eqb a ch) l -> lacks (fun a => chr_eqb a ch) r ->
  split ch (l ++ ch :: r) = [l; r].
Proof.
  intros Hl Hr. now rewrite (split_app_lacks _ _ Hl), (split_lacks _ Hr).
Qed.

Lemma dstr_nil_iff ds : Big.is_nil (dstr ds) = Big.is_nil ds.
Proof. now destruct ds. Qed.

Lemma dstr_not_zero_string d r :
  (d < 10)%nat -> d <> 0%nat -> str_eqb (dstr (d :: r)) "0" = false.
Proof.
  intros Hlt Hd. apply str_eqb_neq. cbn [dstr map]. intros E.
  injection E as E _. pose proof (digit_char_zero Hlt) as Hz.
  rewrite E in Hz. unfold Big.is_zero_digit in Hz.
  apply Nat.eqb_neq in Hd. rewrite Hd in Hz. discriminate.
Qed.

(** The part of [sigfigOf] after the scientific-notation test, on an
    unsigned text without exponent. *)
Lemma sigfig_branches ip fr :
  digits_ok ip -> frac_ok fr ->
  (let str := dstr ip ++ frac_str fr in
   if includes "." str then
     let parts := split "." str in
     let integerPart := part parts 0 in
     let decimalPart := part parts 1 in
     let cleanIntegerPart := or_str (strip_leading_zeros integerPart) "0" in
     if str_eqb cleanIntegerPart "0" then
       let cleanDecimalPart := strip_leading_zeros decimalPart in
       if Big.is_nil cleanDecimalPart then 1
       else Z.of_nat (length cleanDecimalPart)
     else Z.of_nat (length cleanIntegerPart) + Z.of_nat (length decimalPart)
   else
     let str := strip_leading_zeros str in
     if Big.is_nil str then 1
     else Z.of_nat (length (strip_trailing_zeros str)))
  = plain_count ip fr.
Proof.
  intros Hip Hfr. cbv zeta. unfold plain_count.
  pose proof (strip_front_ok Hip) as Hip'.
  destruct fr as [fp|]; cbn [frac_str].
  - unfold frac_ok in Hfr. cbn [frac_digits] in Hfr.
    rewrite includes_app. replace (includes "." ("."%char :: dstr fp)) with true
      by reflexivity.
    rewrite orb_true_r.
    rewrite (split_one _ (dstr_lacks_dot Hip) (dstr_lacks_dot Hfr)).
    cbn [part nth]. rewrite (strip_front_dstr Hip), (strip_front_dstr Hfr).
    unfold or_str. rewrite !dstr_nil_iff.
    destruct (Big.strip_zeros_front ip) as [|d r] eqn:E; cbn [Big.is_nil].
    + rewrite str_eqb_refl.
      destruct (Big.strip_zeros_front fp) as [|d' r']; cbn [Big.is_nil length].
      * reflexivity.
      * rewrite dstr_length. cbn [length]. lia.
    + inversion Hip' as [|? ? Hlt _]; subst.
      rewrite (dstr_not_zero_string r Hlt (strip_front_head _ E)).
      now rewrite !dstr_length.
  - rewrite app_nil_r, (includes_lacks _ (dstr_lacks_dot Hip)).
    rewrite (strip_front_dstr Hip), dstr_nil_iff.
    destruct (Big.strip_zeros_front ip) as [|d r] eqn:E; cbn [Big.is_nil].
    + reflexivity.
    + rewrite (strip_back_dstr Hip'), dstr_length.
      destruct (strip_back_cons_nonzero r (strip_front_head _ E)) as [r' ->].
      cbn [length]. lia.
Qed.

Lemma strip_front_app_nil a b :
  Big.strip_zeros_front (a ++ b) = [] ->
  Big.strip_zeros_front a = [] /\ Big.strip_zeros_front b = [].
Proof.
  induction a as [|d a IH]; simpl; [auto|].
  destruct (Big.is_zero_digit d); [exact IH|discriminate].
Qed.

Lemma plain_count_zero ip fr :
  Big.strip_zeros_front (ip ++ frac_digits fr) = [] -> plain_count ip fr = 1.
Proof.
  intros H. apply strip_front_app_nil in H as [Hi Hf]. unfold plain_count.
  destruct fr as [fp|]; cbn [frac_digits] in Hf; rewrite Hi; [now rewrite Hf|].
  reflexivity.
Qed.

Lemma SigfigCount_plain d : SigfigCount d = plain_count (dt_int d) (dt_frac d).
Proof.
  unfold SigfigCount.
  destruct (Big.strip_zeros_front (dt_int d ++ frac_digits (dt_frac d))) eqn:E;
    [now rewrite plain_count_zero|reflexivity].
Qed.

Lemma body_lacks (p : ascii -> bool) ip fr :
  (forall d, (d < 10)%nat -> p (digit_char d) = false) -> p "."%char = false ->
  digits_ok ip -> frac_ok fr -> lacks p (dstr ip ++ frac_str fr).
Proof.
  intros Hp Hdot Hip Hfr. apply lacks_app. split; [now apply dstr_lacks|].
  destruct fr as [fp|]; [|reflexivity].
  apply lacks_cons. split; [exact Hdot|now apply dstr_lacks].
Qed.

Lemma sign_chars_lacks (p : ascii -> bool) sg :
  p "-"%char = false -> p "+"%char = false -> lacks p (sign_chars sg).
Proof.
  intros Hm Hp. destruct sg as [[]|]; cbn [sign_chars];
    [apply lacks_cons; split; [exact Hm|reflexivity]
    |apply lacks_cons; split; [exact Hp|reflexivity]
    |reflexivity].
Qed.

Lemma strip_sign_text sg ip fr rest :
  digits_ok ip -> ip ++ frac_digits fr <> [] ->
  strip_sign (sign_chars sg ++ dstr ip ++ frac_str fr ++ rest)
  = dstr ip ++ frac_str fr ++ rest.
Proof.
  intros Hip Hne. destruct sg as [[]|]; [reflexivity|reflexivity|].
  cbn [sign_chars app]. destruct ip as [|d ip].
  - destruct fr as [fp|]; [reflexivity|]. cbn [frac_digits app] in Hne. congruence.
  - inversion Hip; subst. cbn [dstr map app strip_sign].
    now rewrite digit_char_not_sign.
Qed.

Lemma text_not_nil sg ip fr rest :
  ip ++ frac_digits fr <> [] ->
  Big.is_nil (sign_chars sg ++ dstr ip ++ frac_str fr ++ rest) = false.
Proof.
  intros Hne. destruct sg as [[]|]; [reflexivity|reflexivity|].
  destruct ip as [|d ip]; [|reflexivity].
  destruct fr as [fp|]; [reflexivity|]. cbn [frac_digits app] in Hne. congruence.
Qed.

(** [sigfigOf] on a text without exponent, for any recursion budget. *)
Lemma sigfigOf_str_plain fuel sg ip fr :
  digits_ok ip -> frac_ok fr -> ip ++ frac_digits fr <> [] ->
  sigfigOf_str fuel (sign_chars sg ++ dstr ip ++ frac_str fr) = plain_count ip fr.
Proof.
  intros Hip Hfr Hne.
  set (s := sign_chars sg ++ dstr ip ++ frac_str fr).
  assert (Hnil : Big.is_nil s = false).
  { subst s. rewrite <- (app_nil_r (frac_str fr)). now apply text_not_nil. }
  assert (Hsci : scientificMatch s = None).
  { unfold scientificMatch. rewrite cut_e_lacks; [reflexivity|].
    subst s. apply lacks_app. split.
    - now apply sign_chars_lacks.
    - apply body_lacks; auto using digit_char_not_e. }
  assert (Hstrip : strip_sign s = dstr ip ++ frac_str fr).
  { subst s. pose proof (@strip_sign_text sg ip fr [] Hip Hne) as H.
    now rewrite !app_nil_r in H. }
  assert (Hbody :
    sigfigOf_str fuel s
    = if str_eqb s "0" then 1 else plain_count ip fr).
  { destruct fuel as [|fuel]; cbn [sigfigOf_str]; rewrite Hnil, Hsci, Hstrip;
      cbn [orb]; destruct (str_eqb s "0"); try reflexivity;
      apply (sigfig_branches Hip Hfr). }
  rewrite Hbody. destruct (str_eqb s "0") eqn:E; [|reflexivity].
  apply str_eqb_eq in E. symmetry. apply plain_count_zero.
  assert (Es : strip_sign s = "0") by now rewrite E.
  rewrite Hstrip in Es.
  destruct ip as [|d ip].
  - destruct fr as [fp|]; [discriminate Es|]. cbn [frac_digits app] in Hne. congruence.
  - inversion Hip as [|? ? Hd _]; subst. cbn [dstr map app] in Es.
    injection Es as Ed Er. apply app_eq_nil in Er as [Er1 Er2].
    destruct fr as [fp|]; [discriminate Er2|]. destruct ip; [|discriminate Er1].
    cbn [frac_digits app]. pose proof (digit_char_zero Hd) as Hz.
    rewrite Ed in Hz. cbn [Big.strip_zeros_front]. rewrite <- Hz. reflexivity.
Qed.

(** The recognition of scientific notation by [sigfigOf]. *)
Lemma scientificMatch_text sg ip fr a t :
  digits_ok ip -> frac_ok fr -> ip ++ frac_digits fr <> [] ->
  is_e a = true -> signed_digits1 t = true -> fr <> Some [] ->
  scientificMatch (sign_chars sg ++ dstr ip ++ frac_str fr ++ a :: t)
  = Some (dstr ip ++ frac_str fr).
Proof.
  intros Hip Hfr Hne Ha Ht Hfp. unfold scientificMatch.
  assert (Hl : lacks is_e (sign_chars sg ++ dstr ip ++ frac_str fr)).
  { apply lacks_app. split; [now apply sign_chars_lacks|].
    apply body_lacks; auto using digit_char_not_e. }
  replace (sign_chars sg ++ dstr ip ++ frac_str fr ++ a :: t)
    with ((sign_chars sg ++ dstr ip ++ frac_str fr) ++ a :: t)
    by now rewrite <- !app_assoc.
  rewrite (@cut_e_app_lacks _ a t Hl Ha).
  pose proof (@strip_sign_text sg ip fr [] Hip Hne) as Hs.
  rewrite !app_nil_r in Hs. rewrite Hs.
  rewrite (take_while_app_all _ _ _ (dstr_all_digits Hip)).
  rewrite (drop_while_app_all _ _ _ (dstr_all_digits Hip)).
  rewrite Ht, andb_true_r.
  destruct fr as [fp|]; cbn [frac_str drop_while take_while].
  - change (is_digit ".") with false. cbv iota.
    change (chr_eqb "." ".") with true. cbn [andb].
    unfold frac_ok in Hfr. cbn [frac_digits] in Hfr.
    rewrite digits1_dstr; [reflexivity|exact Hfr|]. intros ->. now apply Hfp.
  - rewrite app_nil_r, dstr_nil_iff. cbn [frac_digits] in Hne.
    rewrite app_nil_r in Hne. destruct ip; [congruence|reflexivity].
Qed.

(** The coefficient handed to the recursive call is shorter and is not
    itself in scientific form, so the recursion of [sigfigOf] stops after
    one step and its budget is never used up. *)
Lemma scientificMatch_coefficient s c :
  scientificMatch s = Some c ->
  (length c < length s)%nat /\ scientificMatch c = None.
Proof.
  unfold scientificMatch at 1. destruct (cut_e s) as [m [x|]] eqn:E; [|discriminate].
  destruct (_ && _); [|discriminate]. intros H. injection H as <-.
  apply cut_e_spec in E as (Hl & a & Ha & ->). split.
  - rewrite length_app. cbn [length].
    assert (length (strip_sign m) <= length m)%nat; [|lia].
    destruct m as [|b m]; simpl; [lia|]. destruct (is_sign b); simpl; lia.
  - unfold scientificMatch. rewrite cut_e_lacks; [reflexivity|].
    destruct m as [|b m]; [exact Hl|]. simpl.
    destruct (is_sign b); [now apply lacks_cons in Hl|exact Hl].
Qed.

Lemma sigfigOf_str_budget s k :
  sigfigOf_str (length s + k) s = sigfigOf_str (length s) s.
Proof.
  assert (Hplain : forall c f f', scientificMatch c = None ->
                     sigfigOf_str f c = sigfigOf_str f' c).
  { intros c f f' Hc. destruct f, f'; simpl; rewrite Hc; reflexivity. }
  destruct s as [|a r]; [destruct k; reflexivity|].
  cbn [length Nat.add sigfigOf_str].
  destruct (Big.is_nil (a :: r) || str_eqb (a :: r) "0"); [reflexivity|].
  destruct (scientificMatch (a :: r)) as [c|] eqn:E; [|reflexivity].
  apply Hplain. now apply scientificMatch_coefficient in E.
Qed.

Lemma signed_digits1_lacks_space t :
  signed_digits1 t = true -> lacks is_space t.
Proof.
  unfold signed_digits1, strip_sign, digits1. destruct t as [|a t]; [discriminate|].
  destruct (is_sign a) eqn:Ea.
  - destruct t as [|b t]; [discriminate|]. intros H.
    destruct (all_digits_dstr _ H) as [E Hok]. apply lacks_cons. split.
    + unfold is_sign, chr_eqb in Ea. apply orb_prop in Ea as [Ea|Ea];
        apply Ascii.eqb_eq in Ea; subst; reflexivity.
    + rewrite <- E. apply dstr_lacks; auto using digit_char_not_space.
  - intros H. destruct (all_digits_dstr _ H) as [E Hok].
    rewrite <- E. apply dstr_lacks; auto using digit_char_not_space.
Qed.

Lemma is_e_not_space a : is_e a = true -> is_space a = false.
Proof.
  unfold is_e, chr_eqb. intros H. apply orb_prop in H as [H|H];
    apply Ascii.eqb_eq in H; subst; reflexivity.
Qed.

Lemma render_lacks_space d : text_ok d -> lacks is_space (render d).
Proof.
  intros (Hip & Hfr & _ & Hx). unfold render.
  apply lacks_app. split; [now apply sign_chars_lacks|].
  rewrite app_assoc. apply lacks_app. split.
  - apply body_lacks; auto using digit_char_not_space.
  - destruct (dt_exp d) as [[a t]|]; [|reflexivity]. destruct Hx as [Ha Ht].
    apply lacks_cons. split; [now apply is_e_not_space|now apply signed_digits1_lacks_space].
Qed.

(** [sigfigOf] follows the counting rules on every decimal text whose
    coefficient does not end in the decimal point when an exponent
    follows. *)
Lemma sigfigOf_rules d :
  text_ok d ->
  (dt_exp d <> None -> dt_frac d <> Some []) ->
  sigfigOf (VStr (render d)) = SigfigCount d.
Proof.
  intros Hd Hsci. pose proof Hd as (Hip & Hfr & Hne & Hx).
  unfold sigfigOf. rewrite (trim_lacks (render_lacks_space Hd)).
  rewrite SigfigCount_plain. unfold render.
  destruct (dt_exp d) as [[a t]|] eqn:Ex; cbn [expo_gen].
  - destruct Hx as [Ha Ht].
    assert (Hfp : dt_frac d <> Some []) by (apply Hsci; discriminate).
    set (s := sign_chars (dt_sign d) ++ dstr (dt_int d) ++ frac_str (dt_frac d) ++ a :: t).
    assert (Hlen : exists f, length s = S f).
    { subst s. rewrite !length_app. cbn [length].
      exists (length (sign_chars (dt_sign d)) + (length (dstr (dt_int d))
               + (length (frac_str (dt_frac d)) + length t)))%nat. lia. }
    destruct Hlen as [f ->]. cbn [sigfigOf_str].
    subst s. rewrite text_not_nil by exact Hne. cbn [orb].
    rewrite (@scientificMatch_text _ _ _ a t Hip Hfr Hne Ha Ht Hfp).
    replace (str_eqb _ "0") with false.
    + apply (sigfigOf_str_plain f None Hip Hfr Hne).
    + symmetry. apply str_eqb_neq. intros E.
      apply (f_equal (@length ascii)) in E.
      assert (Hb : (1 <= length (dstr (dt_int d) ++ frac_str (dt_frac d)))%nat).
      { destruct (dt_int d) as [|x l]; [|simpl; lia].
        destruct (dt_frac d); [simpl; lia|]. cbn [frac_digits app] in Hne. congruence. }
      rewrite !length_app in E. rewrite length_app in Hb. cbn [length] in E. lia.
  - rewrite app_nil_r. now apply sigfigOf_str_plain.
Qed.

(** ** Counting the figures of a rounded result *)

(** The number of zeros at the end of a string. *)
Definition trailing_zeros (s : str) : Z :=
  Z.of_nat (length s) - Z.of_nat (length (strip_trailing_zeros s)).

Lemma drop_while_app_nonempty p s t :
  drop_while p s <> [] -> drop_while p (s ++ t) = drop_while p s ++ t.
Proof.
  induction s as [|a s IH]; simpl; [congruence|].
  destruct (p a); [exact IH|reflexivity].
Qed.

Lemma drop_while_end_prefix p pre s :
  drop_while_end p s <> [] ->
  drop_while_end p (pre ++ s) = pre ++ drop_while_end p s.
Proof.
  unfold drop_while_end. intros H. rewrite rev_app_distr.
  rewrite drop_while_app_nonempty.
  - now rewrite rev_app_distr, rev_involutive.
  - intros E. apply H. now rewrite E.
Qed.

Lemma trailing_zeros_integer pre d r :
  digits_ok (d :: r) -> d <> 0%nat ->
  trailing_zeros (pre ++ dstr (d :: r))
  = Z.of_nat (length (d :: r)) - Z.of_nat (length (Big.strip_zeros_back (d :: r))).
Proof.
  intros Hok Hd. unfold trailing_zeros, strip_trailing_zeros.
  pose proof (strip_back_dstr Hok) as E. unfold strip_trailing_zeros in E.
  destruct (strip_back_cons_nonzero r Hd) as [r' Hr'].
  rewrite drop_while_end_prefix by (rewrite E, Hr'; discriminate).
  rewrite E, !length_app, !dstr_length. lia.
Qed.

Lemma plain_count_nonzero_head d r fr :
  d <> 0%nat ->
  plain_count (d :: r) fr
  = match fr with
    | Some fp => Z.of_nat (length (d :: r)) + Z.of_nat (length fp)
    | None => Z.of_nat (length (Big.strip_zeros_back (d :: r)))
    end.
Proof.
  intros Hd. unfold plain_count. rewrite (strip_front_nonzero _ Hd).
  destruct fr; [reflexivity|].
  destruct (strip_back_cons_nonzero r Hd) as [r' ->]. cbn [length]. lia.
Qed.

(** The count of [sigfigOf] on each layout that [toPrecision] prints for
    [n] digits with a nonzero first digit. *)
Lemma shape_count e d r flag :
  digits_ok (d :: r) -> d <> 0%nat ->
  (flag = false -> e < Z.of_nat (length (d :: r))) ->
  let '(ip, fr, ex) := shape e (d :: r) flag in
  match fr, ex with
  | None, None =>
      ip = d :: r /\
      plain_count ip fr = Z.of_nat (length (Big.strip_zeros_back (d :: r)))
  | _, _ => plain_count ip fr = Z.of_nat (length (d :: r))
  end.
Proof.
  intros Hok Hd He. unfold shape. set (ds := d :: r) in *.
  assert (H1 : firstn 1 ds = [d]) by reflexivity.
  assert (Hs1 : length (skipn 1 ds) = length r) by reflexivity.
  destruct flag.
  { rewrite H1. destruct (1 <? Z.of_nat (length ds)) eqn:E0.
    - rewrite plain_count_nonzero_head by exact Hd. rewrite Hs1.
      subst ds. cbn [length]. lia.
    - apply Z.ltb_ge in E0. rewrite plain_count_nonzero_head by exact Hd.
      assert (r = []) by (subst ds; destruct r; [reflexivity|cbn [length] in E0; lia]).
      subst r. subst ds. unfold Big.strip_zeros_back.
      cbn [rev app Big.strip_zeros_front]. unfold Big.is_zero_digit.
      apply Nat.eqb_neq in Hd. rewrite Hd. reflexivity. }
  specialize (He eq_refl).
  destruct (e <? 0) eqn:E1.
  { unfold plain_count. cbn [Big.strip_zeros_front Big.is_zero_digit Nat.eqb].
    rewrite strip_front_repeat_zero. subst ds. rewrite (strip_front_nonzero _ Hd).
    cbn [length]. lia. }
  apply Z.ltb_ge in E1.
  destruct (e >? 0) eqn:E2.
  { replace (e + 1 >? Z.of_nat (length ds)) with false
      by (symmetry; rewrite Z.gtb_ltb; apply Z.ltb_ge; lia).
    destruct (e + 1 <? Z.of_nat (length ds)) eqn:E4.
    - apply Z.ltb_lt in E4. apply Z.gtb_lt in E2.
      assert (Hf : exists r0, firstn (Z.to_nat (e + 1)) ds = d :: r0).
      { replace (Z.to_nat (e + 1)) with (S (Z.to_nat e)) by lia. subst ds. simpl. eauto. }
      destruct Hf as [r0 Hf].
      pose proof (firstn_skipn (Z.to_nat (e + 1)) ds) as Hcat.
      rewrite Hf in *. rewrite plain_count_nonzero_head by exact Hd.
      apply (f_equal (@length nat)) in Hcat. rewrite length_app in Hcat. lia.
    - split; [reflexivity|]. subst ds. now rewrite plain_count_nonzero_head. }
  destruct (1 <? Z.of_nat (length ds)) eqn:E5.
  - rewrite H1. rewrite plain_count_nonzero_head by exact Hd. rewrite Hs1.
    subst ds. cbn [length]. lia.
  - split; [reflexivity|]. subst ds. now rewrite plain_count_nonzero_head.
Qed.

Lemma includes_dot_e_render neg ip fr ex :
  digits_ok ip -> frac_ok fr ->
  includes "." (sign_str neg ++ dstr ip ++ frac_str fr ++ expo_str ex)
  || includes "e" (sign_str neg ++ dstr ip ++ frac_str fr ++ expo_str ex)
  = match fr, ex with None, None => false | _, _ => true end.
Proof.
  intros Hip Hfr. rewrite !includes_app.
  assert (Hs : forall ch, (ch = "." \/ ch = "e")%char -> includes ch (sign_str neg) = false)
    by (intros ch [-> | ->]; destruct neg; reflexivity).
  rewrite (Hs "."%char), (Hs "e"%char) by auto.
  rewrite (includes_lacks _ (dstr_lacks_dot Hip)).
  rewrite (includes_lacks "e" (s := dstr ip))
    by (apply dstr_lacks; [|exact Hip]; intros d0 H0; digit_cases d0 H0).
  cbn [orb].
  destruct fr as [fp|]; cbn [frac_str].
  - reflexivity.
  - cbn [includes existsb orb]. destruct ex as [E|]; [|reflexivity].
    cbn [expo_str]. rewrite exp_str_eq. cbn [includes existsb].
    change (chr_eqb "e" "e") with true. cbn [orb]. apply orb_true_r.
Qed.

Lemma shape_exp_frac e ds flag :
  let '(ip, fr, ex) := shape e ds flag in ex <> None -> fr <> Some [].
Proof.
  unfold shape. destruct flag.
  - destruct (1 <? Z.of_nat (length ds)) eqn:E; [|discriminate].
    apply Z.ltb_lt in E. intros _ H. injection H as H.
    destruct ds as [|a [|b ds]]; cbn [length] in E; try lia. discriminate.
  - repeat match goal with
           | |- context [if ?b then _ else _] => destruct b
           end; intros H; congruence.
Qed.

Lemma toPrecision_sigfig x n r :
  canon x -> Big.nonzero x = true -> Big.toPrecision x n = Ok r ->
  sigfigOf (VStr r)
  = if includes "." r || includes "e" r then n else n - trailing_zeros r.
Proof.
  intros Hx Hnzx. unfold Big.toPrecision.
  destruct ((n <? 1) || (n >? Big.MAX_DP)) eqn:Hn; [discriminate|].
  apply orb_false_iff in Hn as [Hn1 _]. apply Z.ltb_ge in Hn1.
  intros H. injection H as <-. rewrite Hnzx.
  destruct (canon_cases Hx) as [[Hz _]|[_ Hnz]]; [congruence|].
  destruct Hx as (Hs & Hok & _).
  destruct (round_digits x Hnz Hok Hn1) as (Hsy & Hoky & Hnzy & Hly & _).
  set (y := Big.round x n) in *.
  destruct Hnzy as (d & r & Hc & Hd & _).
  set (ds := Big.c (Big.pad y n)).
  assert (Hds : ds = d :: (r ++ repeat 0%nat (Z.to_nat n - length (Big.c y))))
    by (subst ds; unfold Big.pad; cbn [Big.c]; now rewrite Hc).
  assert (Hdok : digits_ok ds).
  { subst ds. unfold Big.pad. cbn [Big.c]. apply digits_ok_app.
    split; [exact Hoky|apply digits_ok_repeat_zero]. }
  assert (Hlen : Z.of_nat (length ds) = n).
  { subst ds. unfold Big.pad. cbn [Big.c]. rewrite length_app, repeat_length. lia. }
  rewrite stringify_shape. fold ds. change (Big.e (Big.pad y n)) with (Big.e y).
  change (Big.s (Big.pad y n)) with (Big.s y). rewrite andb_true_r.
  set (flag := (n <=? Big.e y) || (Big.e y <=? Big.NE) || (Big.e y >=? Big.PE)).
  assert (Hflag : flag = false -> Big.e y < Z.of_nat (length ds)).
  { subst flag. intros Hf. apply orb_false_iff in Hf as [Hf _].
    apply orb_false_iff in Hf as [Hf _]. apply Z.leb_gt in Hf. lia. }
  rewrite Hds in Hdok, Hflag.
  pose proof (shape_facts (Big.e y) flag Hdok) as Hfacts.
  pose proof (@shape_count (Big.e y) d _ flag Hdok Hd Hflag) as Hcount.
  pose proof (shape_exp_frac (Big.e y) ds flag) as Hexp.
  rewrite <- Hds in Hfacts, Hcount.
  destruct (shape (Big.e y) ds flag) as [[ip fr] ex].
  destruct Hfacts as (Hip & Hfr & Hne & _).
  set (neg := Big.s y <? 0).
  pose (txt := mkText (if neg then Some true else None) ip fr (expo_of ex)).
  assert (Hrender : render txt
                    = sign_str neg ++ dstr ip ++ frac_str fr ++ expo_str ex).
  { unfold render, txt. cbn [dt_sign dt_int dt_frac dt_exp].
    rewrite expo_of_str. now destruct neg. }
  assert (Htxt : text_ok txt).
  { unfold text_ok, txt. cbn [dt_sign dt_int dt_frac dt_exp].
    repeat split; try assumption.
    - intros E0. apply app_eq_nil in E0 as [E0 _]. contradiction.
    - destruct ex as [E|]; [|exact I]. split; [reflexivity|apply signed_digits1_exp]. }
  assert (Hside : dt_exp txt <> None -> dt_frac txt <> Some []).
  { unfold txt. cbn [dt_exp dt_frac]. intros Hx. apply Hexp.
    destruct ex; [discriminate|]. now cbn in Hx. }
  rewrite <- Hrender, (sigfigOf_rules Htxt Hside), SigfigCount_plain, Hrender.
  unfold txt. cbn [dt_int dt_frac].
  rewrite (includes_dot_e_render neg ex Hip Hfr).
  destruct fr as [fp|]; [now rewrite Hcount, Hlen|].
  destruct ex as [E|]; [now rewrite Hcount, Hlen|].
  destruct Hcount as [-> Hcount]. rewrite Hcount. cbn [frac_str expo_str app].
  rewrite app_nil_r, Hds, trailing_zeros_integer by (rewrite <- ?Hds; assumption).
  rewrite <- Hds. lia.
Qed.

(** C1 (as the code has it).  For a parseable nonzero value whose exponent
    is within [MAX_EXPONENT] and a count [n] between 1 and the largest
    precision of the decimal library, [round] at the default threshold
    returns a string on which [sigfigOf] gives [n] whenever that string
    has a decimal point or an exponent; on a whole number printed without
    a decimal point [sigfigOf] gives [n] minus the number of trailing
    zeros of that string. *)
Theorem round_sigfigOf (v : value) (sigfigs : number) (x : Big.t) (n : Z) :
  new_Big v = Ok x -> Big.nonzero x = true -> exponent_ok x ->
  validateSigfigs sigfigs = Ok n -> n <= Big.MAX_DP ->
  exists r,
    round v sigfigs None = Ok r /\
    sigfigOf (VStr r)
    = if includes "." r || includes "e" r then n else n - trailing_zeros r.
Proof.
  intros Hx Hnz _ Hv Hn.
  destruct (@round_default_returns v sigfigs x n Hx Hv Hn) as [r Hr].
  exists r. split; [exact Hr|].
  rewrite round_default, Hv, Hx in Hr. cbn [bind] in Hr.
  pose proof (new_Big_canon _ Hx) as Hc.
  rewrite (eq_zero_canon Hc), Hnz in Hr. cbn [negb] in Hr.
  now apply toPrecision_sigfig with (x := x).
Qed.

Lemma round_sigfigOf_witness :
  exists r,
    round (lit "123.456") (Num.of_Z 4) None = Ok r /\
    sigfigOf (VStr r)
    = if includes "." r || includes "e" r then 4 else 4 - trailing_zeros r.
Proof.
  apply (@round_sigfigOf (lit "123.456") (Num.of_Z 4)
           (Big.mk 1 2 [1; 2; 3; 4; 5; 6]%nat) 4);
    [reflexivity|reflexivity|vm_compute; discriminate|reflexivity
    |vm_compute; discriminate].
Defined.

(** C1 (refuted as stated).  [round(100, 3)] returns ["100"], on which
    [sigfigOf] gives 1, not 3. *)
Lemma round_sigfigOf_trailing_zeros :
  round (lit "100") (Num.of_Z 3) None = Ok "100" /\
  sigfigOf (VStr "100") = 1 /\ sigfigOf (VStr "100") <> 3.
Proof. split; [reflexivity|split; [reflexivity|discriminate]]. Qed.

(** ** Scientific notation with a bare decimal point *)

(** The text [1.e5]: integer part [1], a decimal point with no digit after
    it, exponent [e5]. *)
Definition text_1_e5 : DecimalText :=
  mkText None [1%nat] (Some []) (Some ("e"%char, "5")).

(** C3 (the code departs from the rule).  ["1.e5"] is accepted by the
    decimal parser and is in scientific form with coefficient ["1."],
    whose count is 1; [sigfigOf] does not recognise it as scientific
    notation and counts the characters [e5] as fraction digits. *)
Lemma sigfigOf_bare_point_exponent :
  render text_1_e5 = "1.e5" /\ text_ok text_1_e5 /\
  new_Big (VStr "1.e5") = Ok (Big.mk 1 5 [1%nat]) /\
  SigfigCount text_1_e5 = 1 /\
  sigfigOf (VStr "1.") = 1 /\
  sigfigOf (VStr "1.e5") = 3.
Proof.
  split; [reflexivity|]. split.
  - unfold text_ok, text_1_e5. cbn [dt_int dt_frac dt_exp].
    repeat split; try discriminate.
    + constructor; [lia|constructor].
    + constructor.
  - repeat split; reflexivity.
Qed.

(** The examples of the specification for [sigfigOf]. *)
Lemma sigfigOf_examples :
  sigfigOf (VStr "1.230") = 4 /\ sigfigOf (lit "100") = 1 /\
  sigfigOf (VStr "100.") = 3 /\ sigfigOf (VStr "0") = 1 /\
  sigfigOf (VStr "1.23e-4") = 3.
Proof. repeat split; reflexivity. Qed.

(** ** Division by zero and unparsable operands *)

(** C5 (as the code has it).  When both operands parse, the divisor is
    zero and the optional count is absent or valid, [div] and [idiv] raise
    their division-by-zero error and [mod] raises its own, and the handler
    does not turn them into the invalid-input error.  When the dividend
    does not parse, [div], [idiv] and [mod] raise the invalid-input error,
    whatever the divisor. *)
Theorem division_by_zero_errors (a b : value) (sigfigs : option number)
    (x y : Big.t) :
  validate_opt sigfigs = Ok tt ->
  new_Big b = Ok y -> Big.eq y Big.zero = true ->
  (new_Big a = Ok x ->
   div a b sigfigs = Throw ERR_DIV_ZERO /\
   idiv a b sigfigs = Throw ERR_DIV_ZERO /\
   mod_ a b sigfigs = Throw ERR_MOD_ZERO) /\
  ((exists err, new_Big a = Throw err) ->
   div a b sigfigs = Throw ERR_OPERANDS /\
   idiv a b sigfigs = Throw ERR_OPERANDS /\
   mod_ a b sigfigs = Throw ERR_OPERANDS) /\
  ERR_DIV_ZERO <> ERR_OPERANDS /\ ERR_MOD_ZERO <> ERR_OPERANDS /\
  ERR_MOD_ZERO <> ERR_DIV_ZERO.
Proof.
  intros Hv Hb Hz. unfold div, idiv, mod_. rewrite Hv. cbn [bind].
  split; [|split].
  - intros Ha. rewrite Ha, Hb. cbn [bind]. rewrite Hz.
    repeat split; reflexivity.
  - intros [err Ha]. rewrite Ha. cbn [bind].
    assert (Hm : message err = "[big.js] Invalid number").
    { unfold new_Big in Ha. rewrite parse_unfold in Ha.
      destruct (negb (Big.NUMERIC (String_ a))).
      - injection Ha as <-. reflexivity.
      - destruct (String_ a) as [|c0 r0]; [discriminate|].
        destruct (chr_eqb c0 "-"); discriminate. }
    unfold catch_keep, try_catch. rewrite Hm. repeat split; reflexivity.
  - repeat split; discriminate.
Qed.

Lemma division_by_zero_errors_witness :
  div (lit "5") (lit "0") None = Throw ERR_DIV_ZERO /\
  mod_ (lit "5") (VStr "0.0") None = Throw ERR_MOD_ZERO.
Proof.
  destruct (@division_by_zero_errors (lit "5") (lit "0") None
              (Big.mk 1 0 [5%nat]) (Big.mk 1 0 [0%nat])
              eq_refl eq_refl eq_refl) as [H1 _].
  destruct (@division_by_zero_errors (lit "5") (VStr "0.0") None
              (Big.mk 1 0 [5%nat]) (Big.mk 1 0 [0%nat])
              eq_refl eq_refl eq_refl) as [H2 _].
  destruct (H1 eq_refl) as (Hd & _ & _). destruct (H2 eq_refl) as (_ & _ & Hm).
  split; [exact Hd|exact Hm].
Defined.

(** C5 (refuted as stated).  With an unparsable dividend and a zero
    divisor, [div], [idiv] and [mod] raise the invalid-input error, not
    the division-by-zero error. *)
Lemma division_by_zero_not_prior :
  new_Big (lit "0") = Ok (Big.mk 1 0 [0%nat]) /\
  div (VStr "abc") (lit "0") None = Throw ERR_OPERANDS /\
  idiv (VStr "abc") (lit "0") None = Throw ERR_OPERANDS /\
  mod_ (VStr "abc") (lit "0") None = Throw ERR_OPERANDS /\
  div (lit "5") (lit "0") None = Throw ERR_DIV_ZERO.
Proof. repeat split; reflexivity. Qed.

(** ** The comparison of big.js is the order of the exact values *)

(** The value of [x] counted in units of [10^q], for [q] at most the
    exponent of its last digit. *)
Definition scaled (x : Big.t) (q : Z) : Z := Big.mant x * 10 ^ (Big.qexp x - q).

(** Exact order of two decimal values. *)
Definition value_le (x y : Big.t) : Prop :=
  scaled x (Z.min (Big.qexp x) (Big.qexp y))
  <= scaled y (Z.min (Big.qexp x) (Big.qexp y)).

Definition no_trailing_zero (l : list nat) : Prop := l = [] \/ last l 0%nat <> 0%nat.

Lemma Z_of_digits_nonneg l : 0 <= Z_of_digits l.
Proof.
  induction l as [|d l IH] using rev_ind; [cbn; lia|].
  rewrite Z_of_digits_snoc. lia.
Qed.

Lemma Z_of_digits_pos l : l <> [] -> last l 0%nat <> 0%nat -> 0 < Z_of_digits l.
Proof.
  destruct l as [|d l] using rev_ind; [congruence|]. intros _.
  rewrite last_last, Z_of_digits_snoc. pose proof (Z_of_digits_nonneg l). lia.
Qed.

Lemma no_trailing_zero_tail d l : no_trailing_zero (d :: l) -> no_trailing_zero l.
Proof.
  intros [H|H]; [discriminate|]. destruct l as [|a l]; [now left|]. right. exact H.
Qed.

Lemma strip_front_fixed l :
  Big.strip_zeros_front l = l -> l = [] \/ hd 0%nat l <> 0%nat.
Proof.
  destruct l as [|d l]; [now left|]. intros H. right. cbn [hd].
  now apply (strip_front_head (d :: l) H).
Qed.

Lemma strip_back_fixed l : Big.strip_zeros_back l = l -> no_trailing_zero l.
Proof.
  unfold Big.strip_zeros_back. intros H.
  assert (H' : Big.strip_zeros_front (rev l) = rev l).
  { rewrite <- H at 2. now rewrite rev_involutive. }
  destruct (@strip_front_fixed (rev l) H') as [E|E].
  - left. destruct l; [reflexivity|]. apply (f_equal (@length nat)) in E.
    rewrite length_rev in E. discriminate.
  - right. now rewrite hd_rev_last in E.
Qed.

Lemma pow10_pos k : 0 < 10 ^ k \/ k < 0.
Proof. destruct (Z_lt_le_dec k 0); [now right|left; now apply Z.pow_pos_nonneg]. Qed.

Lemma cmp_digits_spec xc yc :
  digits_ok xc -> digits_ok yc -> no_trailing_zero xc -> no_trailing_zero yc ->
  Big.cmp_digits false xc yc
  = Z.sgn (Z_of_digits xc * 10 ^ Z.of_nat (length yc)
           - Z_of_digits yc * 10 ^ Z.of_nat (length xc)).
Proof.
  revert yc. induction xc as [|a xr IH]; intros yc Hx Hy Tx Ty.
  - destruct yc as [|b yr]; [reflexivity|]. cbn [Big.cmp_digits xorb length].
    assert (0 < Z_of_digits (b :: yr)).
    { destruct Ty as [Ty|Ty]; [discriminate|]. apply Z_of_digits_pos; [discriminate|exact Ty]. }
    change (Z_of_digits []) with 0. change (10 ^ Z.of_nat 0) with 1.
    symmetry. apply Z.sgn_neg. lia.
  - destruct yc as [|b yr].
    + cbn [Big.cmp_digits xorb length].
      assert (0 < Z_of_digits (a :: xr)).
      { destruct Tx as [Tx|Tx]; [discriminate|]. apply Z_of_digits_pos; [discriminate|exact Tx]. }
      change (Z_of_digits []) with 0. change (10 ^ Z.of_nat 0) with 1.
      symmetry. apply Z.sgn_pos. lia.
    + inversion Hx as [|? ? Ha Hxr]; subst. inversion Hy as [|? ? Hb Hyr]; subst.
      pose proof (Z_of_digits_bounds Hxr) as Bx.
      pose proof (Z_of_digits_bounds Hyr) as By.
      cbn [Big.cmp_digits]. rewrite !Z_of_digits_cons. cbn [length].
      rewrite !Nat2Z.inj_succ, !Z.pow_succ_r by lia.
      set (P := 10 ^ Z.of_nat (length xr)) in *.
      set (Q := 10 ^ Z.of_nat (length yr)) in *.
      set (X := Z_of_digits xr) in *. set (Y := Z_of_digits yr) in *.
      assert (HP : 0 < P) by (apply Z.pow_pos_nonneg; lia).
      assert (HQ : 0 < Q) by (apply Z.pow_pos_nonneg; lia).
      destruct (a =? b)%nat eqn:Eab.
      * apply Nat.eqb_eq in Eab. subst b.
        rewrite (IH yr Hxr Hyr (no_trailing_zero_tail Tx) (no_trailing_zero_tail Ty)).
        fold P Q X Y.
        replace ((Z.of_nat a * P + X) * (10 * Q) - (Z.of_nat a * Q + Y) * (10 * P))
          with (10 * (X * Q - Y * P)) by ring.
        rewrite Z.sgn_mul. change (Z.sgn 10) with 1. lia.
      * apply Nat.eqb_neq in Eab. cbn [xorb].
        assert (HXQ : 0 <= X * Q < P * Q) by nia.
        assert (HYP : 0 <= Y * P < P * Q) by nia.
        destruct (b <? a)%nat eqn:Eba.
        -- apply Nat.ltb_lt in Eba. symmetry. apply Z.sgn_pos.
           assert (1 <= Z.of_nat a - Z.of_nat b) by lia.
           replace ((Z.of_nat a * P + X) * (10 * Q) - (Z.of_nat b * Q + Y) * (10 * P))
             with (10 * ((Z.of_nat a - Z.of_nat b) * (P * Q) + X * Q - Y * P)) by ring.
           nia.
        -- apply Nat.ltb_ge in Eba. symmetry. apply Z.sgn_neg.
           assert (1 <= Z.of_nat b - Z.of_nat a) by lia.
           replace ((Z.of_nat a * P + X) * (10 * Q) - (Z.of_nat b * Q + Y) * (10 * P))
             with (- (10 * ((Z.of_nat b - Z.of_nat a) * (P * Q) + Y * P - X * Q))) by ring.
           nia.
Qed.

Lemma cmp_digits_neg xc yc :
  Big.cmp_digits true xc yc = - Big.cmp_digits false xc yc.
Proof.
  revert yc. induction xc as [|a xr IH]; intros [|b yr]; cbn [Big.cmp_digits xorb];
    try reflexivity.
  destruct (a =? b)%nat; [apply IH|]. destruct (b <? a)%nat; reflexivity.
Qed.

Lemma nonzero_digits_facts ds :
  digits_ok ds -> nonzero_digits ds ->
  10 ^ (Z.of_nat (length ds) - 1) <= Z_of_digits ds < 10 ^ Z.of_nat (length ds)
  /\ no_trailing_zero ds /\ (1 <= length ds)%nat.
Proof.
  intros Hok (d & r & -> & Hd & Hs). split; [|split].
  - pose proof (Z_of_digits_bounds Hok). pose proof (Z_of_digits_lower Hok Hd).
    cbn [length] in *. replace (Z.of_nat (S (length r)) - 1) with (Z.of_nat (length r)) by lia.
    lia.
  - now apply strip_back_fixed.
  - cbn [length]. lia.
Qed.

Lemma zero_mant x : Big.c x = [0%nat] -> Big.mant x = 0.
Proof. intros H. unfold Big.mant. rewrite H. cbn. lia. Qed.

Lemma sgn_scale a k : 0 < k -> Z.sgn (a * k) = Z.sgn a.
Proof. intros Hk. rewrite Z.sgn_mul, (Z.sgn_pos k Hk). lia. Qed.

Lemma sgn_sign_mul sg a : sign_ok sg -> 0 < a -> Z.sgn (sg * a) = sg.
Proof. intros [-> | ->] Ha; [apply Z.sgn_pos|apply Z.sgn_neg]; lia. Qed.

(** [cmp] is the sign of the difference of the exact values. *)
Lemma cmp_spec x y :
  canon x -> canon y ->
  Big.cmp x y
  = Z.sgn (scaled x (Z.min (Big.qexp x) (Big.qexp y))
           - scaled y (Z.min (Big.qexp x) (Big.qexp y))).
Proof.
  intros Hx Hy. set (q := Z.min (Big.qexp x) (Big.qexp y)).
  assert (Hqx : 0 <= Big.qexp x - q) by lia.
  assert (Hqy : 0 <= Big.qexp y - q) by lia.
  assert (Hpx : 0 < 10 ^ (Big.qexp x - q)) by (apply Z.pow_pos_nonneg; lia).
  assert (Hpy : 0 < 10 ^ (Big.qexp y - q)) by (apply Z.pow_pos_nonneg; lia).
  pose proof Hx as (Hsx & Hokx & _). pose proof Hy as (Hsy & Hoky & _).
  unfold Big.cmp, scaled.
  destruct (canon_cases Hx) as [(Hnx & Hcx & Hex)|(Hnx & Hdx)];
    destruct (canon_cases Hy) as [(Hny & Hcy & Hey)|(Hny & Hdy)];
    rewrite Hnx, Hny; cbn [negb orb].
  - rewrite (zero_mant _ Hcx), (zero_mant _ Hcy). reflexivity.
  - rewrite (zero_mant _ Hcx). unfold Big.mant.
    destruct (nonzero_digits_facts Hoky Hdy) as (By & _ & Ly).
    assert (0 < Z_of_digits (Big.c y)).
    { assert (0 < 10 ^ (Z.of_nat (length (Big.c y)) - 1))
        by (apply Z.pow_pos_nonneg; lia). lia. }
    replace (0 * 10 ^ (Big.qexp x - q) - Big.s y * Z_of_digits (Big.c y) * 10 ^ (Big.qexp y - q))
      with ((- Big.s y) * (Z_of_digits (Big.c y) * 10 ^ (Big.qexp y - q))) by ring.
    rewrite Z.sgn_mul, (Z.sgn_pos (_ * _)) by nia.
    destruct Hsy as [-> | ->]; reflexivity.
  - rewrite (zero_mant _ Hcy). unfold Big.mant.
    destruct (nonzero_digits_facts Hokx Hdx) as (Bx & _ & Lx).
    assert (0 < Z_of_digits (Big.c x)).
    { assert (0 < 10 ^ (Z.of_nat (length (Big.c x)) - 1))
        by (apply Z.pow_pos_nonneg; lia). lia. }
    replace (Big.s x * Z_of_digits (Big.c x) * 10 ^ (Big.qexp x - q) - 0 * 10 ^ (Big.qexp y - q))
      with (Big.s x * (Z_of_digits (Big.c x) * 10 ^ (Big.qexp x - q))) by ring.
    symmetry. apply sgn_sign_mul; [exact Hsx|nia].
  - destruct (nonzero_digits_facts Hokx Hdx) as (Bx & Tx & Lx).
    destruct (nonzero_digits_facts Hoky Hdy) as (By & Ty & Ly).
    set (lx := Z.of_nat (length (Big.c x))) in *.
    set (ly := Z.of_nat (length (Big.c y))) in *.
    set (X := Z_of_digits (Big.c x)) in *. set (Y := Z_of_digits (Big.c y)) in *.
    assert (HX0 : 0 < X)
      by (assert (0 < 10 ^ (lx - 1)) by (apply Z.pow_pos_nonneg; lia); lia).
    assert (HY0 : 0 < Y)
      by (assert (0 < 10 ^ (ly - 1)) by (apply Z.pow_pos_nonneg; lia); lia).
    unfold Big.mant. fold X Y.
    set (A := X * 10 ^ (Big.qexp x - q)). set (B := Y * 10 ^ (Big.qexp y - q)).
    assert (HA : 0 < A) by (subst A; nia).
    assert (HB : 0 < B) by (subst B; nia).
    destruct (Big.s x =? Big.s y) eqn:Es; cbn [negb].
    + apply Z.eqb_eq in Es.
      replace (Big.s x * X * 10 ^ (Big.qexp x - q) - Big.s y * Y * 10 ^ (Big.qexp y - q))
        with (Big.s x * (A - B)) by (subst A B; rewrite <- Es; ring).
      assert (Hqxe : Big.qexp x = Big.e x - (lx - 1)) by reflexivity.
      assert (Hqye : Big.qexp y = Big.e y - (ly - 1)) by reflexivity.
      (* bounds of the magnitudes *)
      assert (HAb : 10 ^ (Big.e x - q) <= A < 10 ^ (Big.e x - q + 1)).
      { subst A. replace (Big.e x - q) with ((lx - 1) + (Big.qexp x - q)) by lia.
        replace (lx - 1 + (Big.qexp x - q) + 1) with (lx + (Big.qexp x - q)) by lia.
        rewrite !Z.pow_add_r by lia. nia. }
      assert (HBb : 10 ^ (Big.e y - q) <= B < 10 ^ (Big.e y - q + 1)).
      { subst B. replace (Big.e y - q) with ((ly - 1) + (Big.qexp y - q)) by lia.
        replace (ly - 1 + (Big.qexp y - q) + 1) with (ly + (Big.qexp y - q)) by lia.
        rewrite !Z.pow_add_r by lia. nia. }
      destruct (Big.e x =? Big.e y) eqn:Ee; cbn [negb].
      * apply Z.eqb_eq in Ee.
        assert (Hd : X * 10 ^ ly - Y * 10 ^ lx = (A - B) * 10 ^ (Z.min lx ly)).
        { subst A B.
          rewrite Z.mul_sub_distr_r, <- !Z.mul_assoc, <- !Z.pow_add_r by lia.
          f_equal; f_equal; f_equal; lia. }
        assert (Hsg : Big.cmp_digits false (Big.c x) (Big.c y) = Z.sgn (A - B)).
        { rewrite (cmp_digits_spec Hokx Hoky Tx Ty). fold X Y lx ly. rewrite Hd.
          apply sgn_scale. apply Z.pow_pos_nonneg; lia. }
        destruct Hsx as [Hs1|Hs1]; rewrite Hs1.
        -- change (1 <? 0) with false. rewrite Hsg. f_equal; lia.
        -- change (-1 <? 0) with true. rewrite cmp_digits_neg, Hsg.
           rewrite <- Z.sgn_opp. f_equal; lia.
      * apply Z.eqb_neq in Ee.
        destruct (Big.e x >? Big.e y) eqn:Eg.
        -- apply Z.gtb_lt in Eg.
           assert (B < A).
           { assert (10 ^ (Big.e y - q + 1) <= 10 ^ (Big.e x - q))
               by (apply Z.pow_le_mono_r; lia). lia. }
           destruct Hsx as [Hs1|Hs1]; rewrite Hs1.
           ++ change (1 <? 0) with false. cbn [xorb]. symmetry. apply Z.sgn_pos. lia.
           ++ change (-1 <? 0) with true. cbn [xorb]. symmetry. apply Z.sgn_neg. lia.
        -- rewrite Z.gtb_ltb in Eg. apply Z.ltb_ge in Eg.
           assert (A < B).
           { assert (10 ^ (Big.e x - q + 1) <= 10 ^ (Big.e y - q))
               by (apply Z.pow_le_mono_r; lia). lia. }
           destruct Hsx as [Hs1|Hs1]; rewrite Hs1.
           ++ change (1 <? 0) with false. cbn [xorb]. symmetry. apply Z.sgn_neg. lia.
           ++ change (-1 <? 0) with true. cbn [xorb]. symmetry. apply Z.sgn_pos. lia.
    + apply Z.eqb_neq in Es.
      assert (Hopp : Big.s y = - Big.s x) by (destruct Hsx, Hsy; lia).
      replace (Big.s x * X * 10 ^ (Big.qexp x - q) - Big.s y * Y * 10 ^ (Big.qexp y - q))
        with (Big.s x * (A + B)) by (subst A B; rewrite Hopp; ring).
      symmetry. apply sgn_sign_mul; [exact Hsx|lia].
Qed.

Lemma scaled_shift x q q' :
  q' <= q -> q <= Big.qexp x -> scaled x q' = scaled x q * 10 ^ (q - q').
Proof.
  intros H1 H2. unfold scaled. rewrite <- Z.mul_assoc, <- Z.pow_add_r by lia.
  do 2 f_equal. lia.
Qed.

Lemma value_le_at x y q :
  q <= Big.qexp x -> q <= Big.qexp y ->
  (value_le x y <-> scaled x q <= scaled y q).
Proof.
  intros Hx Hy. unfold value_le.
  set (m := Z.min (Big.qexp x) (Big.qexp y)).
  rewrite (@scaled_shift x m q), (@scaled_shift y m q) by lia.
  assert (0 < 10 ^ (m - q)) by (apply Z.pow_pos_nonneg; lia).
  split; intros H0; nia.
Qed.

Lemma value_le_refl x : value_le x x.
Proof. unfold value_le. lia. Qed.

Lemma value_le_trans x y z : value_le x y -> value_le y z -> value_le x z.
Proof.
  set (q := Z.min (Big.qexp x) (Z.min (Big.qexp y) (Big.qexp z))).
  rewrite (@value_le_at x y q), (@value_le_at y z q), (@value_le_at x z q) by lia.
  lia.
Qed.

Lemma gt_spec x y :
  canon x -> canon y ->
  (Big.gt x y = false <-> value_le x y) /\ (Big.gt x y = true -> value_le y x).
Proof.
  intros Hx Hy. unfold Big.gt. rewrite (cmp_spec Hx Hy).
  unfold value_le. rewrite (Z.min_comm (Big.qexp y) (Big.qexp x)).
  set (a := scaled x _). set (b := scaled y _).
  rewrite Z.gtb_ltb. split; [split|]; intros H.
  - apply Z.ltb_ge in H. destruct (Z.sgn_spec (a - b)) as [[? ?]|[[? ?]|[? ?]]]; lia.
  - apply Z.ltb_ge. destruct (Z.sgn_spec (a - b)) as [[? ?]|[[? ?]|[? ?]]]; lia.
  - apply Z.ltb_lt in H. destruct (Z.sgn_spec (a - b)) as [[? ?]|[[? ?]|[? ?]]]; lia.
Qed.

Lemma lt_spec x y :
  canon x -> canon y ->
  (Big.lt x y = false <-> value_le y x) /\ (Big.lt x y = true -> value_le x y).
Proof.
  intros Hx Hy. unfold Big.lt. rewrite (cmp_spec Hx Hy).
  unfold value_le. rewrite (Z.min_comm (Big.qexp y) (Big.qexp x)).
  set (a := scaled x _). set (b := scaled y _).
  split; [split|]; intros H.
  - apply Z.ltb_ge in H. destruct (Z.sgn_spec (a - b)) as [[? ?]|[[? ?]|[? ?]]]; lia.
  - apply Z.ltb_ge. destruct (Z.sgn_spec (a - b)) as [[? ?]|[[? ?]|[? ?]]]; lia.
  - apply Z.ltb_lt in H. destruct (Z.sgn_spec (a - b)) as [[? ?]|[[? ?]|[? ?]]]; lia.
Qed.

(** ** The reducers [max] and [min] *)

Lemma select_max_spec first rest :
  canon first -> Forall (fun p => canon (big p)) rest ->
  let m := select_max first rest in
  (m = first \/ In m (map big rest)) /\ canon m /\ value_le first m /\
  forall p, In p rest -> value_le (big p) m.
Proof.
  revert first. induction rest as [|p rest IH]; intros first Hf Hr; cbv zeta.
  - cbn [select_max select_min fold_left map In].
    split; [now left|]. split; [exact Hf|]. split; [apply value_le_refl|].
    intros p [].
  - inversion Hr as [|? ? Hp Hrest]; subst. unfold select_max. cbn [fold_left].
    set (first' := if Big.gt (big p) first then big p else first).
    assert (Hf' : canon first') by (subst first'; destruct (Big.gt (big p) first); assumption).
    destruct (IH first' Hf' Hrest) as (Hin & Hc & Hle & Hall).
    fold (select_max first' rest). set (m := select_max first' rest) in *.
    destruct (gt_spec Hp Hf) as [Hfalse Htrue].
    assert (Hle1 : value_le first first' /\ value_le (big p) first').
    { subst first'. destruct (Big.gt (big p) first) eqn:E.
      - split; [now apply Htrue|apply value_le_refl].
      - split; [apply value_le_refl|now apply Hfalse]. }
    destruct Hle1 as [Hle1 Hle2]. split; [|split; [|split]].
    + destruct Hin as [Hin|Hin].
      * subst first'. destruct (Big.gt (big p) first).
        -- right. left. now rewrite Hin.
        -- now left.
      * right. now right.
    + exact Hc.
    + now apply value_le_trans with first'.
    + intros p0 [<-|Hp0]; [now apply value_le_trans with first'|now apply Hall].
Qed.

Lemma select_min_spec first rest :
  canon first -> Forall (fun p => canon (big p)) rest ->
  let m := select_min first rest in
  (m = first \/ In m (map big rest)) /\ canon m /\ value_le m first /\
  forall p, In p rest -> value_le m (big p).
Proof.
  revert first. induction rest as [|p rest IH]; intros first Hf Hr; cbv zeta.
  - cbn [select_max select_min fold_left map In].
    split; [now left|]. split; [exact Hf|]. split; [apply value_le_refl|].
    intros p [].
  - inversion Hr as [|? ? Hp Hrest]; subst. unfold select_min. cbn [fold_left].
    set (first' := if Big.lt (big p) first then big p else first).
    assert (Hf' : canon first') by (subst first'; destruct (Big.lt (big p) first); assumption).
    destruct (IH first' Hf' Hrest) as (Hin & Hc & Hle & Hall).
    fold (select_min first' rest). set (m := select_min first' rest) in *.
    destruct (lt_spec Hp Hf) as [Hfalse Htrue].
    assert (Hle1 : value_le first' first /\ value_le first' (big p)).
    { subst first'. destruct (Big.lt (big p) first) eqn:E.
      - split; [now apply Htrue|apply value_le_refl].
      - split; [apply value_le_refl|now apply Hfalse]. }
    destruct Hle1 as [Hle1 Hle2]. split; [|split; [|split]].
    + destruct Hin as [Hin|Hin].
      * subst first'. destruct (Big.lt (big p) first).
        -- right. left. now rewrite Hin.
        -- now left.
      * right. now right.
    + exact Hc.
    + now apply value_le_trans with first'.
    + intros p0 [<-|Hp0]; [now apply value_le_trans with first'|now apply Hall].
Qed.

Lemma validPairs_spec values p :
  In p (validPairs values) <->
  In (Val (original p)) values /\ new_Big (original p) = Ok (big p).
Proof.
  induction values as [|el values IH]; cbn [validPairs In]; [tauto|].
  destruct el as [v| |].
  - destruct (new_Big v) as [b|err] eqn:Ev; cbn [In]; rewrite IH; split.
    + intros [<-|H]; [cbn [original big]; auto|]. destruct H; auto.
    + intros [[H|H] Hp]; [|auto]. injection H as H. left.
      destruct p as [o b']. cbn [original big] in *. subst o.
      rewrite Ev in Hp. now injection Hp as ->.
    + intros [H1 H2]. auto.
    + intros [[H|H] Hp]; [|auto]. injection H as H. rewrite <- H, Ev in Hp.
      discriminate.
  - rewrite IH. split; [intros [H1 H2]; auto|intros [[H|H] Hp]; [discriminate|auto]].
  - rewrite IH. split; [intros [H1 H2]; auto|intros [[H|H] Hp]; [discriminate|auto]].
Qed.

Lemma validPairs_canon values : Forall (fun p => canon (big p)) (validPairs values).
Proof.
  apply Forall_forall. intros p Hp. apply validPairs_spec in Hp as [_ Hp].
  now apply new_Big_canon in Hp.
Qed.

Lemma fold_min_spec l a :
  (fold_left Z.min l a = a \/ In (fold_left Z.min l a) l) /\
  fold_left Z.min l a <= a /\
  forall j, In j l -> fold_left Z.min l a <= j.
Proof.
  revert a. induction l as [|b l IH]; intros a; cbn [fold_left].
  - split; [now left|]. split; [lia|intros j []].
  - destruct (IH (Z.min a b)) as (Hin & Hle & Hall).
    split; [|split].
    + destruct Hin as [Hin|Hin]; [|right; right; exact Hin].
      destruct (Z.min_spec a b) as [[_ E]|[_ E]].
      * left. now rewrite Hin.
      * right. left. now rewrite Hin.
    + lia.
    + intros j [<-|Hj]; [lia|now apply Hall].
Qed.

(** The result of [toSigfig] on a value: ["0"] for zero, the value printed
    at the validated count otherwise. *)
Definition rounded (m : Big.t) (prec : number) : res str :=
  let* n := validateSigfigs prec in
  if Big.nonzero m then Big.toPrecision m n else Ok "0".

Lemma parse_toString m : canon m -> exists m', Big.parse (Big.toString m) = Ok m' /\
  canon m' /\ Big.nonzero m' = Big.nonzero m /\ (Big.nonzero m = true -> m' = m).
Proof.
  intros Hm. destruct (canon_cases Hm) as [(Hz & Hc & He)|(Hnz & Hd)].
  - exists Big.zero. unfold Big.toString, Big.stringify. rewrite Hz, Hc, He.
    cbn [map length Z.of_nat Big.NE Big.PE Z.leb Z.geb Z.compare orb Z.ltb Z.gtb
         Pos.of_succ_nat Pos.compare Pos.compare_cont Pos.succ].
    rewrite andb_false_r.
    split; [reflexivity|]. split; [|split; [reflexivity|discriminate]].
    split; [now left|]. split; [constructor; [lia|constructor]|now left].
  - exists m. unfold Big.toString. rewrite Hnz.
    pose proof Hm as (Hs & Hok & _). pose proof Hd as (d & r & Hc & Hd0 & Hstrip).
    rewrite Hc in Hok, Hstrip.
    rewrite (@parse_stringify m d r _ Hc Hok Hd0), Hstrip, (sign_ok_norm Hs), <- Hc.
    split; [now destruct m|]. split; [exact Hm|]. split; [reflexivity|reflexivity].
Qed.

Lemma toSigfig_toString m prec :
  canon m -> toSigfig (VStr (Big.toString m)) prec = rounded m prec.
Proof.
  intros Hm. unfold toSigfig, rounded.
  destruct (validateSigfigs prec) as [n|]; [|reflexivity]. cbn [bind].
  unfold new_Big, String_.
  destruct (parse_toString Hm) as (m' & Hp & Hc' & Hnz & Heq).
  rewrite Hp. cbn [bind]. rewrite (eq_zero_canon Hc'), Hnz.
  destruct (Big.nonzero m) eqn:E; cbn [negb]; [|reflexivity].
  now rewrite (Heq eq_refl).
Qed.

(** The precision used by [max] and [min]: the explicit count, or the
    least [sigfigOf] over the surviving original values. *)
Definition resolved_precision (sigfigs : option number) (pairs : list pair)
    (prec : number) : Prop :=
  match sigfigs with
  | Some sf => prec = sf
  | None =>
      exists k, prec = Num.of_Z k /\
        In k (map (fun p => sigfigOf (original p)) pairs) /\
        forall p, In p pairs -> k <= sigfigOf (original p)
  end.

Lemma compareSigfigs_resolved sigfigs pairs :
  pairs <> [] -> resolved_precision sigfigs pairs (compareSigfigs sigfigs pairs).
Proof.
  intros Hne. unfold resolved_precision, compareSigfigs.
  destruct sigfigs as [sf|]; [reflexivity|].
  destruct pairs as [|p rest]; [congruence|]. cbn [map Math_min].
  destruct (fold_min_spec (map (fun p => sigfigOf (original p)) rest)
              (sigfigOf (original p))) as (Hin & Hle & Hall).
  eexists. split; [reflexivity|]. split.
  - destruct Hin as [->|Hin]; [now left|now right].
  - intros p0 [<-|Hp0]; [exact Hle|]. apply Hall.
    apply in_map_iff. now exists p0.
Qed.

(** [max] and [min] reject an input that is not a list; skip [null],
    [undefined] and every element that the decimal parser rejects; raise
    the no-valid-input error when nothing survives; otherwise select the
    extremum of the surviving values by the exact order of their
    unrounded decimal values, and hand that one value to [toSigfig], at
    the explicit count or by default at the least [sigfigOf] over the
    surviving original values. *)
Lemma max_min_selection (values : list element) (sigfigs : option number) :
  validate_opt sigfigs = Ok tt ->
  (max NotArr sigfigs = Throw ERR_NOT_ARRAY /\
   min NotArr sigfigs = Throw ERR_NOT_ARRAY) /\
  (forall p, In p (validPairs values) <->
             In (Val (original p)) values /\ new_Big (original p) = Ok (big p)) /\
  (validPairs values = [] ->
   max (Arr values) sigfigs = Throw ERR_NO_VALID /\
   min (Arr values) sigfigs = Throw ERR_NO_VALID) /\
  (validPairs values <> [] ->
   exists hi lo prec,
     In hi (map big (validPairs values)) /\
     (forall p, In p (validPairs values) -> value_le (big p) hi) /\
     In lo (map big (validPairs values)) /\
     (forall p, In p (validPairs values) -> value_le lo (big p)) /\
     resolved_precision sigfigs (validPairs values) prec /\
     canon hi /\ canon lo /\
     max (Arr values) sigfigs = toSigfig (VStr (Big.toString hi)) prec /\
     min (Arr values) sigfigs = toSigfig (VStr (Big.toString lo)) prec).
Proof.
  intros Hv. unfold max, min. rewrite Hv. cbn [bind].
  split; [split; reflexivity|]. split; [|split].
  - apply validPairs_spec.
  - intros ->. split; reflexivity.
  - intros Hne. pose proof (validPairs_canon values) as Hcan.
    pose proof (compareSigfigs_resolved sigfigs Hne) as Hprec.
    destruct (validPairs values) as [|p rest] eqn:E; [congruence|].
    inversion Hcan as [|? ? Hp Hrest]; subst.
    destruct (select_max_spec Hp Hrest) as (Hin1 & Hc1 & Hle1 & Hall1).
    destruct (select_min_spec Hp Hrest) as (Hin2 & Hc2 & Hle2 & Hall2).
    exists (select_max (big p) rest), (select_min (big p) rest),
           (compareSigfigs sigfigs (p :: rest)).
    split; [|split; [|split; [|split; [|split; [|split; [|split; [|split]]]]]]].
    + cbn [map In]. destruct Hin1 as [->|H]; auto.
    + intros p0 [<-|H0]; [exact Hle1|now apply Hall1].
    + cbn [map In]. destruct Hin2 as [->|H]; auto.
    + intros p0 [<-|H0]; [exact Hle2|now apply Hall2].
    + exact Hprec.
    + exact Hc1.
    + exact Hc2.
    + reflexivity.
    + reflexivity.
Qed.

(** ** Exact sums and differences *)

Lemma strip_front_decomp l :
  exists k, l = repeat 0%nat k ++ Big.strip_zeros_front l.
Proof.
  induction l as [|d l [k IH]]; [now exists 0%nat|]. simpl.
  destruct (Big.is_zero_digit d) eqn:E.
  - unfold Big.is_zero_digit in E. apply Nat.eqb_eq in E. subst d.
    exists (S k). simpl. now rewrite <- IH.
  - now exists 0%nat.
Qed.

Lemma strip_back_decomp l :
  exists k, l = Big.strip_zeros_back l ++ repeat 0%nat k.
Proof.
  unfold Big.strip_zeros_back. destruct (strip_front_decomp (rev l)) as [k Hk].
  exists k. rewrite <- (rev_involutive l) at 1. rewrite Hk at 1.
  now rewrite rev_app_distr, rev_repeat.
Qed.

Lemma Z_of_digits_repeat_zero k : Z_of_digits (repeat 0%nat k) = 0.
Proof.
  induction k as [|k IH]; [reflexivity|]. cbn [repeat].
  rewrite Z_of_digits_cons, IH. lia.
Qed.

Lemma Z_of_digits_strip_back l :
  Z_of_digits l
  = Z_of_digits (Big.strip_zeros_back l)
    * 10 ^ (Z.of_nat (length l) - Z.of_nat (length (Big.strip_zeros_back l))).
Proof.
  destruct (strip_back_decomp l) as [k Hk].
  remember (Big.strip_zeros_back l) as l' eqn:El. clear El. subst l.
  rewrite Z_of_digits_app, Z_of_digits_repeat_zero, length_app, repeat_length.
  rewrite Z.add_0_r. do 2 f_equal. lia.
Qed.

(** [of_Zq m q] is in normal form and stands for [m * 10^q]. *)
Lemma of_Zq_canon m q : canon (Big.of_Zq m q).
Proof.
  unfold Big.of_Zq. destruct (m =? 0) eqn:E.
  - split; [now left|]. split; [constructor; [lia|constructor]|now left].
  - apply Z.eqb_neq in E. assert (Ha : 0 < Z.abs m) by lia.
    assert (Ha0 : 0 <= Z.abs m) by lia.
    pose proof (digits_of_Z_ok Ha0) as Hok.
    pose proof (digits_of_Z_head Ha) as Hh.
    pose proof (digits_of_Z_nonempty Ha0) as Hne.
    destruct (digits_of_Z (Z.abs m)) as [|d r] eqn:Ed; [congruence|].
    cbn [hd] in Hh. split; [|split]; cbn [Big.s Big.c Big.e].
    + destruct (m <? 0); [now right|now left].
    + now apply strip_back_ok.
    + right. now apply nonzero_digits_strip.
Qed.

Lemma of_Zq_value m q :
  (m <> 0 -> q <= Big.qexp (Big.of_Zq m q)) /\ scaled (Big.of_Zq m q) q = m.
Proof.
  unfold Big.of_Zq, scaled, Big.qexp, Big.mant. destruct (m =? 0) eqn:E.
  - apply Z.eqb_eq in E. subst m. split; [congruence|]. cbn [Big.s Big.c Big.e].
    change (Z_of_digits [0%nat]) with 0. lia.
  - apply Z.eqb_neq in E. assert (Ha0 : 0 <= Z.abs m) by lia.
    pose proof (digits_of_Z_value Ha0) as Hv.
    pose proof (strip_back_length (digits_of_Z (Z.abs m))) as Hl.
    rewrite (Z_of_digits_strip_back (digits_of_Z (Z.abs m))) in Hv.
    cbn [Big.s Big.c Big.e].
    set (ds := digits_of_Z (Z.abs m)) in *.
    set (ds' := Big.strip_zeros_back ds) in *.
    split; [intros _; lia|].
    replace (q + Z.of_nat (length ds) - 1 - (Z.of_nat (length ds') - 1) - q)
      with (Z.of_nat (length ds) - Z.of_nat (length ds')) by lia.
    rewrite <- Z.mul_assoc, Hv. destruct (m <? 0) eqn:Em.
    + apply Z.ltb_lt in Em. lia.
    + apply Z.ltb_ge in Em. lia.
Qed.




(** ** Decimal places of a fixed-point result *)

Lemma round_for_fixed z dp :
  canon z -> 0 <= dp ->
  let y := Big.round z (dp + Big.e z + 1) in
  digits_ok (Big.c y) /\ Big.c y <> [] /\
  Z.of_nat (length (Big.c y)) <= dp + Big.e y + 1.
Proof.
  intros Hz Hdp. cbv zeta.
  destruct (canon_cases Hz) as [(Hnz & Hc & He)|(Hnz & Hd)].
  - rewrite round_short by (rewrite ?Hc, He; cbn [length]; lia).
    rewrite Hc, He. cbn [length]. split; [|split; [discriminate|lia]].
    constructor; [lia|constructor].
  - destruct Hz as (_ & Hok & _).
    destruct (Z_lt_le_dec (dp + Big.e z + 1) 1) as [Hlt|Hge].
    + unfold Big.round. replace (dp + Big.e z + 1 <? 1) with true
        by (symmetry; apply Z.ltb_lt; lia).
      destruct ((dp + Big.e z + 1 =? 0) && Big.ge5 (Big.c z) 0) eqn:Em;
        cbn [Big.c Big.e length].
      * apply andb_prop in Em as [Em _]. apply Z.eqb_eq in Em.
        split; [|split; [discriminate|lia]]. constructor; [lia|constructor].
      * split; [|split; [discriminate|lia]]. constructor; [lia|constructor].
    + destruct (round_digits z Hd Hok Hge) as (_ & Hoky & Hnzy & Hly & Hey).
      split; [exact Hoky|]. split; [|lia].
      destruct Hnzy as (d & r & -> & _). discriminate.
Qed.

Lemma shape_fixed e d r dp :
  0 <= dp -> Z.of_nat (length (d :: r)) = dp + e + 1 ->
  exists ip fr,
    shape e (d :: r) false = (ip, fr, None) /\
    match fr with
    | None => dp = 0
    | Some fp => 0 < dp /\ Z.of_nat (length fp) = dp
    end.
Proof.
  intros Hdp Hlen. unfold shape. set (ds := d :: r) in *.
  assert (Hpos : 1 <= Z.of_nat (length ds)) by (subst ds; cbn [length]; lia).
  destruct (e <? 0) eqn:E1.
  { apply Z.ltb_lt in E1. eexists _, (Some _). split; [reflexivity|].
    rewrite length_app, repeat_length. lia. }
  apply Z.ltb_ge in E1.
  destruct (e >? 0) eqn:E2.
  { replace (e + 1 >? Z.of_nat (length ds)) with false
      by (symmetry; rewrite Z.gtb_ltb; apply Z.ltb_ge; lia).
    destruct (e + 1 <? Z.of_nat (length ds)) eqn:E4.
    - apply Z.ltb_lt in E4. eexists _, (Some _). split; [reflexivity|].
      rewrite length_skipn. lia.
    - apply Z.ltb_ge in E4. eexists _, None. split; [reflexivity|lia]. }
  rewrite Z.gtb_ltb in E2. apply Z.ltb_ge in E2.
  destruct (1 <? Z.of_nat (length ds)) eqn:E5.
  - apply Z.ltb_lt in E5. eexists _, (Some _). split; [reflexivity|].
    rewrite length_skipn. lia.
  - apply Z.ltb_ge in E5. eexists _, None. split; [reflexivity|lia].
Qed.

(** The layout of what [toFixed] prints: a sign, integer digits, and
    exactly [dp] fraction digits after a point when [dp > 0]. *)
Lemma toFixed_layout z dp :
  canon z -> 0 <= dp <= Big.MAX_DP ->
  exists neg ip fr,
    Big.toFixed z dp = Ok (sign_str neg ++ dstr ip ++ frac_str fr) /\
    digits_ok ip /\ ip <> [] /\ frac_ok fr /\
    match fr with
    | None => dp = 0
    | Some fp => 0 < dp /\ Z.of_nat (length fp) = dp
    end.
Proof.
  intros Hz [Hdp0 Hdp1]. unfold Big.toFixed.
  replace ((dp <? 0) || (dp >? Big.MAX_DP)) with false.
  2:{ symmetry. apply orb_false_iff. split; [apply Z.ltb_ge; lia|].
      rewrite Z.gtb_ltb. apply Z.ltb_ge. lia. }
  destruct (round_for_fixed Hz Hdp0) as (Hok & Hne & Hlen).
  set (y := Big.round z (dp + Big.e z + 1)) in *.
  set (y' := Big.pad y (dp + Big.e y + 1)).
  assert (Hc' : exists d r, Big.c y' = d :: r).
  { subst y'. unfold Big.pad. cbn [Big.c].
    destruct (Big.c y) as [|d r]; [congruence|]. cbn [app]. eauto. }
  destruct Hc' as (d & r & Hc').
  assert (Hok' : digits_ok (d :: r)).
  { rewrite <- Hc'. subst y'. unfold Big.pad. cbn [Big.c]. apply digits_ok_app.
    split; [exact Hok|apply digits_ok_repeat_zero]. }
  assert (Hlen' : Z.of_nat (length (d :: r)) = dp + Big.e y + 1).
  { rewrite <- Hc'. subst y'. unfold Big.pad. cbn [Big.c].
    rewrite length_app, repeat_length. lia. }
  rewrite stringify_shape. change (Big.e y') with (Big.e y). rewrite Hc'.
  destruct (@shape_fixed (Big.e y) d r dp Hdp0 Hlen') as (ip & fr & Hsh & Hfr).
  pose proof (@shape_facts (Big.e y) d r false Hok') as Hfacts.
  rewrite Hsh in *. destruct Hfacts as (Hip & Hfrok & Hipne & _).
  exists ((Big.s y' <? 0) && Big.nonzero z), ip, fr.
  cbn [expo_str]. rewrite app_nil_r. auto.
Qed.

Lemma parseFloat_not_NaN neg ip fr rest :
  digits_ok ip -> frac_ok fr -> ip ++ frac_digits fr <> [] ->
  Num.isNaN (Num.parseFloat (sign_str neg ++ dstr ip ++ frac_str fr ++ rest)) = false.
Proof.
  intros Hip Hfr Hne. unfold Num.parseFloat.
  set (body := dstr ip ++ frac_str fr ++ rest).
  assert (Hbody : exists a t, body = a :: t /\ is_space a = false /\
                              chr_eqb a "-" = false /\ chr_eqb a "+" = false).
  { subst body. destruct ip as [|d ip].
    - destruct fr as [fp|]; [|cbn [frac_digits app] in Hne; congruence].
      exists "."%char, (dstr fp ++ rest). repeat split.
    - inversion Hip; subst. exists (digit_char d), (dstr ip ++ frac_str fr ++ rest).
      split; [reflexivity|].
      auto using digit_char_not_space, digit_char_not_minus, digit_char_not_plus. }
  destruct Hbody as (a & t & Eb & Hsp & Hm & Hp).
  assert (Hsplit :
    (let s := drop_while is_space (sign_str neg ++ body) in
     match s with
     | a :: r => if chr_eqb a "-" then (true, r)
                 else if chr_eqb a "+" then (false, r) else (false, s)
     | [] => (false, s)
     end) = (neg, body)).
  { destruct neg; cbn [sign_str app].
    - change (drop_while is_space ("-"%char :: body)) with ("-"%char :: body).
      reflexivity.
    - rewrite Eb. cbn [drop_while]. rewrite Hsp, Hm, Hp. reflexivity. }
  cbv zeta in Hsplit. rewrite Hsplit.
  destruct (Num.starts_with "Infinity" body); [reflexivity|].
  subst body.
  rewrite (take_while_app_all _ _ _ (dstr_all_digits Hip)).
  rewrite (drop_while_app_all _ _ _ (dstr_all_digits Hip)).
  destruct ip as [|d ip].
  - destruct fr as [fp|]; [|cbn [frac_digits app] in Hne; congruence].
    cbn [frac_digits app] in Hne. unfold frac_ok in Hfr. cbn [frac_digits] in Hfr.
    cbn [dstr map app frac_str take_while drop_while].
    change (is_digit ".") with false. cbv iota.
    change (chr_eqb "." ".") with true. cbv iota.
    rewrite (take_while_app_all _ _ _ (dstr_all_digits Hfr)).
    destruct fp as [|f fp]; [congruence|]. reflexivity.
  - cbn [dstr map app Big.is_nil andb].
    destruct (drop_while is_digit (frac_str fr ++ rest)) as [|c0 r0]; [reflexivity|].
    destruct (chr_eqb c0 "."); reflexivity.
Qed.

Lemma digitsAfterDecimal_fixed neg ip fr :
  digits_ok ip -> ip <> [] -> frac_ok fr ->
  digitsAfterDecimal (VStr (sign_str neg ++ dstr ip ++ frac_str fr))
  = Ok (match fr with None => 0 | Some fp => Z.of_nat (length fp) end).
Proof.
  intros Hip Hne Hfr. unfold digitsAfterDecimal, String_.
  assert (Hne' : ip ++ frac_digits fr <> [])
    by (destruct ip; [congruence|discriminate]).
  pose proof (@parseFloat_not_NaN neg ip fr [] Hip Hfr Hne') as HN.
  rewrite app_nil_r in HN. rewrite HN.
  assert (Hl : forall ch, (ch = "e" \/ ch = "E")%char ->
             includes ch (sign_str neg ++ dstr ip ++ frac_str fr) = false).
  { intros ch Hch. apply includes_lacks. apply lacks_app. split.
    - destruct Hch as [-> | ->]; destruct neg; reflexivity.
    - apply body_lacks; auto; destruct Hch as [-> | ->]; try reflexivity;
        intros d0 H0; digit_cases d0 H0. }
  rewrite (Hl "e"%char), (Hl "E"%char) by auto. cbn [orb].
  assert (Hs : lacks (fun a => chr_eqb a ".") (sign_str neg))
    by (destruct neg; reflexivity).
  rewrite app_assoc.
  assert (Hpre : lacks (fun a => chr_eqb a ".") (sign_str neg ++ dstr ip)).
  { apply lacks_app. split; [exact Hs|now apply dstr_lacks_dot]. }
  destruct fr as [fp|]; cbn [frac_str].
  - rewrite (indexOf_app_lacks "." _ Hpre), indexOf_here. cbn [Z.ltb Z.compare].
    replace (Z.of_nat (length (sign_str neg ++ dstr ip)) + 0 =? -1) with false
      by (symmetry; apply Z.eqb_neq; lia).
    rewrite length_app. cbn [length]. rewrite dstr_length. f_equal. lia.
  - rewrite app_nil_r, (indexOf_lacks "." Hpre). reflexivity.
Qed.

Lemma parse_ok_NUMERIC n x : Big.parse n = Ok x -> Big.NUMERIC n = true.
Proof.
  unfold Big.parse. destruct (Big.NUMERIC n); [reflexivity|discriminate].
Qed.

(** [digitsAfterDecimal] returns on every operand that the decimal parser
    accepts. *)
Lemma digitsAfterDecimal_parseable v x :
  new_Big v = Ok x -> exists d, digitsAfterDecimal v = Ok d /\ 0 <= d.
Proof.
  intros Hx. apply parse_ok_NUMERIC in Hx.
  destruct (NUMERIC_inv _ Hx) as (neg & ip & fr & xp & En & Hip & Hfr & Hne & _).
  unfold digitsAfterDecimal. cbv zeta.
  replace (Num.isNaN (Num.parseFloat (String_ v))) with false
    by (rewrite En; symmetry; now apply parseFloat_not_NaN).
  destruct (includes "e" (String_ v) || includes "E" (String_ v)).
  - destruct (decimalsMatch (String_ v)) as [[coef ex]|]; eexists; split;
      try reflexivity; lia.
  - destruct (indexOf_range "." (String_ v)) as [E|E].
    + rewrite E. eexists; split; [reflexivity|lia].
    + replace (indexOf "." (String_ v) =? -1) with false
        by (symmetry; apply Z.eqb_neq; lia).
      eexists; split; [reflexivity|lia].
Qed.

Lemma decimalPlaces_pair a b da db :
  digitsAfterDecimal a = Ok da -> digitsAfterDecimal b = Ok db ->
  0 <= da -> 0 <= db ->
  getDecimalPlacesForAddOrSub [a; b] = Ok (Z.min da db).
Proof.
  intros Ha Hb H1 H2. unfold getDecimalPlacesForAddOrSub.
  cbn [decimalPlaces_loop]. rewrite Ha. cbn [bind].
  destruct (da =? 0) eqn:Ea.
  - apply Z.eqb_eq in Ea. f_equal. lia.
  - rewrite Hb. cbn [bind]. destruct (db =? 0) eqn:Eb.
    + apply Z.eqb_eq in Eb. f_equal. lia.
    + reflexivity.
Qed.



(** The examples of the specification for [add] and [sub]. *)
Lemma add_sub_examples :
  add (lit "1.23") (lit "4.5") None = Ok "5.7" /\
  add (lit "123") (lit "4.567") None = Ok "128" /\
  sub (VStr "1.50") (VStr "0.25") None = Ok "1.25".
Proof. repeat split; vm_compute; reflexivity. Qed.


(** ** Engineering notation *)

Lemma digits_of_Z_bounds m :
  0 < m ->
  10 ^ (Z.of_nat (length (digits_of_Z m)) - 1) <= m
  < 10 ^ Z.of_nat (length (digits_of_Z m))
  /\ 1 <= Z.of_nat (length (digits_of_Z m)).
Proof.
  intros Hm. assert (H0 : 0 <= m) by lia.
  pose proof (digits_of_Z_value H0) as Hv.
  pose proof (digits_of_Z_ok H0) as Hok.
  pose proof (digits_of_Z_head Hm) as Hh.
  destruct (digits_of_Z m) as [|d r] eqn:E; [cbn in Hh; congruence|].
  cbn [hd] in Hh. pose proof (Z_of_digits_bounds Hok).
  pose proof (Z_of_digits_lower Hok Hh). cbn [length] in *.
  replace (Z.of_nat (S (length r)) - 1) with (Z.of_nat (length r)) by lia. lia.
Qed.

Lemma validated_positive sf n : validateSigfigs sf = Ok n -> 1 <= n /\ int_value sf = n.
Proof.
  unfold validateSigfigs, int_value. destruct (Num.to_int sf) as [z|]; [|discriminate].
  destruct (z <=? 0) eqn:E; [discriminate|]. intros H. injection H as <-.
  apply Z.leb_gt in E. lia.
Qed.

Lemma validated_truthy sf n : validateSigfigs sf = Ok n -> Num.truthy sf = true.
Proof.
  unfold validateSigfigs, Num.to_int, Num.truthy. destruct sf as [| |m q]; try discriminate.
  destruct (m =? 0) eqn:E; [|reflexivity]. apply Z.eqb_eq in E. subst m.
  destruct (0 <=? q) eqn:Eq; [discriminate|]. apply Z.leb_gt in Eq.
  rewrite Z.mod_0_l.
  - cbn. discriminate.
  - destruct (pow10_pos (- q)); lia.
Qed.

Lemma actual_sigfigs_positive sigfigs v :
  validate_opt sigfigs = Ok tt -> 1 <= int_value (actual_sigfigs sigfigs v).
Proof.
  unfold validate_opt, actual_sigfigs. destruct sigfigs as [sf|].
  - destruct (validateSigfigs sf) as [n|] eqn:E; [|discriminate]. intros _.
    rewrite (validated_truthy _ E). destruct (validated_positive _ E). lia.
  - intros _. unfold int_value, Num.of_Z, Num.to_int. cbn [Z.leb Z.compare].
    pose proof (sigfigOf_str_pos (length (match v with
                                          | VStr s => trim s
                                          | VNum _ => String_ v
                                          end))
                  (match v with VStr s => trim s | VNum _ => String_ v end)).
    unfold sigfigOf. change (10 ^ 0) with 1. lia.
Qed.

(** The examples of the specification for [toEngineering]. *)
Lemma toEngineering_examples :
  toEngineering (lit "0.000123") None = Ok "123e-6" /\
  toEngineering (lit "12345") (Some (Num.of_Z 3)) = Ok "12.3e+3" /\
  toEngineering (lit "-1234") None = Ok "-1.234e+3".
Proof. repeat split; vm_compute; reflexivity. Qed.

(** C9 (the code departs from the claim).  The coefficient [999.999]
    rounded to one significant figure is printed as [1000], which is not
    below 1000: the exponent is chosen before the coefficient is rounded
    and is not adjusted after the carry.  And the rounded coefficient is
    printed as a JavaScript number, so that its trailing zeros are lost:
    [1500] at three figures gives the coefficient [1.5], with two
    figures, where the documented result is [1.50e+3]. *)
Lemma toEngineering_departs :
  toEngineering (lit "999.999") (Some (Num.of_Z 1)) = Ok "1000e+0" /\
  toEngineering (lit "1500") (Some (Num.of_Z 3)) = Ok "1.5e+3" /\
  toEngineering (lit "1500") (Some (Num.of_Z 3)) <> Ok "1.50e+3" /\
  sigfigOf (VStr "1.5") = 2 /\
  toEngineering (VStr "1200") (Some (Num.of_Z 3)) = Ok "1.2e+3".
Proof.
  repeat split; try (vm_compute; reflexivity).
  vm_compute. discriminate.
Qed.

(** ** Uniqueness of the normal form *)

Lemma Z_of_digits_inj l1 l2 :
  length l1 = length l2 -> digits_ok l1 -> digits_ok l2 ->
  Z_of_digits l1 = Z_of_digits l2 -> l1 = l2.
Proof.
  revert l2. induction l1 as [|d1 l1 IH] using rev_ind; intros l2 Hlen H1 H2 Hv.
  - destruct l2; [reflexivity|discriminate].
  - destruct l2 as [|d2 l2 _] using rev_ind.
    + rewrite length_app in Hlen. cbn in Hlen. lia.
    + rewrite !length_app in Hlen. cbn [length] in Hlen.
      apply digits_ok_app in H1 as [H1 Hd1]. apply digits_ok_app in H2 as [H2 Hd2].
      inversion Hd1 as [|? ? Hd1' _]; subst. inversion Hd2 as [|? ? Hd2' _]; subst.
      rewrite !Z_of_digits_snoc in Hv.
      assert (Z_of_digits l1 = Z_of_digits l2 /\ d1 = d2) as [Hl ->] by lia.
      f_equal. apply IH; [lia|assumption..].
Qed.

Lemma digits_of_Z_of_digits d r :
  digits_ok (d :: r) -> d <> 0%nat -> digits_of_Z (Z_of_digits (d :: r)) = d :: r.
Proof.
  intros Hok Hd. pose proof (Z_of_digits_lower Hok Hd) as Hlo.
  pose proof (Z_of_digits_bounds Hok) as Hhi. cbn [length] in Hhi.
  assert (Hp : 0 < 10 ^ Z.of_nat (length r)) by (apply Z.pow_pos_nonneg; lia).
  set (m := Z_of_digits (d :: r)) in *.
  assert (Hm : 0 < m) by lia. assert (Hm0 : 0 <= m) by lia.
  destruct (digits_of_Z_bounds Hm) as [Hb Hl1].
  apply Z_of_digits_inj.
  - cbn [length].
    assert (Z.of_nat (length (digits_of_Z m)) = Z.of_nat (S (length r))); [|lia].
    destruct (Z_lt_le_dec (Z.of_nat (length (digits_of_Z m))) (Z.of_nat (S (length r))))
      as [Hlt|Hge].
    + assert (10 ^ Z.of_nat (length (digits_of_Z m)) <= 10 ^ Z.of_nat (length r))
        by (apply Z.pow_le_mono_r; lia). lia.
    + destruct (Z.eq_dec (Z.of_nat (length (digits_of_Z m))) (Z.of_nat (S (length r))))
        as [E|E]; [exact E|].
      assert (10 ^ Z.of_nat (S (length r)) <= 10 ^ (Z.of_nat (length (digits_of_Z m)) - 1))
        by (apply Z.pow_le_mono_r; lia). lia.
  - now apply digits_of_Z_ok.
  - exact Hok.
  - now apply digits_of_Z_value.
Qed.

Lemma strip_back_nonzero_digits ds : nonzero_digits ds -> Big.strip_zeros_back ds = ds.
Proof. now intros (d & r & _ & _ & H). Qed.

(** [of_Zq] of the mantissa and exponent of a value in normal form. *)
Lemma of_Zq_digits sg ds j q :
  sign_ok sg -> digits_ok ds -> nonzero_digits ds ->
  Big.of_Zq (sg * (Z_of_digits ds * 10 ^ Z.of_nat j)) q
  = Big.mk sg (q + Z.of_nat (length ds) + Z.of_nat j - 1) ds.
Proof.
  intros Hs Hok Hnz. pose proof Hnz as (d & r & -> & Hd & Hstrip).
  assert (Hok' : digits_ok ((d :: r) ++ repeat 0%nat j))
    by (apply digits_ok_app; split; [exact Hok|apply digits_ok_repeat_zero]).
  assert (Hv : Z_of_digits ((d :: r) ++ repeat 0%nat j)
               = Z_of_digits (d :: r) * 10 ^ Z.of_nat j)
    by (rewrite Z_of_digits_app, Z_of_digits_repeat_zero, repeat_length; lia).
  pose proof (Z_of_digits_lower Hok Hd) as Hlo.
  assert (Hp : 0 < 10 ^ Z.of_nat (length r)) by (apply Z.pow_pos_nonneg; lia).
  assert (Hpj : 0 < 10 ^ Z.of_nat j) by (apply Z.pow_pos_nonneg; lia).
  set (M := Z_of_digits (d :: r)) in *.
  assert (HM : 0 < M * 10 ^ Z.of_nat j) by nia.
  unfold Big.of_Zq.
  replace (sg * (M * 10 ^ Z.of_nat j) =? 0) with false
    by (symmetry; apply Z.eqb_neq; destruct Hs as [-> | ->]; lia).
  replace (Z.abs (sg * (M * 10 ^ Z.of_nat j))) with (M * 10 ^ Z.of_nat j)
    by (destruct Hs as [-> | ->]; lia).
  rewrite <- Hv. change ((d :: r) ++ repeat 0%nat j) with (d :: (r ++ repeat 0%nat j)).
  rewrite digits_of_Z_of_digits by (exact Hok' || exact Hd).
  change (d :: (r ++ repeat 0%nat j)) with ((d :: r) ++ repeat 0%nat j).
  rewrite strip_back_repeat_zero, Hstrip, length_app, repeat_length.
  f_equal.
  - rewrite Hv. destruct Hs as [-> | ->].
    + replace (1 * (M * 10 ^ Z.of_nat j) <? 0) with false
        by (symmetry; apply Z.ltb_ge; lia). reflexivity.
    + replace (-1 * (M * 10 ^ Z.of_nat j) <? 0) with true
        by (symmetry; apply Z.ltb_lt; lia). reflexivity.
  - lia.
Qed.

Lemma of_Zq_mant_qexp x :
  canon x -> Big.nonzero x = true -> Big.of_Zq (Big.mant x) (Big.qexp x) = x.
Proof.
  intros Hx Hnz. destruct (canon_cases Hx) as [[Hz _]|[_ Hd]]; [congruence|].
  destruct Hx as (Hs & Hok & _). unfold Big.mant, Big.qexp.
  pose proof (@of_Zq_digits (Big.s x) (Big.c x) 0
                (Big.e x - (Z.of_nat (length (Big.c x)) - 1)) Hs Hok Hd) as H.
  change (10 ^ Z.of_nat 0) with 1 in H. rewrite Z.mul_1_r in H. rewrite H.
  destruct x as [sg e c]. cbn [Big.s Big.e Big.c]. f_equal. lia.
Qed.

(** Two ways of writing the same value have the same normal form. *)
Lemma of_Zq_shift m j q : 0 <= j -> Big.of_Zq (m * 10 ^ j) q = Big.of_Zq m (q + j).
Proof.
  intros Hj. destruct (Z.eq_dec m 0) as [->|Hm]; [reflexivity|].
  pose proof (of_Zq_canon m (q + j)) as Hc.
  destruct (of_Zq_value m (q + j)) as [Hq Hv]. specialize (Hq Hm).
  set (y := Big.of_Zq m (q + j)) in *.
  assert (Hnz : Big.nonzero y = true).
  { destruct (canon_cases Hc) as [(_ & Hc0 & _)|[H _]]; [|exact H].
    unfold scaled in Hv. rewrite (zero_mant _ Hc0) in Hv. lia. }
  destruct (canon_cases Hc) as [[Hz _]|[_ Hd]]; [congruence|].
  pose proof Hc as (Hs & Hok & _).
  unfold scaled, Big.mant in Hv.
  set (k := Big.qexp y - (q + j)) in *.
  rewrite <- Hv. rewrite <- Z.mul_assoc, <- Z.pow_add_r by lia.
  rewrite <- Z.mul_assoc.
  replace (k + j) with (Z.of_nat (Z.to_nat (k + j))) by lia.
  rewrite (@of_Zq_digits (Big.s y) (Big.c y) _ q Hs Hok Hd).
  destruct y as [sg e c]. unfold Big.qexp in *. cbn [Big.s Big.e Big.c] in *.
  subst k. f_equal. lia.
Qed.

Lemma of_Zq_eq m1 q1 m2 q2 q :
  q <= q1 -> q <= q2 -> m1 * 10 ^ (q1 - q) = m2 * 10 ^ (q2 - q) ->
  Big.of_Zq m1 q1 = Big.of_Zq m2 q2.
Proof.
  intros H1 H2 E.
  transitivity (Big.of_Zq (m1 * 10 ^ (q1 - q)) q).
  - rewrite of_Zq_shift by lia. f_equal. lia.
  - rewrite E, of_Zq_shift by lia. f_equal. lia.
Qed.

(** ** Numbers handed to big.js *)

(** Settles the integer comparisons that the hypotheses decide. *)
Ltac settle_cmp :=
  rewrite ?Z.geb_leb, ?Z.gtb_ltb;
  repeat match goal with
  | |- context [?a <=? ?b] =>
      first [ replace (a <=? b) with true by (symmetry; apply Z.leb_le; lia)
            | replace (a <=? b) with false by (symmetry; apply Z.leb_gt; lia) ]
  | |- context [?a <? ?b] =>
      first [ replace (a <? b) with true by (symmetry; apply Z.ltb_lt; lia)
            | replace (a <? b) with false by (symmetry; apply Z.ltb_ge; lia) ]
  | |- context [?a =? ?b] =>
      first [ replace (a =? b) with true by (symmetry; apply Z.eqb_eq; lia)
            | replace (a =? b) with false by (symmetry; apply Z.eqb_neq; lia) ]
  end;
  rewrite ?andb_false_r, ?andb_true_r, ?orb_false_r, ?orb_true_r;
  cbn [andb orb negb].

Lemma of_Zq_nonzero m q : m <> 0 -> Big.nonzero (Big.of_Zq m q) = true.
Proof.
  intros Hm. destruct (canon_cases (of_Zq_canon m q)) as [(_ & Hc0 & _)|[H _]]; [|exact H].
  destruct (of_Zq_value m q) as [_ Hv]. unfold scaled in Hv.
  rewrite (zero_mant _ Hc0) in Hv. lia.
Qed.

Lemma of_Zq_sign m q : m <> 0 -> Big.s (Big.of_Zq m q) = if m <? 0 then -1 else 1.
Proof.
  intros Hm. unfold Big.of_Zq. apply Z.eqb_neq in Hm. now rewrite Hm.
Qed.

(** [String(x)] of a finite nonzero number is what big.js prints for the
    same decimal: the two use the same layout and the same bounds for the
    exponential form. *)
Lemma to_string_toString m q :
  m <> 0 -> Num.to_string (Fin m q) = Big.toString (Big.of_Zq m q).
Proof.
  intros Hm. unfold Num.to_string, Num.decimal, Big.toString, Big.stringify.
  replace (m =? 0) with false by (symmetry; now apply Z.eqb_neq).
  rewrite (of_Zq_nonzero q Hm), (of_Zq_sign q Hm), andb_true_r.
  replace ((if m <? 0 then -1 else 1) <? 0) with (m <? 0) by (now destruct (m <? 0)).
  destruct (canon_cases (of_Zq_canon m q)) as [[Hz _]|[_ Hd]];
    [rewrite (of_Zq_nonzero q Hm) in Hz; discriminate|].
  set (y := Big.of_Zq m q) in *.
  assert (Hk : 1 <= Z.of_nat (length (map digit_char (Big.c y)))).
  { rewrite length_map. destruct Hd as (d & r & -> & _). cbn [length]. lia. }
  set (ds := map digit_char (Big.c y)) in *.
  set (k := Z.of_nat (length ds)) in *. set (e := Big.e y).
  unfold Big.NE, Big.PE.
  assert (Hexp : forall E : Z,
    "e" ++ (if E + 1 - 1 <? 0 then "-" else "+") ++ str_of_Z (Z.abs (E + 1 - 1))
    = (if E <? 0 then "e" else "e+") ++ str_of_Z E).
  { intros E. unfold str_of_Z. destruct (Z_lt_le_dec E 0); settle_cmp.
    - replace (Z.abs (E + 1 - 1)) with (- E) by lia. reflexivity.
    - replace (Z.abs (E + 1 - 1)) with E by lia. reflexivity. }
  assert (Hbody :
    (if (k <=? e + 1) && (e + 1 <=? 21) then ds ++ repeat "0"%char (Z.to_nat (e + 1 - k))
     else if (0 <? e + 1) && (e + 1 <=? 21) then
       firstn (Z.to_nat (e + 1)) ds ++ "." ++ skipn (Z.to_nat (e + 1)) ds
     else if (-6 <? e + 1) && (e + 1 <=? 0) then
       "0." ++ repeat "0"%char (Z.to_nat (- (e + 1))) ++ ds
     else firstn 1 ds ++ (if k =? 1 then "" else "." ++ skipn 1 ds)
            ++ "e" ++ (if e + 1 - 1 <? 0 then "-" else "+")
            ++ str_of_Z (Z.abs (e + 1 - 1)))
    = (if (e <=? -7) || (e >=? 21) then
         firstn 1 ds ++ (if 1 <? k then "." ++ skipn 1 ds else "")
           ++ (if e <? 0 then "e" else "e+") ++ str_of_Z e
       else if e <? 0 then "0." ++ repeat "0"%char (Z.to_nat (- e - 1)) ++ ds
       else if e >? 0 then
         if e + 1 >? k then ds ++ repeat "0"%char (Z.to_nat (e + 1 - k))
         else if e + 1 <? k then
           firstn (Z.to_nat (e + 1)) ds ++ "." ++ skipn (Z.to_nat (e + 1)) ds
         else ds
       else if 1 <? k then firstn 1 ds ++ "." ++ skipn 1 ds
       else ds)).
  { rewrite Hexp.
    destruct (Z_le_gt_dec e (-7)) as [H1|H1].
    { destruct (Z.eq_dec k 1); settle_cmp; reflexivity. }
    destruct (Z_le_gt_dec 21 e) as [H2|H2].
    { destruct (Z.eq_dec k 1); settle_cmp; reflexivity. }
    destruct (Z_lt_le_dec e 0) as [H3|H3].
    { settle_cmp. do 3 f_equal. lia. }
    destruct (Z.eq_dec e 0) as [H4|H4].
    { destruct (Z.eq_dec k 1); settle_cmp.
      - replace (e + 1 - k) with 0 by lia. cbn [Z.to_nat repeat]. apply app_nil_r.
      - replace (Z.to_nat (e + 1)) with 1%nat by lia. reflexivity. }
    destruct (Z_lt_le_dec k (e + 1)) as [H5|H5]; [settle_cmp; reflexivity|].
    destruct (Z.eq_dec k (e + 1)) as [H6|H6]; settle_cmp.
    - replace (e + 1 - k) with 0 by lia. cbn [Z.to_nat repeat]. apply app_nil_r.
    - reflexivity. }
  destruct (m <? 0); now rewrite Hbody.
Qed.

Lemma new_Big_Fin m q : new_Big (VNum (Fin m q)) = Ok (Big.of_Zq m q).
Proof.
  unfold new_Big, String_. destruct (Z.eq_dec m 0) as [->|Hm]; [reflexivity|].
  rewrite (to_string_toString q Hm).
  destruct (parse_toString (of_Zq_canon m q)) as (y & Hp & _ & _ & Hy).
  rewrite Hp, (Hy (of_Zq_nonzero q Hm)). reflexivity.
Qed.

(** ** Rounding with a custom threshold *)

(** The flat digit sequence of [|x|] rendered with [sd] significant
    digits: the digits of the coefficient in exponential form, and the
    digits with the point removed otherwise (for a value below one these
    start with the zeros that precede the first significant digit). *)
Definition flat_digits (x : Big.t) (sd : Z) : list nat :=
  let y := Big.pad (Big.round (Big.abs x) sd) sd in
  if (sd <=? Big.e y) || (Big.e y <=? Big.NE) || (Big.e y >=? Big.PE) then Big.c y
  else repeat 0%nat (Z.to_nat (- Big.e y)) ++ Big.c y.

(** The digit that [round] compares with the threshold: index [n] of the
    flat digit sequence at [n + 10] digits, [0] if absent. *)
Definition decision_digit (x : Big.t) (n : Z) : Z :=
  Z.of_nat (nth (Z.to_nat n) (flat_digits x (n + 10)) 0%nat).

(** The top [n] significant digits of [|x|] as an integer; digits that
    [x] does not have are zeros. *)
Definition top_digits (x : Big.t) (n : Z) : Z :=
  Z_of_digits (firstn (Z.to_nat n) (Big.c (Big.pad x n))).

Lemma exponentialDigits_exp d R E :
  digits_ok (d :: R) ->
  exponentialDigits (dstr [d] ++ frac_str (Some R) ++ exp_str E) = Some (dstr (d :: R)).
Proof.
  intros Hok. inversion Hok as [|? ? Hd HR]; subst.
  rewrite exp_str_eq. unfold exponentialDigits.
  change (dstr [d] ++ frac_str (Some R)
            ++ "e"%char :: sign_char E :: dstr (digits_of_Z (Z.abs E)))
    with (digit_char d :: ("."%char :: dstr R)
            ++ "e"%char :: sign_char E :: dstr (digits_of_Z (Z.abs E))).
  change (digit_char d :: ("."%char :: dstr R)
            ++ "e"%char :: sign_char E :: dstr (digits_of_Z (Z.abs E)))
    with ((digit_char d :: "."%char :: dstr R)
            ++ "e"%char :: sign_char E :: dstr (digits_of_Z (Z.abs E))).
  rewrite cut_e_app_lacks.
  - change (chr_eqb "." ".") with true. cbn iota.
    now rewrite (is_digit_char Hd), (dstr_all_digits HR), signed_digits1_exp.
  - apply lacks_cons. split; [now apply digit_char_not_e|].
    apply lacks_cons. split; [reflexivity|now apply dstr_lacks_e].
  - reflexivity.
Qed.

Lemma exponentialDigits_lacks s : lacks is_e s -> exponentialDigits s = None.
Proof.
  intros H. unfold exponentialDigits. rewrite (cut_e_lacks H). now destruct s.
Qed.

Lemma remove_point ip fr :
  digits_ok ip -> frac_ok fr ->
  exponentialDigits (dstr ip ++ frac_str fr) = None /\
  remove_first "." (dstr ip ++ frac_str fr) = dstr (ip ++ frac_digits fr).
Proof.
  intros Hip Hfr. split.
  - apply exponentialDigits_lacks. apply lacks_app. split; [now apply dstr_lacks_e|].
    destruct fr as [fp|]; [|reflexivity].
    apply lacks_cons. split; [reflexivity|now apply dstr_lacks_e].
  - rewrite remove_first_app_lacks by now apply dstr_lacks_dot.
    rewrite dstr_app. f_equal. destruct fr as [fp|]; [|reflexivity].
    cbn [frac_str frac_digits]. apply remove_first_here.
Qed.

(** The digits printed in fixed notation, point removed. *)
Lemma shape_fixed_flat e ds :
  e + 1 <= Z.of_nat (length ds) -> (1 <= length ds)%nat ->
  exists ip fr,
    shape e ds false = (ip, fr, None) /\
    ip ++ frac_digits fr = repeat 0%nat (Z.to_nat (- e)) ++ ds.
Proof.
  intros He Hl. unfold shape.
  destruct (Z_lt_le_dec e 0) as [H0|H0]; settle_cmp.
  { eexists _, (Some _). split; [reflexivity|]. cbn [frac_digits app].
    replace (Z.to_nat (- e)) with (S (Z.to_nat (- e - 1))) by lia. reflexivity. }
  replace (Z.to_nat (- e)) with 0%nat by lia. cbn [repeat app].
  destruct (Z.eq_dec e 0) as [->|H1]; settle_cmp.
  - destruct (Z.eq_dec (Z.of_nat (length ds)) 1) as [H2|H2]; settle_cmp.
    + eexists _, None. split; [reflexivity|]. apply app_nil_r.
    + eexists _, (Some _). split; [reflexivity|]. apply firstn_skipn.
  - destruct (Z.eq_dec (e + 1) (Z.of_nat (length ds))) as [H2|H2]; settle_cmp.
    + eexists _, None. split; [reflexivity|]. apply app_nil_r.
    + eexists _, (Some _). split; [reflexivity|]. apply firstn_skipn.
Qed.

Lemma digit_at_dstr l i :
  digits_ok l -> digit_at (dstr l) i = Z.of_nat (nth (Z.to_nat i) l 0%nat).
Proof.
  intros Hok. unfold digit_at, dstr. rewrite nth_error_map.
  destruct (nth_error l (Z.to_nat i)) as [d|] eqn:E; cbn [option_map].
  - rewrite (nth_error_nth _ _ _ E).
    apply nth_error_In in E. unfold digits_ok in Hok. rewrite Forall_forall in Hok.
    now rewrite (digit_val_char (Hok _ E)).
  - apply nth_error_None in E. now rewrite nth_overflow.
Qed.

Lemma abs_canon x : canon x -> canon (Big.abs x).
Proof. intros (_ & Hok & H). split; [now left|]. split; assumption. Qed.

(** What [round] reads in the rendering with extra precision is the flat
    digit sequence. *)
Lemma extra_precision_digits x sd :
  canon x -> Big.nonzero x = true -> 2 <= sd <= Big.MAX_DP ->
  exists printed,
    Big.toPrecision (Big.abs x) sd = Ok printed /\
    match exponentialDigits printed with
    | Some ds => ds
    | None => remove_first "." printed
    end = dstr (flat_digits x sd) /\
    digits_ok (flat_digits x sd).
Proof.
  intros Hx Hnz [Hsd1 Hsd2].
  destruct (canon_cases Hx) as [[Hz _]|[_ Hd]]; [congruence|].
  pose proof (abs_canon Hx) as (_ & Hok & _).
  assert (Hsd0 : 1 <= sd) by lia.
  destruct (@round_digits (Big.abs x) sd Hd Hok Hsd0) as (Hsy & Hoky & Hnzy & Hly & _).
  unfold Big.toPrecision, flat_digits.
  replace ((sd <? 1) || (sd >? Big.MAX_DP)) with false
    by (symmetry; rewrite Z.gtb_ltb; apply orb_false_iff; split; apply Z.ltb_ge; lia).
  set (r := Big.round (Big.abs x) sd) in *. set (y := Big.pad r sd).
  eexists. split; [reflexivity|].
  assert (Hcy : Big.c y = Big.c r ++ repeat 0%nat (Z.to_nat sd - length (Big.c r)))
    by reflexivity.
  assert (Hlen : Z.of_nat (length (Big.c y)) = sd)
    by (rewrite Hcy, length_app, repeat_length; lia).
  assert (Hoky' : digits_ok (Big.c y))
    by (rewrite Hcy; apply digits_ok_app; split;
        [exact Hoky|apply digits_ok_repeat_zero]).
  rewrite stringify_shape.
  replace (Big.s y) with 1 by (symmetry; exact Hsy).
  change ((1 <? 0) && Big.nonzero (Big.abs x)) with false. cbn [sign_str app].
  destruct ((sd <=? Big.e y) || (Big.e y <=? Big.NE) || (Big.e y >=? Big.PE)) eqn:Ex.
  - destruct (Big.c y) as [|d [|d' R]] eqn:Ec; cbn [length] in Hlen; try lia.
    split; [|exact Hoky'].
    unfold shape. replace (1 <? Z.of_nat (length (d :: d' :: R))) with true
      by (symmetry; apply Z.ltb_lt; cbn [length]; lia).
    cbn [firstn skipn]. change (expo_str (Some (Big.e y))) with (exp_str (Big.e y)).
    now rewrite exponentialDigits_exp.
  - apply orb_false_iff in Ex as [Ex _]. apply orb_false_iff in Ex as [Ex _].
    apply Z.leb_gt in Ex.
    destruct (@shape_fixed_flat (Big.e y) (Big.c y)) as (ip & fr & Hsh & Hflat);
      [lia|lia|].
    assert (Hall : digits_ok (ip ++ frac_digits fr)).
    { rewrite Hflat. apply digits_ok_app. split; [apply digits_ok_repeat_zero|exact Hoky']. }
    rewrite Hsh. cbn [expo_str]. rewrite app_nil_r.
    apply digits_ok_app in Hall as [Hip Hfr].
    destruct (@remove_point ip fr Hip Hfr) as [-> ->].
    rewrite Hflat. split; [reflexivity|].
    apply digits_ok_app. split; [apply digits_ok_repeat_zero|exact Hoky'].
Qed.

(** *** The arithmetic of the rescaling *)

Lemma of_Zq_one k : Big.of_Zq 1 k = Big.mk 1 k [1%nat].
Proof.
  unfold Big.of_Zq. change (digits_of_Z (Z.abs 1)) with [1%nat].
  cbn [Z.eqb Z.ltb Z.compare length Big.strip_zeros_back rev app
       Big.strip_zeros_front Big.is_zero_digit Nat.eqb].
  f_equal. lia.
Qed.

Lemma of_Zq_facts m q :
  0 < m ->
  let y := Big.of_Zq m q in
  Big.nonzero y = true /\ Big.s y = 1 /\ 0 < Big.mant y /\ q <= Big.qexp y /\
  Big.mant y * 10 ^ (Big.qexp y - q) = m.
Proof.
  intros Hm y. assert (Hm0 : m <> 0) by lia.
  destruct (of_Zq_value m q) as [Hq Hv]. specialize (Hq Hm0). fold y in Hq, Hv.
  unfold scaled in Hv.
  assert (Hp : 0 < 10 ^ (Big.qexp y - q)) by (apply Z.pow_pos_nonneg; lia).
  split; [now apply of_Zq_nonzero|]. split.
  - subst y. rewrite (of_Zq_sign q Hm0).
    now replace (m <? 0) with false by (symmetry; apply Z.ltb_ge; lia).
  - split; [nia|]. split; [exact Hq|exact Hv].
Qed.

(** The scale factor: [new Big(10).pow(k)] is exactly [10^k] as long as
    the division that computes a negative power stays within [DP]
    decimal places. *)
Lemma pow_ten k :
  - Big.DP <= k <= Big.MAX_POWER ->
  Big.pow (Big.mk 1 1 [1%nat]) k = Ok (Big.mk 1 k [1%nat]).
Proof.
  unfold Big.DP, Big.MAX_POWER. intros Hk. unfold Big.pow, Big.MAX_POWER.
  change (Big.mant (Big.mk 1 1 [1%nat])) with 1.
  change (Big.qexp (Big.mk 1 1 [1%nat])) with 1.
  rewrite Z.pow_1_l by lia. rewrite Z.mul_1_l, of_Zq_one.
  destruct (Z_lt_le_dec k 0) as [Hneg|Hpos]; settle_cmp.
  - unfold Big.div, Big.DP.
    change (Big.nonzero (Big.mk 1 (Z.abs k) [1%nat])) with true.
    change (Big.nonzero Big.one) with true. cbn [negb].
    change (Big.mant Big.one) with 1. change (Big.qexp Big.one) with 0.
    change (Big.mant (Big.mk 1 (Z.abs k) [1%nat])) with 1.
    change (Big.s Big.one) with 1. cbn [Big.s].
    replace (Big.qexp (Big.mk 1 (Z.abs k) [1%nat])) with (- k)
      by (unfold Big.qexp; cbn [Big.e Big.c length]; lia).
    replace (Z.max (20 + 0 - - k) 0) with (20 + k) by lia.
    replace (Z.max (- (20 + 0 - - k)) 0) with 0 by lia.
    change (Z.abs 1 * 10 ^ 0) with 1.
    assert (Hp : 0 < 10 ^ (20 + k)) by (apply Z.pow_pos_nonneg; lia).
    replace ((2 * (Z.abs 1 * 10 ^ (20 + k)) + 1) / (2 * 1)) with (10 ^ (20 + k)).
    2:{ apply Z.div_unique with (r := 1); lia. }
    replace (1 * 1 * 10 ^ (20 + k)) with (1 * 10 ^ (20 + k)) by lia.
    rewrite of_Zq_shift by lia. rewrite of_Zq_one. do 2 f_equal. lia.
  - do 2 f_equal. lia.
Qed.

Lemma times_scale a k :
  Big.times a (Big.mk 1 k [1%nat]) = Big.of_Zq (Big.mant a) (Big.qexp a + k).
Proof.
  unfold Big.times. change (Big.mant (Big.mk 1 k [1%nat])) with 1.
  replace (Big.qexp (Big.mk 1 k [1%nat])) with k
    by (unfold Big.qexp; cbn [Big.e Big.c length]; lia).
  now rewrite Z.mul_1_r.
Qed.

(** The whole part of a positive decimal, read by [Math.floor] and handed
    back to big.js. *)
Lemma truncated_value M j :
  0 < M ->
  new_Big (VNum (Num.floor (toNumber (Big.of_Zq M j))))
  = Ok (Big.of_Zq (if 0 <=? j then M * 10 ^ j else M / 10 ^ (- j)) 0).
Proof.
  intros HM. destruct (of_Zq_facts j HM) as (Hnz & _ & Hmant & Hq & Hv).
  set (y := Big.of_Zq M j) in *. unfold toNumber. rewrite Hnz. unfold Num.floor.
  destruct (Z_lt_le_dec (Big.qexp y) 0) as [Hneg|Hpos]; settle_cmp;
    rewrite new_Big_Fin; f_equal.
  - (* the value has a fractional part *)
    f_equal. rewrite <- Hv.
    replace (10 ^ (- j)) with (10 ^ (- Big.qexp y) * 10 ^ (Big.qexp y - j))
      by (rewrite <- Z.pow_add_r by lia; f_equal; lia).
    assert (0 < 10 ^ (Big.qexp y - j)) by (apply Z.pow_pos_nonneg; lia).
    rewrite Z.div_mul_cancel_r by lia. reflexivity.
  - destruct (Z_lt_le_dec j 0) as [Hj|Hj]; settle_cmp.
    + apply of_Zq_eq with (q := 0); [lia|lia|].
      rewrite !Z.sub_0_r. change (10 ^ 0) with 1. rewrite Z.mul_1_r.
      rewrite <- Hv.
      replace (Big.qexp y - j) with (Big.qexp y + - j) by lia.
      rewrite Z.pow_add_r, Z.mul_assoc by lia.
      assert (0 < 10 ^ (- j)) by (apply Z.pow_pos_nonneg; lia).
      rewrite Z.div_mul by lia. reflexivity.
    + apply of_Zq_eq with (q := 0); [lia|lia|].
      rewrite !Z.sub_0_r. change (10 ^ 0) with 1. rewrite Z.mul_1_r.
      rewrite <- Hv, <- Z.mul_assoc, <- Z.pow_add_r by lia.
      do 2 f_equal. lia.
Qed.

Lemma plus_one T :
  0 < T -> Big.plus (Big.of_Zq T 0) Big.one = Big.of_Zq (T + 1) 0.
Proof.
  intros HT. destruct (of_Zq_facts 0 HT) as (_ & _ & _ & Hq & Hv).
  unfold Big.plus. change (Big.qexp Big.one) with 0. change (Big.mant Big.one) with 1.
  rewrite Z.min_r by lia. rewrite Z.sub_0_r in *. now rewrite Hv.
Qed.

(** Dividing a positive integer by the scale factor [10^k] is exact as
    long as the quotient needs no more than [DP] decimal places. *)
Lemma div_scale T k :
  0 < T -> k <= Big.DP ->
  Big.div (Big.of_Zq T 0) (Big.mk 1 k [1%nat]) = Ok (Big.of_Zq T (- k)).
Proof.
  unfold Big.DP. intros HT Hk.
  destruct (of_Zq_facts 0 HT) as (Hnz & Hs & Hmant & Hq & Hv).
  set (X := Big.of_Zq T 0) in *. unfold Big.div, Big.DP. rewrite Hnz, Hs.
  change (Big.nonzero (Big.mk 1 k [1%nat])) with true. cbn [negb Big.s].
  change (Big.mant (Big.mk 1 k [1%nat])) with 1.
  replace (Big.qexp (Big.mk 1 k [1%nat])) with k
    by (unfold Big.qexp; cbn [Big.e Big.c length]; lia).
  replace (Z.max (20 + Big.qexp X - k) 0) with (20 + Big.qexp X - k) by lia.
  replace (Z.max (- (20 + Big.qexp X - k)) 0) with 0 by lia.
  change (Z.abs 1 * 10 ^ 0) with 1. rewrite (Z.abs_eq (Big.mant X)) by lia.
  set (N := Big.mant X * 10 ^ (20 + Big.qexp X - k)).
  replace ((2 * N + 1) / (2 * 1)) with N
    by (apply Z.div_unique with (r := 1); lia).
  f_equal. apply of_Zq_eq with (q := -20); [lia|lia|].
  subst N. rewrite Z.sub_diag. change (10 ^ 0) with 1.
  rewrite <- Hv. rewrite Z.sub_0_r.
  rewrite <- (Z.mul_assoc (Big.mant X)), <- Z.pow_add_r by lia.
  replace (Big.qexp X + (- k - -20)) with (20 + Big.qexp X - k) by lia. ring.
Qed.

Lemma times_minus_one T q :
  0 < T -> Big.times (Big.of_Zq T q) (Big.mk (-1) 0 [1%nat]) = Big.of_Zq (- T) q.
Proof.
  intros HT. destruct (of_Zq_facts q HT) as (_ & _ & _ & Hq & Hv).
  set (R := Big.of_Zq T q) in *.
  unfold Big.times. change (Big.mant (Big.mk (-1) 0 [1%nat])) with (-1).
  change (Big.qexp (Big.mk (-1) 0 [1%nat])) with 0.
  apply of_Zq_eq with (q := q); [lia|lia|].
  rewrite Z.sub_diag. change (10 ^ 0) with 1. rewrite Z.add_0_r.
  transitivity (- (Big.mant R * 10 ^ (Big.qexp R - q))); [ring|rewrite Hv; ring].
Qed.

(** The first [n] digits of a value in normal form, as the integer part
    of the value scaled by its magnitude. *)
Lemma top_digits_floor x n :
  canon x -> Big.nonzero x = true -> 1 <= n ->
  let M := Z_of_digits (Big.c x) in
  let j := n - Z.of_nat (length (Big.c x)) in
  (if 0 <=? j then M * 10 ^ j else M / 10 ^ (- j)) = top_digits x n /\
  0 < top_digits x n.
Proof.
  intros Hx Hnz Hn M j.
  destruct (canon_cases Hx) as [[Hz _]|[_ Hd]]; [congruence|].
  destruct Hx as (_ & Hok & _). pose proof Hd as (d & r & Hc & Hd0 & _).
  unfold top_digits, Big.pad. cbn [Big.c].
  set (L := length (Big.c x)) in *.
  assert (HL : (1 <= L)%nat) by (subst L; rewrite Hc; cbn [length]; lia).
  assert (Hfirst : exists r', firstn (Z.to_nat n)
             (Big.c x ++ repeat 0%nat (Z.to_nat n - L)) = d :: r').
  { rewrite Hc. destruct (Z.to_nat n) as [|k] eqn:E; [lia|]. cbn [app firstn]. eauto. }
  assert (Hokp : digits_ok (firstn (Z.to_nat n)
                    (Big.c x ++ repeat 0%nat (Z.to_nat n - L)))).
  { apply digits_ok_firstn, digits_ok_app. split; [exact Hok|apply digits_ok_repeat_zero]. }
  split.
  - destruct (Z_lt_le_dec j 0) as [Hj|Hj]; settle_cmp.
    + replace (Z.to_nat n - L)%nat with 0%nat by lia. cbn [repeat]. rewrite app_nil_r.
      subst M. rewrite <- (firstn_skipn (Z.to_nat n) (Big.c x)) at 1.
      rewrite Z_of_digits_app.
      assert (Hsk : digits_ok (skipn (Z.to_nat n) (Big.c x))).
      { rewrite <- (firstn_skipn (Z.to_nat n) (Big.c x)) in Hok.
        now apply digits_ok_app in Hok. }
      pose proof (Z_of_digits_bounds Hsk) as Hb.
      replace (Z.of_nat (length (skipn (Z.to_nat n) (Big.c x)))) with (- j) in *
        by (rewrite length_skipn; subst j; fold L; lia).
      symmetry. apply Z.div_unique with (r := Z_of_digits (skipn (Z.to_nat n) (Big.c x)));
        [lia|ring].
    + rewrite firstn_all2 by (rewrite length_app, repeat_length; lia).
      rewrite Z_of_digits_app, Z_of_digits_repeat_zero, repeat_length.
      subst M. replace (Z.of_nat (Z.to_nat n - L)) with j by lia. lia.
  - destruct Hfirst as [r' Hr']. rewrite Hr' in *.
    pose proof (Z_of_digits_lower Hokp Hd0).
    assert (0 < 10 ^ Z.of_nat (length r')) by (apply Z.pow_pos_nonneg; lia). lia.
Qed.

Lemma magnitude_of_abs x :
  canon x -> Big.nonzero x = true ->
  int_value (Num.floor_log10 (toNumber (Big.abs x))) = Big.e x.
Proof.
  intros Hx Hnz. pose proof (abs_canon Hx) as Ha.
  assert (Hnza : Big.nonzero (Big.abs x) = true) by exact Hnz.
  destruct (canon_cases Ha) as [[Hz _]|[_ Hd]]; [congruence|].
  destruct Ha as (_ & Hok & _).
  destruct (nonzero_digits_facts Hok Hd) as ([Hlo _] & _ & _).
  assert (Hp : 0 < 10 ^ (Z.of_nat (length (Big.c (Big.abs x))) - 1))
    by (apply Z.pow_pos_nonneg; destruct Hd as (d & r & -> & _); cbn [length]; lia).
  assert (Hm : 0 < Big.mant (Big.abs x))
    by (unfold Big.mant; cbn [Big.abs Big.s Big.c] in *; lia).
  unfold toNumber. rewrite Hnza. unfold Num.floor_log10. settle_cmp.
  unfold Num.decimal. rewrite (of_Zq_mant_qexp (abs_canon Hx) Hnza).
  unfold int_value, Num.to_int. cbn [Z.leb Z.compare Big.abs Big.e].
  change (10 ^ 0) with 1. apply Z.mul_1_r.
Qed.

(** What [round] computes with a custom threshold, as long as the last
    retained digit lies within [DP = 20] places of the decimal point: the
    first [n] digits of [|x|] as an integer, plus one exactly when the
    digit read in the flat digit sequence reaches the threshold, scaled
    back, given the sign of [x] and printed with [n] significant
    figures. *)
Theorem round_custom_procedure v sigfigs t x n :
  new_Big v = Ok x -> Big.nonzero x = true ->
  validateSigfigs sigfigs = Ok n -> n + 10 <= Big.MAX_DP ->
  0 <= t <= 9 -> t <> 5 ->
  - Big.DP <= Big.e x - n + 1 <= Big.DP ->
  round v sigfigs (Some (Num.of_Z t))
  = Big.toPrecision
      (Big.of_Zq
         (Big.s x * (top_digits x n + (if decision_digit x n >=? t then 1 else 0)))
         (Big.e x - n + 1)) n.
Proof.
  unfold Big.DP. intros Hx Hnz Hv Hmax Ht Ht5 Hrange.
  pose proof (new_Big_canon _ Hx) as Hc.
  destruct (@validated_positive _ _ Hv) as [Hn _].
  unfold round. rewrite Hv, Hx. cbn [bind].
  replace (Num.to_int (Num.of_Z t)) with (Some t)
    by (unfold Num.of_Z, Num.to_int; cbn [Z.leb Z.compare];
        change (10 ^ 0) with 1; now rewrite Z.mul_1_r).
  replace ((t <? 0) || (t >? 9)) with false
    by (symmetry; rewrite Z.gtb_ltb; apply orb_false_iff; split; apply Z.ltb_ge; lia).
  cbn [bind]. rewrite (eq_zero_canon Hc), Hnz. cbn [negb].
  replace (t =? 5) with false by (symmetry; now apply Z.eqb_neq).
  (* the decision digit *)
  assert (Hsd : 2 <= n + 10 <= Big.MAX_DP) by lia.
  destruct (extra_precision_digits Hc Hnz Hsd) as (printed & HS & Hdig & Hokf).
  rewrite HS. cbn [bind]. rewrite Hdig, (digit_at_dstr _ Hokf).
  fold (decision_digit x n).
  (* magnitude and scale factor *)
  rewrite (eq_zero_canon (abs_canon Hc)).
  change (Big.nonzero (Big.abs x)) with (Big.nonzero x). rewrite Hnz. cbn [negb].
  rewrite (magnitude_of_abs Hc Hnz).
  replace (new_Big (VNum (Num.of_Z 10))) with (Ok (Big.mk 1 1 [1%nat]))
    by (vm_compute; reflexivity).
  cbn [bind]. rewrite pow_ten by (unfold Big.DP, Big.MAX_POWER; lia). cbn [bind].
  (* truncation *)
  destruct (canon_cases Hc) as [[Hz _]|[_ Hd]]; [congruence|].
  pose proof Hc as (Hs & Hok & _).
  destruct (nonzero_digits_facts Hok Hd) as ([Hlo _] & _ & HL).
  assert (Hp : 0 < 10 ^ (Z.of_nat (length (Big.c x)) - 1))
    by (apply Z.pow_pos_nonneg; lia).
  destruct (top_digits_floor Hc Hnz Hn) as [Htop Hpos].
  rewrite times_scale.
  replace (Big.mant (Big.abs x)) with (Z_of_digits (Big.c x))
    by (unfold Big.mant; cbn [Big.abs Big.s Big.c]; lia).
  replace (Big.qexp (Big.abs x) + - (Big.e x - n + 1))
    with (n - Z.of_nat (length (Big.c x)))
    by (unfold Big.qexp; cbn [Big.abs Big.e Big.c]; lia).
  rewrite truncated_value by lia. rewrite Htop. cbn [bind].
  (* increment, rescaling and sign *)
  rewrite Z.geb_leb.
  set (T := top_digits x n) in *. set (rp := Big.e x - n + 1) in *.
  assert (Hres :
    (if t <=? decision_digit x n
     then Big.div (Big.plus (Big.of_Zq T 0) Big.one) (Big.mk 1 (- rp) [1%nat])
     else Big.div (Big.of_Zq T 0) (Big.mk 1 (- rp) [1%nat]))
    = Ok (Big.of_Zq (T + (if t <=? decision_digit x n then 1 else 0)) rp)).
  { destruct (t <=? decision_digit x n).
    - rewrite plus_one by exact Hpos.
      rewrite div_scale by (unfold Big.DP; lia). now rewrite Z.opp_involutive.
    - rewrite div_scale by (unfold Big.DP; lia).
      now rewrite Z.opp_involutive, Z.add_0_r. }
  rewrite Hres. cbn [bind].
  assert (Hinc : 0 < T + (if t <=? decision_digit x n then 1 else 0))
    by (destruct (t <=? decision_digit x n); lia).
  destruct Hs as [Hs|Hs]; rewrite Hs.
  - change (1 =? -1) with false. cbn iota. now rewrite Z.mul_1_l.
  - change (-1 =? -1) with true. cbn iota. rewrite times_minus_one by exact Hinc.
    do 2 f_equal; lia.
Qed.

(** *** The procedure as the specification words it *)

(** The digit of [|x|] at index [n] of its digit sequence, [0] if
    absent. *)
Definition digit_after (x : Big.t) (n : Z) : Z :=
  Z.of_nat (nth (Z.to_nat n) (Big.c x) 0%nat).

(** Truncate to the top [n] digits, increment when the decision digit
    reaches the threshold, rescale, reapply the sign and render with [n]
    significant figures. *)
Definition round_custom_spec (x : Big.t) (n t : Z) : res str :=
  Big.toPrecision
    (Big.of_Zq (Big.s x * (top_digits x n + (if digit_after x n >=? t then 1 else 0)))
               (Big.e x - n + 1)) n.

Lemma nth_app_zeros l k i : nth i (l ++ repeat 0%nat k) 0%nat = nth i l 0%nat.
Proof.
  destruct (Nat.lt_ge_cases i (length l)) as [H|H].
  - now apply app_nth1.
  - rewrite app_nth2 by exact H. rewrite (nth_overflow l) by exact H.
    destruct (Nat.lt_ge_cases (i - length l) k) as [H'|H'].
    + now apply nth_repeat_lt.
    + apply nth_overflow. now rewrite repeat_length.
Qed.

(** The digit that the code reads is the decision digit of the
    specification when the value is not shortened by the rendering with
    extra precision and is not printed with zeros in front of its first
    significant digit. *)
Lemma decision_digit_agrees x n :
  1 <= n -> Z.of_nat (length (Big.c x)) <= n + 10 ->
  0 <= Big.e x \/ Big.e x <= Big.NE ->
  decision_digit x n = digit_after x n.
Proof.
  intros Hn Hlen He. unfold decision_digit, digit_after, flat_digits.
  rewrite round_short by (cbn [Big.abs Big.c]; lia).
  cbn [Big.pad Big.abs Big.e Big.c Big.s].
  destruct ((n + 10 <=? Big.e x) || (Big.e x <=? Big.NE) || (Big.e x >=? Big.PE)) eqn:E.
  - now rewrite nth_app_zeros.
  - apply orb_false_iff in E as [E _]. apply orb_false_iff in E as [_ E].
    apply Z.leb_gt in E. replace (Z.to_nat (- Big.e x)) with 0%nat by lia.
    cbn [repeat app]. now rewrite nth_app_zeros.
Qed.

(** On that domain [round] with a custom threshold is the procedure of
    the specification. *)
Theorem round_custom_agrees v sigfigs t x n :
  new_Big v = Ok x -> Big.nonzero x = true ->
  validateSigfigs sigfigs = Ok n -> n + 10 <= Big.MAX_DP ->
  0 <= t <= 9 -> t <> 5 ->
  - Big.DP <= Big.e x - n + 1 <= Big.DP ->
  0 <= Big.e x \/ Big.e x <= Big.NE ->
  Z.of_nat (length (Big.c x)) <= n + 10 ->
  round v sigfigs (Some (Num.of_Z t)) = round_custom_spec x n t.
Proof.
  intros Hx Hnz Hv Hmax Ht Ht5 Hrange He Hlen.
  destruct (@validated_positive _ _ Hv) as [Hn _].
  rewrite (@round_custom_procedure v sigfigs t x n Hx Hnz Hv Hmax Ht Ht5 Hrange).
  unfold round_custom_spec. now rewrite (@decision_digit_agrees x n Hn Hlen He).
Qed.

(** The procedure at the first example of the specification: the first
    three digits of [123.456] are [123], the decision digit [4] reaches
    the threshold [3], and [124] is printed. *)
Lemma round_custom_agrees_example :
  round (VStr "123.456") (Num.of_Z 3) (Some (Num.of_Z 3)) = Ok "124".
Proof.
  rewrite (@round_custom_agrees (VStr "123.456") (Num.of_Z 3) 3
             (Big.mk 1 2 [1; 2; 3; 4; 5; 6]%nat) 3);
    try reflexivity;
    try (unfold Big.MAX_DP, Big.DP, Big.NE; cbn [Big.e Big.c length]; lia).
Defined.

(** The examples of the specification and of the test suite for custom
    thresholds.  In the last two the value is below one and printed in
    fixed notation, so the flat digit sequence starts with the zeros of
    ["0.00"] and the digit read at index 2 is a zero. *)
Lemma round_custom_examples :
  round (lit "123.456") (Num.of_Z 3) (Some (Num.of_Z 3)) = Ok "124" /\
  round (lit "123.256") (Num.of_Z 3) (Some (Num.of_Z 3)) = Ok "123" /\
  round (VStr "123.856") (Num.of_Z 3) (Some (Num.of_Z 9)) = Ok "123" /\
  round (VStr "123.956") (Num.of_Z 3) (Some (Num.of_Z 9)) = Ok "124" /\
  round (lit "123.001") (Num.of_Z 3) (Some (Num.of_Z 0)) = Ok "124" /\
  round (lit "-123.456") (Num.of_Z 3) (Some (Num.of_Z 3)) = Ok "-124" /\
  round (lit "0.001294") (Num.of_Z 2) (Some (Num.of_Z 9)) = Ok "0.0012" /\
  round (lit "0.001234") (Num.of_Z 2) (Some (Num.of_Z 0)) = Ok "0.0013".
Proof. repeat split; vm_compute; reflexivity. Qed.

(** C2 (the code departs from the claim).  Three inputs at which [round]
    with a custom threshold does not return what the procedure of the
    claim gives.
    - [5e21], one figure, threshold 3: the top digit is 5 and the decision
      digit 0, so the claim gives ["5e+21"]; the scale factor [10^-21] is
      computed by big.js with 20 decimal places and is zero, and the
      rescaling divides by it: the division error of the library is
      thrown.  (At the other end of the range, [1.5e-21] loses its
      rescaled result to the same 20 places and is printed as ["0"].)
    - [0.52], one figure, threshold 3: the top digit is 5 and the decision
      digit 2 stays below the threshold, so the claim gives ["0.5"]; the
      code reads index 1 of ["052000000000"], the rendering ["0.52000000000"]
      without its point, finds the 5 and returns ["0.6"].
    - [1.2999999999999], two figures, threshold 9: the decision digit is
      9 and the claim gives ["1.3"]; the rendering with twelve digits has
      already rounded the value to ["1.30000000000"], the code reads a 0
      and returns ["1.2"]. *)
Lemma round_custom_departs :
  (round (VStr "5e21") (Num.of_Z 1) (Some (Num.of_Z 3)) = Throw Big.DIV_BY_ZERO /\
   (let* x := new_Big (VStr "5e21") in round_custom_spec x 1 3) = Ok "5e+21") /\
  (round (VStr "1.5e-21") (Num.of_Z 1) (Some (Num.of_Z 3)) = Ok "0" /\
   (let* x := new_Big (VStr "1.5e-21") in round_custom_spec x 1 3) = Ok "2e-21") /\
  (round (lit "0.52") (Num.of_Z 1) (Some (Num.of_Z 3)) = Ok "0.6" /\
   (let* x := new_Big (lit "0.52") in round_custom_spec x 1 3) = Ok "0.5") /\
  (round (VStr "1.2999999999999") (Num.of_Z 2) (Some (Num.of_Z 9)) = Ok "1.2" /\
   (let* x := new_Big (VStr "1.2999999999999") in round_custom_spec x 2 9) = Ok "1.3").
Proof. repeat split; vm_compute; reflexivity. Qed.

(** * Further properties of the code *)

(** ** [toSigfig] rounds half up *)

(** The carry loop adds one to the number that the digits spell. *)
Lemma incr_value l :
  digits_ok l ->
  Z_of_digits (snd (Big.incr l))
  + (if fst (Big.incr l) then 10 ^ Z.of_nat (length l) else 0)
  = Z_of_digits l + 1.
Proof.
  intros Hok. induction Hok as [|d l Hd _ IH]; [reflexivity|].
  pose proof (incr_length l) as Hl. cbn [Big.incr].
  destruct (Big.incr l) as [cy l']. cbn [fst snd] in *.
  assert (Hp : 10 ^ Z.of_nat (S (length l)) = 10 * 10 ^ Z.of_nat (length l))
    by (rewrite Nat2Z.inj_succ, Z.pow_succ_r by lia; reflexivity).
  destruct cy.
  - destruct (9 <? d + 1)%nat eqn:E; cbn [fst snd length];
      rewrite !Z_of_digits_cons, Hl, ?Hp.
    + apply Nat.ltb_lt in E. nia.
    + apply Nat.ltb_ge in E. nia.
  - cbn [fst snd]. rewrite !Z_of_digits_cons, Hl. lia.
Qed.

(** The digit after the last kept one is at least five exactly when the
    dropped digits are at least half a unit of the last kept one. *)
Lemma ge5_spec xc sd :
  digits_ok xc -> 0 <= sd < Z.of_nat (length xc) ->
  Big.ge5 xc sd
  = (10 ^ (Z.of_nat (length xc) - sd) <=? 2 * Z_of_digits (skipn (Z.to_nat sd) xc)).
Proof.
  intros Hok Hsd. unfold Big.ge5.
  rewrite <- (firstn_skipn (Z.to_nat sd) xc) in Hok.
  apply digits_ok_app in Hok as [_ Hok].
  assert (Hlen : length (skipn (Z.to_nat sd) xc) = (length xc - Z.to_nat sd)%nat)
    by apply length_skipn.
  rewrite <- (firstn_skipn (Z.to_nat sd) xc) at 1.
  rewrite nth_error_app2 by (rewrite length_firstn; lia).
  replace (Z.to_nat sd - length (firstn (Z.to_nat sd) xc))%nat with 0%nat
    by (rewrite length_firstn; lia).
  destruct (skipn (Z.to_nat sd) xc) as [|d t]; cbn [length] in Hlen; [lia|].
  cbn [nth_error]. inversion Hok as [|? ? Hd Ht]; subst.
  pose proof (Z_of_digits_bounds Ht) as Hb. rewrite Z_of_digits_cons.
  replace (Z.of_nat (length xc) - sd) with (Z.of_nat (length t) + 1) by lia.
  rewrite Z.pow_add_r by lia. change (10 ^ 1) with 10.
  assert (Hp : 0 < 10 ^ Z.of_nat (length t)) by (apply Z.pow_pos_nonneg; lia).
  destruct (5 <=? d)%nat eqn:E.
  - apply Nat.leb_le in E. symmetry. apply Z.leb_le. nia.
  - apply Nat.leb_gt in E. symmetry. apply Z.leb_gt. nia.
Qed.

(** [m / 10^k] rounded to the nearest integer, a tie going away from
    zero. *)
Definition nearest (m k : Z) : Z :=
  Z.sgn m * ((2 * Z.abs m + 10 ^ k) / (2 * 10 ^ k)).

Lemma nearest_half_unit m k :
  0 <= k -> 2 * Z.abs (nearest m k * 10 ^ k - m) <= 10 ^ k.
Proof.
  intros Hk. unfold nearest.
  assert (Hp : 0 < 10 ^ k) by (apply Z.pow_pos_nonneg; lia).
  pose proof (Z.div_mod (2 * Z.abs m + 10 ^ k) (2 * 10 ^ k) ltac:(lia)) as Hdm.
  pose proof (Z.mod_pos_bound (2 * Z.abs m + 10 ^ k) (2 * 10 ^ k) ltac:(lia)) as Hb.
  set (Q := (2 * Z.abs m + 10 ^ k) / (2 * 10 ^ k)) in *.
  set (R := (2 * Z.abs m + 10 ^ k) mod (2 * 10 ^ k)) in *.
  destruct (Z.sgn_spec m) as [[Hm ->]|[[Hm ->]|[Hm ->]]]; nia.
Qed.

Lemma nearest_exact m : nearest m 0 = m.
Proof.
  unfold nearest. change (10 ^ 0) with 1.
  replace ((2 * Z.abs m + 1) / (2 * 1)) with (Z.abs m)
    by (apply Z.div_unique with (r := 1); lia).
  destruct (Z.sgn_spec m) as [[Hm ->]|[[Hm ->]|[Hm ->]]]; lia.
Qed.

Lemma firstn_head {A} n (d : A) r :
  (1 <= n)%nat -> exists r0, firstn n (d :: r) = d :: r0.
Proof. intros H. destruct n as [|n]; [lia|]. cbn [firstn]. eauto. Qed.

(** The value of a list of digits with a nonzero head, in normal form. *)
Lemma of_Zq_digit_list sg d r q :
  sign_ok sg -> digits_ok (d :: r) -> d <> 0%nat ->
  Big.of_Zq (sg * Z_of_digits (d :: r)) q
  = Big.mk sg (q + Z.of_nat (length (d :: r)) - 1) (Big.strip_zeros_back (d :: r)).
Proof.
  intros Hs Hok Hd. destruct (strip_back_decomp (d :: r)) as [j Hj].
  pose proof (nonzero_digits_strip r Hd) as Hnz.
  pose proof (strip_back_ok Hok) as Hok'.
  set (ds := Big.strip_zeros_back (d :: r)) in *.
  rewrite Hj at 1. rewrite Z_of_digits_app, Z_of_digits_repeat_zero, repeat_length, Z.add_0_r.
  rewrite (of_Zq_digits j q Hs Hok' Hnz). f_equal.
  apply (f_equal (@length nat)) in Hj. rewrite length_app, repeat_length in Hj. lia.
Qed.

(** [round] of big.js gives the nearest value with [sd] digits. *)
Lemma round_value x sd :
  canon x -> Big.nonzero x = true -> 1 <= sd ->
  let k := Z.max 0 (Z.of_nat (length (Big.c x)) - sd) in
  Big.round x sd = Big.of_Zq (nearest (Big.mant x) k) (Big.qexp x + k).
Proof.
  intros Hx Hnz Hsd k.
  destruct (canon_cases Hx) as [[Hz _]|[_ Hd]]; [congruence|].
  pose proof Hx as (Hs & Hok & _).
  destruct (nonzero_digits_facts Hok Hd) as ([Hlo _] & _ & HL).
  assert (Hp1 : 0 < 10 ^ (Z.of_nat (length (Big.c x)) - 1))
    by (apply Z.pow_pos_nonneg; lia).
  set (M := Z_of_digits (Big.c x)) in *.
  assert (Hsgn : Z.sgn (Big.mant x) = Big.s x /\ Z.abs (Big.mant x) = M).
  { unfold Big.mant. fold M. destruct Hs as [-> | ->]; split; lia. }
  destruct Hsgn as [Hsg Habs].
  destruct (Z_le_gt_dec (Z.of_nat (length (Big.c x))) sd) as [Hshort|Hlong].
  - rewrite round_short by lia. subst k. rewrite Z.max_l by lia.
    rewrite nearest_exact, Z.add_0_r. symmetry. now apply of_Zq_mant_qexp.
  - subst k. rewrite Z.max_r by lia.
    set (k := Z.of_nat (length (Big.c x)) - sd) in *.
    assert (Hpk : 0 < 10 ^ k) by (apply Z.pow_pos_nonneg; lia).
    unfold nearest. rewrite Hsg, Habs.
    pose proof Hd as (d & r & Hc & Hd0 & _).
    assert (Hsplit : M = Z_of_digits (firstn (Z.to_nat sd) (Big.c x)) * 10 ^ k
                         + Z_of_digits (skipn (Z.to_nat sd) (Big.c x))).
    { subst M. rewrite <- (firstn_skipn (Z.to_nat sd) (Big.c x)) at 1.
      rewrite Z_of_digits_app, length_skipn. do 3 f_equal. lia. }
    assert (Hokt : digits_ok (skipn (Z.to_nat sd) (Big.c x))).
    { rewrite <- (firstn_skipn (Z.to_nat sd) (Big.c x)) in Hok.
      now apply digits_ok_app in Hok. }
    pose proof (Z_of_digits_bounds Hokt) as Hbt.
    rewrite length_skipn in Hbt.
    replace (Z.of_nat (length (Big.c x) - Z.to_nat sd)) with k in Hbt by lia.
    assert (Hokh : digits_ok (firstn (Z.to_nat sd) (Big.c x)))
      by now apply digits_ok_firstn.
    assert (Hlh : length (firstn (Z.to_nat sd) (Big.c x)) = Z.to_nat sd)
      by (rewrite length_firstn; lia).
    destruct (@firstn_head nat (Z.to_nat sd) d r ltac:(lia)) as [r0 Hh].
    rewrite <- Hc in Hh.
    pose proof (@ge5_spec (Big.c x) sd Hok ltac:(lia)) as Hge. fold k in Hge.
    assert (Hq : Big.qexp x + k = Big.e x - sd + 1) by (unfold Big.qexp; lia).
    rewrite Hq. unfold Big.round.
    replace (sd <? 1) with false by (symmetry; apply Z.ltb_ge; lia).
    replace (sd <? Z.of_nat (length (Big.c x))) with true
      by (symmetry; apply Z.ltb_lt; lia).
    rewrite Hge. rewrite Hh in *.
    set (T := Z_of_digits (d :: r0)) in *.
    set (t := Z_of_digits (skipn (Z.to_nat sd) (Big.c x))) in *.
    destruct (10 ^ k <=? 2 * t) eqn:E.
    + (* the dropped digits reach half a unit *)
      apply Z.leb_le in E.
      replace ((2 * M + 10 ^ k) / (2 * 10 ^ k)) with (T + 1)
        by (apply Z.div_unique with (r := 2 * t - 10 ^ k); lia).
      pose proof (incr_value Hokh) as Hv. fold T in Hv.
      pose proof (incr_length (d :: r0)) as Hil.
      pose proof (incr_ok Hokh) as Hiok.
      pose proof (@incr_carry (d :: r0)) as Hcy.
      pose proof (@incr_head d r0) as Hih.
      destruct (Big.incr (d :: r0)) as [cy l']. cbn [fst snd] in *.
      rewrite Hlh in Hv, Hcy.
      destruct cy.
      * rewrite (Hcy eq_refl), Z_of_digits_repeat_zero in Hv.
        rewrite (Hcy eq_refl), strip_back_one_zeros.
        replace (T + 1) with (Z_of_digits [1%nat] * 10 ^ Z.of_nat (Z.to_nat sd))
          by (change (Z_of_digits [1%nat]) with 1; lia).
        rewrite (@of_Zq_digits (Big.s x) [1%nat] (Z.to_nat sd) (Big.e x - sd + 1) Hs).
        -- f_equal. cbn [length]. lia.
        -- constructor; [lia|constructor].
        -- exists 1%nat, []. repeat split; lia.
      * destruct (Hih eq_refl) as (d' & r' & -> & Hd').
        assert (Hd0' : d' <> 0%nat) by lia.
        replace (T + 1) with (Z_of_digits (d' :: r')) by lia.
        rewrite (of_Zq_digit_list (Big.e x - sd + 1) Hs Hiok Hd0').
        f_equal. lia.
    + apply Z.leb_gt in E.
      replace ((2 * M + 10 ^ k) / (2 * 10 ^ k)) with T
        by (apply Z.div_unique with (r := 2 * t + 10 ^ k); lia).
      subst T.
      rewrite (of_Zq_digit_list (Big.e x - sd + 1) Hs Hokh Hd0).
      f_equal. rewrite Hlh. lia.
Qed.

(** X1.  For a parseable nonzero value whose exponent is within
    [MAX_EXPONENT] and a valid count [n] that the decimal library
    accepts, [toSigfig] returns a string that reads back
    as the value rounded to the nearest number with [n] significant
    digits, a tie going away from zero: with [k] the number of digits
    dropped, the mantissa [m] becomes [nearest m k], which differs from
    [m / 10^k] by at most one half.  A value with at most [n] digits is
    returned unchanged ([k = 0]). *)
Theorem toSigfig_nearest (v : value) (sigfigs : number) (x : Big.t) (n : Z) :
  new_Big v = Ok x -> Big.nonzero x = true -> exponent_ok x ->
  validateSigfigs sigfigs = Ok n -> n <= Big.MAX_DP ->
  let k := Z.max 0 (Z.of_nat (length (Big.c x)) - n) in
  exists r,
    toSigfig v sigfigs = Ok r /\
    new_Big (VStr r) = Ok (Big.of_Zq (nearest (Big.mant x) k) (Big.qexp x + k)) /\
    2 * Z.abs (nearest (Big.mant x) k * 10 ^ k - Big.mant x) <= 10 ^ k /\
    (k = 0 -> new_Big (VStr r) = Ok x).
Proof.
  intros Hx Hnz _ Hv Hmax k. pose proof (new_Big_canon _ Hx) as Hc.
  destruct (@validated_positive _ _ Hv) as [Hn _].
  destruct (canon_cases Hc) as [[Hz _]|[_ Hd]]; [congruence|].
  pose proof Hc as (Hs & Hok & _).
  destruct (@round_digits x n Hd Hok Hn) as (Hsy & Hoky & Hnzy & _ & _).
  unfold toSigfig. rewrite Hv, Hx. cbn [bind].
  rewrite (eq_zero_canon Hc), Hnz. cbn [negb]. unfold Big.toPrecision.
  replace ((n <? 1) || (n >? Big.MAX_DP)) with false
    by (symmetry; rewrite Z.gtb_ltb; apply orb_false_iff; split; apply Z.ltb_ge; lia).
  rewrite Hnz. eexists. split; [reflexivity|].
  assert (Hback : new_Big (VStr (Big.stringify (Big.pad (Big.round x n) n)
                     ((n <=? Big.e (Big.pad (Big.round x n) n))
                      || (Big.e (Big.pad (Big.round x n) n) <=? Big.NE)
                      || (Big.e (Big.pad (Big.round x n) n) >=? Big.PE)) true))
                  = Ok (Big.round x n)).
  { unfold new_Big, String_. apply parse_stringify_pad; [|assumption..].
    rewrite Hsy. exact Hs. }
  split; [|split].
  - rewrite Hback. f_equal. now apply round_value.
  - apply nearest_half_unit. subst k. lia.
  - intros Hk. rewrite Hback. f_equal. apply round_short; lia.
Qed.

Lemma toSigfig_nearest_witness :
  exists r,
    toSigfig (VStr "123.456") (Num.of_Z 4) = Ok r /\
    new_Big (VStr r) = Ok (Big.of_Zq 1235 (-1)).
Proof.
  destruct (@toSigfig_nearest (VStr "123.456") (Num.of_Z 4)
              (Big.mk 1 2 [1; 2; 3; 4; 5; 6]%nat) 4 eq_refl eq_refl
              ltac:(vm_compute; discriminate) eq_refl
              ltac:(vm_compute; discriminate)) as (r & Hr & Hback & _).
  exists r. split; [exact Hr|exact Hback].
Defined.

(** ** Significant figures of what big.js and JavaScript print *)

Lemma shape_count_any e d r flag :
  digits_ok (d :: r) -> d <> 0%nat ->
  let '(ip, fr, ex) := shape e (d :: r) flag in
  plain_count ip fr
  = match fr, ex with
    | None, None => Z.of_nat (length (Big.strip_zeros_back (d :: r)))
    | _, _ => Z.of_nat (length (d :: r))
    end.
Proof.
  intros Hok Hd.
  destruct (Z_lt_le_dec e (Z.of_nat (length (d :: r)))) as [He|He].
  - pose proof (@shape_count e d r flag Hok Hd (fun _ => He)) as H.
    destruct (shape e (d :: r) flag) as [[ip fr] ex].
    destruct fr as [fp|]; [exact H|]. destruct ex as [E|]; [exact H|]. apply H.
  - destruct flag.
    + pose proof (@shape_count e d r true Hok Hd ltac:(discriminate)) as H.
      destruct (shape e (d :: r) true) as [[ip fr] ex].
      destruct fr as [fp|]; [exact H|]. destruct ex as [E|]; [exact H|]. apply H.
    + unfold shape. cbn [length] in *. settle_cmp.
      change (d :: r ++ repeat 0%nat (Z.to_nat (e + 1 - Z.of_nat (S (length r)))))
        with ((d :: r) ++ repeat 0%nat (Z.to_nat (e + 1 - Z.of_nat (S (length r))))).
      unfold plain_count.
      change ((d :: r) ++ repeat 0%nat (Z.to_nat (e + 1 - Z.of_nat (S (length r)))))
        with (d :: (r ++ repeat 0%nat (Z.to_nat (e + 1 - Z.of_nat (S (length r)))))).
      rewrite (strip_front_nonzero _ Hd).
      change (d :: (r ++ repeat 0%nat (Z.to_nat (e + 1 - Z.of_nat (S (length r))))))
        with ((d :: r) ++ repeat 0%nat (Z.to_nat (e + 1 - Z.of_nat (S (length r))))).
      rewrite strip_back_repeat_zero.
      destruct (strip_back_cons_nonzero r Hd) as [r' ->]. cbn [length]. lia.
Qed.

(** The count of [sigfigOf] on any rendering of a nonzero value by
    big.js: all the digits printed when there is a decimal point or an
    exponent, and the digits up to the last nonzero one otherwise. *)
Lemma sigfigOf_stringify y flag d r :
  Big.c y = d :: r -> digits_ok (d :: r) -> d <> 0%nat ->
  sigfigOf (VStr (Big.stringify y flag true))
  = let '(ip, fr, ex) := shape (Big.e y) (d :: r) flag in
    match fr, ex with
    | None, None => Z.of_nat (length (Big.strip_zeros_back (d :: r)))
    | _, _ => Z.of_nat (length (d :: r))
    end.
Proof.
  intros Hc Hok Hd. rewrite stringify_shape, Hc, andb_true_r.
  pose proof (shape_facts (Big.e y) flag Hok) as Hfacts.
  pose proof (@shape_count_any (Big.e y) d r flag Hok Hd) as Hcount.
  pose proof (shape_exp_frac (Big.e y) (d :: r) flag) as Hexp.
  destruct (shape (Big.e y) (d :: r) flag) as [[ip fr] ex].
  destruct Hfacts as (Hip & Hfr & Hne & _).
  set (neg := Big.s y <? 0).
  pose (txt := mkText (if neg then Some true else None) ip fr (expo_of ex)).
  assert (Hrender : render txt
                    = sign_str neg ++ dstr ip ++ frac_str fr ++ expo_str ex).
  { unfold render, txt. cbn [dt_sign dt_int dt_frac dt_exp].
    rewrite expo_of_str. now destruct neg. }
  assert (Htxt : text_ok txt).
  { unfold text_ok, txt. cbn [dt_sign dt_int dt_frac dt_exp].
    repeat split; try assumption.
    - intros E0. apply app_eq_nil in E0 as [E0 _]. contradiction.
    - destruct ex as [E|]; [|exact I]. split; [reflexivity|apply signed_digits1_exp]. }
  assert (Hside : dt_exp txt <> None -> dt_frac txt <> Some []).
  { unfold txt. cbn [dt_exp dt_frac]. intros Hx. apply Hexp.
    destruct ex; [discriminate|]. now cbn in Hx. }
  rewrite <- Hrender, (sigfigOf_rules Htxt Hside), SigfigCount_plain.
  unfold txt. cbn [dt_int dt_frac]. exact Hcount.
Qed.

Lemma stringify_lacks_space y flag nz :
  digits_ok (Big.c y) -> Big.c y <> [] -> lacks is_space (Big.stringify y flag nz).
Proof.
  intros Hok Hne. destruct (Big.c y) as [|d r] eqn:Hc; [congruence|].
  rewrite stringify_shape, Hc.
  pose proof (shape_facts (Big.e y) flag Hok) as Hfacts.
  destruct (shape (Big.e y) (d :: r) flag) as [[ip fr] ex].
  destruct Hfacts as (Hip & Hfr & Hne' & _).
  set (neg := (Big.s y <? 0) && nz).
  pose (txt := mkText (if neg then Some true else None) ip fr (expo_of ex)).
  assert (Hrender : render txt
                    = sign_str neg ++ dstr ip ++ frac_str fr ++ expo_str ex).
  { unfold render, txt. cbn [dt_sign dt_int dt_frac dt_exp].
    rewrite expo_of_str. now destruct neg. }
  rewrite <- Hrender. apply render_lacks_space.
  unfold text_ok, txt. cbn [dt_sign dt_int dt_frac dt_exp].
  repeat split; try assumption.
  - intros E0. apply app_eq_nil in E0 as [E0 _]. contradiction.
  - destruct ex as [E|]; [|exact I]. split; [reflexivity|apply signed_digits1_exp].
Qed.

(** [sigfigOf] on the notation of a native number. *)
Lemma sigfigOf_shortest_form (m q : Z) :
  m <> 0 ->
  sigfigOf (VNum (Fin m q))
  = Z.of_nat (length (Big.strip_zeros_back (digits_of_Z (Z.abs m)))).
Proof.
  intros Hm.
  pose proof (of_Zq_canon m q) as Hcan.
  destruct (canon_cases Hcan) as [[Hz _]|[_ Hd]];
    [rewrite (of_Zq_nonzero q Hm) in Hz; discriminate|].
  destruct Hcan as (_ & Hok & _). pose proof Hd as (d & r & Hc & Hd0 & Hstrip).
  assert (Hcm : Big.c (Big.of_Zq m q) = Big.strip_zeros_back (digits_of_Z (Z.abs m))).
  { unfold Big.of_Zq. apply Z.eqb_neq in Hm. now rewrite Hm. }
  rewrite <- Hcm.
  transitivity (sigfigOf (VStr (Big.toString (Big.of_Zq m q)))).
  - unfold sigfigOf, String_. rewrite (to_string_toString q Hm).
    rewrite trim_lacks; [reflexivity|].
    apply stringify_lacks_space; [exact Hok|]. rewrite Hc. discriminate.
  - unfold Big.toString. rewrite (of_Zq_nonzero q Hm).
    rewrite Hc in Hok, Hstrip.
    rewrite (@sigfigOf_stringify _ _ d r Hc Hok Hd0).
    destruct (shape _ _ _) as [[ip fr] ex]. rewrite Hstrip, Hc.
    destruct fr, ex; reflexivity.
Qed.

(** X2.  On a native number that is finite and not zero, [sigfigOf]
    counts the digits of the shortest decimal form of the number from its
    first to its last nonzero digit: the position of the decimal point
    and the exponent play no part, and no trailing zero is ever counted
    ([sigfigOf(1.230)] is 3 and [sigfigOf(1200)] is 2). *)
Theorem sigfigOf_number (m q : Z) :
  m <> 0 ->
  sigfigOf (VNum (Fin m q))
  = Z.of_nat (length (Big.strip_zeros_back (digits_of_Z (Z.abs m)))).
Proof. apply sigfigOf_shortest_form. Qed.

Lemma sigfigOf_number_witness :
  sigfigOf (lit "1.230") = 3 /\ sigfigOf (lit "1200") = 2 /\
  sigfigOf (lit "1.5e30") = 2.
Proof.
  split; [|split].
  - exact (@sigfigOf_number 123 (-2) ltac:(discriminate)).
  - exact (@sigfigOf_number 1200 0 ltac:(discriminate)).
  - exact (@sigfigOf_number 15 29 ltac:(discriminate)).
Defined.

(** ** Scientific notation *)

Lemma actual_sigfigs_valid sigfigs v :
  validate_opt sigfigs = Ok tt ->
  validateSigfigs (actual_sigfigs sigfigs v)
  = Ok (int_value (actual_sigfigs sigfigs v)).
Proof.
  unfold validate_opt, actual_sigfigs. destruct sigfigs as [sf|].
  - destruct (validateSigfigs sf) as [n|] eqn:E; [|discriminate]. intros _.
    rewrite (validated_truthy _ E), E. destruct (validated_positive _ E) as [_ ->].
    reflexivity.
  - intros _. assert (Hpos : 1 <= sigfigOf v) by (unfold sigfigOf; apply sigfigOf_str_pos).
    unfold validateSigfigs, int_value, Num.of_Z, Num.to_int. cbn [Z.leb Z.compare].
    change (10 ^ 0) with 1. rewrite Z.mul_1_r.
    now replace (sigfigOf v <=? 0) with false by (symmetry; apply Z.leb_gt; lia).
Qed.

(** What [toPrecision] prints reads back as the rounded value. *)
Lemma toPrecision_parse x n :
  canon x -> Big.nonzero x = true -> 1 <= n <= Big.MAX_DP ->
  exists r, Big.toPrecision x n = Ok r /\ Big.parse r = Ok (Big.round x n).
Proof.
  intros Hc Hnz [Hn Hmax].
  destruct (canon_cases Hc) as [[Hz _]|[_ Hd]]; [congruence|].
  pose proof Hc as (Hs & Hok & _).
  destruct (@round_digits x n Hd Hok Hn) as (Hsy & Hoky & Hnzy & _ & _).
  unfold Big.toPrecision.
  replace ((n <? 1) || (n >? Big.MAX_DP)) with false
    by (symmetry; rewrite Z.gtb_ltb; apply orb_false_iff; split; apply Z.ltb_ge; lia).
  rewrite Hnz. eexists. split; [reflexivity|].
  apply parse_stringify_pad; [|assumption..]. rewrite Hsy. exact Hs.
Qed.

Lemma round_canon x n :
  canon x -> Big.nonzero x = true -> 1 <= n ->
  canon (Big.round x n) /\ Big.nonzero (Big.round x n) = true /\
  Z.of_nat (length (Big.c (Big.round x n))) <= n.
Proof.
  intros Hc Hnz Hn.
  destruct (canon_cases Hc) as [[Hz _]|[_ Hd]]; [congruence|].
  pose proof Hc as (Hs & Hok & _).
  destruct (@round_digits x n Hd Hok Hn) as (Hsy & Hoky & Hnzy & Hl & _).
  split; [|split; [now apply nonzero_of_digits|exact Hl]].
  split; [rewrite Hsy; exact Hs|]. split; [exact Hoky|now right].
Qed.

(** What [toScientific] returns, for the decimal that the input denotes. *)
Lemma toScientific_reads_back (v : value) (sigfigs : option number) (m q : Z) :
  num_of v = Fin m q -> m <> 0 -> validate_opt sigfigs = Ok tt ->
  int_value (actual_sigfigs sigfigs v) <= Big.MAX_DP ->
  let n := int_value (actual_sigfigs sigfigs v) in
  let x := Big.of_Zq m q in
  let k := Z.max 0 (Z.of_nat (length (Big.c x)) - n) in
  exists r,
    toScientific v sigfigs = Ok r /\
    sigfigOf (VStr r) = n /\
    new_Big (VStr r) = Ok (Big.of_Zq (nearest (Big.mant x) k) (Big.qexp x + k)).
Proof.
  intros Hnum Hm Hv Hmax n x k.
  pose proof (@actual_sigfigs_positive sigfigs v Hv) as Hn. fold n in Hn, Hmax.
  pose proof (of_Zq_canon m q) as Hc. pose proof (of_Zq_nonzero q Hm) as Hnz.
  fold x in Hc, Hnz.
  destruct (@round_canon x n Hc Hnz Hn) as (Hcy & Hnzy & Hly).
  destruct (@toPrecision_parse x n Hc Hnz (conj Hn Hmax)) as (r1 & Hr1 & Hp1).
  unfold toScientific. rewrite Hnum. cbn [Num.isNaN Num.is_zero].
  replace (m =? 0) with false by (symmetry; now apply Z.eqb_neq).
  rewrite Hv. cbn [bind]. unfold toSigfig.
  rewrite (@actual_sigfigs_valid sigfigs v Hv). cbn [bind]. fold n.
  rewrite new_Big_Fin. cbn [bind]. fold x.
  rewrite (eq_zero_canon Hc), Hnz. cbn [negb]. rewrite Hr1. cbn [bind].
  unfold new_Big at 1, String_. rewrite Hp1. cbn [bind].
  set (y := Big.round x n) in *.
  unfold Big.toExponential.
  replace ((n - 1 <? 0) || (n - 1 >? Big.MAX_DP)) with false
    by (symmetry; rewrite Z.gtb_ltb; apply orb_false_iff; split; apply Z.ltb_ge; lia).
  replace (n - 1 + 1) with n by lia.
  rewrite (round_short y) by lia. rewrite Hnzy.
  eexists. split; [reflexivity|].
  destruct (canon_cases Hcy) as [[Hz _]|[_ Hdy]]; [congruence|].
  pose proof Hcy as (Hsy & Hoky & _). pose proof Hdy as (d & r & Hcd & Hd0 & _).
  split.
  - assert (Hpc : Big.c (Big.pad y n)
                  = d :: (r ++ repeat 0%nat (Z.to_nat n - length (Big.c y))))
      by (unfold Big.pad; cbn [Big.c]; now rewrite Hcd).
    assert (Hpok : digits_ok (d :: (r ++ repeat 0%nat (Z.to_nat n - length (Big.c y))))).
    { rewrite <- Hpc. unfold Big.pad. cbn [Big.c]. apply digits_ok_app.
      split; [exact Hoky|apply digits_ok_repeat_zero]. }
    rewrite (@sigfigOf_stringify _ true d _ Hpc Hpok Hd0).
    unfold shape. rewrite <- Hpc. unfold Big.pad. cbn [Big.c].
    rewrite length_app, repeat_length.
    destruct (1 <? _); lia.
  - unfold new_Big, String_. rewrite (@parse_stringify_pad y n true Hsy Hoky Hdy).
    f_equal. subst y k. now apply round_value.
Qed.

(** A string is turned into a double by [parseFloat] before it is
    formatted.  The decimal that the string denotes is then that double's
    own shortest notation, which is what the code goes on with, when it
    has at most fifteen digits and lies within the range of doubles; a
    native number is taken as it is. *)
Definition held_exactly (v : value) (m q : Z) : Prop :=
  match v with
  | VNum _ => True
  | VStr _ =>
      Z.of_nat (length (digits_of_Z (Z.abs m))) <= 15 /\
      -300 <= q /\ q + Z.of_nat (length (digits_of_Z (Z.abs m))) <= 300
  end.

(** X3.  For a finite nonzero input (a native number, or a string of at
    most fifteen digits within the range of doubles) and an absent or
    valid count that the decimal library accepts, [toScientific] returns
    a string on which [sigfigOf] gives exactly the count used (the
    explicit one, or [sigfigOf] of the input), and which reads back as
    the input rounded half up to that many digits. *)
Theorem toScientific_sigfigs (v : value) (sigfigs : option number) (m q : Z) :
  num_of v = Fin m q -> held_exactly v m q -> m <> 0 ->
  validate_opt sigfigs = Ok tt ->
  int_value (actual_sigfigs sigfigs v) <= Big.MAX_DP ->
  let n := int_value (actual_sigfigs sigfigs v) in
  let x := Big.of_Zq m q in
  let k := Z.max 0 (Z.of_nat (length (Big.c x)) - n) in
  exists r,
    toScientific v sigfigs = Ok r /\
    sigfigOf (VStr r) = n /\
    new_Big (VStr r) = Ok (Big.of_Zq (nearest (Big.mant x) k) (Big.qexp x + k)).
Proof.
  intros Hnum _ Hm Hv Hmax. now apply toScientific_reads_back.
Qed.

Lemma toScientific_sigfigs_witness :
  exists r,
    toScientific (lit "1234") (Some (Num.of_Z 2)) = Ok r /\ sigfigOf (VStr r) = 2.
Proof.
  destruct (@toScientific_sigfigs (lit "1234") (Some (Num.of_Z 2)) 1234 0
              eq_refl I ltac:(discriminate) eq_refl ltac:(vm_compute; discriminate))
    as (r & Hr & Hs & _).
  exists r. split; [exact Hr|exact Hs].
Defined.

(** X4.  Without an explicit count [toScientific] loses nothing of a
    native number: the string it returns reads back as the number
    itself. *)
Theorem toScientific_number_lossless (m q : Z) :
  m <> 0 ->
  Z.of_nat (length (digits_of_Z (Z.abs m))) <= Big.MAX_DP ->
  exists r,
    toScientific (VNum (Fin m q)) None = Ok r /\
    new_Big (VStr r) = Ok (Big.of_Zq m q) /\
    new_Big (VStr r) = new_Big (VNum (Fin m q)).
Proof.
  intros Hm Hlen.
  assert (Hn : int_value (actual_sigfigs None (VNum (Fin m q)))
               = Z.of_nat (length (Big.c (Big.of_Zq m q)))).
  { unfold actual_sigfigs, int_value, Num.of_Z, Num.to_int. cbn [Z.leb Z.compare].
    change (10 ^ 0) with 1. rewrite Z.mul_1_r, (sigfigOf_shortest_form q Hm).
    unfold Big.of_Zq. apply Z.eqb_neq in Hm. now rewrite Hm. }
  assert (Hle : int_value (actual_sigfigs None (VNum (Fin m q))) <= Big.MAX_DP).
  { rewrite Hn. unfold Big.of_Zq. pose proof Hm as Hm'. apply Z.eqb_neq in Hm'.
    rewrite Hm'. cbn [Big.c].
    pose proof (strip_back_length (digits_of_Z (Z.abs m))). lia. }
  destruct (@toScientific_reads_back (VNum (Fin m q)) None m q eq_refl Hm eq_refl Hle)
    as (r & Hr & _ & Hback).
  exists r. split; [exact Hr|].
  rewrite Hn, Z.sub_diag in Hback. cbn [Z.max] in Hback.
  rewrite nearest_exact, Z.add_0_r in Hback.
  rewrite (of_Zq_mant_qexp (of_Zq_canon m q) (of_Zq_nonzero q Hm)) in Hback.
  split; [exact Hback|]. now rewrite new_Big_Fin.
Qed.

Lemma toScientific_number_lossless_witness :
  exists r,
    toScientific (VNum (Fin 123456 (-2))) None = Ok r /\
    new_Big (VStr r) = Ok (Big.of_Zq 123456 (-2)).
Proof.
  destruct (@toScientific_number_lossless 123456 (-2) ltac:(discriminate)
              ltac:(vm_compute; discriminate)) as (r & Hr & Hback & _).
  exists r. split; [exact Hr|exact Hback].
Defined.

(** ** Fixed decimal places *)

(** X5.  For a finite input (a native number, or a string of at most
    fifteen digits within the range of doubles) and a count of digits
    that is an integer between 0 and the largest number of decimal places
    of the decimal library, [toDigitsAfterDecimal] returns a string with
    exactly that many digits after the decimal point, as
    [digitsAfterDecimal] counts them. *)
Theorem toDigitsAfterDecimal_places (v : value) (digits : number) (m q d : Z) :
  num_of v = Fin m q -> held_exactly v m q ->
  Num.to_int digits = Some d -> 0 <= d <= Big.MAX_DP ->
  exists r,
    toDigitsAfterDecimal v digits = Ok r /\ digitsAfterDecimal (VStr r) = Ok d.
Proof.
  intros Hnum _ Hd Hr. unfold toDigitsAfterDecimal. rewrite Hnum, Hd.
  cbn [Num.isNaN]. replace (d <? 0) with false by (symmetry; apply Z.ltb_ge; lia).
  rewrite new_Big_Fin. cbn [bind].
  destruct (toFixed_layout (of_Zq_canon m q) Hr)
    as (neg & ip & fr & E & Hip & Hne & Hfr & Hlen).
  rewrite E. eexists. split; [reflexivity|].
  rewrite (digitsAfterDecimal_fixed neg Hip Hne Hfr).
  f_equal. destruct fr as [fp|]; lia.
Qed.

Lemma toDigitsAfterDecimal_places_witness :
  exists r,
    toDigitsAfterDecimal (lit "3.14159") (Num.of_Z 2) = Ok r /\
    digitsAfterDecimal (VStr r) = Ok 2.
Proof.
  apply (@toDigitsAfterDecimal_places (lit "3.14159") (Num.of_Z 2) 314159 (-5) 2
           eq_refl I eq_refl).
  vm_compute. split; discriminate.
Defined.

(** X6.  The failures of [toDigitsAfterDecimal], in the order in which
    they are detected: an input that is not a number is rejected whatever
    the count; then a count that is not a non-negative integer; and for
    an infinite input, or a count above the limit of the decimal library,
    it is the library's own error that reaches the caller. *)
Theorem toDigitsAfterDecimal_errors (v : value) (digits : number) :
  (num_of v = NaN -> toDigitsAfterDecimal v digits = Throw ERR_VALUE) /\
  (num_of v <> NaN ->
   (forall d, Num.to_int digits = Some d -> d < 0) ->
   toDigitsAfterDecimal v digits = Throw ERR_DIGITS) /\
  (forall d neg, num_of v = Inf neg -> Num.to_int digits = Some d -> 0 <= d ->
   toDigitsAfterDecimal v digits = Throw Big.INVALID_NUMBER) /\
  (forall d m q, num_of v = Fin m q -> held_exactly v m q ->
   Num.to_int digits = Some d ->
   Big.MAX_DP < d -> toDigitsAfterDecimal v digits = Throw Big.INVALID_DP).
Proof.
  unfold toDigitsAfterDecimal. repeat split.
  - now intros ->.
  - intros Hnum Hd. destruct (num_of v); [congruence| |];
      cbn [Num.isNaN]; (destruct (Num.to_int digits) as [d|]; [|reflexivity]);
      specialize (Hd d eq_refl);
      now replace (d <? 0) with true by (symmetry; apply Z.ltb_lt; lia).
  - intros d neg -> -> Hd. cbn [Num.isNaN].
    replace (d <? 0) with false by (symmetry; apply Z.ltb_ge; lia).
    now destruct neg.
  - intros d m q -> _ -> Hd. cbn [Num.isNaN].
    replace (d <? 0) with false by (unfold Big.MAX_DP in Hd; symmetry; apply Z.ltb_ge; lia).
    rewrite new_Big_Fin. cbn [bind]. unfold Big.toFixed.
    replace (d >? Big.MAX_DP) with true by (symmetry; apply Z.gtb_lt; lia).
    now rewrite orb_true_r.
Qed.

Lemma toDigitsAfterDecimal_errors_witness :
  toDigitsAfterDecimal (VStr "invalid") (Num.of_Z (-1)) = Throw ERR_VALUE /\
  toDigitsAfterDecimal (lit "3.14") (Fin 25 (-1)) = Throw ERR_DIGITS /\
  toDigitsAfterDecimal (VNum (Inf false)) (Num.of_Z 2) = Throw Big.INVALID_NUMBER /\
  toDigitsAfterDecimal (lit "1") (Num.of_Z 1000001) = Throw Big.INVALID_DP.
Proof.
  destruct (toDigitsAfterDecimal_errors (VStr "invalid") (Num.of_Z (-1))) as (H1 & _).
  destruct (toDigitsAfterDecimal_errors (lit "3.14") (Fin 25 (-1))) as (_ & H2 & _).
  destruct (toDigitsAfterDecimal_errors (VNum (Inf false)) (Num.of_Z 2))
    as (_ & _ & H3 & _).
  destruct (toDigitsAfterDecimal_errors (lit "1") (Num.of_Z 1000001))
    as (_ & _ & _ & H4).
  split; [exact (H1 eq_refl)|]. split.
  - apply H2; [discriminate|]. intros d Hd. vm_compute in Hd. discriminate.
  - split; [exact (H3 2 false eq_refl eq_refl ltac:(lia))|].
    exact (H4 1000001 1 0 eq_refl I eq_refl ltac:(vm_compute; reflexivity)).
Defined.

(** ** The arithmetic functions *)

Lemma plus_comm x y : Big.plus x y = Big.plus y x.
Proof. unfold Big.plus. now rewrite Z.min_comm, Z.add_comm. Qed.

Lemma times_comm x y : Big.times x y = Big.times y x.
Proof. unfold Big.times. now rewrite Z.mul_comm, Z.add_comm. Qed.

Lemma catch_all_throw {A} (m : res A) e :
  m = Throw e -> catch_all m = Throw ERR_OPERANDS.
Proof. now intros ->. Qed.

(** X7.  [add] and [mul] do not depend on the order of their operands,
    in the result and in the error raised alike. *)
Theorem add_mul_commute (a b : value) (sigfigs : option number) :
  add a b sigfigs = add b a sigfigs /\ mul a b sigfigs = mul b a sigfigs.
Proof.
  unfold add, mul. destruct (validate_opt sigfigs) as [[]|e]; [|split; reflexivity].
  cbn [bind].
  destruct (new_Big a) as [x|ea] eqn:Ha; destruct (new_Big b) as [y|eb] eqn:Hb;
    cbn [bind catch_all try_catch]; try (split; reflexivity).
  rewrite (plus_comm y x), (times_comm y x). split.
  - destruct sigfigs as [sf|]; [reflexivity|].
    destruct (digitsAfterDecimal_parseable _ Ha) as (da & Hda & Ha0).
    destruct (digitsAfterDecimal_parseable _ Hb) as (db & Hdb & Hb0).
    rewrite (@decimalPlaces_pair a b da db Hda Hdb Ha0 Hb0),
      (@decimalPlaces_pair b a db da Hdb Hda Hb0 Ha0).
    now rewrite Z.min_comm.
  - destruct sigfigs as [sf|]; [reflexivity|].
    unfold getSigfigForMulOrDiv, Math_min. cbn [map fold_left].
    now rewrite Z.min_comm.
Qed.

Lemma validate_opt_error sigfigs e :
  validate_opt sigfigs = Throw e -> e = ERR_SIGFIGS.
Proof.
  unfold validate_opt, validateSigfigs. destruct sigfigs as [sf|]; [|discriminate].
  destruct (Num.to_int sf) as [n|]; [destruct (n <=? 0)|]; cbn [bind]; congruence.
Qed.

Definition is_Error (e : exn) : Prop :=
  match e with Error _ => True | RangeError _ => False end.

Lemma new_Big_error v e : new_Big v = Throw e -> e = Big.INVALID_NUMBER.
Proof.
  unfold new_Big, Big.parse. destruct (negb (Big.NUMERIC (String_ v))); [congruence|].
  repeat match goal with
         | |- context [let '(_, _) := ?p in _] => destruct p
         | |- context [if ?c then _ else _] => destruct c
         end; discriminate.
Qed.

Lemma toSigfig_error v sf e :
  toSigfig v sf = Throw e ->
  e = ERR_SIGFIGS \/ e = Big.INVALID_NUMBER \/ e = Big.INVALID_PRECISION.
Proof.
  unfold toSigfig. destruct (validateSigfigs sf) as [n|e0] eqn:Hv; cbn [bind].
  - destruct (new_Big v) as [x|e1] eqn:Hx; cbn [bind].
    + destruct (Big.eq x Big.zero); [discriminate|]. unfold Big.toPrecision.
      destruct ((n <? 1) || (n >? Big.MAX_DP)); [|discriminate].
      intros H. injection H as <-. auto.
    + intros H. injection H as <-. apply new_Big_error in Hx. auto.
  - intros H. injection H as <-. left.
    apply (@validate_opt_error (Some sf)). unfold validate_opt. now rewrite Hv.
Qed.

Lemma toSigfig_is_Error v sf e : toSigfig v sf = Throw e -> is_Error e.
Proof. intros H. apply toSigfig_error in H as [-> | [-> | ->]]; exact I. Qed.

Lemma div_is_Error x y e : Big.div x y = Throw e -> is_Error e.
Proof.
  unfold Big.div. destruct (negb (Big.nonzero y)); [intros H; injection H as <-; exact I|].
  destruct (negb (Big.nonzero x)); discriminate.
Qed.

Lemma mod_is_Error x y e : Big.mod_ x y = Throw e -> is_Error e.
Proof.
  unfold Big.mod_. destruct (negb (Big.nonzero y)); [|discriminate].
  intros H. injection H as <-. exact I.
Qed.

Lemma catch_keep_error {A} msg (m : res A) e :
  (forall err, m = Throw err -> is_Error err) ->
  catch_keep (Error msg) m = Throw e -> e = Error msg \/ e = ERR_OPERANDS.
Proof.
  intros Hm. unfold catch_keep, try_catch. destruct m as [r|err]; [discriminate|].
  specialize (Hm err eq_refl).
  destruct (str_eqb (message err) (message (Error msg))) eqn:E.
  - intros H. injection H as <-. left. unfold str_eqb in E.
    destruct (list_eq_dec ascii_dec (message err) (message (Error msg))) as [Em|];
      [|discriminate].
    destruct err; [|contradiction]. cbn [message] in Em. now subst.
  - intros H. injection H as <-. now right.
Qed.

(** Settles that the error of a sequence of library calls is an [Error]. *)
Ltac inner_error :=
  intros err;
  repeat match goal with
         | |- bind ?m _ = Throw _ -> _ =>
             let E := fresh "E" in
             let T := fresh "T" in
             destruct m eqn:E; cbn [bind];
             [|intros T; injection T as <-;
               first [ apply new_Big_error in E; subst; exact I
                     | now apply div_is_Error in E
                     | now apply mod_is_Error in E ]]
         | |- (if ?c then _ else _) = Throw _ -> _ =>
             let T := fresh "T" in
             destruct c; [intros T; injection T as <-; exact I|]
         | |- match ?s with Some _ => _ | None => _ end = Throw _ -> _ =>
             destruct s
         end;
  try apply toSigfig_is_Error.

(** X8.  The errors of the six binary operations are closed: whatever
    the arguments, [add], [sub] and [mul] raise nothing but the
    significant-figures error and the invalid-operands error, [div] and
    [idiv] in addition only the division-by-zero error, and [mod] only its
    own modulo-by-zero error.  No error of the decimal library reaches the
    caller. *)
Theorem arithmetic_errors_closed (a b : value) (sigfigs : option number) (e : exn) :
  (add a b sigfigs = Throw e \/ sub a b sigfigs = Throw e \/
   mul a b sigfigs = Throw e -> e = ERR_SIGFIGS \/ e = ERR_OPERANDS) /\
  (div a b sigfigs = Throw e \/ idiv a b sigfigs = Throw e ->
   e = ERR_SIGFIGS \/ e = ERR_OPERANDS \/ e = ERR_DIV_ZERO) /\
  (mod_ a b sigfigs = Throw e ->
   e = ERR_SIGFIGS \/ e = ERR_OPERANDS \/ e = ERR_MOD_ZERO).
Proof.
  unfold add, sub, mul, div, idiv, mod_.
  destruct (validate_opt sigfigs) as [[]|e0] eqn:Hv; cbn [bind].
  - split; [|split].
    + intros [H|[H|H]]; right; unfold catch_all, try_catch in H;
        match type of H with
        | match ?m with _ => _ end = _ => destruct m; congruence
        end.
    + intros [H|H]; apply catch_keep_error in H as [H|H]; auto; inner_error.
    + intros H. apply catch_keep_error in H as [H|H]; auto. inner_error.
  - apply validate_opt_error in Hv. subst e0.
    split; [|split]; [intros [H|[H|H]]|intros [H|H]|intros H]; left; congruence.
Qed.

(** ** Resolving the precision of a result *)

Lemma digitsAfterDecimal_nonneg v d : digitsAfterDecimal v = Ok d -> 0 <= d.
Proof.
  unfold digitsAfterDecimal. destruct (Num.isNaN _); [discriminate|].
  destruct (includes "e" (String_ v) || includes "E" (String_ v)).
  - destruct (decimalsMatch (String_ v)) as [[coef ex]|];
      intros H; injection H as <-; lia.
  - destruct (indexOf_range "." (String_ v)) as [E|E].
    + rewrite E. cbn [Z.eqb]. intros H. injection H as <-. lia.
    + destruct (indexOf "." (String_ v) =? -1); intros H; injection H as <-; lia.
Qed.

Lemma fold_min_zero l : (forall d, In d l -> 0 <= d) -> fold_left Z.min l 0 = 0.
Proof.
  induction l as [|d l IH]; [reflexivity|]. intros H. cbn [fold_left].
  rewrite Z.min_l by (apply H; now left). apply IH. intros d' Hd'. apply H. now right.
Qed.

Lemma digitsAfterDecimal_all_nonneg values ds :
  Forall2 (fun v d => digitsAfterDecimal v = Ok d) values ds ->
  forall d, In d ds -> 0 <= d.
Proof.
  intros H d Hd. induction H as [|v0 d0 vs ds H0 _ IH0]; [destruct Hd|].
  destruct Hd as [<-|Hd]; [now apply (digitsAfterDecimal_nonneg v0)|now apply IH0].
Qed.

Lemma decimalPlaces_loop_min a values ds :
  Forall2 (fun v d => digitsAfterDecimal v = Ok d) values ds -> 0 < a ->
  decimalPlaces_loop (Some a) values = Ok (fold_left Z.min ds a).
Proof.
  intros H. revert a. induction H as [|v d vs ds Hv Hrest IH]; intros a Ha; [reflexivity|].
  cbn [decimalPlaces_loop fold_left]. rewrite Hv. cbn [bind].
  pose proof (digitsAfterDecimal_nonneg _ Hv) as Hd.
  destruct (d =? 0) eqn:E.
  - apply Z.eqb_eq in E. subst d. rewrite Z.min_r by lia. f_equal. symmetry.
    apply fold_min_zero. now apply (digitsAfterDecimal_all_nonneg Hrest).
  - apply Z.eqb_neq in E. apply IH. lia.
Qed.

Lemma decimalPlaces_loop_prefix acc pre ds tail :
  Forall2 (fun v d => digitsAfterDecimal v = Ok d) pre ds -> ~ In 0 ds ->
  exists acc', decimalPlaces_loop acc (pre ++ tail) = decimalPlaces_loop acc' tail.
Proof.
  intros H. revert acc. induction H as [|v d vs ds Hv _ IH]; intros acc Hz.
  - now exists acc.
  - cbn [app decimalPlaces_loop]. rewrite Hv. cbn [bind].
    replace (d =? 0) with false
      by (symmetry; apply Z.eqb_neq; intros ->; apply Hz; now left).
    apply IH. intros Hin. apply Hz. now right.
Qed.

(** X9.  For values whose [digitsAfterDecimal] counts are at most
    [MAX_EXPONENT] (counts that a JavaScript number holds exactly),
    [getDecimalPlacesForAddOrSub] returns the least of these counts, and
    0 for no value.  It
    stops at the first value without decimal places: what follows it is
    not examined, so that an invalid value placed after it goes
    unnoticed, whereas an invalid value met before it raises the error of
    [digitsAfterDecimal]. *)
Theorem getDecimalPlacesForAddOrSub_least (values : list value) (ds : list Z) :
  Forall2 (fun v d => digitsAfterDecimal v = Ok d) values ds ->
  Forall (fun d => d <= MAX_EXPONENT) ds ->
  getDecimalPlacesForAddOrSub values
  = Ok (match ds with [] => 0 | d :: r => fold_left Z.min r d end) /\
  forall v rest,
    ~ In 0 ds ->
    (digitsAfterDecimal v = Ok 0 ->
     getDecimalPlacesForAddOrSub (values ++ v :: rest) = Ok 0) /\
    (forall e, digitsAfterDecimal v = Throw e ->
     getDecimalPlacesForAddOrSub (values ++ v :: rest) = Throw e).
Proof.
  intros H _. unfold getDecimalPlacesForAddOrSub. split.
  - destruct H as [|v d vs ds Hv Hrest]; [reflexivity|].
    cbn [decimalPlaces_loop]. rewrite Hv. cbn [bind].
    pose proof (digitsAfterDecimal_nonneg _ Hv) as Hd.
    destruct (d =? 0) eqn:E.
    + apply Z.eqb_eq in E. subst d. f_equal. symmetry. apply fold_min_zero.
      now apply (digitsAfterDecimal_all_nonneg Hrest).
    + apply Z.eqb_neq in E. apply decimalPlaces_loop_min; [exact Hrest|lia].
  - intros v rest Hz.
    destruct (@decimalPlaces_loop_prefix None values ds (v :: rest) H Hz) as [acc' ->].
    split.
    + intros Hv. cbn [decimalPlaces_loop]. now rewrite Hv.
    + intros e Hv. cbn [decimalPlaces_loop]. now rewrite Hv.
Qed.

Lemma getDecimalPlacesForAddOrSub_least_witness :
  getDecimalPlacesForAddOrSub [lit "1.25"; VStr "3.5"; lit "0.125"] = Ok 1 /\
  getDecimalPlacesForAddOrSub [lit "1.25"; lit "7"; VStr "abc"] = Ok 0 /\
  getDecimalPlacesForAddOrSub [lit "1.25"; VStr "abc"; lit "7"] = Throw ERR_VALUE.
Proof.
  assert (H3 : Forall2 (fun v d => digitsAfterDecimal v = Ok d)
                 [lit "1.25"; VStr "3.5"; lit "0.125"] [2; 1; 3])
    by (repeat constructor).
  assert (H1 : Forall2 (fun v d => digitsAfterDecimal v = Ok d) [lit "1.25"] [2])
    by (repeat constructor).
  assert (B3 : Forall (fun d => d <= MAX_EXPONENT) [2; 1; 3])
    by (repeat constructor; vm_compute; discriminate).
  assert (B1 : Forall (fun d => d <= MAX_EXPONENT) [2])
    by (repeat constructor; vm_compute; discriminate).
  destruct (getDecimalPlacesForAddOrSub_least H3 B3) as [Hmin _].
  destruct (getDecimalPlacesForAddOrSub_least H1 B1) as [_ Hstop].
  assert (Hz : ~ In 0 [2]) by (intros [E|[]]; discriminate).
  split; [exact Hmin|]. split.
  - exact (proj1 (Hstop (lit "7") [VStr "abc"] Hz) eq_refl).
  - exact (proj2 (Hstop (VStr "abc") [lit "7"] Hz) ERR_VALUE eq_refl).
Defined.

(** What [toSigfig] makes of a nonzero value printed by big.js. *)
Lemma toSigfig_rendered P prec n :
  canon P -> Big.nonzero P = true -> validateSigfigs prec = Ok n -> n <= Big.MAX_DP ->
  let k := Z.max 0 (Z.of_nat (length (Big.c P)) - n) in
  exists r,
    toSigfig (VStr (Big.toString P)) prec = Ok r /\
    Big.toPrecision P n = Ok r /\
    sigfigOf (VStr r)
    = (if includes "." r || includes "e" r then n else n - trailing_zeros r) /\
    new_Big (VStr r) = Ok (Big.of_Zq (nearest (Big.mant P) k) (Big.qexp P + k)).
Proof.
  intros Hc Hnz Hv Hmax k. destruct (@validated_positive _ _ Hv) as [Hn _].
  destruct (@toPrecision_parse P n Hc Hnz (conj Hn Hmax)) as (r & Hr & Hp).
  exists r. rewrite (@toSigfig_toString P prec Hc). unfold rounded.
  rewrite Hv, Hnz. cbn [bind]. split; [exact Hr|]. split; [exact Hr|]. split.
  - now apply (@toPrecision_sigfig P n r Hc Hnz).
  - unfold new_Big, String_. rewrite Hp. f_equal. subst k. now apply round_value.
Qed.

Lemma validateSigfigs_of_Z n : 1 <= n -> validateSigfigs (Num.of_Z n) = Ok n.
Proof.
  intros Hn. unfold validateSigfigs, Num.of_Z, Num.to_int. cbn [Z.leb Z.compare].
  change (10 ^ 0) with 1. rewrite Z.mul_1_r.
  now replace (n <=? 0) with false by (symmetry; apply Z.leb_gt; lia).
Qed.

Lemma sigfigOf_pos v : 1 <= sigfigOf v.
Proof. unfold sigfigOf. apply sigfigOf_str_pos. Qed.

Lemma mant_nonzero x : canon x -> Big.nonzero x = true -> Big.mant x <> 0.
Proof.
  intros Hc Hnz. destruct (canon_cases Hc) as [[Hz _]|[_ Hd]]; [congruence|].
  destruct Hc as (Hs & Hok & _).
  destruct (nonzero_digits_facts Hok Hd) as ([Hlo _] & _ & HL).
  assert (0 < 10 ^ (Z.of_nat (length (Big.c x)) - 1)) by (apply Z.pow_pos_nonneg; lia).
  unfold Big.mant. destruct Hs as [-> | ->]; lia.
Qed.

Lemma pair_sigfigs a b :
  getSigfigForMulOrDiv [a; b] = Num.of_Z (Z.min (sigfigOf a) (sigfigOf b)).
Proof. reflexivity. Qed.

(** The string [r] is the value [P] rounded half up to [n] significant
    digits: it reads back as that rounded value, and [sigfigOf] gives [n]
    on it, less the trailing zeros when it is printed as a whole number. *)
Definition rounded_to (P : Big.t) (n : Z) (r : str) : Prop :=
  let k := Z.max 0 (Z.of_nat (length (Big.c P)) - n) in
  new_Big (VStr r) = Ok (Big.of_Zq (nearest (Big.mant P) k) (Big.qexp P + k)) /\
  sigfigOf (VStr r)
  = (if includes "." r || includes "e" r then n else n - trailing_zeros r).

Lemma toSigfig_rounded_to P prec n :
  canon P -> Big.nonzero P = true -> validateSigfigs prec = Ok n -> n <= Big.MAX_DP ->
  exists r, toSigfig (VStr (Big.toString P)) prec = Ok r /\ rounded_to P n r.
Proof.
  intros Hc Hnz Hv Hmax.
  destruct (@toSigfig_rendered P prec n Hc Hnz Hv Hmax) as (r & Hr & _ & Hs & Hb).
  exists r. split; [exact Hr|]. split; assumption.
Qed.

(** X10.  For parseable nonzero operands whose exponents are within
    [MAX_EXPONENT] and no explicit count, [mul] returns the exact product rounded half up to [n] significant digits,
    [n] being the lesser of the [sigfigOf] counts of the two operands, and
    [div] does the same with the quotient that the decimal library
    computes, when that quotient is not zero. *)
Theorem mul_div_sigfigs (a b : value) (x y : Big.t) :
  new_Big a = Ok x -> new_Big b = Ok y ->
  Big.nonzero x = true -> Big.nonzero y = true ->
  exponent_ok x -> exponent_ok y ->
  Z.min (sigfigOf a) (sigfigOf b) <= Big.MAX_DP ->
  let n := Z.min (sigfigOf a) (sigfigOf b) in
  (exists r, mul a b None = Ok r /\ rounded_to (Big.times x y) n r) /\
  (forall Q, Big.div x y = Ok Q -> Big.nonzero Q = true ->
   exists r, div a b None = Ok r /\ rounded_to Q n r).
Proof.
  intros Hx Hy Hnx Hny _ _ Hmax n.
  pose proof (new_Big_canon _ Hx) as Hcx. pose proof (new_Big_canon _ Hy) as Hcy.
  assert (Hn : 1 <= n) by (subst n; pose proof (sigfigOf_pos a); pose proof (sigfigOf_pos b); lia).
  pose proof (@validateSigfigs_of_Z n Hn) as Hv.
  split.
  - assert (Hnz : Big.nonzero (Big.times x y) = true).
    { apply of_Zq_nonzero. pose proof (@mant_nonzero x Hcx Hnx).
      pose proof (@mant_nonzero y Hcy Hny). nia. }
    destruct (@toSigfig_rounded_to (Big.times x y) (Num.of_Z n) n
                (of_Zq_canon _ _) Hnz Hv Hmax) as (r & Hr & Hrt).
    exists r. split; [|exact Hrt].
    unfold mul. cbn [validate_opt bind]. rewrite Hx, Hy. cbn [bind].
    rewrite pair_sigfigs. fold n. now rewrite Hr.
  - intros Q HQ HnQ.
    assert (HcQ : canon Q).
    { unfold Big.div in HQ. rewrite Hny, Hnx in HQ. cbn [negb] in HQ.
      injection HQ as <-. apply of_Zq_canon. }
    destruct (@toSigfig_rounded_to Q (Num.of_Z n) n HcQ HnQ Hv Hmax) as (r & Hr & Hrt).
    exists r. split; [|exact Hrt].
    unfold div. cbn [validate_opt bind]. rewrite Hx, Hy. cbn [bind].
    rewrite (@eq_zero_canon y Hcy), Hny. cbn [negb]. rewrite HQ. cbn [bind].
    rewrite pair_sigfigs. fold n. now rewrite Hr.
Qed.

Lemma mul_div_sigfigs_witness :
  exists r, mul (lit "100") (lit "2.5") None = Ok r /\ sigfigOf (VStr r) = 1.
Proof.
  destruct (@mul_div_sigfigs (lit "100") (lit "2.5") (Big.mk 1 2 [1%nat])
              (Big.mk 1 0 [2; 5]%nat) eq_refl eq_refl eq_refl eq_refl
              ltac:(vm_compute; discriminate) ltac:(vm_compute; discriminate)
              ltac:(vm_compute; discriminate)) as [(r & Hr & _ & Hs) _].
  exists r. split; [exact Hr|].
  assert (E : r = "3e+2") by (vm_compute in Hr; congruence).
  rewrite Hs, E. reflexivity.
Defined.

(** ** Truncation *)

(** Below [10^-20] the scale factor vanishes: [Big.DP] is 20 and the
    reciprocal is rounded to that many decimal places. *)
Lemma pow_ten_underflow k :
  - Big.MAX_POWER <= k < - Big.DP ->
  Big.pow (Big.mk 1 1 [1%nat]) k = Ok Big.zero.
Proof.
  unfold Big.DP, Big.MAX_POWER. intros Hk. unfold Big.pow, Big.MAX_POWER.
  change (Big.mant (Big.mk 1 1 [1%nat])) with 1.
  change (Big.qexp (Big.mk 1 1 [1%nat])) with 1.
  rewrite Z.pow_1_l by lia. rewrite Z.mul_1_l, of_Zq_one. settle_cmp.
  unfold Big.div, Big.DP.
  change (Big.nonzero (Big.mk 1 (Z.abs k) [1%nat])) with true.
  change (Big.nonzero Big.one) with true. cbn [negb].
  change (Big.mant Big.one) with 1. change (Big.qexp Big.one) with 0.
  change (Big.mant (Big.mk 1 (Z.abs k) [1%nat])) with 1.
  change (Big.s Big.one) with 1. cbn [Big.s].
  replace (Big.qexp (Big.mk 1 (Z.abs k) [1%nat])) with (- k)
    by (unfold Big.qexp; cbn [Big.e Big.c length]; lia).
  replace (Z.max (20 + 0 - - k) 0) with 0 by lia.
  replace (Z.max (- (20 + 0 - - k)) 0) with (- k - 20) by lia.
  change (Z.abs 1 * 10 ^ 0) with 1. change (Z.abs 1) with 1.
  assert (Hp : 10 ^ 1 <= 10 ^ (- k - 20)) by (apply Z.pow_le_mono_r; lia).
  change (10 ^ 1) with 10 in Hp.
  replace ((2 * 1 + 1 * 10 ^ (- k - 20)) / (2 * (1 * 10 ^ (- k - 20)))) with 0.
  2:{ symmetry. apply Z.div_small. lia. }
  reflexivity.
Qed.

(** [truncate] in the range of the scale factor: the first [n] digits of
    the value, kept as they are. *)
Lemma truncate_procedure v sigfigs x n :
  new_Big v = Ok x -> Big.nonzero x = true ->
  validateSigfigs sigfigs = Ok n ->
  - Big.DP <= Big.e x - n + 1 <= Big.DP ->
  truncate v sigfigs
  = Big.toPrecision (Big.of_Zq (Big.s x * top_digits x n) (Big.e x - n + 1)) n.
Proof.
  unfold Big.DP. intros Hx Hnz Hv Hrange.
  pose proof (new_Big_canon _ Hx) as Hc.
  destruct (@validated_positive _ _ Hv) as [Hn _].
  unfold truncate. rewrite Hv, Hx. cbn [bind].
  rewrite (eq_zero_canon Hc), Hnz. cbn [negb].
  rewrite (magnitude_of_abs Hc Hnz).
  replace (new_Big (VNum (Num.of_Z 10))) with (Ok (Big.mk 1 1 [1%nat]))
    by (vm_compute; reflexivity).
  cbn [bind]. rewrite pow_ten by (unfold Big.DP, Big.MAX_POWER; lia). cbn [bind].
  destruct (canon_cases Hc) as [[Hz _]|[_ Hd]]; [congruence|].
  pose proof Hc as (Hs & Hok & _).
  destruct (nonzero_digits_facts Hok Hd) as ([Hlo _] & _ & HL).
  assert (Hp : 0 < 10 ^ (Z.of_nat (length (Big.c x)) - 1))
    by (apply Z.pow_pos_nonneg; lia).
  destruct (top_digits_floor Hc Hnz Hn) as [Htop Hpos].
  rewrite times_scale.
  replace (Big.mant (Big.abs x)) with (Z_of_digits (Big.c x))
    by (unfold Big.mant; cbn [Big.abs Big.s Big.c]; lia).
  replace (Big.qexp (Big.abs x) + - (Big.e x - n + 1))
    with (n - Z.of_nat (length (Big.c x)))
    by (unfold Big.qexp; cbn [Big.abs Big.e Big.c]; lia).
  rewrite truncated_value by lia. rewrite Htop. cbn [bind].
  set (T := top_digits x n) in *. set (rp := Big.e x - n + 1) in *.
  rewrite div_scale by (unfold Big.DP; lia || exact Hpos). rewrite Z.opp_involutive.
  cbn [bind].
  destruct Hs as [Hs|Hs]; rewrite Hs.
  - change (1 =? -1) with false. cbn iota. now rewrite Z.mul_1_l.
  - change (-1 =? -1) with true. cbn iota. rewrite times_minus_one by exact Hpos.
    do 2 f_equal; lia.
Qed.

(** The first [n] digits are the quotient of the digits by the power of
    ten that the dropped digits span. *)
Lemma top_digits_quot x n :
  canon x -> Big.nonzero x = true -> 1 <= n ->
  let k := Z.max 0 (Z.of_nat (length (Big.c x)) - n) in
  Big.of_Zq (Big.s x * top_digits x n) (Big.e x - n + 1)
  = Big.of_Zq (Z.quot (Big.mant x) (10 ^ k)) (Big.qexp x + k) /\
  Z.quot (Big.mant x) (10 ^ k) <> 0.
Proof.
  intros Hc Hnz Hn k.
  destruct (canon_cases Hc) as [[Hz _]|[_ Hd]]; [congruence|].
  pose proof Hc as (Hs & Hok & _).
  destruct (nonzero_digits_facts Hok Hd) as ([Hlo _] & _ & HL).
  destruct (top_digits_floor Hc Hnz Hn) as [Htop Hpos].
  set (M := Z_of_digits (Big.c x)) in *. set (L := Z.of_nat (length (Big.c x))) in *.
  assert (Hp : 0 < 10 ^ k) by (apply Z.pow_pos_nonneg; lia).
  assert (Hq : Z.quot (Big.mant x) (10 ^ k) = Big.s x * (M / 10 ^ k)).
  { unfold Big.mant. fold M. destruct Hs as [-> | ->].
    - rewrite Z.mul_1_l, Z.mul_1_l. apply Z.quot_div_nonneg; lia.
    - replace (-1 * M) with (- M) by lia. rewrite Z.quot_opp_l by lia.
      rewrite Z.quot_div_nonneg by lia. lia. }
  rewrite Hq. cbn zeta in Htop.
  destruct (Z_lt_le_dec (n - L) 0) as [Hlt|Hge].
  - replace (0 <=? n - L) with false in Htop by (symmetry; apply Z.leb_gt; lia).
    replace (- (n - L)) with k in Htop by lia. rewrite <- Htop. split.
    + f_equal. unfold Big.qexp. fold L. lia.
    + rewrite Htop. destruct Hs as [-> | ->]; lia.
  - replace (0 <=? n - L) with true in Htop by (symmetry; apply Z.leb_le; lia).
    replace k with 0 by lia. change (10 ^ 0) with 1. rewrite Z.div_1_r. split.
    + rewrite <- Htop. replace (Big.s x * (M * 10 ^ (n - L))) with (Big.s x * M * 10 ^ (n - L)) by lia.
      rewrite of_Zq_shift by lia. f_equal. unfold Big.qexp. fold L. lia.
    + assert (0 < M) by (assert (0 < 10 ^ (L - 1)) by (apply Z.pow_pos_nonneg; lia); lia).
      destruct Hs as [-> | ->]; lia.
Qed.

Lemma of_Zq_length m q n :
  m <> 0 -> Z.abs m < 10 ^ n -> 0 <= n ->
  Z.of_nat (length (Big.c (Big.of_Zq m q))) <= n.
Proof.
  intros Hm Hlt Hn. unfold Big.of_Zq.
  replace (m =? 0) with false by (symmetry; now apply Z.eqb_neq).
  cbn [Big.c]. pose proof (strip_back_length (digits_of_Z (Z.abs m))) as Hl.
  assert (Ha : 0 < Z.abs m) by lia.
  destruct (digits_of_Z_bounds Ha) as [[Hlo _] H1].
  set (L := Z.of_nat (length (digits_of_Z (Z.abs m)))) in *.
  assert (HL : L - 1 < n).
  { apply (Z.pow_lt_mono_r_iff 10); lia. }
  lia.
Qed.

Lemma quot_digits_bound x n :
  canon x -> Big.nonzero x = true -> 1 <= n ->
  let k := Z.max 0 (Z.of_nat (length (Big.c x)) - n) in
  Z.abs (Z.quot (Big.mant x) (10 ^ k)) < 10 ^ n.
Proof.
  intros Hc Hnz Hn k.
  destruct (canon_cases Hc) as [[Hz _]|[_ Hd]]; [congruence|].
  pose proof Hc as (Hs & Hok & _).
  destruct (nonzero_digits_facts Hok Hd) as ([Hlo Hhi] & _ & HL).
  set (M := Z_of_digits (Big.c x)) in *. set (L := Z.of_nat (length (Big.c x))) in *.
  assert (Hp : 0 < 10 ^ k) by (apply Z.pow_pos_nonneg; lia).
  assert (HM : 0 < M) by (assert (0 < 10 ^ (L - 1)) by (apply Z.pow_pos_nonneg; lia); lia).
  assert (Hq : Z.abs (Z.quot (Big.mant x) (10 ^ k)) = M / 10 ^ k).
  { unfold Big.mant. fold M. destruct Hs as [-> | ->].
    - rewrite Z.mul_1_l, Z.quot_div_nonneg by lia.
      apply Z.abs_eq. apply Z.div_pos; lia.
    - replace (-1 * M) with (- M) by lia. rewrite Z.quot_opp_l by lia.
      rewrite Z.quot_div_nonneg by lia. rewrite Z.abs_opp.
      apply Z.abs_eq. apply Z.div_pos; lia. }
  rewrite Hq. apply Z.div_lt_upper_bound; [exact Hp|].
  rewrite <- Z.pow_add_r by lia.
  assert (10 ^ L <= 10 ^ (k + n)) by (apply Z.pow_le_mono_r; lia). lia.
Qed.

(** X11.  [truncate] cuts towards zero.  For a parseable nonzero value of
    at most ten digits and magnitude within [10^-300, 10^300] (where a
    double carries it with room to spare), a valid count [n] of at most
    300 (so that the value scaled to an [n]-digit integer is still a
    finite double), and a cut position within twenty places of the
    decimal point, [truncate] returns a string that reads back as the
    digits of the value divided by the power of ten that the dropped
    digits span, the quotient taken towards zero; nothing is rounded up.
    The count [sigfigOf] gives for the string is [n], less the trailing
    zeros when the string has neither a point nor an exponent. *)
Theorem truncate_toward_zero (v : value) (sigfigs : number) (x : Big.t) (n : Z) :
  new_Big v = Ok x -> Big.nonzero x = true ->
  validateSigfigs sigfigs = Ok n -> n <= 300 ->
  (length (Big.c x) <= 10)%nat -> -300 <= Big.e x <= 300 ->
  - Big.DP <= Big.e x - n + 1 <= Big.DP ->
  let k := Z.max 0 (Z.of_nat (length (Big.c x)) - n) in
  exists r,
    truncate v sigfigs = Ok r /\
    new_Big (VStr r) = Ok (Big.of_Zq (Z.quot (Big.mant x) (10 ^ k)) (Big.qexp x + k)) /\
    sigfigOf (VStr r)
    = (if includes "." r || includes "e" r then n else n - trailing_zeros r).
Proof.
  intros Hx Hnz Hv Hn300 _ _ Hrange k.
  assert (Hmax : n <= Big.MAX_DP) by (unfold Big.MAX_DP; lia).
  pose proof (new_Big_canon _ Hx) as Hc.
  destruct (@validated_positive _ _ Hv) as [Hn _].
  rewrite (@truncate_procedure v sigfigs x n Hx Hnz Hv Hrange).
  destruct (@top_digits_quot x n Hc Hnz Hn) as [Heq Hq0]. fold k in Heq, Hq0.
  rewrite Heq. pose proof (@quot_digits_bound x n Hc Hnz Hn) as Hb. fold k in Hb.
  set (P := Big.of_Zq (Z.quot (Big.mant x) (10 ^ k)) (Big.qexp x + k)).
  assert (HcP : canon P) by apply of_Zq_canon.
  assert (HnzP : Big.nonzero P = true) by now apply of_Zq_nonzero.
  assert (HlP : Z.of_nat (length (Big.c P)) <= n) by (apply of_Zq_length; [assumption..|lia]).
  destruct (@toPrecision_parse P n HcP HnzP (conj Hn Hmax)) as (r & Hr & Hp).
  exists r. split; [exact Hr|]. split.
  - unfold new_Big, String_. rewrite Hp. now rewrite round_short.
  - exact (@toPrecision_sigfig P n r HcP HnzP Hr).
Qed.

Lemma truncate_toward_zero_witness :
  exists r,
    truncate (VStr "-123.456") (Num.of_Z 4) = Ok r /\
    new_Big (VStr r) = Ok (Big.of_Zq (-1234) (-1)).
Proof.
  destruct (@truncate_toward_zero (VStr "-123.456") (Num.of_Z 4)
              (Big.mk (-1) 2 [1; 2; 3; 4; 5; 6]%nat) 4 eq_refl eq_refl eq_refl
              ltac:(lia) ltac:(cbn; lia)
              ltac:(cbn; lia) ltac:(vm_compute; split; discriminate))
    as (r & Hr & Hback & _).
  exists r. split; [exact Hr|exact Hback].
Defined.

(** X12.  Beyond the reach of the scale factor.  When the digit position
    where the cut falls lies more than twenty places left of the decimal
    point, the scale factor [10^-position] comes out of the decimal
    library as zero, and both [truncate] and [round] with a threshold
    other than 5 end in the library's division-by-zero error. *)
Theorem truncate_round_large_magnitude (v : value) (sigfigs : number) (x : Big.t)
    (n t : Z) :
  new_Big v = Ok x -> Big.nonzero x = true ->
  validateSigfigs sigfigs = Ok n -> n + 10 <= Big.MAX_DP ->
  (length (Big.c x) <= 10)%nat -> Big.e x <= 300 ->
  Big.DP < Big.e x - n + 1 ->
  0 <= t <= 9 -> t <> 5 ->
  truncate v sigfigs = Throw Big.DIV_BY_ZERO /\
  round v sigfigs (Some (Num.of_Z t)) = Throw Big.DIV_BY_ZERO.
Proof.
  unfold Big.DP. intros Hx Hnz Hv Hmax _ He Hrange Ht Ht5.
  pose proof (new_Big_canon _ Hx) as Hc.
  destruct (@validated_positive _ _ Hv) as [Hn _].
  assert (Hten : new_Big (VNum (Num.of_Z 10)) = Ok (Big.mk 1 1 [1%nat]))
    by (vm_compute; reflexivity).
  assert (Hpow : Big.pow (Big.mk 1 1 [1%nat]) (- (Big.e x - n + 1)) = Ok Big.zero)
    by (apply pow_ten_underflow; unfold Big.DP, Big.MAX_POWER; lia).
  assert (Htimes : Big.times (Big.abs x) Big.zero = Big.zero).
  { unfold Big.times. change (Big.mant Big.zero) with 0. now rewrite Z.mul_0_r. }
  assert (Hfloor : new_Big (VNum (Num.floor (toNumber Big.zero))) = Ok Big.zero)
    by (vm_compute; reflexivity).
  split.
  - unfold truncate. rewrite Hv, Hx. cbn [bind].
    rewrite (eq_zero_canon Hc), Hnz. cbn [negb].
    rewrite (magnitude_of_abs Hc Hnz), Hten. cbn [bind]. rewrite Hpow. cbn [bind].
    rewrite Htimes, Hfloor. cbn [bind]. reflexivity.
  - unfold round. rewrite Hv, Hx. cbn [bind].
    replace (Num.to_int (Num.of_Z t)) with (Some t)
      by (unfold Num.of_Z, Num.to_int; cbn [Z.leb Z.compare];
          change (10 ^ 0) with 1; now rewrite Z.mul_1_r).
    replace ((t <? 0) || (t >? 9)) with false
      by (symmetry; rewrite Z.gtb_ltb; apply orb_false_iff; split; apply Z.ltb_ge; lia).
    cbn [bind]. rewrite (eq_zero_canon Hc), Hnz. cbn [negb].
    replace (t =? 5) with false by (symmetry; now apply Z.eqb_neq).
    assert (Hsd : 2 <= n + 10 <= Big.MAX_DP) by lia.
    destruct (extra_precision_digits Hc Hnz Hsd) as (printed & HS & _ & _).
    rewrite HS. cbn [bind].
    rewrite (eq_zero_canon (abs_canon Hc)).
    change (Big.nonzero (Big.abs x)) with (Big.nonzero x). rewrite Hnz. cbn [negb].
    rewrite (magnitude_of_abs Hc Hnz), Hten. cbn [bind]. rewrite Hpow. cbn [bind].
    rewrite Htimes, Hfloor. cbn [bind].
    destruct (_ >=? t); reflexivity.
Qed.

Lemma truncate_round_large_magnitude_witness :
  truncate (VStr "5e21") (Num.of_Z 1) = Throw Big.DIV_BY_ZERO /\
  round (VStr "5e21") (Num.of_Z 1) (Some (Num.of_Z 4)) = Throw Big.DIV_BY_ZERO.
Proof.
  apply (@truncate_round_large_magnitude (VStr "5e21") (Num.of_Z 1)
           (Big.mk 1 21 [5%nat]) 1 4 eq_refl eq_refl eq_refl
           ltac:(vm_compute; discriminate) ltac:(cbn; lia) ltac:(cbn; lia)
           ltac:(vm_compute; reflexivity) ltac:(lia) ltac:(discriminate)).
Defined.

(** X13.  With a threshold other than 5, [round] either keeps the first
    [n] digits or adds one unit to them, and the first case is what
    [truncate] returns: whenever the digit that [round] reads stays
    below the threshold, the two functions agree. *)
Theorem round_below_threshold_truncates (v : value) (sigfigs : number) (x : Big.t)
    (n t : Z) :
  new_Big v = Ok x -> Big.nonzero x = true ->
  validateSigfigs sigfigs = Ok n -> n + 10 <= Big.MAX_DP ->
  (length (Big.c x) <= 10)%nat -> -300 <= Big.e x <= 300 ->
  - Big.DP <= Big.e x - n + 1 <= Big.DP ->
  0 <= t <= 9 -> t <> 5 ->
  decision_digit x n < t ->
  round v sigfigs (Some (Num.of_Z t)) = truncate v sigfigs.
Proof.
  intros Hx Hnz Hv Hmax _ _ Hrange Ht Ht5 Hlt.
  rewrite (@round_custom_procedure v sigfigs t x n Hx Hnz Hv Hmax Ht Ht5 Hrange).
  rewrite (@truncate_procedure v sigfigs x n Hx Hnz Hv Hrange).
  replace (decision_digit x n >=? t) with false
    by (symmetry; rewrite Z.geb_leb; apply Z.leb_gt; lia).
  now rewrite Z.add_0_r.
Qed.

Lemma round_below_threshold_truncates_witness :
  round (VStr "123.456") (Num.of_Z 4) (Some (Num.of_Z 7))
  = truncate (VStr "123.456") (Num.of_Z 4).
Proof.
  apply (@round_below_threshold_truncates (VStr "123.456") (Num.of_Z 4)
           (Big.mk 1 2 [1; 2; 3; 4; 5; 6]%nat) 4 7 eq_refl eq_refl eq_refl
           ltac:(vm_compute; discriminate) ltac:(cbn; lia) ltac:(cbn; lia)
           ltac:(vm_compute; split; discriminate) ltac:(lia) ltac:(discriminate)
           ltac:(vm_compute; reflexivity)).
Defined.

(** ** Sums and differences *)

(** What [r] has to be for the value [P] rendered with [d] decimal
    places: [d] digits after the point and, for a value that is not below
    one unit of the last place kept, the value rounded half away from zero
    to a multiple of [10^-d]. *)
Definition fixed_to (P : Big.t) (d : Z) (r : str) : Prop :=
  let k := Z.max 0 (- Big.qexp P - d) in
  digitsAfterDecimal (VStr r) = Ok d /\
  (Big.nonzero P = true -> - d <= Big.e P ->
   new_Big (VStr r) = Ok (Big.of_Zq (nearest (Big.mant P) k) (Big.qexp P + k))).

Lemma toFixed_fixed_to z d :
  canon z -> 0 <= d <= Big.MAX_DP ->
  exists r, Big.toFixed z d = Ok r /\ fixed_to z d r.
Proof.
  intros Hz Hd.
  destruct (toFixed_layout Hz Hd) as (neg & ip & fr & E & Hip & Hne & Hfr & Hlen).
  eexists. split; [exact E|]. split.
  - rewrite (digitsAfterDecimal_fixed neg Hip Hne Hfr). f_equal.
    destruct fr as [fp|]; lia.
  - intros Hnz He. revert E. unfold Big.toFixed.
    replace ((d <? 0) || (d >? Big.MAX_DP)) with false
      by (symmetry; rewrite Z.gtb_ltb; apply orb_false_iff; split; apply Z.ltb_ge; lia).
    rewrite Hnz. intros E. injection E as <-.
    destruct (canon_cases Hz) as [[H0 _]|[_ Hdz]]; [congruence|].
    pose proof Hz as (Hs & Hok & _).
    assert (Hsd : 1 <= d + Big.e z + 1) by lia.
    destruct (@round_digits z (d + Big.e z + 1) Hdz Hok Hsd) as (Hsy & Hoky & Hnzy & _ & _).
    unfold new_Big, String_. rewrite parse_stringify_pad; [|rewrite Hsy; exact Hs|assumption..].
    f_equal. rewrite (@round_value z (d + Big.e z + 1) Hz Hnz Hsd).
    replace (Z.of_nat (length (Big.c z)) - (d + Big.e z + 1)) with (- Big.qexp z - d)
      by (unfold Big.qexp; lia).
    reflexivity.
Qed.

(** X14.  Without an explicit count, [add] and [sub] of two parseable
    operands whose exponents are within [MAX_EXPONENT] return the exact sum and the exact difference rounded half
    away from zero to the decimal places of the operand that has fewer of
    them (as [digitsAfterDecimal] counts them): the string has that many
    digits after the point and, unless the result is zero or below one
    unit of the last place kept, it reads back as the rounded value.
    (The number of places is one that the decimal library accepts.) *)
Theorem add_sub_round_to_places (a b : value) (x y : Big.t) (da db : Z) :
  new_Big a = Ok x -> new_Big b = Ok y -> exponent_ok x -> exponent_ok y ->
  digitsAfterDecimal a = Ok da -> digitsAfterDecimal b = Ok db ->
  Z.min da db <= Big.MAX_DP ->
  exists r1 r2,
    add a b None = Ok r1 /\ fixed_to (Big.plus x y) (Z.min da db) r1 /\
    sub a b None = Ok r2 /\ fixed_to (Big.minus x y) (Z.min da db) r2.
Proof.
  intros Hx Hy _ _ Ha Hb Hmax.
  pose proof (digitsAfterDecimal_nonneg _ Ha) as Hda.
  pose proof (digitsAfterDecimal_nonneg _ Hb) as Hdb.
  assert (Hd : 0 <= Z.min da db <= Big.MAX_DP) by lia.
  destruct (@toFixed_fixed_to (Big.plus x y) (Z.min da db) (of_Zq_canon _ _) Hd)
    as (r1 & Hr1 & Hf1).
  destruct (@toFixed_fixed_to (Big.minus x y) (Z.min da db) (of_Zq_canon _ _) Hd)
    as (r2 & Hr2 & Hf2).
  exists r1, r2. unfold add, sub. cbn [validate_opt bind].
  rewrite Hx, Hy. cbn [bind]. rewrite (@decimalPlaces_pair a b da db Ha Hb Hda Hdb). cbn [bind].
  rewrite Hr1, Hr2. repeat split; assumption || reflexivity || apply Hf1 || apply Hf2.
Qed.

Lemma add_sub_round_to_places_witness :
  exists r1 r2,
    add (VStr "1.25") (VStr "2.1") None = Ok r1 /\
    digitsAfterDecimal (VStr r1) = Ok 1 /\
    new_Big (VStr r1) = Ok (Big.of_Zq 34 (-1)) /\
    sub (VStr "1.25") (VStr "2.1") None = Ok r2 /\
    new_Big (VStr r2) = Ok (Big.of_Zq (-9) (-1)).
Proof.
  destruct (@add_sub_round_to_places (VStr "1.25") (VStr "2.1")
              (Big.mk 1 0 [1; 2; 5]%nat) (Big.mk 1 0 [2; 1]%nat) 2 1
              eq_refl eq_refl ltac:(vm_compute; discriminate)
              ltac:(vm_compute; discriminate) eq_refl eq_refl
              ltac:(vm_compute; discriminate))
    as (r1 & r2 & H1 & [Hd1 Hv1] & H2 & [_ Hv2]).
  exists r1, r2.
  split; [exact H1|]. split; [exact Hd1|].
  split; [exact (Hv1 eq_refl ltac:(vm_compute; discriminate))|].
  split; [exact H2|]. exact (Hv2 eq_refl ltac:(vm_compute; discriminate)).
Defined.

(** ** Percentages *)

Lemma hundred_parsed : new_Big (VNum (Num.of_Z 100)) = Ok (Big.mk 1 2 [1%nat]).
Proof. vm_compute. reflexivity. Qed.

(** The count of significant figures that [percentage] uses. *)
Definition percentage_sigfigs (part whole : value) (options : percentage_options)
  : number :=
  match options with
  | SigfigsOption sf | ObjectOption (Some sf) _ => sf
  | NoOptions | ObjectOption None _ => Num.of_Z (Z.min (sigfigOf part) (sigfigOf whole))
  end.

(** X15.  For a parseable part and a parseable nonzero whole, both with
    exponents within [MAX_EXPONENT], [percentage] returns one hundred times the quotient of the decimal
    library, rounded half up to [n] significant digits, followed by a
    percent sign unless the option [appendPercent] is [false].  The count
    [n] is the number passed as the options, or their field [sigfigs], or,
    without either, the lesser of the [sigfigOf] counts of part and whole.
    (The quotient is taken nonzero and [n] within the limit of the
    library.) *)
Theorem percentage_rounds (part whole : value) (options : percentage_options)
    (x y Q : Big.t) (n : Z) :
  new_Big part = Ok x -> new_Big whole = Ok y -> Big.nonzero y = true ->
  exponent_ok x -> exponent_ok y ->
  Big.div x y = Ok Q -> Big.nonzero Q = true ->
  validateSigfigs (percentage_sigfigs part whole options) = Ok n ->
  n <= Big.MAX_DP ->
  exists r,
    rounded_to (Big.times Q (Big.mk 1 2 [1%nat])) n r /\
    percentage part whole options
    = Ok (match options with
          | ObjectOption _ (Some false) => r
          | _ => r ++ "%"
          end).
Proof.
  intros Hx Hy Hnzy _ _ HQ HnzQ Hv Hmax.
  pose proof (new_Big_canon _ Hy) as Hcy.
  set (P := Big.times Q (Big.mk 1 2 [1%nat])).
  assert (HcP : canon P) by apply of_Zq_canon.
  assert (HQc : canon Q).
  { revert HQ. unfold Big.div. rewrite Hnzy. cbn [negb].
    destruct (negb (Big.nonzero x)); intros H; injection H as <-;
      [split; [now left|split; [repeat constructor; lia|now left]]|apply of_Zq_canon]. }
  assert (HnzP : Big.nonzero P = true).
  { apply of_Zq_nonzero. change (Big.mant (Big.mk 1 2 [1%nat])) with 1.
    rewrite Z.mul_1_r. now apply mant_nonzero. }
  destruct (@toSigfig_rounded_to P _ n HcP HnzP Hv Hmax) as (r & Hr & Hrt).
  exists r. split; [exact Hrt|].
  unfold percentage. rewrite Hx, Hy. cbn [bind].
  rewrite (eq_zero_canon Hcy), Hnzy. cbn [negb].
  destruct options as [|sf|[sf|] [[|]|]]; cbn [percentage_sigfigs] in Hr;
    cbv iota beta; rewrite HQ; cbn [bind]; rewrite hundred_parsed; cbn [bind];
    fold P; unfold Math_min; cbn [fold_left]; rewrite Hr; reflexivity.
Qed.

Lemma percentage_rounds_witness :
  exists r,
    percentage (lit "1") (lit "3") (SigfigsOption (Num.of_Z 3)) = Ok (r ++ "%") /\
    new_Big (VStr r) = Ok (Big.of_Zq 333 (-1)).
Proof.
  destruct (@percentage_rounds (lit "1") (lit "3") (SigfigsOption (Num.of_Z 3))
              (Big.mk 1 0 [1%nat]) (Big.mk 1 0 [3%nat])
              (Big.of_Zq 33333333333333333333 (-20)) 3
              eq_refl eq_refl eq_refl ltac:(vm_compute; discriminate)
              ltac:(vm_compute; discriminate) ltac:(vm_compute; reflexivity)
              eq_refl eq_refl
              ltac:(vm_compute; discriminate)) as (r & [Hback _] & Hr).
  exists r. split; [exact Hr|]. rewrite Hback. vm_compute. reflexivity.
Defined.

Lemma kept_or_replaced {A} (m : res A) (keep fallback e : exn) :
  (forall err, m = Throw err -> is_Error err) ->
  try_catch m (fun err => if str_eqb (message err) (message keep) then Throw err
                          else Throw fallback) = Throw e ->
  e = Error (message keep) \/ e = fallback.
Proof.
  intros Hm. unfold try_catch. destruct m as [r|err]; [discriminate|].
  specialize (Hm err eq_refl).
  destruct (str_eqb (message err) (message keep)) eqn:E.
  - intros H. injection H as <-. left. apply str_eqb_eq in E.
    destruct err; [|contradiction]. cbn [message] in E. now subst.
  - intros H. injection H as <-. now right.
Qed.

Lemma validateSigfigs_error sf e : validateSigfigs sf = Throw e -> e = ERR_SIGFIGS.
Proof.
  intros H. apply (@validate_opt_error (Some sf)). unfold validate_opt. now rewrite H.
Qed.

(** X16.  The failures of [percentage].  Whatever the arguments, it
    raises one of two errors only.  A parseable part with a whole that is
    zero gives the division-by-zero error, whatever the options; a part
    that does not parse gives the invalid-input error even when the whole
    is zero; and a count of significant figures that [validateSigfigs]
    rejects is reported as the same invalid-input error about the two
    values, not as an error about the count. *)
Theorem percentage_errors (part whole : value) (options : percentage_options) :
  (forall e, percentage part whole options = Throw e ->
   e = ERR_PERCENT_ZERO \/ e = ERR_VALUES) /\
  (forall x y, new_Big part = Ok x -> new_Big whole = Ok y ->
   Big.nonzero y = false ->
   percentage part whole options = Throw ERR_PERCENT_ZERO) /\
  (forall e, new_Big part = Throw e ->
   percentage part whole options = Throw ERR_VALUES) /\
  (forall x y e, new_Big part = Ok x -> new_Big whole = Ok y ->
   Big.nonzero y = true ->
   validateSigfigs (percentage_sigfigs part whole options) = Throw e ->
   percentage part whole options = Throw ERR_VALUES).
Proof.
  split; [|split; [|split]].
  - intros e H. unfold percentage in H.
    apply kept_or_replaced in H; [exact H|]. clear H.
    intros err.
    destruct (new_Big part) as [x|e1] eqn:Hx; cbn [bind];
      [|intros T; injection T as <-; apply new_Big_error in Hx; subst; exact I].
    destruct (new_Big whole) as [y|e2] eqn:Hy; cbn [bind];
      [|intros T; injection T as <-; apply new_Big_error in Hy; subst; exact I].
    destruct (Big.eq y Big.zero); [intros T; injection T as <-; exact I|].
    destruct options as [|sf|[sf|] [[|]|]]; cbv iota beta;
      (destruct (Big.div x y) as [Q|e3] eqn:HQ; cbn [bind];
       [|intros T; injection T as <-; now apply div_is_Error in HQ]);
      rewrite hundred_parsed; cbn [bind];
      match goal with
      | |- bind ?m _ = Throw _ -> _ =>
          let E := fresh "E" in
          destruct m eqn:E; cbn [bind];
          [discriminate|intros T; injection T as <-; now apply toSigfig_is_Error in E]
      end.
  - intros x y Hx Hy Hnz. pose proof (new_Big_canon _ Hy) as Hcy.
    unfold percentage. rewrite Hx, Hy. cbn [bind].
    rewrite (eq_zero_canon Hcy), Hnz. reflexivity.
  - intros e Hx. unfold percentage. rewrite Hx. cbn [bind try_catch].
    apply new_Big_error in Hx. subst e. reflexivity.
  - intros x y e Hx Hy Hnz Hv. pose proof (new_Big_canon _ Hy) as Hcy.
    apply validateSigfigs_error in Hv as Hv'. subst e.
    unfold percentage. rewrite Hx, Hy. cbn [bind].
    rewrite (eq_zero_canon Hcy), Hnz. cbn [negb].
    assert (HQ : exists Q, Big.div x y = Ok Q).
    { unfold Big.div. rewrite Hnz. cbn [negb]. destruct (negb (Big.nonzero x)); eauto. }
    destruct HQ as [Q HQ].
    destruct options as [|sf|[sf|] [[|]|]]; cbn [percentage_sigfigs] in Hv;
      cbv iota beta; rewrite HQ; cbn [bind]; rewrite hundred_parsed; cbn [bind];
      unfold Math_min; cbn [fold_left]; unfold toSigfig; rewrite Hv; reflexivity.
Qed.

Lemma percentage_errors_witness :
  percentage (lit "50") (lit "0") (SigfigsOption (Num.of_Z 0)) = Throw ERR_PERCENT_ZERO /\
  percentage (VStr "abc") (lit "0") NoOptions = Throw ERR_VALUES /\
  percentage (lit "50") (lit "200") (SigfigsOption (Num.of_Z 0)) = Throw ERR_VALUES.
Proof.
  destruct (percentage_errors (lit "50") (lit "0") (SigfigsOption (Num.of_Z 0)))
    as (_ & H1 & _).
  destruct (percentage_errors (VStr "abc") (lit "0") NoOptions) as (_ & _ & H2 & _).
  destruct (percentage_errors (lit "50") (lit "200") (SigfigsOption (Num.of_Z 0)))
    as (_ & _ & _ & H3).
  split; [exact (H1 (Big.mk 1 1 [5%nat]) Big.zero eq_refl eq_refl eq_refl)|].
  split; [exact (H2 Big.INVALID_NUMBER eq_refl)|].
  exact (H3 (Big.mk 1 1 [5%nat]) (Big.mk 1 2 [2%nat]) ERR_SIGFIGS eq_refl eq_refl
            eq_refl eq_refl).
Defined.

(** ** Absolute value, powers and square roots *)

Lemma nearest_pos m k :
  0 <= k -> 10 ^ k <= m -> 0 < nearest m k.
Proof.
  intros Hk Hm. unfold nearest.
  assert (Hp : 0 < 10 ^ k) by (apply Z.pow_pos_nonneg; lia).
  rewrite Z.sgn_pos by lia. rewrite Z.abs_eq by lia.
  assert (1 <= (2 * m + 10 ^ k) / (2 * 10 ^ k)); [|lia].
  apply Z.div_le_lower_bound; lia.
Qed.

(** The count of significant figures that the unary operations use. *)
Definition unary_sigfigs (v : value) (toSigfigParam : option number) : number :=
  match toSigfigParam with
  | Some sf => sf
  | None => Num.of_Z (sigfigOf v)
  end.

(** X17.  For a parseable nonzero value whose exponent is within
    [MAX_EXPONENT], [abs] returns the magnitude of
    the value rounded half up to [n] significant digits, [n] being the
    explicit count or else the [sigfigOf] count of the argument (and
    within the limit of the decimal library).  The result reads back as a
    positive number. *)
Theorem abs_rounds_magnitude (v : value) (toSigfigParam : option number)
    (x : Big.t) (n : Z) :
  new_Big v = Ok x -> Big.nonzero x = true -> exponent_ok x ->
  validateSigfigs (unary_sigfigs v toSigfigParam) = Ok n -> n <= Big.MAX_DP ->
  exists r y,
    abs v toSigfigParam = Ok r /\ rounded_to (Big.abs x) n r /\
    new_Big (VStr r) = Ok y /\ Big.s y = 1 /\ Big.nonzero y = true.
Proof.
  intros Hx Hnz _ Hv Hmax. pose proof (new_Big_canon _ Hx) as Hc.
  pose proof (abs_canon Hc) as Hca.
  assert (Hnza : Big.nonzero (Big.abs x) = true) by exact Hnz.
  destruct (@validated_positive _ _ Hv) as [Hn _].
  destruct (@toSigfig_rounded_to (Big.abs x) _ n Hca Hnza Hv Hmax) as (r & Hr & Hrt).
  destruct (canon_cases Hca) as [[Hz _]|[_ Hd]]; [congruence|].
  pose proof Hca as (_ & Hok & _).
  destruct (nonzero_digits_facts Hok Hd) as ([Hlo _] & _ & HL).
  set (k := Z.max 0 (Z.of_nat (length (Big.c (Big.abs x))) - n)) in *.
  assert (Hpos : 0 < nearest (Big.mant (Big.abs x)) k).
  { apply nearest_pos; [lia|]. unfold Big.mant. cbn [Big.abs Big.s]. rewrite Z.mul_1_l.
    eapply Z.le_trans; [|exact Hlo]. apply Z.pow_le_mono_r; lia. }
  destruct (of_Zq_facts (Big.qexp (Big.abs x) + k) Hpos) as (Hnzy & Hsy & _).
  exists r, (Big.of_Zq (nearest (Big.mant (Big.abs x)) k) (Big.qexp (Big.abs x) + k)).
  split.
  - unfold abs.
    replace (validate_opt toSigfigParam) with (Ok tt : res unit).
    2:{ destruct toSigfigParam as [sf|]; [|reflexivity]. cbn [unary_sigfigs] in Hv.
        unfold validate_opt. now rewrite Hv. }
    cbn [bind]. rewrite Hx. cbn [bind].
    destruct toSigfigParam as [sf|]; cbn [unary_sigfigs] in Hr; rewrite Hr; reflexivity.
  - split; [exact Hrt|]. split; [apply Hrt|]. split; assumption.
Qed.

Lemma abs_rounds_magnitude_witness :
  exists r,
    abs (VStr "-3.14159") (Some (Num.of_Z 3)) = Ok r /\
    new_Big (VStr r) = Ok (Big.of_Zq 314 (-2)).
Proof.
  destruct (@abs_rounds_magnitude (VStr "-3.14159") (Some (Num.of_Z 3))
              (Big.mk (-1) 0 [3; 1; 4; 1; 5; 9]%nat) 3 eq_refl eq_refl
              ltac:(vm_compute; discriminate) eq_refl
              ltac:(vm_compute; discriminate)) as (r & y & Hr & [Hback _] & _).
  exists r. split; [exact Hr|]. rewrite Hback. vm_compute. reflexivity.
Defined.

(** X18.  Arguments outside the domain.  Once the count is accepted,
    [sqrt] of a negative value raises its negative-number error before
    the square root of the decimal library is called, and [pow] of a zero
    base to a negative exponent raises its invalid-result error before any
    power is computed; this holds whatever [Math.pow] and the square root
    of the library would return.  A count that [validateSigfigs] rejects
    is reported first, by all three operations, even for such
    arguments. *)
Theorem sqrt_pow_domain (Math_pow : number -> number -> number)
    (Big_sqrt : Big.t -> res Big.t) (v w : value) (toSigfigParam : option number)
    (x y : Big.t) :
  new_Big v = Ok x -> new_Big w = Ok y ->
  Big.nonzero y = true -> Big.s y = -1 ->
  (validate_opt toSigfigParam = Ok tt ->
   sqrt Big_sqrt w toSigfigParam = Throw ERR_SQRT_NEGATIVE /\
   (Big.nonzero x = false -> pow Math_pow v w toSigfigParam = Throw ERR_POW)) /\
  (forall e, validate_opt toSigfigParam = Throw e ->
   sqrt Big_sqrt w toSigfigParam = Throw ERR_SIGFIGS /\
   pow Math_pow v w toSigfigParam = Throw ERR_SIGFIGS /\
   abs w toSigfigParam = Throw ERR_SIGFIGS).
Proof.
  intros Hx Hy Hnzy Hsy.
  assert (Hlt : Big.lt y Big.zero = true).
  { unfold Big.lt, Big.cmp. rewrite Hnzy, Hsy. reflexivity. }
  pose proof (new_Big_canon _ Hx) as Hcx.
  split.
  - intros Hv. split.
    + unfold sqrt. rewrite Hv. cbn [bind]. rewrite Hy. cbn [bind]. rewrite Hlt.
      reflexivity.
    + intros Hzx. unfold pow. rewrite Hv. cbn [bind]. rewrite Hx, Hy. cbn [bind].
      rewrite (eq_zero_canon Hcx), Hzx, Hlt. reflexivity.
  - intros e Hv. apply validate_opt_error in Hv as He. subst e.
    unfold sqrt, pow, abs. rewrite Hv. repeat split; reflexivity.
Qed.

Lemma sqrt_pow_domain_witness :
  sqrt (fun x => Ok x) (lit "-4") None = Throw ERR_SQRT_NEGATIVE /\
  pow (fun _ _ => NaN) (lit "0") (lit "-4") None = Throw ERR_POW /\
  sqrt (fun x => Ok x) (lit "-4") (Some (Num.of_Z 0)) = Throw ERR_SIGFIGS.
Proof.
  destruct (@sqrt_pow_domain (fun _ _ => NaN) (fun x => Ok x) (lit "0") (lit "-4") None
              Big.zero (Big.mk (-1) 0 [4%nat]) eq_refl eq_refl eq_refl eq_refl)
    as [H1 _].
  destruct (@sqrt_pow_domain (fun _ _ => NaN) (fun x => Ok x) (lit "0") (lit "-4")
              (Some (Num.of_Z 0)) Big.zero (Big.mk (-1) 0 [4%nat])
              eq_refl eq_refl eq_refl eq_refl) as [_ H2].
  destruct (H1 eq_refl) as [Hs Hp]. destruct (H2 ERR_SIGFIGS eq_refl) as [Hs' _].
  split; [exact Hs|]. split; [exact (Hp eq_refl)|exact Hs'].
Defined.

(** ** Numbers read back from the decimal library *)

Lemma digit_char_not_I d t :
  (d < 10)%nat -> Num.starts_with "Infinity" (digit_char d :: t) = false.
Proof.
  intros H. unfold Num.starts_with. apply str_eqb_neq. cbn [length firstn].
  intros E. injection E as E _. digit_cases d H.
Qed.

(** [parseFloat] on a decimal written without an exponent. *)
Lemma parseFloat_plain neg ip fr :
  digits_ok ip -> frac_ok fr -> ip <> [] ->
  Num.parseFloat (sign_str neg ++ dstr ip ++ frac_str fr)
  = Fin (let m := Z_of_digits (ip ++ frac_digits fr) in if neg then - m else m)
        (- Z.of_nat (length (frac_digits fr))).
Proof.
  intros Hip Hfr Hne. unfold Num.parseFloat.
  set (body := dstr ip ++ frac_str fr).
  destruct ip as [|d ip]; [congruence|]. clear Hne.
  assert (Hd : (d < 10)%nat) by (inversion Hip; assumption).
  assert (Eb : body = digit_char d :: (dstr ip ++ frac_str fr)) by reflexivity.
  assert (Hsplit :
    (let s := drop_while is_space (sign_str neg ++ body) in
     match s with
     | a :: r => if chr_eqb a "-" then (true, r)
                 else if chr_eqb a "+" then (false, r) else (false, s)
     | [] => (false, s)
     end) = (neg, body)).
  { destruct neg; cbn [sign_str app].
    - change (drop_while is_space ("-"%char :: body)) with ("-"%char :: body).
      reflexivity.
    - rewrite Eb. cbn [drop_while].
      rewrite (digit_char_not_space Hd), (digit_char_not_minus Hd),
        (digit_char_not_plus Hd). reflexivity. }
  cbv zeta in Hsplit. rewrite Hsplit.
  rewrite Eb at 1. rewrite (digit_char_not_I _ Hd). subst body.
  rewrite (take_while_app_all _ _ _ (dstr_all_digits Hip)).
  rewrite (drop_while_app_all _ _ _ (dstr_all_digits Hip)).
  unfold frac_ok in Hfr.
  destruct fr as [fp|]; cbn [frac_str frac_digits] in *.
  - cbn [take_while drop_while]. change (is_digit ".") with false. cbv iota.
    change (chr_eqb "." ".") with true. cbv iota.
    rewrite (take_while_all _ _ (dstr_all_digits Hfr)).
    rewrite (drop_while_all _ _ (dstr_all_digits Hfr)).
    rewrite app_nil_r. cbn [dstr map Big.is_nil andb]. cbv iota.
    change (digit_char d :: map digit_char ip) with (dstr (d :: ip)).
    rewrite map_app, !dstr_vals by assumption.
    rewrite dstr_length. reflexivity.
  - cbn [take_while drop_while]. rewrite !app_nil_r.
    cbn [dstr map Big.is_nil andb]. cbv iota.
    change (digit_val (digit_char d) :: map digit_val (map digit_char ip))
      with (map digit_val (dstr (d :: ip))).
    rewrite dstr_vals by assumption. reflexivity.
Qed.

Lemma shape_plain e ds : let '(ip, fr, ex) := shape e ds false in ex = None.
Proof.
  unfold shape.
  repeat match goal with
         | |- context [if ?b then _ else _] => destruct b
         end; reflexivity.
Qed.

(** [parseFloat(x.toString())] for a value that big.js prints without an
    exponent: the number is the value of [x], its digits possibly
    followed by zeros. *)
Lemma parseFloat_toString y :
  canon y -> Big.nonzero y = true -> Big.NE < Big.e y < Big.PE ->
  exists j, 0 <= j /\
    Num.parseFloat (Big.toString y) = Fin (Big.mant y * 10 ^ j) (Big.qexp y - j).
Proof.
  unfold Big.NE, Big.PE. intros Hc Hnz He.
  destruct (canon_cases Hc) as [[Hz _]|[_ Hd]]; [congruence|].
  pose proof Hc as (Hs & Hok & _). pose proof Hd as (d & r & Ec & Hd0 & _).
  unfold Big.toString, Big.NE, Big.PE.
  replace ((Big.e y <=? -7) || (Big.e y >=? 21)) with false
    by (symmetry; rewrite Z.geb_leb; apply orb_false_iff; split; apply Z.leb_gt; lia).
  rewrite stringify_shape, Hnz, andb_true_r.
  rewrite Ec in Hok. pose proof (shape_facts (Big.e y) false Hok) as Hfacts.
  pose proof (shape_plain (Big.e y) (d :: r)) as Hpl.
  rewrite Ec. destruct (shape (Big.e y) (d :: r) false) as [[ip fr] ex].
  destruct Hfacts as (Hip & Hfr & Hne & k & j & Hcat & Hlen). subst ex.
  cbn [expo_str expo_val] in *. rewrite app_nil_r.
  rewrite (@parseFloat_plain _ ip fr Hip Hfr Hne). cbv zeta. rewrite Hcat.
  exists (Z.of_nat j). split; [lia|].
  assert (Hval : Z_of_digits (repeat 0%nat k ++ (d :: r) ++ repeat 0%nat j)
                 = Z_of_digits (d :: r) * 10 ^ Z.of_nat j).
  { rewrite !Z_of_digits_app, !Z_of_digits_repeat_zero, repeat_length. lia. }
  rewrite Hval.
  assert (Hq : - Z.of_nat (length (frac_digits fr)) = Big.qexp y - Z.of_nat j).
  { apply (f_equal (@length nat)) in Hcat. rewrite !length_app, !repeat_length in Hcat.
    unfold Big.qexp. rewrite Ec. lia. }
  rewrite Hq. unfold Big.mant. rewrite Ec.
  destruct Hs as [-> | ->]; cbn [Z.ltb Z.compare]; f_equal; lia.
Qed.

(** The integer part towards minus infinity of [m * 10^q]. *)
Definition int_floor (m q : Z) : Z :=
  if 0 <=? q then m * 10 ^ q else m / 10 ^ (- q).

Lemma floor_shifted m q j :
  0 <= j ->
  exists m' q', Num.floor (Fin (m * 10 ^ j) (q - j)) = Fin m' q' /\
    Big.of_Zq m' q' = Big.of_Zq (int_floor m q) 0.
Proof.
  intros Hj. unfold Num.floor, int_floor.
  assert (Hpj : 0 < 10 ^ j) by (apply Z.pow_pos_nonneg; lia).
  destruct (Z_lt_le_dec (q - j) 0) as [H1|H1]; settle_cmp.
  - eexists _, _. split; [reflexivity|]. f_equal.
    destruct (Z_lt_le_dec q 0) as [H2|H2]; settle_cmp.
    + replace (- (q - j)) with (- q + j) by lia. rewrite Z.pow_add_r by lia.
      rewrite Z.mul_comm, (Z.mul_comm (10 ^ (- q))).
      apply Z.div_mul_cancel_l; [|lia].
      assert (0 < 10 ^ (- q)) by (apply Z.pow_pos_nonneg; lia). lia.
    + replace j with (q + (j - q)) at 1 by lia. rewrite Z.pow_add_r by lia.
      replace (- (q - j)) with (j - q) by lia.
      rewrite Z.mul_assoc. apply Z.div_mul.
      assert (0 < 10 ^ (j - q)) by (apply Z.pow_pos_nonneg; lia). lia.
  - eexists _, _. split; [reflexivity|].
    replace (0 <=? q) with true by (symmetry; apply Z.leb_le; lia).
    apply of_Zq_eq with (q := 0); [lia|lia|].
    rewrite Z.sub_0_r, Z.sub_diag. change (10 ^ 0) with 1.
    rewrite <- Z.mul_assoc, <- Z.pow_add_r by lia.
    replace (j + (q - j)) with q by lia. lia.
Qed.

Lemma to_int_shifted m q j :
  0 <= j -> 0 <= q -> Num.to_int (Fin (m * 10 ^ j) (q - j)) = Some (m * 10 ^ q).
Proof.
  intros Hj Hq. unfold Num.to_int.
  destruct (Z_lt_le_dec (q - j) 0) as [H1|H1]; settle_cmp.
  - assert (Hp : 0 < 10 ^ (j - q)) by (apply Z.pow_pos_nonneg; lia).
    replace (- (q - j)) with (j - q) by lia.
    assert (E : m * 10 ^ j = m * 10 ^ q * 10 ^ (j - q)).
    { rewrite <- Z.mul_assoc, <- Z.pow_add_r by lia. do 2 f_equal. lia. }
    rewrite E, Z.mod_mul by lia. cbn [Z.eqb]. rewrite Z.div_mul by lia. reflexivity.
  - f_equal. rewrite <- Z.mul_assoc, <- Z.pow_add_r by lia. do 2 f_equal. lia.
Qed.

(** ** Integer powers and integer division *)

Lemma toSigfig_Fin m q prec :
  toSigfig (VNum (Fin m q)) prec = rounded (Big.of_Zq m q) prec.
Proof.
  unfold toSigfig, rounded. destruct (validateSigfigs prec) as [n|e]; [|reflexivity].
  cbn [bind]. rewrite new_Big_Fin. cbn [bind].
  rewrite (eq_zero_canon (of_Zq_canon m q)).
  now destruct (Big.nonzero (Big.of_Zq m q)).
Qed.

Lemma div_canon x y Q : Big.div x y = Ok Q -> canon Q.
Proof.
  unfold Big.div. destruct (negb (Big.nonzero y)); [discriminate|].
  destruct (negb (Big.nonzero x)); intros H; injection H as <-.
  - split; [now left|]. split; [repeat constructor; lia|now left].
  - apply of_Zq_canon.
Qed.

Lemma pow_canon x n P : Big.pow x n = Ok P -> canon P.
Proof.
  unfold Big.pow. destruct ((n <? - Big.MAX_POWER) || (n >? Big.MAX_POWER));
    [discriminate|].
  destruct (n <? 0).
  - apply div_canon.
  - intros H. injection H as <-. apply of_Zq_canon.
Qed.

(** The magnitude of a value bounds its exponent. *)
Lemma exponent_bound y N :
  canon y -> Big.nonzero y = true -> 0 <= N ->
  0 <= Big.qexp y -> Z.abs (Big.mant y * 10 ^ Big.qexp y) < 10 ^ N ->
  0 <= Big.e y < N.
Proof.
  intros Hc Hnz HN Hq Hb.
  destruct (canon_cases Hc) as [[Hz _]|[_ Hd]]; [congruence|].
  pose proof Hc as (Hs & Hok & _).
  destruct (nonzero_digits_facts Hok Hd) as ([Hlo _] & _ & HL).
  set (L := Z.of_nat (length (Big.c y))) in *.
  assert (He : Big.e y = Big.qexp y + L - 1) by (unfold Big.qexp; fold L; lia).
  split; [lia|].
  assert (Hp1 : 0 < 10 ^ (L - 1)) by (apply Z.pow_pos_nonneg; lia).
  assert (Hp2 : 0 < 10 ^ Big.qexp y) by (apply Z.pow_pos_nonneg; lia).
  assert (Habs : Z.abs (Big.mant y * 10 ^ Big.qexp y)
                 = Z_of_digits (Big.c y) * 10 ^ Big.qexp y).
  { unfold Big.mant. destruct Hs as [-> | ->]; rewrite Z.abs_mul; f_equal; lia. }
  rewrite Habs in Hb.
  assert (Hlow : 10 ^ Big.e y <= Z_of_digits (Big.c y) * 10 ^ Big.qexp y).
  { rewrite He. replace (Big.qexp y + L - 1) with ((L - 1) + Big.qexp y) by lia.
    rewrite Z.pow_add_r by lia. apply Z.mul_le_mono_nonneg_r; lia. }
  apply (Z.pow_lt_mono_r_iff 10); lia.
Qed.

(** [parseFloat(y.toString())] is the integer that [y] holds. *)
Lemma exponent_integer n :
  Z.abs n < 10 ^ 21 ->
  Num.to_int (Num.parseFloat (Big.toString (Big.of_Zq n 0))) = Some n.
Proof.
  intros Hn. destruct (Z.eq_dec n 0) as [->|Hn0]; [vm_compute; reflexivity|].
  pose proof (of_Zq_canon n 0) as Hc. pose proof (of_Zq_nonzero 0 Hn0) as Hnz.
  destruct (of_Zq_value n 0) as [Hq Hv]. specialize (Hq Hn0).
  set (y := Big.of_Zq n 0) in *. unfold scaled in Hv. rewrite Z.sub_0_r in Hv.
  assert (He : 0 <= Big.e y < 21)
    by (apply exponent_bound; [assumption..|lia|assumption|now rewrite Hv]).
  destruct (@parseFloat_toString y Hc Hnz) as (j & Hj & Hp);
    [unfold Big.NE, Big.PE; lia|].
  rewrite Hp, to_int_shifted by assumption. now rewrite Hv.
Qed.

(** The count of significant figures that the binary operations use. *)
Definition binary_sigfigs (a b : value) (toSigfigParam : option number) : number :=
  match toSigfigParam with
  | Some sf => sf
  | None => Num.of_Z (Z.min (sigfigOf a) (sigfigOf b))
  end.

Lemma validate_opt_of_count a b toSigfigParam n :
  validateSigfigs (binary_sigfigs a b toSigfigParam) = Ok n ->
  validate_opt toSigfigParam = Ok tt.
Proof.
  destruct toSigfigParam as [sf|]; [|reflexivity]. cbn [binary_sigfigs].
  intros H. unfold validate_opt. now rewrite H.
Qed.

(** X19.  For a nonzero base and an exponent that is an integer [n]
    between minus and plus one million, the base and the power having
    their own exponents within [MAX_EXPONENT], [pow] takes the power in the
    decimal library, not with [Math.pow]: it returns that power rounded
    half up to the count of significant digits, the explicit one or else
    the lesser [sigfigOf] count of base and exponent.  For [n >= 0] the
    power is the exact one, the digits of the base raised to [n]. *)
Theorem pow_integer_exponent (Math_pow : number -> number -> number)
    (base exponent : value) (toSigfigParam : option number)
    (x P : Big.t) (n cnt : Z) :
  new_Big base = Ok x -> Big.nonzero x = true -> exponent_ok x ->
  new_Big exponent = Ok (Big.of_Zq n 0) ->
  - Big.MAX_POWER <= n <= Big.MAX_POWER ->
  Big.pow x n = Ok P -> Big.nonzero P = true -> exponent_ok P ->
  validateSigfigs (binary_sigfigs base exponent toSigfigParam) = Ok cnt ->
  cnt <= Big.MAX_DP ->
  (exists r, pow Math_pow base exponent toSigfigParam = Ok r /\ rounded_to P cnt r) /\
  (0 <= n -> P = Big.of_Zq (Big.mant x ^ n) (Big.qexp x * n)).
Proof.
  intros Hx Hnz _ Hy Hn HP HnzP _ Hv Hmax. split.
  - pose proof (new_Big_canon _ Hx) as Hc. pose proof (pow_canon _ _ HP) as HcP.
    destruct (@toSigfig_rounded_to P _ cnt HcP HnzP Hv Hmax) as (r & Hr & Hrt).
    exists r. split; [|exact Hrt].
    unfold pow. rewrite (validate_opt_of_count _ _ _ Hv). cbn [bind].
    rewrite Hx, Hy. cbn [bind]. rewrite (eq_zero_canon Hc), Hnz. cbn [negb andb].
    rewrite exponent_integer
      by (unfold Big.MAX_POWER in Hn; assert (10 ^ 6 < 10 ^ 21) by reflexivity;
          change (10 ^ 6) with 1000000 in *; lia).
    rewrite HP. cbn [bind].
    destruct toSigfigParam as [sf|]; cbn [binary_sigfigs] in Hr.
    + now rewrite Hr.
    + rewrite pair_sigfigs. now rewrite Hr.
  - intros Hn0. revert HP. unfold Big.pow.
    replace ((n <? - Big.MAX_POWER) || (n >? Big.MAX_POWER)) with false
      by (symmetry; rewrite Z.gtb_ltb; apply orb_false_iff; split; apply Z.ltb_ge; lia).
    replace (n <? 0) with false by (symmetry; apply Z.ltb_ge; lia).
    rewrite Z.abs_eq by lia. congruence.
Qed.

Lemma pow_integer_exponent_witness :
  exists r,
    pow (fun _ _ => NaN) (lit "1.5") (lit "3") (Some (Num.of_Z 2)) = Ok r /\
    new_Big (VStr r) = Ok (Big.of_Zq 34 (-1)).
Proof.
  destruct (@pow_integer_exponent (fun _ _ => NaN) (lit "1.5") (lit "3")
              (Some (Num.of_Z 2)) (Big.mk 1 0 [1; 5]%nat) (Big.of_Zq 3375 (-3)) 3 2
              eq_refl eq_refl ltac:(vm_compute; discriminate) eq_refl
              ltac:(vm_compute; split; discriminate)
              ltac:(vm_compute; reflexivity) eq_refl ltac:(vm_compute; discriminate)
              eq_refl
              ltac:(vm_compute; discriminate)) as [(r & Hr & [Hback _]) _].
  exists r. split; [exact Hr|]. rewrite Hback. vm_compute. reflexivity.
Defined.

Lemma int_floor_nonzero y :
  canon y -> Big.nonzero y = true -> 0 <= Big.e y ->
  int_floor (Big.mant y) (Big.qexp y) <> 0.
Proof.
  intros Hc Hnz He.
  destruct (canon_cases Hc) as [[Hz _]|[_ Hd]]; [congruence|].
  pose proof Hc as (Hs & Hok & _).
  destruct (nonzero_digits_facts Hok Hd) as ([Hlo _] & _ & HL).
  set (L := Z.of_nat (length (Big.c y))) in *. set (M := Z_of_digits (Big.c y)) in *.
  assert (Hp1 : 0 < 10 ^ (L - 1)) by (apply Z.pow_pos_nonneg; lia).
  unfold int_floor, Big.mant. fold M.
  destruct (Z_lt_le_dec (Big.qexp y) 0) as [Hq|Hq]; settle_cmp.
  - assert (Hp : 0 < 10 ^ (- Big.qexp y)) by (apply Z.pow_pos_nonneg; lia).
    assert (Hle : 10 ^ (- Big.qexp y) <= M).
    { eapply Z.le_trans; [|exact Hlo]. apply Z.pow_le_mono_r; [lia|].
      unfold Big.qexp. fold L. lia. }
    destruct Hs as [-> | ->].
    + rewrite Z.mul_1_l. assert (1 <= M / 10 ^ (- Big.qexp y)); [|lia].
      apply Z.div_le_lower_bound; lia.
    + assert (-1 * M / 10 ^ (- Big.qexp y) < 0); [|lia].
      apply Z.div_lt_upper_bound; lia.
  - assert (Hp : 0 < 10 ^ Big.qexp y) by (apply Z.pow_pos_nonneg; lia).
    destruct Hs as [-> | ->]; nia.
Qed.

(** X20.  [idiv] takes the quotient of the decimal library down to the
    next integer, towards minus infinity, and rounds that integer half up
    to the count of significant digits, the explicit one or else the
    lesser [sigfigOf] count of the operands.  (Stated for operands whose
    exponents are within [MAX_EXPONENT] and a quotient of magnitude at
    least one and below [10^21] with at most fifteen digits, which a
    double holds exactly enough for the floor the code takes.) *)
Theorem idiv_floors (a b : value) (toSigfigParam : option number)
    (x y Q : Big.t) (cnt : Z) :
  new_Big a = Ok x -> new_Big b = Ok y -> Big.nonzero y = true ->
  exponent_ok x -> exponent_ok y ->
  Big.div x y = Ok Q -> Big.nonzero Q = true ->
  0 <= Big.e Q < Big.PE -> (length (Big.c Q) <= 15)%nat ->
  validateSigfigs (binary_sigfigs a b toSigfigParam) = Ok cnt ->
  cnt <= Big.MAX_DP ->
  exists r,
    idiv a b toSigfigParam = Ok r /\
    rounded_to (Big.of_Zq (int_floor (Big.mant Q) (Big.qexp Q)) 0) cnt r.
Proof.
  intros Hx Hy Hnzy _ _ HQ HnzQ He _ Hv Hmax.
  pose proof (new_Big_canon _ Hy) as Hcy. pose proof (div_canon _ _ HQ) as HcQ.
  set (F := int_floor (Big.mant Q) (Big.qexp Q)).
  assert (HF : F <> 0) by (apply int_floor_nonzero; [assumption..|lia]).
  destruct (@toSigfig_rounded_to (Big.of_Zq F 0) _ cnt (of_Zq_canon F 0)
              (of_Zq_nonzero 0 HF) Hv Hmax) as (r & Hr & Hrt).
  exists r. split; [|exact Hrt].
  rewrite (toSigfig_toString _ (of_Zq_canon F 0)) in Hr.
  unfold idiv. rewrite (validate_opt_of_count _ _ _ Hv). cbn [bind].
  rewrite Hx, Hy. cbn [bind]. rewrite (eq_zero_canon Hcy), Hnzy. cbn [negb].
  rewrite HQ. cbn [bind].
  destruct (@parseFloat_toString Q HcQ HnzQ) as (j & Hj & Hp);
    [unfold Big.NE, Big.PE in *; lia|].
  rewrite Hp.
  destruct (@floor_shifted (Big.mant Q) (Big.qexp Q) j Hj) as (m' & q' & Hfl & Hval).
  rewrite Hfl. fold F in Hval.
  destruct toSigfigParam as [sf|]; cbn [binary_sigfigs] in Hr;
    rewrite ?pair_sigfigs, toSigfig_Fin, Hval, Hr; reflexivity.
Qed.

Lemma idiv_floors_witness :
  exists r,
    idiv (lit "-10") (lit "4") (Some (Num.of_Z 2)) = Ok r /\
    new_Big (VStr r) = Ok (Big.of_Zq (-3) 0).
Proof.
  destruct (@idiv_floors (lit "-10") (lit "4") (Some (Num.of_Z 2))
              (Big.mk (-1) 1 [1%nat]) (Big.mk 1 0 [4%nat]) (Big.mk (-1) 0 [2; 5]%nat) 2
              eq_refl eq_refl eq_refl ltac:(vm_compute; discriminate)
              ltac:(vm_compute; discriminate) ltac:(vm_compute; reflexivity) eq_refl
              ltac:(vm_compute; split; [discriminate|reflexivity]) ltac:(cbn; lia)
              eq_refl ltac:(vm_compute; discriminate)) as (r & Hr & [Hback _]).
  exists r. split; [exact Hr|]. rewrite Hback. vm_compute. reflexivity.
Defined.

(** ** Decimal places of what is printed *)

(** [digitsAfterDecimal] on a decimal in exponent notation, as big.js and
    JavaScript print it. *)
Lemma digitsAfterDecimal_exponent neg ip fr E :
  digits_ok ip -> ip <> [] -> frac_ok fr ->
  digitsAfterDecimal (VStr (sign_str neg ++ dstr ip ++ frac_str fr ++ exp_str E))
  = Ok (Z.max 0 (Z.of_nat (length (frac_digits fr)) - E)).
Proof.
  intros Hip Hne Hfr. unfold digitsAfterDecimal, String_.
  assert (Hne' : ip ++ frac_digits fr <> [])
    by (destruct ip; [congruence|discriminate]).
  rewrite (@parseFloat_not_NaN neg ip fr (exp_str E) Hip Hfr Hne').
  assert (Hinc : includes "e" (sign_str neg ++ dstr ip ++ frac_str fr ++ exp_str E) = true).
  { rewrite !includes_app, exp_str_eq. cbn [includes existsb].
    change (chr_eqb "e" "e") with true. cbn [orb]. now rewrite !orb_true_r. }
  rewrite Hinc. cbn [orb].
  assert (Hbody : lacks is_e (sign_str neg ++ dstr ip ++ frac_str fr)).
  { apply lacks_app. split; [now destruct neg|].
    apply body_lacks; auto using digit_char_not_e. }
  unfold decimalsMatch.
  replace (sign_str neg ++ dstr ip ++ frac_str fr ++ exp_str E)
    with ((sign_str neg ++ dstr ip ++ frac_str fr)
            ++ "e"%char :: sign_char E :: dstr (digits_of_Z (Z.abs E)))
    by (rewrite exp_str_eq, <- !app_assoc; reflexivity).
  rewrite (@cut_e_app_lacks _ "e"%char _ Hbody eq_refl).
  destruct ip as [|d ip]; [congruence|].
  assert (Hd : (d < 10)%nat) by (inversion Hip; assumption).
  assert (Hstrip : strip_sign (sign_str neg ++ dstr (d :: ip) ++ frac_str fr)
                   = dstr (d :: ip) ++ frac_str fr).
  { destruct neg; [reflexivity|]. cbn [sign_str app dstr map strip_sign].
    now rewrite (digit_char_not_sign Hd). }
  rewrite Hstrip.
  rewrite (take_while_app_all _ _ _ (dstr_all_digits Hip)).
  rewrite (drop_while_app_all _ _ _ (dstr_all_digits Hip)).
  rewrite signed_digits1_exp, andb_true_r.
  unfold frac_ok in Hfr.
  destruct fr as [fp|]; cbn [frac_str frac_digits] in *.
  - cbn [take_while drop_while]. change (is_digit ".") with false. cbv iota.
    change (chr_eqb "." ".") with true. rewrite (dstr_all_digits Hfr).
    rewrite app_nil_r. cbn [dstr map Big.is_nil negb andb]. cbv iota beta.
    rewrite Z_of_str_signed.
    change (digit_char d :: map digit_char ip) with (dstr (d :: ip)).
    rewrite (indexOf_app_lacks "." _ (dstr_lacks_dot Hip)), indexOf_here.
    cbn [Z.ltb Z.compare].
    replace (Z.of_nat (length (dstr (d :: ip))) + 0 =? -1) with false
      by (symmetry; apply Z.eqb_neq; lia).
    rewrite length_app. cbn [length]. rewrite !dstr_length. do 2 f_equal.
    cbn [length]. lia.
  - cbn [take_while drop_while]. rewrite !app_nil_r.
    cbn [dstr map Big.is_nil negb andb]. cbv iota beta.
    rewrite Z_of_str_signed.
    change (digit_char d :: map digit_char ip) with (dstr (d :: ip)).
    rewrite (indexOf_lacks "." (dstr_lacks_dot Hip)). reflexivity.
Qed.

Lemma shape_decimals e d r flag :
  let '(ip, fr, ex) := shape e (d :: r) flag in
  Z.max 0 (Z.of_nat (length (frac_digits fr)) - expo_val ex)
  = Z.max 0 (Z.of_nat (length (d :: r)) - 1 - e).
Proof.
  unfold shape. set (ds := d :: r).
  assert (HL : (1 <= length ds)%nat) by (subst ds; cbn [length]; lia).
  destruct flag.
  - destruct (1 <? Z.of_nat (length ds)) eqn:E1; cbn [frac_digits expo_val length].
    + rewrite length_skipn. lia.
    + apply Z.ltb_ge in E1. lia.
  - destruct (e <? 0) eqn:E0; [apply Z.ltb_lt in E0|apply Z.ltb_ge in E0].
    { cbn [frac_digits expo_val]. rewrite length_app, repeat_length. lia. }
    destruct (e >? 0) eqn:E1; rewrite Z.gtb_ltb in E1;
      [apply Z.ltb_lt in E1|apply Z.ltb_ge in E1].
    + destruct (e + 1 >? Z.of_nat (length ds)) eqn:E2; rewrite Z.gtb_ltb in E2;
        [apply Z.ltb_lt in E2; cbn [frac_digits expo_val length]; lia
        |apply Z.ltb_ge in E2].
      destruct (e + 1 <? Z.of_nat (length ds)) eqn:E3;
        [apply Z.ltb_lt in E3|apply Z.ltb_ge in E3];
        cbn [frac_digits expo_val length]; [rewrite length_skipn|]; lia.
    + destruct (1 <? Z.of_nat (length ds)) eqn:E2;
        [apply Z.ltb_lt in E2|apply Z.ltb_ge in E2];
        cbn [frac_digits expo_val length]; [rewrite length_skipn|]; lia.
Qed.

(** X21.  For a native number, [digitsAfterDecimal] is the number of
    decimal places of its value, that is of its shortest decimal
    notation: [0] for zero and for a whole number, and the position of
    the last nonzero digit after the point otherwise.  This holds in both
    notations in which JavaScript prints a number, the plain one and the
    one with an exponent. *)
Theorem digitsAfterDecimal_number (m q : Z) :
  digitsAfterDecimal (VNum (Fin m q))
  = Ok (if m =? 0 then 0 else Z.max 0 (- Big.qexp (Big.of_Zq m q))).
Proof.
  destruct (m =? 0) eqn:Em.
  - apply Z.eqb_eq in Em. subst m. reflexivity.
  - apply Z.eqb_neq in Em.
    unfold digitsAfterDecimal at 1. cbn [String_]. fold (String_ (VStr (Num.to_string (Fin m q)))).
    fold (digitsAfterDecimal (VStr (Num.to_string (Fin m q)))).
    rewrite (to_string_toString q Em).
    pose proof (of_Zq_canon m q) as Hc. pose proof (of_Zq_nonzero q Em) as Hnz.
    set (y := Big.of_Zq m q) in *.
    destruct (canon_cases Hc) as [[Hz _]|[_ Hd]]; [congruence|].
    pose proof Hc as (Hs & Hok & _). pose proof Hd as (d & r & Ec & Hd0 & _).
    unfold Big.toString. rewrite stringify_shape, Ec.
    rewrite Ec in Hok.
    pose proof (shape_facts (Big.e y) ((Big.e y <=? Big.NE) || (Big.e y >=? Big.PE)) Hok)
      as Hfacts.
    pose proof (shape_decimals (Big.e y) d r ((Big.e y <=? Big.NE) || (Big.e y >=? Big.PE)))
      as Hdec.
    destruct (shape (Big.e y) (d :: r) ((Big.e y <=? Big.NE) || (Big.e y >=? Big.PE)))
      as [[ip fr] ex].
    destruct Hfacts as (Hip & Hfr & Hne & _).
    replace (- Big.qexp y) with (Z.of_nat (length (d :: r)) - 1 - Big.e y)
      by (unfold Big.qexp; rewrite Ec; lia).
    rewrite <- Hdec.
    destruct ex as [E|]; cbn [expo_str expo_val].
    + now apply digitsAfterDecimal_exponent.
    + rewrite app_nil_r, (digitsAfterDecimal_fixed _ Hip Hne Hfr). f_equal.
      destruct fr as [fp|]; cbn [frac_digits length]; lia.
Qed.

(** ** Zero results and the order of the checks *)

Lemma toSigfig_zero_string Z sf n :
  canon Z -> Big.nonzero Z = false -> validateSigfigs sf = Ok n ->
  toSigfig (VStr (Big.toString Z)) sf = Ok "0".
Proof.
  intros Hc Hz Hv. rewrite (toSigfig_toString _ Hc). unfold rounded.
  rewrite Hv, Hz. reflexivity.
Qed.

Lemma canon_zero_mant x : canon x -> Big.nonzero x = false -> Big.mant x = 0.
Proof.
  intros Hc Hz. destruct (canon_cases Hc) as [(_ & Hc0 & _)|[H _]]; [|congruence].
  now apply zero_mant.
Qed.

(** X22.  A result that is zero is printed as the bare string ["0"],
    whatever count of significant figures was asked for: the difference
    of a value and itself, the remainder of a nonzero value by itself,
    and, for a zero argument, [toSigfig], [round], [truncate], [abs], the
    product with anything and the quotient by anything nonzero. *)
Theorem zero_result_ignores_count (a b : value) (x y : Big.t) (sf : number) (n : Z) :
  new_Big a = Ok x -> new_Big b = Ok y -> validateSigfigs sf = Ok n ->
  sub a a (Some sf) = Ok "0" /\
  (Big.nonzero x = true -> mod_ a a (Some sf) = Ok "0") /\
  (Big.nonzero x = false ->
   toSigfig a sf = Ok "0" /\ round a sf None = Ok "0" /\ truncate a sf = Ok "0" /\
   abs a (Some sf) = Ok "0" /\ mul a b (Some sf) = Ok "0" /\
   (Big.nonzero y = true -> div a b (Some sf) = Ok "0")).
Proof.
  intros Hx Hy Hv.
  pose proof (new_Big_canon _ Hx) as Hcx. pose proof (new_Big_canon _ Hy) as Hcy.
  assert (Hvo : validate_opt (Some sf) = Ok tt)
    by (unfold validate_opt; now rewrite Hv).
  assert (Hzero : forall q, Big.of_Zq 0 q = Big.zero) by reflexivity.
  assert (Hz0 : toSigfig (VStr (Big.toString Big.zero)) sf = Ok "0").
  { apply toSigfig_zero_string with (n := n); [|reflexivity|exact Hv].
    split; [now left|]. split; [repeat constructor; lia|now left]. }
  split; [|split].
  - unfold sub. rewrite Hvo. cbn [bind]. rewrite Hx. cbn [bind].
    unfold Big.minus. rewrite Z.sub_diag, Hzero, Hz0. reflexivity.
  - intros Hnz. unfold mod_. rewrite Hvo. cbn [bind]. rewrite Hx. cbn [bind].
    rewrite (eq_zero_canon Hcx), Hnz. cbn [negb]. unfold Big.mod_. rewrite Hnz.
    cbn [negb bind].
    rewrite Z.rem_same, Hzero, Hz0; [reflexivity|].
    rewrite Z.min_id, Z.sub_diag. change (10 ^ 0) with 1. rewrite Z.mul_1_r.
    now apply mant_nonzero.
  - intros Hz. repeat split.
    + unfold toSigfig. rewrite Hv, Hx. cbn [bind].
      now rewrite (eq_zero_canon Hcx), Hz.
    + unfold round. rewrite Hv, Hx. cbn [bind].
      replace (Num.to_int (Num.of_Z 5)) with (Some 5) by reflexivity.
      cbn [Z.ltb Z.gtb Z.compare orb bind].
      now rewrite (eq_zero_canon Hcx), Hz.
    + unfold truncate. rewrite Hv, Hx. cbn [bind].
      now rewrite (eq_zero_canon Hcx), Hz.
    + unfold abs. rewrite Hvo. cbn [bind]. rewrite Hx. cbn [bind].
      rewrite (@toSigfig_zero_string (Big.abs x) sf n (abs_canon Hcx) Hz Hv).
      reflexivity.
    + unfold mul. rewrite Hvo. cbn [bind]. rewrite Hx, Hy. cbn [bind].
      unfold Big.times. rewrite (canon_zero_mant Hcx Hz), Z.mul_0_l, Hzero, Hz0.
      reflexivity.
    + intros Hnzy. unfold div. rewrite Hvo. cbn [bind]. rewrite Hx, Hy. cbn [bind].
      rewrite (eq_zero_canon Hcy), Hnzy. cbn [negb]. unfold Big.div.
      rewrite Hnzy, Hz. cbn [negb bind]. rewrite Hz0. reflexivity.
Qed.

Lemma zero_result_ignores_count_witness :
  sub (VStr "2.50") (VStr "2.50") (Some (Num.of_Z 3)) = Ok "0" /\
  mod_ (VStr "2.50") (VStr "2.50") (Some (Num.of_Z 3)) = Ok "0".
Proof.
  destruct (@zero_result_ignores_count (VStr "2.50") (VStr "2.50")
              (Big.mk 1 0 [2; 5]%nat) (Big.mk 1 0 [2; 5]%nat) (Num.of_Z 3) 3
              eq_refl eq_refl eq_refl) as (H1 & H2 & _).
  split; [exact H1|exact (H2 eq_refl)].
Defined.

(** X23.  The order of the checks in [toSigfig], [round] and [truncate].
    The count of significant figures is checked first; then the value is
    handed to the decimal library, whose own error for a value it cannot
    read reaches the caller as it is; and [round] checks its threshold
    only after that, but before it looks whether the value is zero. *)
Theorem rounding_checks_in_order (v : value) (sf : number) (t : option number) :
  (forall e, validateSigfigs sf = Throw e ->
   toSigfig v sf = Throw ERR_SIGFIGS /\ round v sf t = Throw ERR_SIGFIGS /\
   truncate v sf = Throw ERR_SIGFIGS) /\
  (forall n e, validateSigfigs sf = Ok n -> new_Big v = Throw e ->
   toSigfig v sf = Throw Big.INVALID_NUMBER /\
   round v sf t = Throw Big.INVALID_NUMBER /\
   truncate v sf = Throw Big.INVALID_NUMBER) /\
  (forall n x t', validateSigfigs sf = Ok n -> new_Big v = Ok x -> t = Some t' ->
   (forall k, Num.to_int t' = Some k -> k < 0 \/ 9 < k) ->
   round v sf t = Throw ERR_THRESHOLD).
Proof.
  split; [|split].
  - intros e Hv. apply validateSigfigs_error in Hv as He. subst e.
    unfold toSigfig, round, truncate. rewrite Hv. repeat split; reflexivity.
  - intros n e Hv Hx. apply new_Big_error in Hx as He. subst e.
    unfold toSigfig, round, truncate. rewrite Hv, Hx. repeat split; reflexivity.
  - intros n x t' Hv Hx -> Ht. unfold round. rewrite Hv, Hx. cbn [bind].
    destruct (Num.to_int t') as [k|]; [|reflexivity].
    destruct (Ht k eq_refl) as [Hk|Hk].
    + now replace (k <? 0) with true by (symmetry; apply Z.ltb_lt; lia).
    + replace (k >? 9) with true by (symmetry; rewrite Z.gtb_ltb; apply Z.ltb_lt; lia).
      now rewrite orb_true_r.
Qed.

Lemma rounding_checks_in_order_witness :
  round (VStr "abc") (Num.of_Z 0) (Some (Num.of_Z 12)) = Throw ERR_SIGFIGS /\
  round (VStr "abc") (Num.of_Z 3) (Some (Num.of_Z 12)) = Throw Big.INVALID_NUMBER /\
  round (lit "0") (Num.of_Z 3) (Some (Num.of_Z 12)) = Throw ERR_THRESHOLD.
Proof.
  destruct (rounding_checks_in_order (VStr "abc") (Num.of_Z 0) (Some (Num.of_Z 12)))
    as (H1 & _).
  destruct (rounding_checks_in_order (VStr "abc") (Num.of_Z 3) (Some (Num.of_Z 12)))
    as (_ & H2 & _).
  destruct (rounding_checks_in_order (lit "0") (Num.of_Z 3) (Some (Num.of_Z 12)))
    as (_ & _ & H3).
  destruct (H1 ERR_SIGFIGS eq_refl) as (_ & Hr1 & _).
  destruct (H2 3 Big.INVALID_NUMBER eq_refl eq_refl) as (_ & Hr2 & _).
  split; [exact Hr1|]. split; [exact Hr2|].
  apply (H3 3 Big.zero (Num.of_Z 12) eq_refl eq_refl eq_refl).
  intros k Hk. vm_compute in Hk. injection Hk as <-. right. lia.
Defined.

(** ** Truncating twice *)

Lemma top_digits_lower x n :
  canon x -> Big.nonzero x = true -> 1 <= n -> 10 ^ (n - 1) <= top_digits x n < 10 ^ n.
Proof.
  intros Hc Hnz Hn.
  destruct (canon_cases Hc) as [[Hz _]|[_ Hd]]; [congruence|].
  pose proof Hc as (_ & Hok & _).
  destruct (nonzero_digits_facts Hok Hd) as ([Hlo Hhi] & _ & HL).
  destruct (top_digits_floor Hc Hnz Hn) as [Htop _]. cbn zeta in Htop.
  set (M := Z_of_digits (Big.c x)) in *. set (L := Z.of_nat (length (Big.c x))) in *.
  rewrite <- Htop.
  destruct (Z_lt_le_dec (n - L) 0) as [Hlt|Hge]; settle_cmp.
  - assert (Hp : 0 < 10 ^ (- (n - L))) by (apply Z.pow_pos_nonneg; lia).
    split.
    + apply Z.div_le_lower_bound; [exact Hp|].
      rewrite <- Z.pow_add_r by lia. replace (- (n - L) + (n - 1)) with (L - 1) by lia.
      exact Hlo.
    + apply Z.div_lt_upper_bound; [exact Hp|].
      rewrite <- Z.pow_add_r by lia. replace (- (n - L) + n) with L by lia. exact Hhi.
  - assert (Hp : 0 < 10 ^ (n - L)) by (apply Z.pow_pos_nonneg; lia).
    assert (E1 : 10 ^ (n - 1) = 10 ^ (L - 1) * 10 ^ (n - L))
      by (rewrite <- Z.pow_add_r by lia; f_equal; lia).
    assert (E2 : 10 ^ n = 10 ^ L * 10 ^ (n - L))
      by (rewrite <- Z.pow_add_r by lia; f_equal; lia).
    rewrite E1, E2. split; [apply Z.mul_le_mono_nonneg_r; lia|].
    apply Z.mul_lt_mono_pos_r; lia.
Qed.

Lemma of_Zq_exponent m q n :
  1 <= n -> 10 ^ (n - 1) <= Z.abs m < 10 ^ n -> Big.e (Big.of_Zq m q) = q + n - 1.
Proof.
  intros Hn [Hlo Hhi].
  assert (Hp : 0 < 10 ^ (n - 1)) by (apply Z.pow_pos_nonneg; lia).
  unfold Big.of_Zq. replace (m =? 0) with false by (symmetry; apply Z.eqb_neq; lia).
  cbn [Big.e]. assert (Ha : 0 < Z.abs m) by lia.
  destruct (digits_of_Z_bounds Ha) as [[Hl Hh] H1].
  set (L := Z.of_nat (length (digits_of_Z (Z.abs m)))) in *.
  assert (L - 1 < n) by (apply (Z.pow_lt_mono_r_iff 10); lia).
  assert (n - 1 < L) by (apply (Z.pow_lt_mono_r_iff 10); lia).
  lia.
Qed.

(** X24.  [truncate] is idempotent: in the range where it returns (a
    parseable nonzero value of at most ten digits and magnitude within
    [10^-300, 10^300], a valid count of at most 300 and a cut position
    within twenty places of the decimal point), truncating
    its result again with the same count gives the same string. *)
Theorem truncate_idempotent (v : value) (sigfigs : number) (x : Big.t) (n : Z) :
  new_Big v = Ok x -> Big.nonzero x = true ->
  validateSigfigs sigfigs = Ok n -> n <= 300 ->
  (length (Big.c x) <= 10)%nat -> -300 <= Big.e x <= 300 ->
  - Big.DP <= Big.e x - n + 1 <= Big.DP ->
  exists r, truncate v sigfigs = Ok r /\ truncate (VStr r) sigfigs = Ok r.
Proof.
  intros Hx Hnz Hv Hn300 _ _ Hrange.
  assert (Hmax : n <= Big.MAX_DP) by (unfold Big.MAX_DP; lia).
  pose proof (new_Big_canon _ Hx) as Hc.
  destruct (@validated_positive _ _ Hv) as [Hn _].
  rewrite (@truncate_procedure v sigfigs x n Hx Hnz Hv Hrange).
  destruct (@top_digits_lower x n Hc Hnz Hn) as [Hlo Hhi].
  assert (Hp : 0 < 10 ^ (n - 1)) by (apply Z.pow_pos_nonneg; lia).
  set (T := top_digits x n) in *.
  assert (Habs : Z.abs (Big.s x * T) = T)
    by (destruct Hc as ([-> | ->] & _); lia).
  set (P := Big.of_Zq (Big.s x * T) (Big.e x - n + 1)).
  assert (HcP : canon P) by apply of_Zq_canon.
  assert (HnzP : Big.nonzero P = true) by (apply of_Zq_nonzero; lia).
  assert (HlP : Z.of_nat (length (Big.c P)) <= n)
    by (apply of_Zq_length; [lia|rewrite Habs; exact Hhi|lia]).
  assert (HeP : Big.e P = Big.e x).
  { unfold P. rewrite (@of_Zq_exponent _ _ n Hn); [lia|]. rewrite Habs. lia. }
  destruct (@toPrecision_parse P n HcP HnzP (conj Hn Hmax)) as (r & Hr & Hp').
  rewrite round_short in Hp' by assumption.
  exists r. split; [exact Hr|].
  assert (HxP : new_Big (VStr r) = Ok P) by exact Hp'.
  assert (HrP : - Big.DP <= Big.e P - n + 1 <= Big.DP) by (rewrite HeP; exact Hrange).
  rewrite (@truncate_procedure (VStr r) sigfigs P n HxP HnzP Hv HrP).
  destruct (@top_digits_quot P n HcP HnzP Hn) as [Heq _]. rewrite Heq.
  replace (Z.max 0 (Z.of_nat (length (Big.c P)) - n)) with 0 by lia.
  change (10 ^ 0) with 1. rewrite Z.quot_1_r, Z.add_0_r.
  now rewrite (of_Zq_mant_qexp HcP HnzP).
Qed.

Lemma truncate_idempotent_witness :
  exists r,
    truncate (VStr "0.0012345") (Num.of_Z 2) = Ok r /\
    truncate (VStr r) (Num.of_Z 2) = Ok r.
Proof.
  apply (@truncate_idempotent (VStr "0.0012345") (Num.of_Z 2)
           (Big.mk 1 (-3) [1; 2; 3; 4; 5]%nat) 2 eq_refl eq_refl eq_refl
           ltac:(lia) ltac:(cbn; lia) ltac:(cbn; lia)
           ltac:(vm_compute; split; discriminate)).
Defined.

(** ** Remainders *)

(** X25.  [mod] returns the remainder of the division that truncates
    towards zero, the one of JavaScript's [%]: with the two operands
    brought to a common exponent [q], the remainder of their digit
    values, which has the sign of the dividend and is smaller in
    magnitude than the divisor; that remainder, when it is not zero, is
    rounded half up to the count of significant digits, the explicit one
    or else the lesser [sigfigOf] count of the operands.  (Stated for
    operands whose exponents are within [MAX_EXPONENT].) *)
Theorem mod_remainder (a b : value) (toSigfigParam : option number)
    (x y : Big.t) (cnt : Z) :
  new_Big a = Ok x -> new_Big b = Ok y -> Big.nonzero y = true ->
  exponent_ok x -> exponent_ok y ->
  let q := Z.min (Big.qexp x) (Big.qexp y) in
  let R := Z.rem (scaled x q) (scaled y q) in
  R <> 0 ->
  validateSigfigs (binary_sigfigs a b toSigfigParam) = Ok cnt ->
  cnt <= Big.MAX_DP ->
  (exists r, mod_ a b toSigfigParam = Ok r /\ rounded_to (Big.of_Zq R q) cnt r) /\
  Z.abs R < Z.abs (scaled y q) /\ 0 <= R * scaled x q /\
  scaled x q = scaled y q * Z.quot (scaled x q) (scaled y q) + R.
Proof.
  intros Hx Hy Hnzy _ _ q R HR Hv Hmax.
  pose proof (new_Big_canon _ Hy) as Hcy.
  assert (HY : scaled y q <> 0).
  { unfold scaled. pose proof (mant_nonzero Hcy Hnzy).
    assert (0 < 10 ^ (Big.qexp y - q)) by (apply Z.pow_pos_nonneg; lia). nia. }
  split; [|split; [|split]].
  - destruct (@toSigfig_rounded_to (Big.of_Zq R q) _ cnt (of_Zq_canon R q)
                (of_Zq_nonzero q HR) Hv Hmax) as (r & Hr & Hrt).
    exists r. split; [|exact Hrt].
    unfold mod_. rewrite (validate_opt_of_count _ _ _ Hv). cbn [bind].
    rewrite Hx, Hy. cbn [bind]. rewrite (eq_zero_canon Hcy), Hnzy. cbn [negb].
    unfold Big.mod_. rewrite Hnzy. cbn [negb bind]. fold q.
    change (Big.mant x * 10 ^ (Big.qexp x - q)) with (scaled x q).
    change (Big.mant y * 10 ^ (Big.qexp y - q)) with (scaled y q). fold R.
    destruct toSigfigParam as [sf|]; cbn [binary_sigfigs] in Hr;
      rewrite ?pair_sigfigs, Hr; reflexivity.
  - apply Z.rem_bound_abs. exact HY.
  - apply Z.rem_sign_mul. exact HY.
  - apply Z.quot_rem'.
Qed.

Lemma mod_remainder_witness :
  exists r,
    mod_ (lit "-7.5") (lit "2") (Some (Num.of_Z 2)) = Ok r /\
    new_Big (VStr r) = Ok (Big.of_Zq (-15) (-1)).
Proof.
  destruct (@mod_remainder (lit "-7.5") (lit "2") (Some (Num.of_Z 2))
              (Big.mk (-1) 0 [7; 5]%nat) (Big.mk 1 0 [2%nat]) 2
              eq_refl eq_refl eq_refl ltac:(vm_compute; discriminate)
              ltac:(vm_compute; discriminate) ltac:(vm_compute; discriminate) eq_refl
              ltac:(vm_compute; discriminate)) as [(r & Hr & [Hback _]) _].
  exists r. split; [exact Hr|]. rewrite Hback. vm_compute. reflexivity.
Defined.


(** * The reducers: selection, then rounding *)

(** The count at which [max] and [min] round: the explicit one, or the
    least [sigfigOf] over the surviving original values. *)
Definition resolved_count (sigfigs : option number) (pairs : list pair) (n : Z)
  : Prop :=
  match sigfigs with
  | Some sf => validateSigfigs sf = Ok n
  | None =>
      In n (map (fun p => sigfigOf (original p)) pairs) /\
      forall p, In p pairs -> n <= sigfigOf (original p)
  end.

(** What is returned for the selected value [z] at the count [n]: the bare
    ["0"] for zero; otherwise [z] rounded half up to [n] significant
    digits, or, for a count above the largest precision of the decimal
    library, the precision error of the library itself. *)
Definition selected_then_rounded (z : Big.t) (n : Z) (result : res str) : Prop :=
  if Big.nonzero z then
    if n <=? Big.MAX_DP then exists r, result = Ok r /\ rounded_to z n r
    else result = Throw Big.INVALID_PRECISION
  else result = Ok "0".

Lemma toSigfig_selected z prec n :
  canon z -> validateSigfigs prec = Ok n ->
  selected_then_rounded z n (toSigfig (VStr (Big.toString z)) prec).
Proof.
  intros Hc Hv. unfold selected_then_rounded.
  destruct (Big.nonzero z) eqn:Hnz.
  - destruct (n <=? Big.MAX_DP) eqn:Hn.
    + apply Z.leb_le in Hn. now apply toSigfig_rounded_to.
    + apply Z.leb_gt in Hn. rewrite (toSigfig_toString _ Hc). unfold rounded.
      rewrite Hv, Hnz. cbn [bind]. unfold Big.toPrecision.
      replace (n >? Big.MAX_DP) with true by (symmetry; apply Z.gtb_lt; lia).
      now rewrite orb_true_r.
  - now apply toSigfig_zero_string with (n := n).
Qed.

Lemma resolved_precision_count sigfigs pairs prec :
  validate_opt sigfigs = Ok tt -> resolved_precision sigfigs pairs prec ->
  exists n, validateSigfigs prec = Ok n /\ resolved_count sigfigs pairs n.
Proof.
  unfold validate_opt, resolved_precision, resolved_count.
  destruct sigfigs as [sf|].
  - intros Hv ->. destruct (validateSigfigs sf) as [n|e] eqn:E; [|discriminate].
    now exists n.
  - intros _ (k & -> & Hin & Hle). exists k. split; [|now split].
    apply validateSigfigs_of_Z. apply in_map_iff in Hin as (p & <- & _).
    apply sigfigOf_pos.
Qed.

(** C6 (as the code has it).  [max] and [min] reject an input that is not
    a list; skip [null], [undefined] and every element that the decimal
    parser rejects (such as [NaN], the infinities and unparsable
    strings); raise the no-valid-input error when nothing survives;
    otherwise, the exponents of the surviving values being within
    [MAX_EXPONENT], they select the extremum of the surviving values by
    the exact order of their unrounded decimal values, and only then
    round that one value half up, at the explicit count or by default at
    the least [sigfigOf] over the surviving original values: the result
    reads back as the selected value rounded to the nearest number with
    that many digits.  A selected zero is returned as ["0"], and a count
    above the largest precision of the decimal library raises the error
    of the library. *)
Theorem max_min_select_then_round (values : list element) (sigfigs : option number) :
  validate_opt sigfigs = Ok tt ->
  (forall p, In p (validPairs values) -> exponent_ok (big p)) ->
  (max NotArr sigfigs = Throw ERR_NOT_ARRAY /\
   min NotArr sigfigs = Throw ERR_NOT_ARRAY) /\
  (forall p, In p (validPairs values) <->
             In (Val (original p)) values /\ new_Big (original p) = Ok (big p)) /\
  (validPairs values = [] ->
   max (Arr values) sigfigs = Throw ERR_NO_VALID /\
   min (Arr values) sigfigs = Throw ERR_NO_VALID) /\
  (validPairs values <> [] ->
   exists hi lo n,
     In hi (map big (validPairs values)) /\
     (forall p, In p (validPairs values) -> value_le (big p) hi) /\
     In lo (map big (validPairs values)) /\
     (forall p, In p (validPairs values) -> value_le lo (big p)) /\
     resolved_count sigfigs (validPairs values) n /\
     selected_then_rounded hi n (max (Arr values) sigfigs) /\
     selected_then_rounded lo n (min (Arr values) sigfigs)).
Proof.
  intros Hv _.
  destruct (@max_min_selection values sigfigs Hv) as (H1 & H2 & H3 & H4).
  split; [exact H1|]. split; [exact H2|]. split; [exact H3|].
  intros Hne.
  destruct (H4 Hne) as (hi & lo & prec & Hhi & Hle & Hlo & Hge & Hprec & Hchi & Hclo
                        & Hmax & Hmin).
  destruct (@resolved_precision_count _ _ _ Hv Hprec) as (n & Hn & Hcount).
  exists hi, lo, n. rewrite Hmax, Hmin.
  repeat (split; [assumption|]).
  split; now apply toSigfig_selected.
Qed.

Lemma max_min_select_then_round_witness :
  let l := [Val (lit "1"); Val (VStr "invalid"); Val (lit "3")] in
  max (Arr l) None = Ok "3" /\
  (exists hi lo n,
     (forall p, In p (validPairs l) -> value_le (big p) hi) /\
     (forall p, In p (validPairs l) -> value_le lo (big p)) /\
     selected_then_rounded hi n (max (Arr l) None) /\
     selected_then_rounded lo n (min (Arr l) None)) /\
  max (Arr []) None = Throw ERR_NO_VALID /\
  max (Arr [Null; Undefined; Val (VNum NaN); Val (VNum (Inf false))]) None
  = Throw ERR_NO_VALID.
Proof.
  intros l.
  assert (Hexp : forall p, In p (validPairs l) -> exponent_ok (big p)).
  { intros p Hp. cbv in Hp. destruct Hp as [<-|[<-|[]]]; vm_compute; discriminate. }
  destruct (@max_min_select_then_round l None eq_refl Hexp) as (_ & _ & _ & H).
  destruct (@max_min_select_then_round [] None eq_refl ltac:(intros p []))
    as (_ & _ & H0 & _).
  destruct (@max_min_select_then_round
              [Null; Undefined; Val (VNum NaN); Val (VNum (Inf false))] None eq_refl
              ltac:(intros p [])) as (_ & _ & H1 & _).
  destruct (H ltac:(vm_compute; discriminate))
    as (hi & lo & n & _ & Hle & _ & Hge & _ & Hmax & Hmin).
  split; [reflexivity|]. split.
  - exists hi, lo, n. repeat split; assumption.
  - split; [exact (proj1 (H0 eq_refl))|exact (proj1 (H1 eq_refl))].
Defined.

(** C6 (refuted as stated).  A count above the largest precision of the
    decimal library is not a count at which the selected value is
    rounded: [max] and [min] raise the precision error of the library.
    And the value ["1e1000000000000000000000"] is parseable, with the
    exponent [10^21], which the library prints as ["1e+21"]: the text
    ["1e+1e+21"] that is handed to [toSigfig] for it is rejected by the
    parser, so that no rounded value is returned. *)
Lemma max_beyond_limits :
  max (Arr [Val (lit "1"); Val (lit "3")]) (Some (Num.of_Z 1000001))
  = Throw Big.INVALID_PRECISION /\
  min (Arr [Val (lit "1"); Val (lit "3")]) (Some (Num.of_Z 1000001))
  = Throw Big.INVALID_PRECISION /\
  new_Big (VStr "1e1000000000000000000000") = Ok (Big.mk 1 (10 ^ 21) [1%nat]) /\
  Num.to_string (Num.of_Z (10 ^ 21)) = "1e+21" /\
  toSigfig (VStr "1e+1e+21") (Num.of_Z 1) = Throw Big.INVALID_NUMBER.
Proof. repeat split; vm_compute; reflexivity. Qed.
